(** * epstein_map: the PDF de-duplication and entity pipeline

  A shallow embedding of [tools/utilities.py], [tools/extractPDFdata.py]
  and [build.py], and the properties of them that the design document
  states, followed by further properties of the same code.

  Conventions of the embedding.
  - A Python [str] is the list of its Unicode code points ([char := N]).
  - A Python [int] is a [Z].
  - A Python [float] is modelled by a rational ([Q]): the number that its
    literal or its computation denotes. The scores of the code are
    quotients of two integers and its thresholds are short decimals,
    and they are compared as such. Where the code rounds a float, or adds
    and divides weights, the rational goes through [Py.binary64], the
    float that holds it, as the numbers of Python do. [FloatChecks]
    evaluates the boundary cases with the floats of the machine.
  - A Python [dict] whose iteration order is observed is an association
    list in insertion order; a [set] used only for membership is a list.
  - Code that can raise returns a [result], with the exception.
  - A value read from a JSON file is a [People.json], and an object the
    list of its items; the functions of [build.py] that merge by id take
    lists of objects, whose ids are any values. *)

From Stdlib Require Import String Ascii.
From Stdlib Require Import List ZArith NArith QArith Qround Qabs Qpower Bool Lia Lqa.
From Stdlib Require Import Floats Uint63.
From Stdlib Require Import Permutation.
From Stdlib Require Decimal DecimalString DecimalPos DecimalZ.
Import ListNotations.
Local Open Scope Z_scope.

Set Implicit Arguments.

(* ================================================================== *)
(** * Python values *)

Module Py.

Definition char := N.
Definition str := list char.

(** A literal: the code points of an ASCII string. *)
Fixpoint of_string (s : string) : str :=
  match s with
  | EmptyString => []
  | String c r => N_of_ascii c :: of_string r
  end.

Local Open Scope N_scope.

Definition SP : char := 32.
Definition NL : char := 10.
Definition DOT : char := 46.

Definition in_range (lo hi c : char) : bool := (N.leb lo c && N.leb c hi)%bool.

(** [str.isspace] on one code point, which is also what [\s] matches in a
    [str] pattern: the ASCII white space 0x09-0x0D, 0x1C-0x20 and the
    Unicode white space beyond it. *)
Definition isspace (c : char) : bool :=
  (in_range 9 13 c || in_range 28 32 c || N.eqb c 133 || N.eqb c 160
   || N.eqb c 5760 || in_range 8192 8202 c || N.eqb c 8232 || N.eqb c 8233
   || N.eqb c 8239 || N.eqb c 8287 || N.eqb c 12288)%bool.

(** The classes [[a-z]] and [[A-Z]] of a pattern. *)
Definition is_lower (c : char) : bool := in_range 97 122 c.
Definition is_upper (c : char) : bool := in_range 65 90 c.

Local Close Scope N_scope.

Fixpoint str_eqb (a b : str) : bool :=
  match a, b with
  | [], [] => true
  | x :: a', y :: b' => (N.eqb x y && str_eqb a' b')%bool
  | _, _ => false
  end.

(** [s.lstrip()], [s.rstrip()] and [s.strip()] without argument. *)
Fixpoint lstrip (t : str) : str :=
  match t with
  | [] => []
  | c :: r => if isspace c then lstrip r else t
  end.

Fixpoint rstrip (t : str) : str :=
  match t with
  | [] => []
  | c :: r =>
      match rstrip r with
      | [] => if isspace c then [] else [c]
      | r' => c :: r'
      end
  end.

Definition strip (t : str) : str := rstrip (lstrip t).

(** [s.split()] without argument: the maximal runs of characters that are
    not white space. [cur] is the word being read, reversed. *)
Fixpoint split_aux (cur : str) (t : str) : list str :=
  match t with
  | [] => match cur with [] => [] | _ => [rev cur] end
  | c :: r =>
      if isspace c
      then match cur with
           | [] => split_aux [] r
           | _ => rev cur :: split_aux [] r
           end
      else split_aux (c :: cur) r
  end.

Definition split (t : str) : list str := split_aux [] t.

(** [sep.join(parts)]. *)
Fixpoint join (sep : str) (parts : list str) : str :=
  match parts with
  | [] => []
  | [p] => p
  | p :: rest => p ++ sep ++ join sep rest
  end.

(** The whole number closest to [x], the even one of two that are equally
    close. *)
Definition round_half_even (x : Q) : Z :=
  let f := Qfloor x in
  let d := (x - inject_Z f)%Q in
  match Qcompare d (1 # 2) with
  | Lt => f
  | Gt => f + 1
  | Eq => if Z.even f then f else f + 1
  end.

(** [max(x, y)] of two numbers: [y] when [y > x], else [x]. *)
Definition Qltb (x y : Q) : bool := negb (Qle_bool y x).
Definition max (x y : Q) : Q := if Qltb x y then y else x.

(** [floor(log2(a))] for a positive [a]. *)
Definition ilog2 (a : Q) : Z :=
  let e := Z.log2 (Qnum a) - Z.log2 (Zpos (Qden a)) in
  if Qltb a (2 ^ e)%Q then e - 1 else e.

(** The float that holds the number [x]: the binary64 value closest to
    [x], the one with the even significand of two that are equally close.
    A significand has 53 bits, and fewer below [2 ** -1022]; [x] is
    within the range of the finite floats. The result of a division, of
    an addition or of reading a decimal literal is the float that holds
    the exact result. *)
Definition binary64 (x : Q) : Q :=
  if Qeq_bool x 0 then 0%Q
  else
    let a := Qabs x in
    let ulp := (2 ^ Z.max (ilog2 a - 52) (-1074))%Q in
    (inject_Z (Z.sgn (Qnum x) * round_half_even (a / ulp)) * ulp)%Q.

(** [round(x, ndigits)] of a float: the decimal with [ndigits] digits
    after the point that is closest to the value of the float that holds
    [x], the one with the even last digit of two that are equally close.
    The result is the float that this decimal denotes, and is printed as
    this decimal. *)
Definition round (x : Q) (ndigits : nat) : Q :=
  let scale := Z.pow 10 (Z.of_nat ndigits) in
  Qmake (round_half_even (binary64 x * inject_Z scale)) (Z.to_pos scale).

(** [s[i]] for an index that the caller keeps within [0 <= i < len(s)]. *)
Definition getitem (s : str) (i : Z) : char := nth (Z.to_nat i) s 0%N.

Definition len {A : Type} (l : list A) : Z := Z.of_nat (length l).

(** [enumerate(xs)], counting from [i]. *)
Fixpoint enumerate_from {A : Type} (i : nat) (xs : list A) : list (nat * A) :=
  match xs with
  | [] => []
  | x :: r => (i, x) :: enumerate_from (S i) r
  end.

Definition enumerate {A : Type} (xs : list A) : list (nat * A) := enumerate_from 0 xs.

(** Exceptions, by class name. *)
Inductive exn : Type :=
| OSError
| IndexError
| ValueError.

Inductive result (A : Type) : Type :=
| Ok (a : A)
| Raise (e : exn).
Arguments Ok {A} a.
Arguments Raise {A} e.

Definition bind {A B : Type} (m : result A) (k : A -> result B) : result B :=
  match m with
  | Ok a => k a
  | Raise e => Raise e
  end.

(** A [for] loop whose body may raise: the first exception ends it. *)
Fixpoint for_each {A S : Type} (body : S -> A -> result S) (xs : list A) (s : S)
  : result S :=
  match xs with
  | [] => Ok s
  | x :: r => bind (body s x) (for_each body r)
  end.

Definition str_eq_dec : forall a b : str, {a = b} + {a <> b} :=
  list_eq_dec N.eq_dec.

(** [p in l] for a list or a set of strings. *)
Definition mem (p : str) (l : list str) : bool :=
  if in_dec str_eq_dec p l then true else false.

(** What the run reads from outside the repository: the file system, the
    PDF reader (PyPDF2) and the MinHash library (datasketch). *)
Record world : Type := {
  (** [p.stat().st_size]; [None] when [stat] raises. *)
  stat_size : str -> option Z;
  (** [p.name]. *)
  path_name : str -> str;
  (** The bytes that [path.open("rb")] reads; [None] when [open] raises. *)
  open_rb : str -> option (list N);
  (** [hashlib.sha256] of the bytes, as [hexdigest()]. *)
  sha256_hexdigest : list N -> str;
  (** [len(PdfReader(str(path)).pages)]; [None] when it raises or when
      [PdfReader] is [None]. *)
  pdf_num_pages : str -> option Z;
  (** The text PyPDF2 extracts, pages joined by newlines; the empty string
      when [PdfReader] is [None] or anything raises. *)
  pdf_extract_text : str -> str;
  (** [MinHash(num_perm)] after [update] with the UTF-8 encoding of each
      string in turn: its [hashvalues]. It raises when the constructor
      refuses [num_perm] ([ValueError]) or when a string has no UTF-8
      encoding. *)
  minhash_hashvalues : Z -> list str -> result (list Z);
  (** The constructor [MinHashLSH(threshold, num_perm)]: it raises
      [ValueError] for a threshold outside [0, 1], for fewer than two
      permutations, and when the permutations leave fewer than two bands
      for the threshold. *)
  minhash_lsh : Q -> Z -> result unit;
  (** [MinHashLSH(threshold, num_perm)] holding the given keys and
      signatures: the keys [query] returns for a signature. *)
  lsh_query : Q -> Z -> list (str * list Z) -> list Z -> list str
}.

End Py.

Notation "x <- m ;; k" := (Py.bind m (fun x => k))
(at level 61, m at next level, right associativity).

(* ================================================================== *)
(** * difflib.SequenceMatcher

    The standard library's matcher as [utilities.py] calls it:
    [SequenceMatcher(None, a, b)], so [isjunk] is [None], the junk set is
    empty and [autojunk] is on. *)

Module Difflib.
Import Py.

(** The named tuple [Match(a, b, size)]. *)
Record Match : Type := mkMatch { m_a : Z; m_b : Z; m_size : Z }.

(** [b2j]: for each element of [b], the increasing list of its indices. *)
Definition b2j_t := list (char * list Z).

Fixpoint b2j_get (d : b2j_t) (x : char) : list Z :=
  match d with
  | [] => []
  | (y, js) :: r => if N.eqb x y then js else b2j_get r x
  end.

(** [b2j.setdefault(elt, []).append(i)]. *)
Fixpoint b2j_append (d : b2j_t) (elt : char) (i : Z) : b2j_t :=
  match d with
  | [] => [(elt, [i])]
  | (y, js) :: r =>
      if N.eqb elt y then (y, js ++ [i]) :: r else (y, js) :: b2j_append r elt i
  end.

Fixpoint chain_loop (b : str) (i : Z) (d : b2j_t) : b2j_t :=
  match b with
  | [] => d
  | elt :: r => chain_loop r (i + 1) (b2j_append d elt i)
  end.

(** [__chain_b]: index [b]; no element is junk; when [b] has 200 elements or
    more, an element that occurs more than [n // 100 + 1] times is popular
    and leaves the index. *)
Definition chain_b (b : str) : b2j_t :=
  let d := chain_loop b 0 [] in
  let n := len b in
  if 200 <=? n
  then let ntest := n / 100 + 1 in
       filter (fun e => negb (ntest <? len (snd e))) d
  else d.

(** [self.bjunk.__contains__] for the empty junk set. *)
Definition isbjunk (c : char) : bool := false.

Definition j2len_t := list (Z * Z).

(** [j2len.get(j, 0)]. *)
Fixpoint j2len_get (d : j2len_t) (j : Z) : Z :=
  match d with
  | [] => 0
  | (j', k) :: r => if j =? j' then k else j2len_get r j
  end.

(** The loop [for j in b2j.get(a[i], nothing)] of [find_longest_match]. *)
Fixpoint row_loop (js : list Z) (i blo bhi : Z) (j2len newj2len : j2len_t)
  (best : Match) : j2len_t * Match :=
  match js with
  | [] => (newj2len, best)
  | j :: r =>
      if j <? blo then row_loop r i blo bhi j2len newj2len best
      else if bhi <=? j then (newj2len, best)
      else
        let k := j2len_get j2len (j - 1) + 1 in
        let newj2len := (j, k) :: newj2len in
        let best := if m_size best <? k
                    then mkMatch (i - k + 1) (j - k + 1) k else best in
        row_loop r i blo bhi j2len newj2len best
  end.

(** The loop [for i in range(alo, ahi)], with [n] rows left from [i]. *)
Fixpoint rows (n : nat) (a : str) (b2j : b2j_t) (i blo bhi : Z)
  (j2len : j2len_t) (best : Match) : Match :=
  match n with
  | O => best
  | S n' =>
      let '(newj2len, best') :=
        row_loop (b2j_get b2j (getitem a i)) i blo bhi j2len [] best in
      rows n' a b2j (i + 1) blo bhi newj2len best'
  end.

(** The loops that extend the best match to the left and to the right while
    the elements agree and [b]'s element satisfies [P]. The left loop runs
    at most [besti - alo] times, the right one at most
    [ahi - (besti + bestsize)] times: [fuel] is that bound. *)
Fixpoint extend_left (fuel : nat) (P : char -> bool) (a b : str) (alo blo : Z)
  (m : Match) : Match :=
  match fuel with
  | O => m
  | S f =>
      if ((alo <? m_a m) && (blo <? m_b m)
          && P (getitem b (m_b m - 1))
          && N.eqb (getitem a (m_a m - 1)) (getitem b (m_b m - 1)))%bool
      then extend_left f P a b alo blo
             (mkMatch (m_a m - 1) (m_b m - 1) (m_size m + 1))
      else m
  end.

Fixpoint extend_right (fuel : nat) (P : char -> bool) (a b : str) (ahi bhi : Z)
  (m : Match) : Match :=
  match fuel with
  | O => m
  | S f =>
      if ((m_a m + m_size m <? ahi) && (m_b m + m_size m <? bhi)
          && P (getitem b (m_b m + m_size m))
          && N.eqb (getitem a (m_a m + m_size m)) (getitem b (m_b m + m_size m)))%bool
      then extend_right f P a b ahi bhi (mkMatch (m_a m) (m_b m) (m_size m + 1))
      else m
  end.

Definition find_longest_match (a b : str) (b2j : b2j_t) (alo ahi blo bhi : Z)
  : Match :=
  let best := rows (Z.to_nat (ahi - alo)) a b2j alo blo bhi [] (mkMatch alo blo 0) in
  let notjunk := fun c => negb (isbjunk c) in
  let best := extend_left (Z.to_nat (m_a best - alo)) notjunk a b alo blo best in
  let best := extend_right (Z.to_nat (ahi - (m_a best + m_size best))) notjunk a b ahi bhi best in
  let best := extend_left (Z.to_nat (m_a best - alo)) isbjunk a b alo blo best in
  extend_right (Z.to_nat (ahi - (m_a best + m_size best))) isbjunk a b ahi bhi best.

Definition region : Type := Z * Z * Z * Z.

(** The loop [while queue] of [get_matching_blocks]; the head of [queue] is
    the element that [queue.pop()] takes. [None] when [fuel] runs out. *)
Fixpoint blocks_loop (fuel : nat) (a b : str) (b2j : b2j_t)
  (queue : list region) (matching_blocks : list Match) : option (list Match) :=
  match queue with
  | [] => Some matching_blocks
  | (alo, ahi, blo, bhi) :: queue =>
      match fuel with
      | O => None
      | S f =>
          let x := find_longest_match a b b2j alo ahi blo bhi in
          let i := m_a x in
          let j := m_b x in
          let k := m_size x in
          if k =? 0 then blocks_loop f a b b2j queue matching_blocks
          else
            let queue := if ((alo <? i) && (blo <? j))%bool
                         then (alo, i, blo, j) :: queue else queue in
            let queue := if ((i + k <? ahi) && (j + k <? bhi))%bool
                         then (i + k, ahi, j + k, bhi) :: queue else queue in
            blocks_loop f a b b2j queue (matching_blocks ++ [x])
      end
  end.

(** Tuples compare lexicographically. *)
Definition match_leb (x y : Match) : bool :=
  if m_a x <? m_a y then true
  else if m_a y <? m_a x then false
  else if m_b x <? m_b y then true
  else if m_b y <? m_b x then false
  else m_size x <=? m_size y.

Fixpoint insert_block (x : Match) (l : list Match) : list Match :=
  match l with
  | [] => [x]
  | y :: r => if match_leb x y then x :: l else y :: insert_block x r
  end.

(** [matching_blocks.sort()]. *)
Definition sort_blocks (l : list Match) : list Match :=
  fold_right insert_block [] l.

(** The loop that merges adjacent blocks; [cur] is [(i1, j1, k1)]. *)
Fixpoint collapse (blocks : list Match) (cur : Match) (non_adjacent : list Match)
  : list Match :=
  let flush := if m_size cur =? 0 then non_adjacent else non_adjacent ++ [cur] in
  match blocks with
  | [] => flush
  | x :: r =>
      if ((m_a cur + m_size cur =? m_a x) && (m_b cur + m_size cur =? m_b x))%bool
      then collapse r (mkMatch (m_a cur) (m_b cur) (m_size cur + m_size x))
             non_adjacent
      else collapse r x flush
  end.

(** Every pass of the [while] loop takes a region off the queue, and a block
    of length [k >= 1] leaves at most two regions that share no element of
    [a] with each other or with the block: [2 * len(a) + 1] passes are
    enough (lemma [blocks_loop_terminates] below). *)
Definition get_matching_blocks_fuel (a b : str) : option (list Match) :=
  let la := len a in
  let lb := len b in
  match blocks_loop (2 * length a + 1) a b (chain_b b) [(0, la, 0, lb)] [] with
  | None => None
  | Some matching_blocks =>
      let non_adjacent := collapse (sort_blocks matching_blocks) (mkMatch 0 0 0) [] in
      Some (non_adjacent ++ [mkMatch la lb 0])
  end.

Definition get_matching_blocks (a b : str) : list Match :=
  match get_matching_blocks_fuel a b with
  | Some l => l
  | None => []
  end.

Definition sum (l : list Z) : Z := fold_left Z.add l 0.

Definition calculate_ratio (matches length : Z) : Q :=
  if length =? 0 then 1%Q
  else ((2 # 1) * inject_Z matches / inject_Z length)%Q.

Definition ratio (a b : str) : Q :=
  let matches := sum (map m_size (get_matching_blocks a b)) in
  calculate_ratio matches (len a + len b).

End Difflib.

(* ================================================================== *)
(** * tools/utilities.py *)

Module Utilities.
Import Py.

(** [re.sub(r"\s+", " ", text)]: every maximal run of white space becomes
    one space. [in_run] says that the character before was white space. *)
Fixpoint sub_ws (in_run : bool) (t : str) : str :=
  match t with
  | [] => []
  | c :: r =>
      if isspace c
      then (if in_run then sub_ws true r else SP :: sub_ws true r)
      else c :: sub_ws false r
  end.

(** [re.sub(r"([a-z])([A-Z])", r"\1 \2", text)]: matches are found from the
    left and do not overlap; the search resumes after the upper-case
    letter of a match. *)
Fixpoint sub_camel (t : str) : str :=
  match t with
  | a :: ((b :: r) as t') =>
      if (is_lower a && is_upper b)%bool
      then a :: SP :: b :: sub_camel r
      else a :: sub_camel t'
  | _ => t
  end.

Definition replace_newline (t : str) : str :=
  map (fun c => if N.eqb c NL then SP else c) t.

Definition normalize_text (text : str) : str :=
  let text := replace_newline text in
  let text := sub_ws false text in
  let text := sub_camel text in
  strip text.

(** [re.fullmatch(r"[A-Z]\.?", mid)]. *)
Definition is_initial (mid : str) : bool :=
  match mid with
  | [c] => is_upper c
  | [c; d] => (is_upper c && N.eqb d DOT)%bool
  | _ => false
  end.

Definition strip_middle_initial (name : str) : str :=
  match split name with
  | [first; mid; last] =>
      if is_initial mid then first ++ [SP] ++ last else name
  | _ => name
  end.

(** [words[i:i + k] for i in range(count)], on the words left at [i]. *)
Fixpoint windows (count : nat) (k : nat) (words : list str) : list str :=
  match count with
  | O => []
  | S c => join [SP] (firstn k words) :: windows c k (tl words)
  end.

Definition text_to_shingles (text : str) (k : nat) : list str :=
  let words := split text in
  if (length words <? k)%nat
  then match words with [] => [] | _ => [join [SP] words] end
  else windows (length words - k + 1) k words.

Definition sha256_file (w : world) (path : str) : result str :=
  match open_rb w path with
  | None => Raise OSError
  | Some bytes => Ok (sha256_hexdigest w bytes)
  end.

Definition build_minhash (w : world) (text : str) (num_perm : Z)
  : result (list Z) :=
  match text_to_shingles text 3 with
  | [] => minhash_hashvalues w num_perm [[]]
  | shingles => minhash_hashvalues w num_perm shingles
  end.

Definition extract_text_from_pdf (w : world) (path : str) : str :=
  pdf_extract_text w path.

Definition similarity (a b : str) : Q :=
  match a, b with
  | [], [] => 1%Q
  | _, _ => Difflib.ratio a b
  end.

Definition score_person (candidate known_name : str) : Q :=
  Difflib.ratio candidate known_name.

End Utilities.



(* ================================================================== *)
(** * tools/extractPDFdata.py *)

Module ExtractPDFdata.
Import Py Utilities.

(** A record of the people index: [{"id": ..., "names": [...]}]. *)
Record person : Type := { p_id : str; p_names : list str }.

(** The dictionary [canonicalize_person] returns. *)
Record resolution : Type := {
  r_id : option str;
  r_confidence : Q;
  r_matchedName : str
}.

(** The loop [for known in person["names"]], on [(best_match, best_score)]. *)
Definition scan_names (norm : str) (p : person) (st : option person * Q)
  : option person * Q :=
  fold_left
    (fun st known =>
       let score := score_person norm known in
       if Qltb (snd st) score then (Some p, score) else st)
    (p_names p) st.

Definition scan_people (norm : str) (people_index : list person)
  : option person * Q :=
  fold_left (fun st p => scan_names norm p st) people_index (None, 0%Q).

Definition canonicalize_person (name : str) (people_index : list person)
  (threshold : Q) : resolution :=
  let norm := normalize_text (strip_middle_initial name) in
  let '(best_match, best_score) := scan_people norm people_index in
  match best_match with
  | Some p =>
      if Qle_bool threshold best_score
      then {| r_id := Some (p_id p);
              r_confidence := round best_score 3;
              r_matchedName := name |}
      else {| r_id := None;
              r_confidence := round best_score 3;
              r_matchedName := name |}
  | None => {| r_id := None;
               r_confidence := round best_score 3;
               r_matchedName := name |}
  end.

(** The default of the parameter [threshold], and the constant of
    [cluster_people]: the literal [0.85]. *)
Definition threshold_085 : Q := 17 # 20.

(** The loop [for cluster in clusters] of [cluster_people]: the clusters
    after [name] has joined one, or [None] when [placed] stays [False]. *)
Fixpoint place (name : str) (clusters : list (list str))
  : result (option (list (list str))) :=
  match clusters with
  | [] => Ok None
  | cluster :: rest =>
      match cluster with
      | [] => Raise IndexError
      | first :: _ =>
          if Qltb threshold_085 (score_person name first)
          then Ok (Some ((cluster ++ [name]) :: rest))
          else r <- place name rest ;; Ok (option_map (cons cluster) r)
      end
  end.

Definition cluster_people (unresolved : list str) : result (list (list str)) :=
  for_each
    (fun clusters name =>
       r <- place name clusters ;;
       Ok (match r with
           | Some clusters' => clusters'
           | None => clusters ++ [[name]]
           end))
    unresolved [].

(** ** build_report *)

(** The dictionary the first loop appends for a file; its keys [sha256],
    [text], [pages] and [minhash] hold [None] until the second loop sets
    all four. *)
Record basic : Type := { b_path : str; b_name : str; b_size : Z }.

(** The dictionary once the second loop has filled it. *)
Record item : Type := {
  path : str;
  name : str;
  size : Z;
  sha256 : str;
  text : str;
  pages : option Z;
  minhash : list Z
}.

Inductive kind : Type := exact | near | partial.

(** A member of a group, or a singleton, as the report lists it. *)
Record file_entry : Type := {
  f_path : str;
  f_size : Z;
  f_text : str;
  f_sha256 : str;
  f_pages : option Z;
  f_minhash : list Z
}.

(** A group of the report; only an exact group has the key [sha256]. *)
Record group : Type := {
  g_type : kind;
  g_sha256 : option str;
  g_files : list file_entry
}.

Record summary : Type := {
  total_files : Z;
  scanned : Z;
  exact_groups : Z;
  near_groups : Z;
  partial_groups : Z;
  n_singletons : Z
}.

Record report : Type := {
  r_summary : summary;
  r_groups : list group;
  r_singletons : list file_entry
}.

Definition basic_metadata (w : world) (files : list str) : list basic :=
  map (fun p =>
         {| b_path := p;
            b_name := path_name w p;
            b_size := match stat_size w p with Some n => n | None => 0 end |})
      files.

(** One pass of the loop that computes hash, pages, text and signature. *)
Definition fingerprint (w : world) (num_perm : Z) (it : basic) : result item :=
  sha <- sha256_file w (b_path it) ;;
  let raw := extract_text_from_pdf w (b_path it) in
  m <- build_minhash w raw num_perm ;;
  Ok {| path := b_path it;
        name := b_name it;
        size := b_size it;
        sha256 := sha;
        text := normalize_text raw;
        pages := pdf_num_pages w (b_path it);
        minhash := m |}.

Fixpoint fingerprint_all (w : world) (num_perm : Z) (items : list basic)
  : result (list item) :=
  match items with
  | [] => Ok []
  | it :: r =>
      it' <- fingerprint w num_perm it ;;
      r' <- fingerprint_all w num_perm r ;;
      Ok (it' :: r')
  end.

(** [(i["pages"] or 0) >= min_pages]. *)
Definition has_min_pages (min_pages : Z) (i : item) : bool :=
  min_pages <=? match pages i with
                | Some n => n
                | None => 0
                end.

Definition filter_min_pages (min_pages : Z) (items : list item) : list item :=
  if 0 <? min_pages then filter (has_min_pages min_pages) items else items.

(** [sha_map.setdefault(it["sha256"], []).append(it)]. *)
Fixpoint setdefault_append (sha_map : list (str * list item)) (it : item)
  : list (str * list item) :=
  match sha_map with
  | [] => [(sha256 it, [it])]
  | (sha, g) :: r =>
      if str_eq_dec (sha256 it) sha
      then (sha, g ++ [it]) :: r
      else (sha, g) :: setdefault_append r it
  end.

Definition build_sha_map (items : list item) : list (str * list item) :=
  fold_left setdefault_append items [].

Definition entry_of (g : item) : file_entry :=
  {| f_path := path g;
     f_size := size g;
     f_text := text g;
     f_sha256 := sha256 g;
     f_pages := pages g;
     f_minhash := minhash g |}.

(** The loop [for sha, group in sha_map.items()], on [(groups, seen)]. *)
Definition exact_step (st : list group * list str) (e : str * list item)
  : list group * list str :=
  let '(groups, seen) := st in
  let '(sha, grp) := e in
  if 1 <? len grp
  then (groups ++ [{| g_type := exact;
                      g_sha256 := Some sha;
                      g_files := map entry_of grp |}],
        seen ++ map path grp)
  else st.

Definition exact_pass (sha_map : list (str * list item)) : list group * list str :=
  fold_left exact_step sha_map ([], []).

(** The loop that fills the LSH index; [lsh.insert] raises [ValueError] for
    a key that the index already holds. The [MinHash(num_perm)] of this
    loop is the one that was built for the file before, and its signature
    has the length the index expects. *)
Fixpoint lsh_insert_all (remaining : list item) (index : list (str * list Z))
  : result (list (str * list Z)) :=
  match remaining with
  | [] => Ok index
  | it :: r =>
      if mem (path it) (map fst index) then Raise ValueError
      else lsh_insert_all r (index ++ [(path it, minhash it)])
  end.

(** The refinement of a candidate set: the anchor [group_items[0]] and the
    candidates whose text is similar enough to the anchor's. *)
Definition refine (partial_thresh : Q) (anchor : item) (candidates : list item)
  : list item :=
  anchor :: filter
              (fun cand =>
                 Qle_bool partial_thresh (similarity (text anchor) (text cand)))
              candidates.

(** The two nested loops over [final_group]. [a is b] holds for the same
    position only: the members are distinct objects of [items]. *)
Definition max_similarity (final_group : list item) : Q :=
  fold_left
    (fun max_sim ia =>
       fold_left
         (fun max_sim ib =>
            if Nat.eqb (fst ia) (fst ib) then max_sim
            else max max_sim (similarity (text (snd ia)) (text (snd ib))))
         (enumerate final_group) max_sim)
    (enumerate final_group) 0%Q.

Definition group_type (near_thresh : Q) (final_group : list item) : kind :=
  if Qle_bool near_thresh (max_similarity final_group) then near else partial.

(** One pass of the loop [for it in remaining], on [(groups, used_in_group)].
    [minhashes[key]] is the signature of [it]: the index holds every key
    once. *)
Definition lsh_step (w : world) (near_thresh partial_thresh lsh_threshold : Q)
  (num_perm : Z) (remaining : list item) (index : list (str * list Z))
  (st : list group * list str) (it : item) : list group * list str :=
  let '(groups, used_in_group) := st in
  let key := path it in
  if mem key used_in_group then st
  else
    let candidates := lsh_query w lsh_threshold num_perm index (minhash it) in
    let candidates := if mem key candidates then candidates
                      else candidates ++ [key] in
    let group_items :=
      filter (fun x => (mem (path x) candidates
                        && negb (mem (path x) used_in_group))%bool)
             remaining in
    match group_items with
    | [] | [_] => st
    | anchor :: others =>
        let final_group := refine partial_thresh anchor others in
        if 1 <? len final_group
        then (groups ++ [{| g_type := group_type near_thresh final_group;
                            g_sha256 := None;
                            g_files := map entry_of final_group |}],
              used_in_group ++ map path final_group)
        else st
    end.

Definition kind_eqb (x y : kind) : bool :=
  match x, y with
  | exact, exact | near, near | partial, partial => true
  | _, _ => false
  end.

Definition count_kind (k : kind) (groups : list group) : Z :=
  len (filter (fun g => kind_eqb (g_type g) k) groups).

Definition build_report (w : world) (files : list str)
  (near_thresh partial_thresh : Q) (min_pages : Z) (lsh_threshold : Q)
  (num_perm : Z) : result report :=
  let items := basic_metadata w files in
  items <- fingerprint_all w num_perm items ;;
  let items := filter_min_pages min_pages items in
  let '(groups, seen) := exact_pass (build_sha_map items) in
  let remaining := filter (fun it => negb (mem (path it) seen)) items in
  _ <- minhash_lsh w lsh_threshold num_perm ;;
  index <- lsh_insert_all remaining [] ;;
  let '(groups, used_in_group) :=
    fold_left
      (lsh_step w near_thresh partial_thresh lsh_threshold num_perm remaining index)
      remaining (groups, []) in
  let singletons :=
    filter (fun it => (negb (mem (path it) seen)
                       && negb (mem (path it) used_in_group))%bool)
           items in
  Ok {| r_summary :=
          {| total_files := len files;
             scanned := len items;
             exact_groups := count_kind exact groups;
             near_groups := count_kind near groups;
             partial_groups := count_kind partial groups;
             n_singletons := len singletons |};
        r_groups := groups;
        r_singletons := map entry_of singletons |}.

End ExtractPDFdata.

(* ================================================================== *)
(** * build.py *)

Module Build.
Import Py.

(** An edge record as loaded from [edges.json]; [None] is a key that is
    absent (or, for the end points, [null]). Weights are numbers: floats,
    or integers below [2 ** 53] in absolute value, each given by the
    number that its JSON text denotes. A weight that is [null] or not a
    number makes [sum] raise [TypeError], and [merge_edges] return
    nothing: these records are for the runs that return. *)
Record edge : Type := {
  source : option str;
  target : option str;
  edge_id : option str;
  relationship : option str;
  weight : option Q
}.

(** An element of the list [edges] of an output entry. *)
Record edge_info : Type := {
  i_edge_id : str;
  i_relationship : str;
  i_weight : Q
}.

(** A value of the dictionary [grouped]. *)
Record bucket : Type := {
  k_source : option str;
  k_target : option str;
  k_edges : list edge_info;
  k_weights : list Q
}.

(** An entry of the result. *)
Record merged : Type := {
  o_source : option str;
  o_target : option str;
  o_edges : list edge_info;
  avg_weight : Q
}.

Definition key : Type := option str * option str.

Definition key_eq_dec : forall a b : key, {a = b} + {a <> b}.
Proof. decide equality; decide equality; apply str_eq_dec. Defined.

Definition unknown : str := of_string "unknown".

Definition info_of (e : edge) : edge_info :=
  {| i_edge_id := match edge_id e with Some s => s | None => [] end;
     i_relationship := match relationship e with Some s => s | None => unknown end;
     i_weight := match weight e with Some x => x | None => 1%Q end |}.

(** One pass of the loop [for edge in edges_list]: the bucket of the key is
    created when the key is new, then the edge is appended to it. *)
Fixpoint add_edge (grouped : list (key * bucket)) (k : key) (e : edge)
  : list (key * bucket) :=
  match grouped with
  | [] =>
      [(k, {| k_source := fst k;
              k_target := snd k;
              k_edges := [info_of e];
              k_weights := [i_weight (info_of e)] |})]
  | (k', d) :: r =>
      if key_eq_dec k k'
      then (k', {| k_source := k_source d;
                   k_target := k_target d;
                   k_edges := k_edges d ++ [info_of e];
                   k_weights := k_weights d ++ [i_weight (info_of e)] |}) :: r
      else (k', d) :: add_edge r k e
  end.

Definition group_edges (edges_list : list edge) : list (key * bucket) :=
  fold_left (fun grouped e => add_edge grouped (source e, target e) e)
            edges_list [].

(** [sum(weights)]: the additions of floats, from the left, each giving
    the float that holds the exact sum, as [sum] adds up to Python 3.11
    (from 3.12 on it compensates the rounding errors of a sum of floats).
    On whole numbers below [2 ** 53] this is the exact addition, as that
    of [int] is. *)
Definition Qsum (l : list Q) : Q :=
  fold_left (fun acc w => binary64 (acc + binary64 w)) l 0%Q.

(** [sum(weights) / len(weights) if weights else 0]. *)
Definition average (weights : list Q) : Q :=
  match weights with
  | [] => 0%Q
  | _ => binary64 (Qsum weights / inject_Z (len weights))
  end.

Definition merge_edges (edges_list : list edge) : list merged :=
  map (fun kd =>
         let '((source, target), data) := kd in
         {| o_source := source;
            o_target := target;
            o_edges := k_edges data;
            avg_weight := round (average (k_weights data)) 2 |})
      (group_edges edges_list).

End Build.

(* ================================================================== *)
(** * extractPDFdata.py: the edges of a document *)

Module Builders.
Import Py Build.

(** [str(n)]: the decimal digits of an [int], after a minus sign when it
    is negative. *)
Definition str_of_int (n : Z) : str :=
  of_string (DecimalString.NilZero.string_of_int (Z.to_int n)).

Definition co_mentioned : str := of_string "co_mentioned".

(** The literal [f"edge_{doc_id}_{n}"]. *)
Definition edge_name (doc_id : str) (n : Z) : str :=
  of_string "edge_" ++ doc_id ++ of_string "_" ++ str_of_int n.

(** The dictionary that the inner loop appends to [edges]; all five keys
    are present. *)
Definition new_edge (doc_id : str) (acc : list edge) (p1 p2 : str) : edge :=
  {| source := Some p1;
     target := Some p2;
     edge_id := Some (edge_name doc_id (len acc + 1));
     relationship := Some co_mentioned;
     weight := Some 1%Q |}.

(** The dictionary [build_edges_json] returns. *)
Record edges_json : Type := { document_id : str; edges : list edge }.

Definition build_edges_json (doc_id : str) (person_ids : list str)
  : edges_json :=
  {| document_id := doc_id;
     edges :=
       fold_left
         (fun acc ip =>
            fold_left
              (fun acc p2 => acc ++ [new_edge doc_id acc (snd ip) p2])
              (skipn (fst ip + 1) person_ids) acc)
         (enumerate person_ids) [] |}.

End Builders.

(* ================================================================== *)
(** * extractPDFdata.py: resolving the names of a text *)

Module Entities.
Import Py Utilities ExtractPDFdata.

(** [result["id"]] as a condition: an id that is neither [None] nor the
    empty string. *)
Definition truthy (o : option str) : bool :=
  match o with
  | Some (_ :: _) => true
  | _ => false
  end.

(** One pass of the loop [for name in combined_people] of
    [extract_entities_from_text], on [(resolved_people, unresolved_people)]. *)
Definition resolve_step (people_index : list person)
  (st : list resolution * list str) (name : str) : list resolution * list str :=
  let result := canonicalize_person name people_index threshold_085 in
  if truthy (r_id result)
  then (fst st ++ [result], snd st)
  else (fst st, snd st ++ [normalize_text name]).

(** The value of the key ["people"] of the dictionary that
    [extract_entities_from_text] returns. *)
Record people_entities : Type := {
  resolved : list resolution;
  unresolved_clusters : list (list str)
}.

(** [extract_entities_from_text] from the point where [combined_people]
    is known: the loop, and the clustering of what it leaves unresolved. *)
Definition resolve_people (combined_people : list str)
  (people_index : list person) : result people_entities :=
  let st := fold_left (resolve_step people_index) combined_people ([], []) in
  clustered_unresolved <- cluster_people (snd st) ;;
  Ok {| resolved := fst st; unresolved_clusters := clustered_unresolved |}.

End Entities.

(* ================================================================== *)
(** * The title of a document *)

Module Titles.
Import Py.

Local Open Scope N_scope.

Definition SLASH : char := 47.

Local Close Scope N_scope.

(** [s.split(sep)] for a separator of one character; [cur] is the element
    being read. The result is never empty. *)
Fixpoint split_sep_aux (sep : char) (cur s : str) : list str :=
  match s with
  | [] => [cur]
  | c :: r =>
      if N.eqb c sep then cur :: split_sep_aux sep [] r
      else split_sep_aux sep (cur ++ [c]) r
  end.

Definition split_sep (sep : char) (s : str) : list str := split_sep_aux sep [] s.

(** [l[-1]] of a list that is not empty. *)
Definition last_item (l : list str) : str := last l [].

Fixpoint starts_with (p s : str) : bool :=
  match p, s with
  | [], _ => true
  | _ :: _, [] => false
  | x :: p', y :: s' => (N.eqb x y && starts_with p' s')%bool
  end.

(** [s.replace(old, "")] for an [old] that is not empty: the occurrences
    of [old] are found from the left and do not overlap. [skip] is the
    number of characters of the occurrence being dropped that are left. *)
Fixpoint remove_aux (old : str) (skip : nat) (s : str) : str :=
  match s with
  | [] => []
  | c :: r =>
      match skip with
      | S k => remove_aux old k r
      | O => if starts_with old s then remove_aux old (length old - 1) r
             else c :: remove_aux old 0 r
      end
  end.

Definition remove (old s : str) : str := remove_aux old 0 s.

Definition dot_pdf : str := of_string ".pdf".

(** [path.split('/')[-1].replace('.pdf', '')]: the ["title"] of
    [build_doc_json] and of [store_document_in_db], and the folder name of
    [create_document_folder]. *)
Definition title_of (path : str) : str :=
  remove dot_pdf (last_item (split_sep SLASH path)).

End Titles.

(* ================================================================== *)
(** * build.py: merging people *)

Module People.
Import Py.

(** A value read from a JSON file. A [float] is the rational it stands
    for; the values [NaN] and [Infinity], which are not JSON, are left
    out. An object is the list of its items in the order of the file,
    with pairwise distinct keys. *)
Inductive json : Type :=
| JNull
| JBool (b : bool)
| JInt (n : Z)
| JFloat (x : Q)
| JStr (s : str)
| JList (l : list json)
| JDict (d : list (str * json)).

Definition dict : Type := list (str * json).

(** The number that a [bool], an [int] or a [float] compares as. *)
Definition number (v : json) : option Q :=
  match v with
  | JBool b => Some (if b then 1%Q else 0%Q)
  | JInt n => Some (inject_Z n)
  | JFloat x => Some x
  | _ => None
  end.

(** [d.get(k)], and [k in d] when it is not [None]. *)
Fixpoint dict_get (k : str) (d : dict) : option json :=
  match d with
  | [] => None
  | (k', v) :: r => if str_eq_dec k k' then Some v else dict_get k r
  end.

(** [d[k] = v]: a new key goes to the end, an old one keeps its place. *)
Fixpoint dict_set (k : str) (v : json) (d : dict) : dict :=
  match d with
  | [] => [(k, v)]
  | (k', w) :: r =>
      if str_eq_dec k k' then (k', v) :: r else (k', w) :: dict_set k v r
  end.

(** [a == b]. Numbers compare by value, whatever their type; lists
    element by element; objects by their items, in any order. *)
Fixpoint py_eq (a b : json) : bool :=
  match a, b with
  | JNull, JNull => true
  | JStr s, JStr t => if str_eq_dec s t then true else false
  | JList l, JList m =>
      (fix all2 (l m : list json) : bool :=
         match l, m with
         | [], [] => true
         | x :: l', y :: m' => (py_eq x y && all2 l' m')%bool
         | _, _ => false
         end) l m
  | JDict d, JDict e =>
      (Nat.eqb (length d) (length e)
       && (fix all (d : dict) : bool :=
             match d with
             | [] => true
             | (k, v) :: d' =>
                 (match dict_get k e with
                  | Some w => py_eq v w
                  | None => false
                  end && all d')%bool
             end) d)%bool
  | _, _ =>
      match number a, number b with
      | Some x, Some y => Qeq_bool x y
      | _, _ => false
      end
  end.

(** A list or an object cannot be hashed. *)
Definition hashable (v : json) : bool :=
  match v with
  | JList _ | JDict _ => false
  | _ => true
  end.

(** [bool(v)]. *)
Definition truthy (v : json) : bool :=
  match v with
  | JNull => false
  | JBool b => b
  | JInt n => negb (n =? 0)
  | JFloat x => negb (Qeq_bool x 0)
  | JStr s => match s with [] => false | _ => true end
  | JList l => match l with [] => false | _ => true end
  | JDict d => match d with [] => false | _ => true end
  end.

(** One pass of the loop [for item in combined], on
    [(seen_items, deduped)]: an item that can be hashed is looked up in
    the set, the others in the list. *)
Definition dedupe_step (st : list json * list json) (item : json)
  : list json * list json :=
  let '(seen_items, deduped) := st in
  if hashable item
  then if existsb (fun e => py_eq e item) seen_items then st
       else (seen_items ++ [item], deduped ++ [item])
  else if existsb (fun e => py_eq e item) deduped then st
       else (seen_items, deduped ++ [item]).

Definition dedupe (combined : list json) : list json :=
  snd (fold_left dedupe_step combined ([], [])).

(** The loop [for sub_key, sub_val in value.items()]. *)
Definition merge_dict (existing_val value : dict) : dict :=
  fold_left
    (fun existing_val kv =>
       match dict_get (fst kv) existing_val with
       | None => dict_set (fst kv) (snd kv) existing_val
       | Some _ => existing_val
       end)
    value existing_val.

Definition id_key : str := of_string "id".

(** One pass of the loop [for key, value in person.items()]. *)
Definition merge_item (existing : dict) (kv : str * json) : dict :=
  let '(key, value) := kv in
  if str_eq_dec key id_key then existing
  else
    match dict_get key existing with
    | None => dict_set key value existing
    | Some existing_val =>
        match value, existing_val with
        | JList v, JList ev =>
            dict_set key (JList (dedupe (ev ++ v))) existing
        | JDict v, JDict ev =>
            dict_set key (JDict (merge_dict ev v)) existing
        | _, _ =>
            if (negb (truthy existing_val) && truthy value)%bool
            then dict_set key value existing
            else existing
        end
    end.

Definition merge_person (existing person : dict) : dict :=
  fold_left merge_item person existing.

(** [person.get('id')]. *)
Definition person_id (person : dict) : json :=
  match dict_get id_key person with
  | Some v => v
  | None => JNull
  end.

(** [seen] after a person with the id [pid]: merged into the entry of
    the id, or added at the end (the copy that [json.loads(json.dumps(_))]
    makes of a value is the value). *)
Fixpoint add_person (pid : json) (person : dict) (seen : list (json * dict))
  : list (json * dict) :=
  match seen with
  | [] => [(pid, person)]
  | (k, existing) :: r =>
      if py_eq k pid then (k, merge_person existing person) :: r
      else (k, existing) :: add_person pid person r
  end.

(** Hashing an id that is a list or an object raises [TypeError]. *)
Inductive attempt (A : Type) : Type :=
| Done (a : A)
| TypeError.

Arguments TypeError {A}.

Definition people_step (st : attempt (list (json * dict))) (person : dict)
  : attempt (list (json * dict)) :=
  match st with
  | TypeError => TypeError
  | Done seen =>
      let pid := person_id person in
      if hashable pid then Done (add_person pid person seen) else TypeError
  end.

Definition merge_people (people_list : list dict) : attempt (list dict) :=
  match fold_left people_step people_list (Done []) with
  | Done seen => Done (map snd seen)
  | TypeError => TypeError
  end.

End People.

(* ================================================================== *)
(** * build.py: merging objects by id *)

Module Merging.
Import Py People.

(** What the merging functions return, and the exceptions that end them:
    [KeyError] for a subscript with a key that the object has not, and
    [TypeError] for hashing a list or an object. *)
Inductive outcome (A : Type) : Type :=
| Returns (a : A)
| KeyError
| TypeError.

Arguments KeyError {A}.
Arguments TypeError {A}.

(** [o.get('id')]: [None] when the key is absent. *)
Definition get_id (o : dict) : json :=
  match dict_get id_key o with
  | Some v => v
  | None => JNull
  end.

(** [k in seen], for a key [k] that can be hashed: the keys that are equal
    have the same hash. *)
Definition contains (k : json) (seen : list (json * dict)) : bool :=
  existsb (fun kv => py_eq (fst kv) k) seen.

(** One pass of the loop of [merge_organizations]; [oid not in seen]
    hashes the id. *)
Definition org_step (st : outcome (list (json * dict))) (org : dict)
  : outcome (list (json * dict)) :=
  match st with
  | Returns seen =>
      let oid := get_id org in
      if hashable oid
      then if contains oid seen then Returns seen
           else Returns (seen ++ [(oid, org)])
      else TypeError
  | KeyError => KeyError
  | TypeError => TypeError
  end.

Definition merge_organizations (orgs_list : list dict) : outcome (list dict) :=
  match fold_left org_step orgs_list (Returns []) with
  | Returns seen => Returns (map snd seen)
  | KeyError => KeyError
  | TypeError => TypeError
  end.

(** One pass of the loop of [merge_documents]: [doc.get('id') not in seen]
    hashes the id, and [doc['id']] reads it a second time with a
    subscript, which raises [KeyError] when the key is absent. *)
Definition doc_step (st : outcome (list (json * dict))) (doc : dict)
  : outcome (list (json * dict)) :=
  match st with
  | Returns seen =>
      if hashable (get_id doc)
      then if contains (get_id doc) seen then Returns seen
           else match dict_get id_key doc with
                | Some k => Returns (seen ++ [(k, doc)])
                | None => KeyError
                end
      else TypeError
  | KeyError => KeyError
  | TypeError => TypeError
  end.

Definition merge_documents (docs_list : list dict) : outcome (list dict) :=
  match fold_left doc_step docs_list (Returns []) with
  | Returns seen => Returns (map snd seen)
  | KeyError => KeyError
  | TypeError => TypeError
  end.

(** The part of the loop of [build] that fills [all_documents]: what
    [load_json] gave for the [doc.json] of a folder is appended when it is
    an object whose id is true as a condition. *)
Definition all_documents (doc_data : list json) : list dict :=
  fold_left
    (fun all d =>
       match d with
       | JDict o => if truthy (get_id o) then all ++ [o] else all
       | _ => all
       end)
    doc_data [].

End Merging.

(* ================================================================== *)
(** * Properties of text normalisation *)

Module NormalizeFacts.
Import Py Utilities.

(** Case analysis on the comparisons of code points in the goal or in
    hypothesis [H], discarding impossible cases as they appear. *)
Ltac split_cmp :=
  repeat match goal with
    | |- context [N.leb ?a ?b] => destruct (N.leb_spec a b); try lia
    | |- context [N.eqb ?a ?b] => destruct (N.eqb_spec a b); try lia
    end.

Lemma isspace_SP : isspace SP = true.
Proof. reflexivity. Qed.

Lemma isspace_NL : isspace NL = true.
Proof. reflexivity. Qed.

Lemma lower_not_space (c : char) : is_lower c = true -> isspace c = false.
Proof.
  unfold is_lower, isspace, in_range. intros H.
  apply andb_true_iff in H. destruct H as [H1 H2].
  apply N.leb_le in H1. apply N.leb_le in H2.
  split_cmp; reflexivity.
Qed.

Lemma upper_not_space (c : char) : is_upper c = true -> isspace c = false.
Proof.
  unfold is_upper, isspace, in_range. intros H.
  apply andb_true_iff in H. destruct H as [H1 H2].
  apply N.leb_le in H1. apply N.leb_le in H2.
  split_cmp; reflexivity.
Qed.

(** Every white-space character of [t] is the space. *)
Definition only_sp (t : str) : Prop :=
  Forall (fun c => isspace c = true -> c = SP) t.

(** No two neighbours of [t] are related by [R]. *)
Fixpoint no_adj (R : char -> char -> bool) (t : str) : Prop :=
  match t with
  | a :: r => match r with
              | b :: _ => R a b = false
              | [] => True
              end /\ no_adj R r
  | [] => True
  end.

Definition both_space (a b : char) : bool := (isspace a && isspace b)%bool.
Definition camel (a b : char) : bool := (is_lower a && is_upper b)%bool.

(** The head of [t], if any, is not white space. *)
Definition head_solid (t : str) : Prop :=
  match t with
  | [] => True
  | c :: _ => isspace c = false
  end.

(** The normal form that [normalize_text] produces. *)
Record normal (t : str) : Prop := {
  n_only_sp : only_sp t;
  n_runs : no_adj both_space t;
  n_camel : no_adj camel t;
  n_left : lstrip t = t;
  n_right : rstrip t = t
}.

(** ** The white-space pass *)

Lemma sub_ws_shape (t : str) (in_run : bool) :
  only_sp (sub_ws in_run t) /\ no_adj both_space (sub_ws in_run t)
  /\ (in_run = true -> head_solid (sub_ws in_run t)).
Proof.
  revert in_run. induction t as [|c r IH]; intros in_run; simpl.
  - split; [constructor | split; [exact I | intros _; exact I]].
  - destruct (isspace c) eqn:Hc.
    + destruct (IH true) as (H1 & H2 & H3). destruct in_run.
      * split; [exact H1 | split; [exact H2 | exact H3]].
      * split; [|split].
        -- constructor; auto.
        -- simpl. split; [|exact H2].
           specialize (H3 eq_refl).
           destruct (sub_ws true r) as [|d r']; [exact I|].
           simpl in H3. unfold both_space. rewrite H3. apply andb_false_r.
        -- discriminate.
    + destruct (IH false) as (H1 & H2 & _). split; [|split].
      * constructor; auto. intros Hs. congruence.
      * simpl. split; [|exact H2].
        destruct (sub_ws false r); [exact I|]. unfold both_space. now rewrite Hc.
      * intros _. simpl. exact Hc.
Qed.

Lemma sub_ws_fixed (t : str) (in_run : bool) :
  only_sp t -> no_adj both_space t -> (in_run = true -> head_solid t) ->
  sub_ws in_run t = t.
Proof.
  revert in_run. induction t as [|c r IH]; intros in_run Hsp Hadj Hhd; simpl; auto.
  inversion Hsp as [|? ? Hc Hr]; subst. simpl in Hadj. destruct Hadj as [Hcr Hadj].
  destruct (isspace c) eqn:Ec.
  - destruct in_run.
    + specialize (Hhd eq_refl). simpl in Hhd. congruence.
    + rewrite (Hc eq_refl). f_equal. apply IH; auto.
      intros _. destruct r as [|d r']; simpl; auto.
      unfold both_space in Hcr. rewrite Ec in Hcr. exact Hcr.
  - f_equal. apply IH; auto. discriminate.
Qed.

(** ** The lower-case/upper-case pass *)

Lemma sub_camel_cons (a : char) (r : str) :
  exists r', sub_camel (a :: r) = a :: r'.
Proof.
  destruct r as [|b r]; simpl; eauto.
  destruct (is_lower a && is_upper b)%bool; eauto.
Qed.

Lemma str_length_ind (P : str -> Prop) :
  (forall t, (forall u, (length u < length t)%nat -> P u) -> P t) ->
  forall t, P t.
Proof.
  intros H t. remember (length t) as n eqn:E. revert t E.
  induction n as [n IH] using lt_wf_ind. intros t E. apply H.
  intros u Hu. apply (IH (length u)); subst; auto.
Qed.

Lemma upper_not_lower (c : char) : is_upper c = true -> is_lower c = false.
Proof.
  unfold is_upper, is_lower, in_range. intros H.
  apply andb_true_iff in H. destruct H as [H1 H2].
  apply N.leb_le in H1. apply N.leb_le in H2.
  split_cmp; reflexivity.
Qed.

Lemma sub_camel_head (R : char -> char -> bool) (b : char) (r : str) :
  match r with d :: _ => R b d = false | [] => True end ->
  match sub_camel r with d :: _ => R b d = false | [] => True end.
Proof.
  intros HR. destruct r as [|d r']; [exact I|].
  destruct (sub_camel_cons d r') as [r'' ->]. exact HR.
Qed.

Lemma sub_camel_shape (t : str) :
  only_sp t -> no_adj both_space t ->
  only_sp (sub_camel t) /\ no_adj both_space (sub_camel t)
  /\ no_adj camel (sub_camel t).
Proof.
  induction t as [t IH] using str_length_ind. intros Hsp Hadj.
  destruct t as [|a [|b r]].
  - cbn. split; [constructor | split; exact I].
  - cbn. split; [exact Hsp | split; split; exact I].
  - inversion Hsp as [|? ? Ha Hbr]; subst.
    inversion Hbr as [|? ? Hb Hr]; subst.
    cbn [no_adj] in Hadj. destruct Hadj as (Hab & Hbr' & Hadj).
    change (sub_camel (a :: b :: r))
      with (if (is_lower a && is_upper b)%bool
            then a :: SP :: b :: sub_camel r else a :: sub_camel (b :: r)).
    destruct (is_lower a && is_upper b)%bool eqn:E.
    + apply andb_true_iff in E. destruct E as [El Eu].
      pose proof (lower_not_space _ El) as Sa.
      pose proof (upper_not_space _ Eu) as Sb.
      destruct (IH r) as (H1 & H2 & H3); [simpl; lia | auto | auto |].
      split; [|split].
      * repeat (apply Forall_cons; auto).
      * cbn [no_adj]. split; [|split; [|split]].
        -- unfold both_space. rewrite Sa. reflexivity.
        -- unfold both_space. rewrite Sb. apply andb_false_r.
        -- apply sub_camel_head. exact Hbr'.
        -- exact H2.
      * cbn [no_adj]. split; [|split; [|split]].
        -- unfold camel. change (is_upper SP) with false. apply andb_false_r.
        -- reflexivity.
        -- apply sub_camel_head. destruct r as [|d r']; [exact I|].
           unfold camel. now rewrite (upper_not_lower _ Eu).
        -- exact H3.
    + destruct (IH (b :: r)) as (H1 & H2 & H3);
        [simpl; lia | auto | cbn [no_adj]; auto |].
      destruct (sub_camel_cons b r) as [r' Er']. rewrite Er' in *.
      split; [|split].
      * constructor; auto.
      * cbn [no_adj]. split; [exact Hab | exact H2].
      * cbn [no_adj]. split; [exact E | exact H3].
Qed.

Lemma sub_camel_fixed (t : str) : no_adj camel t -> sub_camel t = t.
Proof.
  induction t as [t IH] using str_length_ind. intros Hadj.
  destruct t as [|a [|b r]]; auto.
  simpl in Hadj. destruct Hadj as (Hab & Hrest).
  change (sub_camel (a :: b :: r))
    with (if (is_lower a && is_upper b)%bool
          then a :: SP :: b :: sub_camel r else a :: sub_camel (b :: r)).
  unfold camel in Hab. rewrite Hab. f_equal. apply IH; simpl; auto.
Qed.

(** ** Stripping *)

Lemma lstrip_shape (t : str) :
  (only_sp t -> only_sp (lstrip t))
  /\ (forall R, no_adj R t -> no_adj R (lstrip t))
  /\ head_solid (lstrip t).
Proof.
  induction t as [|c r (IH1 & IH2 & IH3)]; cbn [lstrip].
  - split; [auto | split; [auto | exact I]].
  - destruct (isspace c) eqn:Ec.
    + split; [|split; [|exact IH3]].
      * intros H. inversion H; auto.
      * intros R [_ H]. auto.
    + split; [auto | split; [auto | exact Ec]].
Qed.

Lemma rstrip_cons (c : char) (r : str) :
  rstrip (c :: r) = [] \/ exists r', rstrip (c :: r) = c :: r'.
Proof.
  cbn [rstrip]. destruct (rstrip r).
  - destruct (isspace c); eauto.
  - eauto.
Qed.

Lemma rstrip_head (R : char -> char -> bool) (c : char) (r : str) :
  match r with d :: _ => R c d = false | [] => True end ->
  match rstrip r with d :: _ => R c d = false | [] => True end.
Proof.
  intros HR. destruct r as [|d r']; [exact I|].
  destruct (rstrip_cons d r') as [-> | [r'' ->]]; auto.
Qed.

Lemma rstrip_shape (t : str) :
  (only_sp t -> only_sp (rstrip t))
  /\ (forall R, no_adj R t -> no_adj R (rstrip t))
  /\ (head_solid t -> head_solid (rstrip t)).
Proof.
  induction t as [|c r (IH1 & IH2 & IH3)].
  - cbn. auto.
  - pose proof (fun R => @rstrip_head R c r) as Hhd.
    cbn [rstrip]. destruct (rstrip r) as [|d r'] eqn:Er.
    + destruct (isspace c) eqn:Ec.
      * split; [constructor | split; [intros; exact I | intros; exact I]].
      * split; [|split].
        -- intros H. inversion H; subst. constructor; auto.
        -- intros R _. cbn. auto.
        -- intros _. exact Ec.
    + split; [|split].
      * intros H. inversion H; subst. constructor; [assumption | apply IH1; assumption].
      * intros R [H1 H2]. cbn [no_adj].
        split; [apply (Hhd R H1) | apply IH2; exact H2].
      * cbn. auto.
Qed.

Lemma rstrip_idem (t : str) : rstrip (rstrip t) = rstrip t.
Proof.
  induction t as [|c r IH]; simpl; auto.
  destruct (rstrip r) as [|d r'] eqn:Er.
  - destruct (isspace c) eqn:Ec; simpl; auto. now rewrite Ec.
  - change (rstrip (c :: d :: r'))
      with (match rstrip (d :: r') with
            | [] => if isspace c then [] else [c]
            | x => c :: x
            end).
    rewrite IH. reflexivity.
Qed.

Lemma lstrip_solid (t : str) : head_solid t -> lstrip t = t.
Proof. destruct t as [|c r]; simpl; auto. now intros ->. Qed.

Lemma normalize_text_normal (x : str) : normal (normalize_text x).
Proof.
  unfold normalize_text, strip.
  destruct (sub_ws_shape (replace_newline x) false) as (A1 & A2 & _).
  destruct (sub_camel_shape A1 A2) as (B1 & B2 & B3).
  set (u := sub_camel (sub_ws false (replace_newline x))) in *.
  destruct (lstrip_shape u) as (C1 & C2 & C3).
  destruct (rstrip_shape (lstrip u)) as (D1 & D2 & D3).
  constructor; auto.
  - apply lstrip_solid. auto.
  - apply rstrip_idem.
Qed.

Lemma replace_newline_fixed (t : str) : only_sp t -> replace_newline t = t.
Proof.
  unfold replace_newline. induction 1 as [|c r Hc Hr IH]; simpl; auto.
  rewrite IH. f_equal. destruct (N.eqb_spec c NL) as [->|]; auto.
  symmetry. apply Hc. reflexivity.
Qed.

Lemma normalize_text_fixed (t : str) : normal t -> normalize_text t = t.
Proof.
  intros [H1 H2 H3 H4 H5]. unfold normalize_text, strip.
  rewrite (replace_newline_fixed H1).
  rewrite (sub_ws_fixed (in_run := false) H1 H2) by discriminate.
  rewrite (sub_camel_fixed _ H3). rewrite H4. exact H5.
Qed.

(** C7. Text normalisation is idempotent: normalising a normalised text
    changes nothing, [normalize_text (normalize_text x) = normalize_text x]
    for every string [x]. *)
Theorem normalize_text_idempotent (x : str) :
  normalize_text (normalize_text x) = normalize_text x.
Proof. apply normalize_text_fixed, normalize_text_normal. Qed.

End NormalizeFacts.

(* ================================================================== *)
(** * Properties of the sequence matcher *)

Module DifflibFacts.
Import Py Difflib.

Lemma fold_add_shift (l : list Z) (x : Z) :
  fold_left Z.add l x = x + fold_left Z.add l 0.
Proof.
  revert x. induction l as [|y l IH]; intros x; simpl; [lia|].
  rewrite (IH (x + y)), (IH y). lia.
Qed.

Lemma sum_cons (x : Z) (l : list Z) : sum (x :: l) = x + sum l.
Proof. unfold sum. simpl. apply fold_add_shift. Qed.

Lemma sum_app (l1 l2 : list Z) : sum (l1 ++ l2) = sum l1 + sum l2.
Proof.
  induction l1 as [|x l1 IH]; simpl.
  - reflexivity.
  - rewrite !sum_cons, IH. lia.
Qed.

(** The total length of a list of blocks. *)
Definition total (l : list Match) : Z := sum (map m_size l).

Lemma total_cons (x : Match) (l : list Match) : total (x :: l) = m_size x + total l.
Proof. apply sum_cons. Qed.

Lemma total_app (l1 l2 : list Match) : total (l1 ++ l2) = total l1 + total l2.
Proof. unfold total. rewrite map_app. apply sum_app. Qed.

(** ** The longest match stays inside its region *)

Section Region.
Variables alo ahi blo bhi : Z.

(** A block that lies in rows [alo .. i) of [a] and in [blo .. bhi) of [b]. *)
Definition inside (i : Z) (m : Match) : Prop :=
  alo <= m_a m /\ m_a m + m_size m <= i
  /\ blo <= m_b m /\ m_b m + m_size m <= bhi
  /\ 0 <= m_size m.

(** The lengths that [j2len] records after the rows before [i]. *)
Definition lengths_ok (i : Z) (d : j2len_t) : Prop :=
  forall j, 0 <= j2len_get d j <= i - alo
            /\ j2len_get d j <= Z.max 0 (j - blo + 1).

Lemma lengths_ok_nil (i : Z) : alo <= i -> lengths_ok i [].
Proof. intros H j. simpl. lia. Qed.

Lemma row_loop_inside (js : list Z) (i : Z) (j2len newj2len : j2len_t) (best : Match) :
  alo <= i ->
  lengths_ok i j2len -> lengths_ok (i + 1) newj2len -> inside (i + 1) best ->
  lengths_ok (i + 1) (fst (row_loop js i blo bhi j2len newj2len best))
  /\ inside (i + 1) (snd (row_loop js i blo bhi j2len newj2len best)).
Proof.
  intros Hi Hold. revert newj2len best.
  induction js as [|j r IH]; intros newj2len best Hnew Hbest; simpl.
  - auto.
  - destruct (Z.ltb_spec j blo) as [Hlo|Hlo]; [apply IH; auto|].
    destruct (Z.leb_spec bhi j) as [Hhi|Hhi]; [simpl; auto|].
    destruct (Hold (j - 1)) as [Hk1 Hk2].
    set (k := j2len_get j2len (j - 1) + 1) in *.
    apply IH.
    + intros j'. simpl. destruct (Z.eqb_spec j' j) as [->|Hne].
      * lia.
      * apply Hnew.
    + destruct (Z.ltb_spec (m_size best) k) as [Hlt|Hge]; [|exact Hbest].
      unfold inside. simpl. lia.
Qed.

Lemma rows_inside (n : nat) (a : str) (b2j : b2j_t) (i : Z) (j2len : j2len_t)
  (best : Match) :
  alo <= i -> lengths_ok i j2len -> inside i best ->
  inside (i + Z.of_nat n) (rows n a b2j i blo bhi j2len best).
Proof.
  revert i j2len best. induction n as [|n IH]; intros i j2len best Hi Hj Hb.
  - simpl. replace (i + 0) with i by lia. exact Hb.
  - cbn [rows].
    assert (Hb' : inside (i + 1) best) by (unfold inside in *; lia).
    pose proof (@row_loop_inside (b2j_get b2j (getitem a i)) i j2len [] best Hi Hj
                  (lengths_ok_nil (i := i + 1) ltac:(lia)) Hb') as [H1 H2].
    destruct (row_loop (b2j_get b2j (getitem a i)) i blo bhi j2len [] best)
      as [newj2len best'].
    simpl in H1, H2.
    replace (i + Z.of_nat (S n)) with (i + 1 + Z.of_nat n) by lia.
    apply IH; auto. lia.
Qed.

Lemma extend_left_inside (fuel : nat) (P : char -> bool) (a b : str) (m : Match) :
  inside ahi m -> inside ahi (extend_left fuel P a b alo blo m).
Proof.
  revert m. induction fuel as [|f IH]; intros m Hm; simpl; auto.
  destruct (alo <? m_a m) eqn:E1; simpl; auto.
  destruct (blo <? m_b m) eqn:E2; simpl; auto.
  destruct (P (getitem b (m_b m - 1))); simpl; auto.
  destruct (N.eqb _ _); auto.
  apply IH. apply Z.ltb_lt in E1, E2. unfold inside in *. simpl. lia.
Qed.

Lemma extend_right_inside (fuel : nat) (P : char -> bool) (a b : str) (m : Match) :
  inside ahi m -> inside ahi (extend_right fuel P a b ahi bhi m).
Proof.
  revert m. induction fuel as [|f IH]; intros m Hm; simpl; auto.
  destruct (m_a m + m_size m <? ahi) eqn:E1; simpl; auto.
  destruct (m_b m + m_size m <? bhi) eqn:E2; simpl; auto.
  destruct (P (getitem b (m_b m + m_size m))); simpl; auto.
  destruct (N.eqb _ _); auto.
  apply IH. apply Z.ltb_lt in E1, E2. unfold inside in *. simpl. lia.
Qed.

(** Fuel beyond the bound of a loop changes nothing. *)
Lemma extend_left_fuel (n k : nat) (P : char -> bool) (a b : str) (m : Match) :
  (Z.to_nat (m_a m - alo) <= n)%nat ->
  extend_left (n + k) P a b alo blo m = extend_left n P a b alo blo m.
Proof.
  revert m. induction n as [|n IH]; intros m Hm.
  - destruct k as [|k]; [reflexivity|]. cbn [Nat.add extend_left].
    destruct (Z.ltb_spec alo (m_a m)); [lia | reflexivity].
  - cbn [Nat.add extend_left].
    destruct (Z.ltb_spec alo (m_a m)); [|reflexivity].
    destruct (_ && _ && _ && _)%bool; [|reflexivity].
    apply IH. cbn [m_a]. lia.
Qed.

Lemma extend_right_fuel (n k : nat) (P : char -> bool) (a b : str) (m : Match) :
  (Z.to_nat (ahi - (m_a m + m_size m)) <= n)%nat ->
  extend_right (n + k) P a b ahi bhi m = extend_right n P a b ahi bhi m.
Proof.
  revert m. induction n as [|n IH]; intros m Hm.
  - destruct k as [|k]; [reflexivity|]. cbn [Nat.add extend_right].
    destruct (Z.ltb_spec (m_a m + m_size m) ahi); [lia | reflexivity].
  - cbn [Nat.add extend_right].
    destruct (Z.ltb_spec (m_a m + m_size m) ahi); [|reflexivity].
    destruct (_ && _ && _ && _)%bool; [|reflexivity].
    apply IH. cbn [m_a m_size]. lia.
Qed.

Lemma find_longest_match_inside (a b : str) (b2j : b2j_t) :
  alo <= ahi -> blo <= bhi ->
  inside ahi (find_longest_match a b b2j alo ahi blo bhi).
Proof.
  intros Ha Hb. unfold find_longest_match.
  apply extend_right_inside, extend_left_inside, extend_right_inside,
    extend_left_inside.
  replace ahi with (alo + Z.of_nat (Z.to_nat (ahi - alo))) at 1 by lia.
  apply rows_inside.
  - lia.
  - apply lengths_ok_nil. lia.
  - unfold inside. simpl. lia.
Qed.

End Region.

(** ** The queue of regions *)

Definition region_ok (r : region) : Prop :=
  let '(alo, ahi, blo, bhi) := r in alo <= ahi /\ blo <= bhi.

Definition width_a (r : region) : Z := let '(alo, ahi, _, _) := r in ahi - alo.
Definition width_b (r : region) : Z := let '(_, _, blo, bhi) := r in bhi - blo.

Definition room_a (q : list region) : Z := sum (map width_a q).
Definition room_b (q : list region) : Z := sum (map width_b q).

(** The number of passes the loop may still need. *)
Definition passes (q : list region) : Z := sum (map (fun r => 2 * width_a r + 1) q).

Lemma room_a_cons r q : room_a (r :: q) = width_a r + room_a q.
Proof. apply sum_cons. Qed.
Lemma room_b_cons r q : room_b (r :: q) = width_b r + room_b q.
Proof. apply sum_cons. Qed.
Lemma passes_cons r q : passes (r :: q) = 2 * width_a r + 1 + passes q.
Proof. apply sum_cons. Qed.

Lemma passes_nonneg (q : list region) : Forall region_ok q -> 0 <= passes q.
Proof.
  induction 1 as [|[[[alo ahi] blo] bhi] q [H1 H2] Hq IH].
  - unfold passes, sum. simpl. lia.
  - rewrite passes_cons. cbn [width_a]. lia.
Qed.

(** The queue after a pass that found the block [x] in the region. *)
Definition next_queue (alo ahi blo bhi : Z) (x : Match) (queue : list region)
  : list region :=
  let i := m_a x in
  let j := m_b x in
  let k := m_size x in
  let queue := if ((alo <? i) && (blo <? j))%bool
               then (alo, i, blo, j) :: queue else queue in
  if ((i + k <? ahi) && (j + k <? bhi))%bool
  then (i + k, ahi, j + k, bhi) :: queue else queue.

Lemma next_queue_facts (alo ahi blo bhi : Z) (x : Match) (queue : list region) :
  inside alo blo bhi ahi x -> m_size x <> 0 -> Forall region_ok queue ->
  let q' := next_queue alo ahi blo bhi x queue in
  Forall region_ok q'
  /\ m_size x + room_a q' <= (ahi - alo) + room_a queue
  /\ m_size x + room_b q' <= (bhi - blo) + room_b queue
  /\ passes q' < 2 * (ahi - alo) + 1 + passes queue.
Proof.
  intros (H1 & H2 & H3 & H4 & H5) Hk Hq. unfold next_queue.
  destruct (Z.ltb_spec alo (m_a x)); destruct (Z.ltb_spec blo (m_b x));
    destruct (Z.ltb_spec (m_a x + m_size x) ahi);
    destruct (Z.ltb_spec (m_b x + m_size x) bhi); cbn [andb];
    rewrite ?room_a_cons, ?room_b_cons, ?passes_cons; cbn [width_a width_b];
    (split; [repeat (apply Forall_cons; [simpl; lia|]); exact Hq | lia]).
Qed.

Lemma blocks_loop_step (f : nat) (a b : str) (b2j : b2j_t) (alo ahi blo bhi : Z)
  (queue : list region) (acc : list Match) :
  blocks_loop (S f) a b b2j ((alo, ahi, blo, bhi) :: queue) acc =
  let x := find_longest_match a b b2j alo ahi blo bhi in
  if m_size x =? 0 then blocks_loop f a b b2j queue acc
  else blocks_loop f a b b2j (next_queue alo ahi blo bhi x queue) (acc ++ [x]).
Proof. reflexivity. Qed.

(** The loop ends before its fuel does. *)
Lemma blocks_loop_terminates (fuel : nat) (a b : str) (b2j : b2j_t)
  (queue : list region) (acc : list Match) :
  Forall region_ok queue -> passes queue <= Z.of_nat fuel ->
  exists r, blocks_loop fuel a b b2j queue acc = Some r.
Proof.
  revert queue acc. induction fuel as [|f IH]; intros queue acc Hq Hp.
  - destruct queue as [|r queue].
    + simpl. eauto.
    + inversion Hq as [|? ? Hr Hq']; subst.
      pose proof (passes_nonneg Hq') as Hn. rewrite passes_cons in Hp.
      destruct r as [[[alo ahi] blo] bhi]. cbn [width_a] in Hp.
      destruct Hr as [Hr _]. lia.
  - destruct queue as [|[[[alo ahi] blo] bhi] queue].
    + simpl. eauto.
    + inversion Hq as [|? ? Hr0 Hq']; subst. destruct Hr0 as [Hr1 Hr2].
      rewrite blocks_loop_step. cbv zeta.
      pose proof (find_longest_match_inside a b b2j Hr1 Hr2) as Hin.
      rewrite passes_cons in Hp. cbn [width_a] in Hp.
      destruct (Z.eqb_spec (m_size (find_longest_match a b b2j alo ahi blo bhi)) 0) as [E|E].
      * apply IH; auto. lia.
      * destruct (next_queue_facts Hin E Hq') as (F1 & _ & _ & F4).
        apply IH; auto. lia.
Qed.

(** The blocks found take their elements from the regions of the queue. *)
Lemma blocks_loop_total (fuel : nat) (a b : str) (b2j : b2j_t)
  (queue : list region) (acc r : list Match) :
  Forall region_ok queue ->
  blocks_loop fuel a b b2j queue acc = Some r ->
  total acc <= total r
  /\ total r <= total acc + room_a queue
  /\ total r <= total acc + room_b queue.
Proof.
  revert queue acc. induction fuel as [|f IH]; intros queue acc Hq Hr.
  - destruct queue as [|[[[alo ahi] blo] bhi] queue]; simpl in Hr; [|discriminate].
    injection Hr as <-. unfold room_a, room_b, sum. simpl. lia.
  - destruct queue as [|[[[alo ahi] blo] bhi] queue].
    + simpl in Hr. injection Hr as <-. unfold room_a, room_b, sum. simpl. lia.
    + inversion Hq as [|? ? Hr0 Hq']; subst. destruct Hr0 as [Hr1 Hr2].
      rewrite blocks_loop_step in Hr. cbv zeta in Hr.
      pose proof (find_longest_match_inside a b b2j Hr1 Hr2) as Hin.
      rewrite room_a_cons, room_b_cons. cbn [width_a width_b].
      destruct (Z.eqb_spec (m_size (find_longest_match a b b2j alo ahi blo bhi)) 0) as [E|E].
      * destruct (IH _ _ Hq' Hr) as (G1 & G2 & G3). lia.
      * destruct (next_queue_facts Hin E Hq') as (F1 & F2 & F3 & _).
        destruct (IH _ _ F1 Hr) as (G1 & G2 & G3).
        destruct Hin as (_ & _ & _ & _ & Hk).
        rewrite total_app, total_cons in G1, G2, G3.
        change (total []) with 0 in *. lia.
Qed.

(** ** Sorting and merging keep the total *)

Lemma insert_block_total (x : Match) (l : list Match) :
  total (insert_block x l) = m_size x + total l.
Proof.
  induction l as [|y l IH]; cbn [insert_block].
  - apply total_cons.
  - destruct (match_leb x y).
    + now rewrite !total_cons.
    + rewrite !total_cons, IH. lia.
Qed.

Lemma sort_blocks_total (l : list Match) : total (sort_blocks l) = total l.
Proof.
  induction l as [|x l IH]; cbn [sort_blocks fold_right]; auto.
  fold (sort_blocks l). rewrite insert_block_total, total_cons, IH. reflexivity.
Qed.

Lemma collapse_total (blocks : list Match) (cur : Match) (acc : list Match) :
  total (collapse blocks cur acc) = total acc + m_size cur + total blocks.
Proof.
  revert cur acc. induction blocks as [|x r IH]; intros cur acc.
  - cbn [collapse]. change (total []) with 0.
    destruct (Z.eqb_spec (m_size cur) 0) as [E|E].
    + lia.
    + rewrite total_app, total_cons. change (total []) with 0. lia.
  - cbn [collapse]. rewrite total_cons.
    destruct ((m_a cur + m_size cur =? m_a x) && (m_b cur + m_size cur =? m_b x))%bool.
    + rewrite IH. simpl. lia.
    + rewrite IH. destruct (Z.eqb_spec (m_size cur) 0) as [E|E].
      * lia.
      * rewrite total_app, total_cons. change (total []) with 0. lia.
Qed.

(** ** The matcher as a whole *)

(** [get_matching_blocks] returns: the fuel it is given is enough. *)
Lemma get_matching_blocks_terminates (a b : str) :
  exists l, get_matching_blocks_fuel a b = Some l.
Proof.
  unfold get_matching_blocks_fuel.
  destruct (@blocks_loop_terminates (2 * length a + 1) a b (chain_b b)
              [(0, len a, 0, len b)] []) as [r Hr].
  - constructor; [|constructor]. unfold len. split; lia.
  - rewrite passes_cons. change (passes []) with 0. cbn [width_a].
    unfold len. lia.
  - rewrite Hr. eauto.
Qed.

(** The number of matched characters is at most the length of either string. *)
Lemma matches_bounds (a b : str) :
  let matches := sum (map m_size (get_matching_blocks a b)) in
  0 <= matches /\ matches <= len a /\ matches <= len b.
Proof.
  cbv zeta. fold (total (get_matching_blocks a b)).
  unfold get_matching_blocks, get_matching_blocks_fuel.
  destruct (blocks_loop (2 * length a + 1) a b (chain_b b) [(0, len a, 0, len b)] [])
    as [r|] eqn:Hr.
  - apply blocks_loop_total in Hr.
    + rewrite total_app, collapse_total, sort_blocks_total, total_cons.
      rewrite room_a_cons, room_b_cons in Hr. cbn [width_a width_b] in Hr.
      change (room_a []) with 0 in Hr. change (room_b []) with 0 in Hr.
      change (total []) with 0 in *. cbn [m_size]. lia.
    + constructor; [|constructor]. unfold len. split; lia.
  - change (total []) with 0. unfold len. lia.
Qed.

Lemma calculate_ratio_range (matches length : Z) :
  0 <= matches -> 2 * matches <= length ->
  (0 <= calculate_ratio matches length <= 1)%Q.
Proof.
  intros H0 H1. unfold calculate_ratio.
  destruct (Z.eqb_spec length 0) as [E|E].
  - split; discriminate.
  - assert (Hl : (0 < inject_Z length)%Q).
    { rewrite <- (Zlt_Qlt 0). lia. } 
    split.
    + apply Qle_shift_div_l; auto. rewrite Qmult_0_l.
      change (2 # 1) with (inject_Z 2). rewrite <- inject_Z_mult.
      rewrite <- (Zle_Qle 0). lia.
    + apply Qle_shift_div_r; auto. rewrite Qmult_1_l.
      change (2 # 1) with (inject_Z 2). rewrite <- inject_Z_mult.
      rewrite <- Zle_Qle. lia.
Qed.

Lemma ratio_range (a b : str) : (0 <= ratio a b <= 1)%Q.
Proof.
  unfold ratio. pose proof (matches_bounds a b) as (H0 & H1 & H2).
  apply calculate_ratio_range; lia.
Qed.

End DifflibFacts.

(* ================================================================== *)
(** * Similarity and fuzzy matching of names *)

Module MatchingFacts.
Import Py Utilities ExtractPDFdata.

Lemma Qltb_lt (x y : Q) : Qltb x y = true <-> (x < y)%Q.
Proof.
  unfold Qltb. rewrite negb_true_iff. split.
  - intros H. apply Qnot_le_lt. intros Hle.
    apply Qle_bool_iff in Hle. congruence.
  - intros H. destruct (Qle_bool y x) eqn:E; auto.
    apply Qle_bool_iff in E. exfalso. exact (Qlt_not_le _ _ H E).
Qed.

Lemma Qltb_ge (x y : Q) : Qltb x y = false <-> (y <= x)%Q.
Proof.
  unfold Qltb. rewrite negb_false_iff. apply Qle_bool_iff.
Qed.

Lemma similarity_range (a b : str) : (0 <= similarity a b <= 1)%Q.
Proof.
  unfold similarity. destruct a, b; try apply DifflibFacts.ratio_range.
  split; discriminate.
Qed.

Lemma score_person_range (c k : str) : (0 <= score_person c k <= 1)%Q.
Proof. apply DifflibFacts.ratio_range. Qed.

Definition tide : str := of_string "tide".
Definition diet : str := of_string "diet".

(** C9, as stated, fails: the similarity of two texts depends on their
    order. [similarity("tide", "diet")] is 0.25 and
    [similarity("diet", "tide")] is 0.5. *)
Lemma similarity_not_symmetric :
  (similarity tide diet == 1 # 4)%Q /\ (similarity diet tide == 1 # 2)%Q
  /\ ~ (similarity tide diet == similarity diet tide)%Q.
Proof.
  assert (H1 : (similarity tide diet == 1 # 4)%Q) by (vm_compute; reflexivity).
  assert (H2 : (similarity diet tide == 1 # 2)%Q) by (vm_compute; reflexivity).
  split; [exact H1 | split; [exact H2 |]].
  rewrite H1, H2. discriminate.
Qed.

(** C9, amended. The pairwise text similarity is bounded: for all strings
    [a] and [b] it lies in the range [0, 1], and it is 1 when both are
    empty. (It is not symmetric.) *)
Theorem similarity_bounded (a b : str) :
  (0 <= similarity a b <= 1)%Q /\ similarity [] [] = 1%Q.
Proof. split; [apply similarity_range | reflexivity]. Qed.

(** ** canonicalize_person *)

(** The scores of a name against every alias of every identity. *)
Definition all_scores (norm : str) (people_index : list person) : list Q :=
  flat_map (fun p => map (score_person norm) (p_names p)) people_index.

(** The greatest element of a list of scores, 0 for the empty list. *)
Fixpoint greatest (scores : list Q) : Q :=
  match scores with
  | [] => 0%Q
  | s :: r => if Qle_bool (greatest r) s then s else greatest r
  end.

Definition best_score (norm : str) (people_index : list person) : Q :=
  greatest (all_scores norm people_index).

Lemma greatest_upper (scores : list Q) :
  (0 <= greatest scores)%Q /\ forall s, In s scores -> (s <= greatest scores)%Q.
Proof.
  induction scores as [|x r [IH0 IH]]; cbn [greatest].
  - split; [discriminate | intros s []].
  - destruct (Qle_bool (greatest r) x) eqn:E.
    + apply Qle_bool_iff in E. split.
      * eapply Qle_trans; eauto.
      * intros s [<- | Hs]; [apply Qle_refl|].
        eapply Qle_trans; [apply IH; exact Hs | exact E].
    + split; [exact IH0|]. intros s [<- | Hs]; [|auto].
      apply Qlt_le_weak, Qnot_le_lt. intros H.
      apply Qle_bool_iff in H. congruence.
Qed.

Lemma greatest_attained (scores : list Q) :
  greatest scores = 0%Q \/ In (greatest scores) scores.
Proof.
  induction scores as [|x r IH]; cbn [greatest]; auto.
  destruct (Qle_bool (greatest r) x); [right; left; reflexivity|].
  destruct IH as [IH | IH]; [left; exact IH | right; right; exact IH].
Qed.

Lemma greatest_ge_iff (scores : list Q) (t : Q) :
  (0 < t)%Q ->
  (t <= greatest scores)%Q <-> exists s, In s scores /\ (t <= s)%Q.
Proof.
  intros Ht. split.
  - intros H. destruct (greatest_attained scores) as [E | E].
    + rewrite E in H. exfalso. exact (Qlt_not_le _ _ Ht H).
    + eauto.
  - intros (s & Hs & Hts). eapply Qle_trans; [exact Hts|].
    apply greatest_upper. exact Hs.
Qed.

(** What the two loops leave in [(best_match, best_score)]: the running
    maximum, and a match as soon as one score has raised it. *)
Definition running_max (st0 : option person * Q) (scores : list Q)
  (st : option person * Q) : Prop :=
  (snd st0 <= snd st)%Q
  /\ (forall s, In s scores -> (s <= snd st)%Q)
  /\ (st = st0 \/ (fst st <> None /\ In (snd st) scores)).

Lemma running_max_nil st : running_max st [] st.
Proof. split; [apply Qle_refl | split; [intros s [] | left; reflexivity]]. Qed.

Lemma running_max_app st0 st1 st2 l1 l2 :
  running_max st0 l1 st1 -> running_max st1 l2 st2 -> running_max st0 (l1 ++ l2) st2.
Proof.
  intros (A1 & A2 & A3) (B1 & B2 & B3). split; [|split].
  - eapply Qle_trans; eauto.
  - intros s Hs. apply in_app_or in Hs. destruct Hs as [Hs | Hs].
    + eapply Qle_trans; [apply A2; exact Hs | exact B1].
    + apply B2. exact Hs.
  - destruct B3 as [-> | [B3 B4]].
    + destruct A3 as [-> | [A3 A4]]; [left; reflexivity | right].
      split; [exact A3 | apply in_or_app; left; exact A4].
    + right. split; [exact B3 | apply in_or_app; right; exact B4].
Qed.

Lemma scan_names_scanned (norm : str) (p : person) (st : option person * Q) :
  running_max st (map (score_person norm) (p_names p)) (scan_names norm p st).
Proof.
  unfold scan_names. revert st.
  induction (p_names p) as [|known r IH]; intros st; cbn [fold_left map].
  - apply running_max_nil.
  - eapply (@running_max_app st _ _ [score_person norm known]); [|apply IH].
    destruct (Qltb (snd st) (score_person norm known)) eqn:E.
    + apply Qltb_lt in E. split; [|split].
      * apply Qlt_le_weak. exact E.
      * intros s [<- | []]. apply Qle_refl.
      * right. split; [discriminate | left; reflexivity].
    + apply Qltb_ge in E. split; [apply Qle_refl | split; [|left; reflexivity]].
      intros s [<- | []]. exact E.
Qed.

Lemma scan_people_scanned (norm : str) (people_index : list person) :
  running_max (None, 0%Q) (all_scores norm people_index) (scan_people norm people_index).
Proof.
  unfold scan_people, all_scores. generalize (@None person, 0%Q) as st.
  induction people_index as [|p r IH]; intros st; cbn [fold_left flat_map].
  - apply running_max_nil.
  - eapply running_max_app; [apply scan_names_scanned | apply IH].
Qed.

(** The loops compute the greatest score. *)
Lemma scan_people_best (norm : str) (people_index : list person) :
  (snd (scan_people norm people_index) == best_score norm people_index)%Q.
Proof.
  destruct (scan_people_scanned norm people_index) as (H0 & H1 & H2).
  destruct (greatest_upper (all_scores norm people_index)) as [G0 G1].
  unfold best_score. apply Qle_antisym.
  - destruct H2 as [-> | [_ H2]]; [exact G0 | apply G1; exact H2].
  - destruct (greatest_attained (all_scores norm people_index)) as [E | E].
    + rewrite E. exact H0.
    + apply H1. exact E.
Qed.

Lemma canonicalize_person_id (name : str) (people_index : list person) (threshold : Q) :
  (0 < threshold)%Q ->
  r_id (canonicalize_person name people_index threshold) <> None
  <-> (threshold <= best_score (normalize_text (strip_middle_initial name)) people_index)%Q.
Proof.
  intros Ht. unfold canonicalize_person.
  set (norm := normalize_text (strip_middle_initial name)).
  pose proof (scan_people_best norm people_index) as Hb.
  destruct (scan_people_scanned norm people_index) as (_ & _ & H2).
  destruct (scan_people norm people_index) as [best_match score].
  cbn [fst snd] in *. rewrite <- Hb.
  destruct best_match as [p|].
  - destruct (Qle_bool threshold score) eqn:E; cbn [r_id].
    + apply Qle_bool_iff in E. split; [auto | discriminate].
    + split; [congruence|]. intros H. apply Qle_bool_iff in H. congruence.
  - cbn [r_id]. split; [congruence|]. intros H.
    destruct H2 as [H2 | [H2 _]]; [|congruence].
    injection H2 as ->. exfalso. exact (Qlt_not_le _ _ Ht H).
Qed.

(** C5. [canonicalize_person] resolves a name (its [id] is not [None])
    exactly when the best fuzzy-match score over all aliases of all known
    identities is at least 0.85, that is, when some alias scores 0.85 or
    more. A best score of exactly 0.85 resolves; a best score below 0.85
    does not. *)
Theorem canonicalize_person_threshold (name : str) (people_index : list person) :
  let norm := normalize_text (strip_middle_initial name) in
  let resolved := r_id (canonicalize_person name people_index threshold_085) <> None in
  (resolved <-> (threshold_085 <= best_score norm people_index)%Q)
  /\ (resolved <-> exists p known, In p people_index /\ In known (p_names p)
                                   /\ (threshold_085 <= score_person norm known)%Q)
  /\ ((best_score norm people_index == threshold_085)%Q -> resolved)
  /\ ((best_score norm people_index < threshold_085)%Q -> ~ resolved).
Proof.
  intros norm resolved.
  assert (Ht : (0 < threshold_085)%Q) by reflexivity.
  assert (H : resolved <-> (threshold_085 <= best_score norm people_index)%Q)
    by (apply canonicalize_person_id; exact Ht).
  split; [exact H | split; [|split]].
  - rewrite H. unfold best_score. rewrite (greatest_ge_iff _ Ht). split.
    + intros (s & Hs & Hts). unfold all_scores in Hs.
      apply in_flat_map in Hs. destruct Hs as (p & Hp & Hs).
      apply in_map_iff in Hs. destruct Hs as (known & <- & Hk). eauto.
    + intros (p & known & Hp & Hk & Hts). exists (score_person norm known).
      split; [|exact Hts]. unfold all_scores. apply in_flat_map.
      exists p. split; [exact Hp | apply in_map; exact Hk].
  - intros E. apply H. rewrite E. apply Qle_refl.
  - intros E Hr. apply H in Hr. exact (Qlt_not_le _ _ E Hr).
Qed.

(** A name whose best score is exactly 0.85 (17 of 20 characters shared
    with an alias of the same length), and one just below. *)
Definition people_example : list person :=
  [ {| p_id := of_string "p1"; p_names := [of_string "abcdefghijklmnopq123"] |} ].

Example canonicalize_person_at_085 :
  (best_score (of_string "abcdefghijklmnopqxyz") people_example == threshold_085)%Q
  /\ r_id (canonicalize_person (of_string "abcdefghijklmnopqxyz") people_example
             threshold_085) = Some (of_string "p1").
Proof. split; vm_compute; reflexivity. Qed.

Example canonicalize_person_below_085 :
  (best_score (of_string "abcdefghijklmnopwxyz") people_example == 4 # 5)%Q
  /\ r_id (canonicalize_person (of_string "abcdefghijklmnopwxyz") people_example
             threshold_085) = None.
Proof. split; vm_compute; reflexivity. Qed.

End MatchingFacts.

(* ================================================================== *)
(** * Clustering of unresolved names *)

Module ClusterFacts.
Import Py Utilities ExtractPDFdata MatchingFacts.

(** The policy of the design document, with the comparison written as
    given there ([cmp] is "scores at least 0.85") or as the code has it
    ("scores more than 0.85"): [name] joins the first cluster whose first
    member passes [cmp] against it, and starts a cluster of its own when
    there is none. *)
Inductive joins (cmp : Q -> bool) (name : str)
  : list (list str) -> list (list str) -> Prop :=
| joins_here first rest others :
    cmp (score_person name first) = true ->
    joins cmp name ((first :: rest) :: others)
                   ((first :: rest ++ [name]) :: others)
| joins_later first rest others others' :
    cmp (score_person name first) = false ->
    joins cmp name others others' ->
    joins cmp name ((first :: rest) :: others) ((first :: rest) :: others')
| joins_new :
    joins cmp name [] [[name]].

Inductive clustered (cmp : Q -> bool) : list str -> list (list str) -> Prop :=
| clustered_nil : clustered cmp [] []
| clustered_snoc names name clusters clusters' :
    clustered cmp names clusters ->
    joins cmp name clusters clusters' ->
    clustered cmp (names ++ [name]) clusters'.

(** "scores at least 0.85" and "scores more than 0.85". *)
Definition at_least_085 (score : Q) : bool := Qle_bool threshold_085 score.
Definition more_than_085 (score : Q) : bool := Qltb threshold_085 score.

Lemma joins_nonempty cmp name clusters clusters' :
  joins cmp name clusters clusters' ->
  Forall (fun c => c <> []) clusters -> Forall (fun c => c <> []) clusters'.
Proof.
  induction 1 as [first rest others H | first rest others others' H1 H2 IH |];
    intros Hne.
  - inversion Hne; subst. constructor; [discriminate | assumption].
  - inversion Hne; subst. constructor; auto.
  - constructor; [discriminate | constructor].
Qed.

Lemma joins_functional cmp name clusters c1 c2 :
  joins cmp name clusters c1 -> joins cmp name clusters c2 -> c1 = c2.
Proof.
  intros H. revert c2.
  induction H as [first rest others H | first rest others others' H1 H2 IH |];
    intros c2 H'; inversion H'; subst; try congruence.
  f_equal. apply IH. assumption.
Qed.

(** One pass of the outer loop of [cluster_people]. *)
Definition cluster_step (clusters : list (list str)) (name : str)
  : result (list (list str)) :=
  r <- place name clusters ;;
  Ok (match r with
      | Some clusters' => clusters'
      | None => clusters ++ [[name]]
      end).

Lemma place_joins (name : str) (clusters : list (list str)) :
  Forall (fun c => c <> []) clusters ->
  exists clusters',
    cluster_step clusters name = Ok clusters'
    /\ joins more_than_085 name clusters clusters'.
Proof.
  unfold cluster_step.
  induction clusters as [|c others IH]; intros Hne.
  - cbn. eexists. split; [reflexivity | constructor].
  - inversion Hne as [|? ? Hc Ho]; subst. destruct c as [|first rest]; [congruence|].
    cbn [place].
    destruct (Qltb threshold_085 (score_person name first)) eqn:E.
    + cbn. eexists. split; [reflexivity|]. apply joins_here. exact E.
    + destruct (IH Ho) as (clusters' & H1 & H2).
      destruct (place name others) as [[placed|]|e]; cbn in H1 |- *;
        try discriminate; injection H1 as <-;
        (eexists; split; [reflexivity | apply joins_later; [exact E | exact H2]]).
Qed.

Lemma for_each_snoc {A S : Type} (body : S -> A -> result S) (xs : list A) (x : A) (s : S) :
  for_each body (xs ++ [x]) s = (s' <- for_each body xs s ;; body s' x).
Proof.
  revert s. induction xs as [|y xs IH]; intros s; cbn.
  - destruct (body s x); reflexivity.
  - destruct (body s y); cbn; auto.
Qed.

Lemma cluster_people_clustered (unresolved : list str) :
  exists clusters,
    cluster_people unresolved = Ok clusters
    /\ clustered more_than_085 unresolved clusters
    /\ Forall (fun c => c <> []) clusters.
Proof.
  unfold cluster_people. fold cluster_step.
  change (fun clusters name => cluster_step clusters name) with cluster_step.
  induction unresolved as [|name names IH] using rev_ind.
  - exists []. cbn. repeat split; constructor.
  - destruct IH as (clusters & H1 & H2 & H3).
    rewrite for_each_snoc, H1. cbn [bind].
    destruct (place_joins name H3) as (clusters' & G1 & G2).
    exists clusters'. split; [exact G1 | split].
    + econstructor; eauto.
    + eapply joins_nonempty; eauto.
Qed.

Lemma clustered_functional cmp names c1 c2 :
  clustered cmp names c1 -> clustered cmp names c2 -> c1 = c2.
Proof.
  intros H. revert c2.
  induction H as [|names name clusters clusters' H IH Hj]; intros c2 H'.
  - inversion H' as [|names' name' ? ? ? ? E]; [reflexivity|].
    destruct names'; discriminate.
  - inversion H' as [E|names' name' cl cl' Hc Hj' E]; subst.
    + destruct names; discriminate.
    + apply app_inj_tail in E. destruct E as [-> ->].
      rewrite (IH _ Hc) in Hj. eapply joins_functional; eauto.
Qed.

Definition name1 : str := of_string "abcdefghijklmnopq123".
Definition name2 : str := of_string "abcdefghijklmnopqxyz".

(** C6, as stated, fails on the boundary: [name2] scores exactly 0.85
    against [name1], the first member of the only cluster, and yet it does
    not join that cluster. *)
Lemma cluster_people_splits_at_085 :
  (score_person name2 name1 == threshold_085)%Q
  /\ cluster_people [name1; name2] = Ok [[name1]; [name2]]
  /\ clustered at_least_085 [name1; name2] [[name1; name2]]
  /\ ~ clustered at_least_085 [name1; name2] [[name1]; [name2]].
Proof.
  assert (H : clustered at_least_085 [name1; name2] [[name1; name2]]).
  { apply (@clustered_snoc at_least_085 [name1] name2 [[name1]]).
    - apply (@clustered_snoc at_least_085 [] name1 []); constructor.
    - apply (@joins_here at_least_085 name2 name1 []). vm_compute. reflexivity. }
  split; [vm_compute; reflexivity | split; [vm_compute; reflexivity | split]].
  - exact H.
  - intros H'. pose proof (clustered_functional H H') as E. discriminate E.
Qed.

(** C6, amended. For every list of unresolved names, [cluster_people]
    returns, and it places each name, in turn, into the first existing
    cluster whose first member scores more than 0.85 against it, and
    starts a new cluster otherwise; a name that scores exactly 0.85 against
    the first member of a cluster does not join that cluster. *)
Theorem cluster_people_policy (unresolved : list str) :
  (exists clusters,
      cluster_people unresolved = Ok clusters
      /\ clustered more_than_085 unresolved clusters)
  /\ (forall first rest others name others',
         (score_person name first == threshold_085)%Q ->
         joins more_than_085 name ((first :: rest) :: others) others' ->
         exists tail, others' = (first :: rest) :: tail
                      /\ joins more_than_085 name others tail).
Proof.
  split.
  - destruct (cluster_people_clustered unresolved) as (clusters & H1 & H2 & _).
    eauto.
  - intros first rest others name others' Hs Hj.
    inversion Hj as [? ? ? Hc | ? ? ? tail Hc Ht |]; subst.
    + exfalso. unfold more_than_085 in Hc. apply Qltb_lt in Hc.
      rewrite Hs in Hc. exact (Qlt_irrefl _ Hc).
    + eauto.
Qed.

End ClusterFacts.

(* ================================================================== *)
(** * The duplicate report *)

Module ReportFacts.
Import Py Utilities ExtractPDFdata MatchingFacts.

Lemma mem_In (p : str) (l : list str) : mem p l = true <-> In p l.
Proof. unfold mem. destruct (in_dec str_eq_dec p l); split; auto; discriminate. Qed.

Lemma mem_not_In (p : str) (l : list str) : mem p l = false <-> ~ In p l.
Proof. unfold mem. destruct (in_dec str_eq_dec p l); split; auto; try discriminate; tauto. Qed.

Lemma fold_left_invariant {A S : Type} (f : S -> A -> S) (P : S -> Prop) (l : list A) (s : S) :
  P s -> (forall s x, In x l -> P s -> P (f s x)) -> P (fold_left f l s).
Proof.
  revert s. induction l as [|x l IH]; intros s Hs Hstep; cbn [fold_left]; auto.
  apply IH.
  - apply Hstep; [left; reflexivity | exact Hs].
  - intros s' y Hy. apply Hstep. right. exact Hy.
Qed.

(** ** Refinement of a candidate set *)

Lemma refine_In (t : Q) (anchor : item) (candidates : list item) (x : item) :
  In x (refine t anchor candidates)
  <-> x = anchor
      \/ (In x candidates /\ (t <= similarity (text anchor) (text x))%Q).
Proof.
  unfold refine. cbn [In]. rewrite filter_In, Qle_bool_iff.
  split; intros [H | H]; auto.
Qed.

(** C8. Admission to a refined group is antitone in the partial threshold:
    for a fixed anchor and a fixed list of candidates, every document
    admitted at the threshold [t'] is admitted at every threshold
    [t <= t']. *)
Theorem refine_antitone (t t' : Q) (anchor : item) (candidates : list item) (x : item) :
  (t <= t')%Q ->
  In x (refine t' anchor candidates) -> In x (refine t anchor candidates).
Proof.
  intros Ht Hx. apply refine_In in Hx. apply refine_In.
  destruct Hx as [Hx | [Hx Hs]]; [left; exact Hx | right].
  split; [exact Hx | eapply Qle_trans; eauto].
Qed.

(** ** The kind of a near or partial group *)

Lemma In_enumerate_from {A : Type} (k : nat) (l : list A) (i : nat) (x : A) :
  In (i, x) (enumerate_from k l) <-> (k <= i)%nat /\ nth_error l (i - k) = Some x.
Proof.
  revert k. induction l as [|y l IH]; intros k; cbn [enumerate_from In].
  - split; [intros [] | intros [_ H]]. destruct (i - k)%nat; discriminate.
  - rewrite IH. split.
    + intros [H | [H1 H2]].
      * injection H as <- <-. split; [lia|]. now rewrite Nat.sub_diag.
      * split; [lia|]. replace (i - k)%nat with (S (i - S k)) by lia. exact H2.
    + intros [H1 H2]. destruct (Nat.eq_dec i k) as [->|Hne].
      * left. rewrite Nat.sub_diag in H2. cbn in H2. congruence.
      * right. split; [lia|].
        replace (i - k)%nat with (S (i - S k)) in H2 by lia. exact H2.
Qed.

Lemma In_enumerate {A : Type} (l : list A) (i : nat) (x : A) :
  In (i, x) (enumerate l) <-> nth_error l i = Some x.
Proof.
  unfold enumerate. rewrite In_enumerate_from, Nat.sub_0_r.
  split; [tauto | split; [lia | assumption]].
Qed.

(** The similarities of the ordered pairs of distinct members of a list,
    [txt] giving the text of a member. *)
Definition pair_similarities {A : Type} (txt : A -> str) (members : list A) : list Q :=
  flat_map
    (fun ia =>
       map (fun ib => similarity (txt (snd ia)) (txt (snd ib)))
           (filter (fun ib => negb (Nat.eqb (fst ia) (fst ib))) (enumerate members)))
    (enumerate members).

(** The maximum pairwise similarity among the members of a group. *)
Definition max_pairwise_similarity (files : list file_entry) : Q :=
  greatest (pair_similarities f_text files).

Lemma In_pair_similarities {A : Type} (txt : A -> str) (members : list A) (s : Q) :
  In s (pair_similarities txt members)
  <-> exists i j a b, i <> j /\ nth_error members i = Some a
                      /\ nth_error members j = Some b
                      /\ s = similarity (txt a) (txt b).
Proof.
  unfold pair_similarities. rewrite in_flat_map. split.
  - intros ([i a] & Ha & Hs). apply in_map_iff in Hs.
    destruct Hs as ([j b] & <- & Hb). apply filter_In in Hb.
    destruct Hb as [Hb Hij]. cbn [fst snd] in *.
    apply negb_true_iff, Nat.eqb_neq in Hij.
    apply In_enumerate in Ha, Hb. exists i, j, a, b. auto.
  - intros (i & j & a & b & Hij & Ha & Hb & ->).
    exists (i, a). split; [apply In_enumerate; exact Ha|].
    apply in_map_iff. exists (j, b). split; [reflexivity|].
    apply filter_In. split; [apply In_enumerate; exact Hb|].
    cbn [fst]. apply negb_true_iff, Nat.eqb_neq. exact Hij.
Qed.

Lemma enumerate_from_map {A B : Type} (f : A -> B) (k : nat) (l : list A) :
  enumerate_from k (map f l) = map (fun ix => (fst ix, f (snd ix))) (enumerate_from k l).
Proof.
  revert k. induction l as [|x l IH]; intros k; cbn; [reflexivity|].
  now rewrite IH.
Qed.

Lemma nth_error_map_Some {A B : Type} (f : A -> B) (l : list A) (i : nat) (y : B) :
  nth_error (map f l) i = Some y <-> exists x, nth_error l i = Some x /\ y = f x.
Proof.
  rewrite nth_error_map. destruct (nth_error l i) as [x|]; cbn; split.
  - intros H. injection H as <-. eauto.
  - intros (x' & H & ->). injection H as ->. reflexivity.
  - discriminate.
  - intros (x' & H & _). discriminate.
Qed.

Lemma pair_similarities_entries (members : list item) (s : Q) :
  In s (pair_similarities f_text (map entry_of members))
  <-> In s (pair_similarities text members).
Proof.
  rewrite !In_pair_similarities. split.
  - intros (i & j & a & b & Hij & Ha & Hb & ->).
    apply nth_error_map_Some in Ha, Hb.
    destruct Ha as (a' & Ha & ->). destruct Hb as (b' & Hb & ->).
    exists i, j, a', b'. auto.
  - intros (i & j & a & b & Hij & Ha & Hb & ->).
    exists i, j, (entry_of a), (entry_of b).
    repeat split; auto; apply nth_error_map_Some; eauto.
Qed.

(** The running maximum of a loop [max_sim = max(max_sim, s)]. *)
Lemma fold_max_spec (l : list Q) (acc : Q) :
  (acc <= fold_left max l acc)%Q
  /\ (forall s, In s l -> (s <= fold_left max l acc)%Q)
  /\ (fold_left max l acc = acc \/ In (fold_left max l acc) l).
Proof.
  revert acc. induction l as [|x l IH]; intros acc; cbn [fold_left].
  - split; [apply Qle_refl | split; [intros s [] | left; reflexivity]].
  - destruct (IH (max acc x)) as (H1 & H2 & H3).
    assert (Hm : (acc <= max acc x)%Q /\ (x <= max acc x)%Q
                 /\ (max acc x = acc \/ max acc x = x)).
    { unfold max. destruct (Qltb acc x) eqn:E.
      - apply Qltb_lt in E. split; [apply Qlt_le_weak; exact E|].
        split; [apply Qle_refl | right; reflexivity].
      - apply Qltb_ge in E. split; [apply Qle_refl|].
        split; [exact E | left; reflexivity]. }
    destruct Hm as (M1 & M2 & M3). split; [|split].
    + eapply Qle_trans; eauto.
    + intros s [<- | Hs]; [eapply Qle_trans; eauto | apply H2; exact Hs].
    + destruct H3 as [H3 | H3]; [|right; right; exact H3].
      rewrite H3. destruct M3 as [-> | ->]; [left | right; left]; reflexivity.
Qed.

Lemma max_fold_pairs (outer inner : list (nat * item)) (acc : Q) :
  fold_left
    (fun max_sim ia =>
       fold_left
         (fun max_sim ib =>
            if Nat.eqb (fst ia) (fst ib) then max_sim
            else max max_sim (similarity (text (snd ia)) (text (snd ib))))
         inner max_sim)
    outer acc
  = fold_left max
      (flat_map
         (fun ia =>
            map (fun ib => similarity (text (snd ia)) (text (snd ib)))
                (filter (fun ib => negb (Nat.eqb (fst ia) (fst ib))) inner))
         outer)
      acc.
Proof.
  revert acc. induction outer as [|ia outer IH]; intros acc.
  - reflexivity.
  - cbn [fold_left flat_map]. rewrite fold_left_app, IH. f_equal.
    clear IH. revert acc. induction inner as [|ib inner IH]; intros acc.
    + reflexivity.
    + cbn [fold_left filter]. destruct (Nat.eqb (fst ia) (fst ib)); cbn [negb].
      * apply IH.
      * cbn [map fold_left]. apply IH.
Qed.

Lemma max_similarity_fold (final_group : list item) :
  max_similarity final_group = fold_left max (pair_similarities text final_group) 0%Q.
Proof. apply max_fold_pairs. Qed.

Lemma max_similarity_greatest (final_group : list item) :
  (max_similarity final_group
   == max_pairwise_similarity (map entry_of final_group))%Q.
Proof.
  rewrite max_similarity_fold. unfold max_pairwise_similarity.
  destruct (fold_max_spec (pair_similarities text final_group) 0) as (F0 & F1 & F2).
  destruct (greatest_upper (pair_similarities f_text (map entry_of final_group)))
    as [G0 G1].
  apply Qle_antisym.
  - destruct F2 as [-> | F2]; [exact G0|].
    apply G1, pair_similarities_entries. exact F2.
  - destruct (greatest_attained (pair_similarities f_text (map entry_of final_group)))
      as [E | E].
    + rewrite E. exact F0.
    + apply F1, pair_similarities_entries. exact E.
Qed.

Lemma greatest_ge_nonempty (scores : list Q) (t : Q) :
  scores <> [] -> (forall s, In s scores -> (0 <= s)%Q) ->
  (t <= greatest scores)%Q <-> exists s, In s scores /\ (t <= s)%Q.
Proof.
  intros Hne Hpos. split.
  - intros H. destruct (greatest_attained scores) as [E | E]; [|eauto].
    destruct scores as [|s r]; [congruence|]. exists s.
    split; [left; reflexivity|]. rewrite E in H.
    eapply Qle_trans; [exact H | apply Hpos; left; reflexivity].
  - intros (s & Hs & Hts). eapply Qle_trans; [exact Hts|].
    apply greatest_upper. exact Hs.
Qed.

Lemma len_ge_2 {A : Type} (l : list A) :
  1 < len l -> exists x y r, l = x :: y :: r.
Proof.
  unfold len. destruct l as [|x [|y r]]; cbn; try lia. eauto.
Qed.

Lemma max_pairwise_ge (files : list file_entry) (t : Q) :
  1 < len files ->
  (t <= max_pairwise_similarity files)%Q
  <-> exists i j a b, i <> j /\ nth_error files i = Some a
                      /\ nth_error files j = Some b
                      /\ (t <= similarity (f_text a) (f_text b))%Q.
Proof.
  intros Hlen. unfold max_pairwise_similarity.
  rewrite greatest_ge_nonempty.
  - split.
    + intros (s & Hs & Hts). apply In_pair_similarities in Hs.
      destruct Hs as (i & j & a & b & Hij & Ha & Hb & ->).
      exists i, j, a, b. auto.
    + intros (i & j & a & b & Hij & Ha & Hb & Hts).
      exists (similarity (f_text a) (f_text b)). split; [|exact Hts].
      apply In_pair_similarities. exists i, j, a, b. auto.
  - destruct (len_ge_2 files Hlen) as (x & y & r & ->). intros E.
    assert (H : In (similarity (f_text x) (f_text y))
                   (pair_similarities f_text (x :: y :: r))).
    { apply In_pair_similarities. exists 0%nat, 1%nat, x, y. auto. }
    rewrite E in H. exact H.
  - intros s Hs. apply In_pair_similarities in Hs.
    destruct Hs as (i & j & a & b & _ & _ & _ & ->). apply similarity_range.
Qed.

Lemma group_type_near (near_thresh : Q) (final_group : list item) :
  group_type near_thresh final_group = near
  <-> (near_thresh <= max_pairwise_similarity (map entry_of final_group))%Q.
Proof.
  unfold group_type. rewrite <- max_similarity_greatest.
  destruct (Qle_bool near_thresh (max_similarity final_group)) eqn:E.
  - apply Qle_bool_iff in E. tauto.
  - split; [discriminate|]. intros H. apply Qle_bool_iff in H. congruence.
Qed.

Lemma group_type_partial (near_thresh : Q) (final_group : list item) :
  group_type near_thresh final_group = partial
  <-> ~ (near_thresh <= max_pairwise_similarity (map entry_of final_group))%Q.
Proof.
  rewrite <- group_type_near. unfold group_type.
  destruct (Qle_bool _ _); split; try congruence; try discriminate; tauto.
Qed.

(** ** What the loops of [build_report] establish *)

(** What the second loop stores for a file. *)
Record fingerprinted (w : world) (num_perm : Z) (it : item) : Prop := {
  fp_sha : exists bytes, open_rb w (path it) = Some bytes
                         /\ sha256 it = sha256_hexdigest w bytes;
  fp_minhash : build_minhash w (extract_text_from_pdf w (path it)) num_perm
               = Ok (minhash it);
  fp_text : text it = normalize_text (extract_text_from_pdf w (path it));
  fp_pages : pages it = pdf_num_pages w (path it);
  fp_size : size it = match stat_size w (path it) with Some n => n | None => 0 end
}.

Lemma fingerprint_all_files (w : world) (num_perm : Z) (files : list str) (items : list item) :
  fingerprint_all w num_perm (basic_metadata w files) = Ok items ->
  Forall (fingerprinted w num_perm) items /\ map path items = files.
Proof.
  revert items. induction files as [|p files IH]; intros items H.
  - cbn in H. injection H as <-. split; [constructor | reflexivity].
  - cbn [basic_metadata map fingerprint_all] in H.
    unfold fingerprint at 1, sha256_file in H. cbn [b_path b_name b_size] in H.
    destruct (open_rb w p) as [bytes|] eqn:Eo; cbn [bind] in H; [|discriminate].
    destruct (build_minhash w (extract_text_from_pdf w p) num_perm) as [m|e] eqn:Em;
      cbn [bind] in H; [|discriminate].
    fold (basic_metadata w files) in H.
    destruct (fingerprint_all w num_perm (basic_metadata w files)) as [rest|e];
      cbn [bind] in H; [|discriminate].
    injection H as <-. destruct (IH rest eq_refl) as [IH1 IH2]. split.
    + constructor; [|exact IH1].
      constructor; cbn [path sha256 minhash text pages size]; eauto.
    + cbn [map path]. now rewrite IH2.
Qed.

Lemma same_path_same_sha (w : world) (num_perm : Z) (a b : item) :
  fingerprinted w num_perm a -> fingerprinted w num_perm b ->
  path a = path b -> sha256 a = sha256 b.
Proof.
  intros [(x & Hx & ->) _ _ _ _] [(y & Hy & ->) _ _ _ _] E.
  rewrite E in Hx. congruence.
Qed.

(** The documents of a run: the input paths that pass the filter on the page
    count (all of them when [min_pages] is not positive). *)
Definition scanned_paths (w : world) (files : list str) (min_pages : Z) : list str :=
  if 0 <? min_pages
  then filter (fun p => min_pages <=? match pdf_num_pages w p with
                                      | Some n => n
                                      | None => 0
                                      end) files
  else files.

Lemma filter_min_pages_paths (w : world) (num_perm min_pages : Z) (items : list item) :
  Forall (fingerprinted w num_perm) items ->
  map path (filter_min_pages min_pages items)
  = scanned_paths w (map path items) min_pages.
Proof.
  unfold filter_min_pages, scanned_paths. destruct (0 <? min_pages); [|reflexivity].
  induction 1 as [|it items Hit _ IH]; [reflexivity|].
  cbn [filter map]. unfold has_min_pages at 1. rewrite (fp_pages Hit).
  destruct (min_pages <=? _); cbn [map]; now rewrite IH.
Qed.

Lemma filter_min_pages_incl (min_pages : Z) (items : list item) :
  incl (filter_min_pages min_pages items) items.
Proof.
  unfold filter_min_pages. destruct (0 <? min_pages); [|apply incl_refl].
  intros x Hx. apply filter_In in Hx. tauto.
Qed.

(** *** The dictionary of hashes *)

Definition sha_map_ok (items : list item) (m : list (str * list item)) : Prop :=
  NoDup (map fst m)
  /\ Forall (fun e => Forall (fun it => In it items /\ sha256 it = fst e) (snd e)) m.

Lemma setdefault_append_keys (m : list (str * list item)) (it : item) :
  (In (sha256 it) (map fst m) /\ map fst (setdefault_append m it) = map fst m)
  \/ (~ In (sha256 it) (map fst m)
      /\ map fst (setdefault_append m it) = map fst m ++ [sha256 it]).
Proof.
  induction m as [|[sha g] m IH]; cbn [setdefault_append map fst].
  - right. split; [intros [] | reflexivity].
  - destruct (str_eq_dec (sha256 it) sha) as [E | E]; cbn [map fst].
    + left. split; [left; auto | reflexivity].
    + destruct IH as [[H1 H2] | [H1 H2]].
      * left. split; [right; exact H1 | now rewrite H2].
      * right. split; [intros [H | H]; [congruence | tauto] | now rewrite H2].
Qed.

Lemma setdefault_append_ok (items : list item) (m : list (str * list item)) (it : item) :
  In it items -> sha_map_ok items m -> sha_map_ok items (setdefault_append m it).
Proof.
  intros Hit [Hnd Hall]. split.
  - destruct (setdefault_append_keys m it) as [[_ ->] | [Hn ->]]; [exact Hnd|].
    apply NoDup_app; [exact Hnd | repeat constructor; intros [] |].
    intros k Hk [<- | []]. exact (Hn Hk).
  - clear Hnd. induction Hall as [|[sha g] m Hg Hm IH]; cbn [setdefault_append].
    + repeat constructor; auto.
    + destruct (str_eq_dec (sha256 it) sha) as [E | E].
      * constructor; [|exact Hm]. cbn [fst snd] in *.
        apply Forall_app. split; [exact Hg | repeat constructor; auto].
      * constructor; [exact Hg | exact IH].
Qed.

Lemma build_sha_map_ok (items : list item) : sha_map_ok items (build_sha_map items).
Proof.
  unfold build_sha_map.
  apply fold_left_invariant with (P := sha_map_ok items).
  - split; constructor.
  - intros m it Hit Hm. apply setdefault_append_ok; assumption.
Qed.

(** *** Groups *)

Definition member (p : str) (g : group) : Prop := In p (map f_path (g_files g)).

Definition covered (groups : list group) (p : str) : Prop :=
  exists g, In g groups /\ member p g.

(** No path is a member of two groups of the list. *)
Definition disjoint (groups : list group) : Prop :=
  forall i j gi gj p,
    nth_error groups i = Some gi -> nth_error groups j = Some gj ->
    member p gi -> member p gj -> i = j.

(** A group of the report lists documents of the run; a group that is not
    exact has the kind that [group_type] gives its members. *)
Definition built_from (items : list item) (near_thresh : Q) (g : group) : Prop :=
  exists members,
    incl members items /\ 1 < len members
    /\ g_files g = map entry_of members
    /\ (g_type g = exact \/ g_type g = group_type near_thresh members).

Lemma paths_of_entries (members : list item) :
  map f_path (map entry_of members) = map path members.
Proof. rewrite map_map. reflexivity. Qed.

Lemma nth_error_snoc {A : Type} (l : list A) (x y : A) (i : nat) :
  nth_error (l ++ [x]) i = Some y ->
  (nth_error l i = Some y /\ (i < length l)%nat) \/ (i = length l /\ y = x).
Proof.
  intros H. destruct (Nat.lt_ge_cases i (length l)) as [Hlt | Hge].
  - left. rewrite nth_error_app1 in H by exact Hlt. auto.
  - right. rewrite nth_error_app2 in H by exact Hge.
    destruct (i - length l)%nat as [|n] eqn:E; cbn in H.
    + injection H as <-. split; [lia | reflexivity].
    + destruct n; discriminate.
Qed.

Lemma disjoint_snoc (groups : list group) (g : group) :
  disjoint groups -> (forall p, member p g -> ~ covered groups p) ->
  disjoint (groups ++ [g]).
Proof.
  intros Hd Hfresh i j gi gj p Hi Hj Mi Mj.
  apply nth_error_snoc in Hi, Hj.
  destruct Hi as [[Hi Li] | [-> ->]]; destruct Hj as [[Hj Lj] | [-> ->]].
  - eapply Hd; eauto.
  - exfalso. apply (Hfresh p Mj). exists gi. split; [|exact Mi].
    eapply nth_error_In; eauto.
  - exfalso. apply (Hfresh p Mi). exists gj. split; [|exact Mj].
    eapply nth_error_In; eauto.
  - reflexivity.
Qed.

Lemma covered_snoc (groups : list group) (g : group) (p : str) :
  covered (groups ++ [g]) p <-> covered groups p \/ member p g.
Proof.
  unfold covered. split.
  - intros (g' & Hg & Hm). apply in_app_or in Hg.
    destruct Hg as [Hg | [<- | []]]; eauto.
  - intros [(g' & Hg & Hm) | Hm].
    + exists g'. split; [apply in_or_app; left; exact Hg | exact Hm].
    + exists g. split; [apply in_or_app; right; left; reflexivity | exact Hm].
Qed.

(** *** The exact pass *)

Section ExactPass.
Variable items : list item.
Variable near_thresh : Q.
Hypothesis sha_of_path :
  forall a b, In a items -> In b items -> path a = path b -> sha256 a = sha256 b.

(** The state after the hashes [done] have been processed. *)
Definition exact_inv (done : list str) (st : list group * list str) : Prop :=
  disjoint (fst st)
  /\ (forall p, covered (fst st) p <-> In p (snd st))
  /\ (forall p, In p (snd st) ->
                exists it, In it items /\ path it = p /\ In (sha256 it) done)
  /\ Forall (built_from items near_thresh) (fst st).

Lemma exact_step_inv (done : list str) (st : list group * list str)
  (sha : str) (grp : list item) :
  exact_inv done st -> ~ In sha done ->
  Forall (fun it => In it items /\ sha256 it = sha) grp ->
  exact_inv (sha :: done) (exact_step st (sha, grp)).
Proof.
  intros (H1 & H2 & H3 & H4) Hnew Hgrp. destruct st as [groups seen].
  cbn [fst snd] in *. unfold exact_step.
  assert (Hweak : forall p, In p seen ->
            exists it, In it items /\ path it = p /\ In (sha256 it) (sha :: done)).
  { intros p Hp. destruct (H3 p Hp) as (it & A & B & C).
    exists it. repeat split; auto. right. exact C. }
  destruct (Z.ltb_spec 1 (len grp)) as [Hlen | Hlen];
    [|split; [exact H1 | split; [exact H2 | split; [exact Hweak | exact H4]]]].
  unfold exact_inv. cbn [fst snd].
  assert (Hpaths : forall p, member p {| g_type := exact; g_sha256 := Some sha;
                                         g_files := map entry_of grp |}
                             <-> In p (map path grp)).
  { intros p. unfold member. cbn [g_files]. now rewrite paths_of_entries. }
  split; [|split; [|split]].
  - apply disjoint_snoc; [exact H1|]. intros p Hp Hc.
    apply Hpaths in Hp. apply in_map_iff in Hp. destruct Hp as (it & <- & Hit).
    rewrite Forall_forall in Hgrp. destruct (Hgrp it Hit) as [Hi Hs].
    apply H2 in Hc. destruct (H3 _ Hc) as (it' & A & B & C).
    apply Hnew. rewrite <- Hs, <- (sha_of_path _ _ A Hi B). exact C.
  - intros p. rewrite covered_snoc, Hpaths, in_app_iff, H2. tauto.
  - intros p Hp. apply in_app_or in Hp. destruct Hp as [Hp | Hp]; [auto|].
    apply in_map_iff in Hp. destruct Hp as (it & <- & Hit).
    rewrite Forall_forall in Hgrp. destruct (Hgrp it Hit) as [Hi Hs].
    exists it. repeat split; auto. left. auto.
  - apply Forall_app. split; [exact H4|]. constructor; [|constructor].
    exists grp. cbn [g_files g_type]. repeat split; auto.
    intros it Hit. rewrite Forall_forall in Hgrp. apply Hgrp. exact Hit.
Qed.

Lemma exact_fold_inv (m : list (str * list item)) (done : list str)
  (st : list group * list str) :
  NoDup (map fst m) -> (forall k, In k done -> ~ In k (map fst m)) ->
  Forall (fun e => Forall (fun it => In it items /\ sha256 it = fst e) (snd e)) m ->
  exact_inv done st ->
  exists done', exact_inv done' (fold_left exact_step m st).
Proof.
  revert done st. induction m as [|[sha grp] m IH]; intros done st Hnd Hdone Hall Hst.
  - exists done. exact Hst.
  - cbn [fold_left]. cbn [map fst] in Hnd, Hdone.
    inversion Hnd as [|? ? Hsha Hnd']; subst.
    inversion Hall as [|? ? Hgrp Hall']; subst. cbn [fst snd] in Hgrp.
    apply (IH (sha :: done)); auto.
    + intros k [<- | Hk]; [exact Hsha|]. intros Hin. apply (Hdone k Hk). right. exact Hin.
    + apply exact_step_inv; auto. intros Hin. apply (Hdone sha Hin). left. reflexivity.
Qed.

Lemma exact_pass_inv :
  exists done, exact_inv done (exact_pass (build_sha_map items)).
Proof.
  destruct (build_sha_map_ok items) as [Hnd Hall].
  apply (@exact_fold_inv (build_sha_map items) [] ([], [])); auto.
  split; [|split; [|split]]; cbn [fst snd].
  - intros i j gi gj p Hi. destruct i; discriminate.
  - intros p. split; [intros (g & [] & _) | intros []].
  - intros p [].
  - constructor.
Qed.

(** *** The pass over the LSH candidates *)

Variable w : world.
Variables partial_thresh lsh_threshold : Q.
Variable num_perm : Z.
Variable seen : list str.
Variable index : list (str * list Z).

Definition remaining : list item :=
  filter (fun it => negb (mem (path it) seen)) items.

Definition lsh_inv (st : list group * list str) : Prop :=
  disjoint (fst st)
  /\ (forall p, covered (fst st) p <-> In p seen \/ In p (snd st))
  /\ Forall (built_from items near_thresh) (fst st).

Lemma lsh_step_inv (st : list group * list str) (it : item) :
  lsh_inv st ->
  lsh_inv (lsh_step w near_thresh partial_thresh lsh_threshold num_perm
             remaining index st it).
Proof.
  intros Hst. pose proof Hst as (H1 & H2 & H3). destruct st as [groups used].
  cbn [fst snd] in *. unfold lsh_step.
  destruct (mem (path it) used); [exact Hst|].
  set (candidates := if mem (path it) _ then _ else _).
  set (group_items := filter _ remaining).
  assert (Hgi : forall x, In x group_items ->
                          In x items /\ ~ In (path x) seen /\ ~ In (path x) used).
  { intros x Hx. apply filter_In in Hx. destruct Hx as [Hx Hc].
    apply filter_In in Hx. destruct Hx as [Hx Hs].
    apply andb_true_iff in Hc. destruct Hc as [_ Hu].
    apply negb_true_iff, mem_not_In in Hs, Hu. auto. }
  destruct group_items as [|anchor [|cand others]]; try exact Hst.
  set (final_group := refine partial_thresh anchor (cand :: others)).
  assert (Hfg : forall x, In x final_group -> In x (anchor :: cand :: others)).
  { intros x Hx. apply refine_In in Hx. destruct Hx as [-> | [Hx _]].
    - left. reflexivity.
    - right. exact Hx. }
  destruct (Z.ltb_spec 1 (len final_group)) as [Hlen | Hlen]; [|exact Hst].
  assert (Hpaths : forall p, member p {| g_type := group_type near_thresh final_group;
                                         g_sha256 := None;
                                         g_files := map entry_of final_group |}
                             <-> In p (map path final_group)).
  { intros p. unfold member. cbn [g_files]. now rewrite paths_of_entries. }
  unfold lsh_inv. cbn [fst snd]. split; [|split].
  - apply disjoint_snoc; [exact H1|]. intros p Hp Hc.
    apply Hpaths in Hp. apply in_map_iff in Hp. destruct Hp as (x & <- & Hx).
    destruct (Hgi x (Hfg x Hx)) as (_ & Hs & Hu).
    apply H2 in Hc. tauto.
  - intros p. rewrite covered_snoc, Hpaths, in_app_iff, H2. tauto.
  - apply Forall_app. split; [exact H3|]. constructor; [|constructor].
    exists final_group. cbn [g_files g_type]. repeat split; auto.
    intros x Hx. apply (Hgi x (Hfg x Hx)).
Qed.

Lemma lsh_fold_inv (st : list group * list str) (l : list item) :
  lsh_inv st ->
  lsh_inv (fold_left
             (lsh_step w near_thresh partial_thresh lsh_threshold num_perm
                remaining index) l st).
Proof.
  intros Hst. apply fold_left_invariant with (P := lsh_inv); [exact Hst|].
  intros s x _ Hs. apply lsh_step_inv. exact Hs.
Qed.

End ExactPass.

(** *** The report *)

Lemma build_report_inv (w : world) (files : list str)
  (near_thresh partial_thresh : Q) (min_pages : Z) (lsh_threshold : Q)
  (num_perm : Z) (r : report) :
  build_report w files near_thresh partial_thresh min_pages lsh_threshold num_perm
  = Ok r ->
  exists items seen used,
    Forall (fingerprinted w num_perm) items
    /\ map path items = scanned_paths w files min_pages
    /\ disjoint (r_groups r)
    /\ (forall p, covered (r_groups r) p <-> In p seen \/ In p used)
    /\ Forall (built_from items near_thresh) (r_groups r)
    /\ r_singletons r
       = map entry_of
           (filter (fun it => (negb (mem (path it) seen)
                               && negb (mem (path it) used))%bool) items).
Proof.
  unfold build_report. intros H.
  destruct (fingerprint_all w num_perm (basic_metadata w files)) as [items0|e] eqn:E0;
    cbn [bind] in H; [|discriminate].
  destruct (fingerprint_all_files w num_perm files E0) as [Hfp0 Hpaths0].
  set (items := filter_min_pages min_pages items0) in *.
  assert (Hfp : Forall (fingerprinted w num_perm) items).
  { rewrite Forall_forall in *. intros x Hx.
    apply Hfp0, (filter_min_pages_incl min_pages items0), Hx. }
  assert (Hsha : forall a b, In a items -> In b items ->
                             path a = path b -> sha256 a = sha256 b).
  { rewrite Forall_forall in Hfp. intros a b Ha Hb.
    apply (@same_path_same_sha w num_perm); auto. }
  destruct (@exact_pass_inv items near_thresh Hsha) as (done & X1 & X2 & _ & X4).
  destruct (exact_pass (build_sha_map items)) as [groups0 seen].
  cbn [fst snd] in X1, X2, X4.
  destruct (minhash_lsh w lsh_threshold num_perm) as [[]|e] eqn:Elsh;
    cbn [bind] in H; [|discriminate].
  destruct (lsh_insert_all _ []) as [index|e] eqn:E1; cbn [bind] in H; [|discriminate].
  pose proof (@lsh_fold_inv items near_thresh w partial_thresh lsh_threshold
                num_perm seen index (groups0, []) (remaining items seen)) as L.
  unfold remaining in L.
  destruct (fold_left _ _ (groups0, [])) as [groups used].
  destruct L as (L1 & L2 & L3).
  { split; [exact X1 | split; [|exact X4]]. cbn [fst snd].
    intros p. rewrite X2. cbn [In]. tauto. }
  cbn [fst snd] in L1, L2, L3.
  injection H as <-. cbn [r_groups r_singletons].
  exists items, seen, used. repeat split; auto.
  - subst items. rewrite (filter_min_pages_paths min_pages Hfp0), Hpaths0. reflexivity.
  - apply L2.
  - apply L2.
Qed.

(** What ends the loop at a file: [OSError] when the file cannot be
    opened, and else the exception that building its MinHash raises. *)
Definition file_error (w : world) (num_perm : Z) (p : str) : option exn :=
  match open_rb w p with
  | None => Some OSError
  | Some _ =>
      match build_minhash w (extract_text_from_pdf w p) num_perm with
      | Ok _ => None
      | Raise e => Some e
      end
  end.

Lemma fingerprint_all_stops (w : world) (num_perm : Z) (p : str) (files : list str)
  (e : exn) :
  file_error w num_perm p = Some e ->
  fingerprint_all w num_perm (basic_metadata w (p :: files)) = Raise e.
Proof.
  unfold file_error. intros H.
  cbn [basic_metadata map fingerprint_all]. unfold fingerprint at 1, sha256_file.
  cbn [b_path].
  destruct (open_rb w p) as [bytes|]; cbn [bind]; [|congruence].
  destruct (build_minhash w (extract_text_from_pdf w p) num_perm) as [m|e'];
    cbn [bind]; congruence.
Qed.

Lemma fingerprint_all_goes_on (w : world) (num_perm : Z) (p : str) (files : list str) :
  file_error w num_perm p = None ->
  exists it,
    fingerprint_all w num_perm (basic_metadata w (p :: files))
    = bind (fingerprint_all w num_perm (basic_metadata w files))
           (fun r => Ok (it :: r)).
Proof.
  unfold file_error. intros H.
  cbn [basic_metadata map fingerprint_all]. unfold fingerprint at 1, sha256_file.
  cbn [b_path].
  destruct (open_rb w p) as [bytes|]; cbn [bind]; [|discriminate].
  destruct (build_minhash w (extract_text_from_pdf w p) num_perm) as [m|e'];
    cbn [bind]; [|discriminate].
  eexists. reflexivity.
Qed.

(** The first file that cannot be fingerprinted ends the run. *)
Lemma fingerprint_all_raises (w : world) (num_perm : Z) (before after : list str)
  (p : str) (e : exn) :
  (forall q, In q before -> file_error w num_perm q = None) ->
  file_error w num_perm p = Some e ->
  fingerprint_all w num_perm (basic_metadata w (before ++ p :: after)) = Raise e.
Proof.
  intros Hb Hp. induction before as [|q before IH]; cbn [app].
  - apply fingerprint_all_stops. exact Hp.
  - destruct (@fingerprint_all_goes_on w num_perm q (before ++ p :: after))
      as [it ->]; [apply Hb; left; reflexivity|].
    rewrite IH; [reflexivity|]. intros x Hx. apply Hb. right. exact Hx.
Qed.

Lemma first_failure (w : world) (num_perm : Z) (files : list str) :
  (forall p, In p files -> file_error w num_perm p = None)
  \/ (exists before p after e,
        files = before ++ p :: after
        /\ (forall q, In q before -> file_error w num_perm q = None)
        /\ file_error w num_perm p = Some e).
Proof.
  induction files as [|q files IH].
  - left. intros p [].
  - destruct (file_error w num_perm q) as [e|] eqn:E.
    + right. exists [], q, files, e. split; [reflexivity|]. split; [intros x []|exact E].
    + destruct IH as [IH | (before & p & after & e & -> & Hb & Hp)].
      * left. intros p [<- | Hp]; [exact E | apply IH; exact Hp].
      * right. exists (q :: before), p, after, e. split; [reflexivity|].
        split; [|exact Hp]. intros x [<- | Hx]; [exact E | apply Hb; exact Hx].
Qed.

Lemma build_report_raises (w : world) (files : list str)
  (near_thresh partial_thresh : Q) (min_pages : Z) (lsh_threshold : Q)
  (num_perm : Z) (before after : list str) (p : str) (e : exn) :
  files = before ++ p :: after ->
  (forall q, In q before -> file_error w num_perm q = None) ->
  file_error w num_perm p = Some e ->
  build_report w files near_thresh partial_thresh min_pages lsh_threshold num_perm
  = Raise e.
Proof.
  intros -> Hb Hp. unfold build_report.
  rewrite (fingerprint_all_raises w num_perm before after p Hb Hp). reflexivity.
Qed.

(** ** A sample run

    Four files: [a.pdf] and [b.pdf] hold the same bytes, [c.pdf] and
    [d.pdf] hold similar texts, [e.pdf] has one page of its own text;
    [gone.pdf] does not exist. A signature repeats the length of the
    shingles; the index is built for the threshold 0.8 and 128
    permutations and for no others, and returns the keys that it holds
    with the signature of the query. *)

Definition readable : list str :=
  map of_string ["a.pdf"; "b.pdf"; "c.pdf"; "d.pdf"; "e.pdf"]%string.

Definition sample_text (p : str) : str :=
  if mem p [of_string "a.pdf"; of_string "b.pdf"] then of_string "same bytes"
  else if mem p [of_string "c.pdf"] then of_string "the quick brown fox"
  else if mem p [of_string "d.pdf"] then of_string "the quick brown fax"
  else if mem p [of_string "e.pdf"] then of_string "zzz"
  else [].

Definition sample_world : world :=
  {| stat_size := fun p => if mem p readable then Some (len (sample_text p)) else None;
     path_name := fun p => p;
     open_rb := fun p => if mem p readable then Some (sample_text p) else None;
     sha256_hexdigest := fun bytes => bytes;
     pdf_num_pages := fun p => if mem p readable then Some 1 else None;
     pdf_extract_text := sample_text;
     minhash_hashvalues :=
       fun num_perm shingles =>
         if ((0 <=? num_perm) && (num_perm <=? 2 ^ 32))%bool
         then Ok (repeat (len (concat shingles)) (Z.to_nat num_perm))
         else Raise ValueError;
     minhash_lsh :=
       fun threshold num_perm =>
         if (Qeq_bool threshold (8 # 10) && (num_perm =? 128))%bool
         then Ok tt
         else Raise ValueError;
     lsh_query :=
       fun _ _ index signature =>
         map fst
             (filter (fun kv => if list_eq_dec Z.eq_dec (snd kv) signature
                                then true else false)
                     index) |}.

(** The run with the defaults of [build_report] for the index: the
    threshold 0.8 and 128 permutations. *)
Definition sample_run (files : list str) : result report :=
  build_report sample_world files (9 # 10) (6 # 10) 0 (8 # 10) 128.

Definition empty_report : report :=
  {| r_summary := {| total_files := 0; scanned := 0; exact_groups := 0;
                     near_groups := 0; partial_groups := 0; n_singletons := 0 |};
     r_groups := [];
     r_singletons := [] |}.

Definition sample_report : report :=
  match sample_run readable with
  | Ok r => r
  | Raise _ => empty_report
  end.

Lemma sample_run_ok : sample_run readable = Ok sample_report.
Proof. vm_compute. reflexivity. Qed.

Example sample_summary :
  r_summary sample_report
  = {| total_files := 5; scanned := 5; exact_groups := 1; near_groups := 1;
       partial_groups := 0; n_singletons := 1 |}.
Proof. vm_compute. reflexivity. Qed.

(** ** The properties of the report *)

(** C1. In every report that [build_report] returns, the groups are
    pairwise disjoint: no path is a member of two groups, whatever their
    kinds. No path is both a singleton and a member of a group, and every
    document of the run (every input path that passes the filter on the page
    count, which is every input path for [min_pages <= 0]) is a member of a
    group or a singleton. *)
Theorem build_report_partition (w : world) (files : list str)
  (near_thresh partial_thresh : Q) (min_pages : Z) (lsh_threshold : Q)
  (num_perm : Z) (r : report) :
  build_report w files near_thresh partial_thresh min_pages lsh_threshold num_perm
  = Ok r ->
  disjoint (r_groups r)
  /\ (forall p, In p (map f_path (r_singletons r)) -> ~ covered (r_groups r) p)
  /\ (forall p, In p (scanned_paths w files min_pages) ->
                covered (r_groups r) p \/ In p (map f_path (r_singletons r)))
  /\ (min_pages <= 0 -> scanned_paths w files min_pages = files).
Proof.
  intros H.
  destruct (build_report_inv _ _ _ _ _ _ _ H)
    as (items & seen & used & _ & Hp & Hd & Hc & _ & Hs).
  split; [exact Hd | split; [|split]].
  - intros p Hin Hcov. rewrite Hs, paths_of_entries in Hin.
    apply in_map_iff in Hin. destruct Hin as (it & <- & Hit).
    apply filter_In in Hit. destruct Hit as [_ Hit].
    apply andb_true_iff in Hit. destruct Hit as [A B].
    apply negb_true_iff, mem_not_In in A, B. apply Hc in Hcov. tauto.
  - intros p Hin. rewrite <- Hp in Hin.
    apply in_map_iff in Hin. destruct Hin as (it & <- & Hit).
    destruct (mem (path it) seen) eqn:A;
      [left; apply Hc; left; apply mem_In; exact A|].
    destruct (mem (path it) used) eqn:B;
      [left; apply Hc; right; apply mem_In; exact B|].
    right. rewrite Hs, paths_of_entries. apply in_map, filter_In.
    split; [exact Hit|]. now rewrite A, B.
  - intros Hm. unfold scanned_paths.
    destruct (Z.ltb_spec 0 min_pages); [lia | reflexivity].
Qed.

Lemma build_report_partition_witness :
  disjoint (r_groups sample_report)
  /\ (forall p, In p (map f_path (r_singletons sample_report)) ->
                ~ covered (r_groups sample_report) p)
  /\ (forall p, In p (scanned_paths sample_world readable 0) ->
                covered (r_groups sample_report) p
                \/ In p (map f_path (r_singletons sample_report)))
  /\ (0 <= 0 -> scanned_paths sample_world readable 0 = readable).
Proof.
  apply (@build_report_partition sample_world readable (9 # 10) (6 # 10) 0
           (8 # 10) 128 sample_report).
  vm_compute. reflexivity.
Defined.

(** An entry of the report holds the MinHash signature of its file. *)
Definition carries_signature (w : world) (num_perm : Z) (e : file_entry) : Prop :=
  build_minhash w (extract_text_from_pdf w (f_path e)) num_perm = Ok (f_minhash e).

(** C2, as stated, fails: the entries of the report hold the signature.
    In the sample run, with the 128 permutations and the threshold 0.8
    that [build_report] has by default, every member of a group and the
    singleton carry the 128 hash values of their signature. *)
Lemma sample_report_has_signatures :
  sample_run readable = Ok sample_report
  /\ map (fun g => map f_minhash (g_files g)) (r_groups sample_report)
     = [[repeat 10 128; repeat 10 128]; [repeat 30 128; repeat 30 128]]
  /\ map f_minhash (r_singletons sample_report) = [repeat 3 128]
  /\ Forall (fun g => Forall (fun e => length (f_minhash e) = 128%nat) (g_files g))
            (r_groups sample_report)
  /\ Forall (fun e => length (f_minhash e) = 128%nat) (r_singletons sample_report).
Proof.
  split; [vm_compute; reflexivity|].
  split; [vm_compute; reflexivity|].
  split; [vm_compute; reflexivity|].
  split; vm_compute; repeat constructor.
Qed.

(** C2, amended. In every report that [build_report] returns, the entry of
    every member of a group and of every singleton holds the file's path,
    size, text, hash and page count, and its MinHash signature as well. *)
Theorem report_entries_carry_signature (w : world) (files : list str)
  (near_thresh partial_thresh : Q) (min_pages : Z) (lsh_threshold : Q)
  (num_perm : Z) (r : report) :
  build_report w files near_thresh partial_thresh min_pages lsh_threshold num_perm
  = Ok r ->
  Forall (fun g => Forall (carries_signature w num_perm) (g_files g)) (r_groups r)
  /\ Forall (carries_signature w num_perm) (r_singletons r).
Proof.
  intros H.
  destruct (build_report_inv _ _ _ _ _ _ _ H)
    as (items & seen & used & Hfp & _ & _ & _ & Hb & Hs).
  assert (Hent : forall members, incl members items ->
                   Forall (carries_signature w num_perm) (map entry_of members)).
  { intros members Hincl. rewrite Forall_forall in *. intros e He.
    apply in_map_iff in He. destruct He as (it & <- & Hit).
    unfold carries_signature. cbn [entry_of f_minhash f_path].
    apply (fp_minhash (Hfp it (Hincl it Hit))). }
  split.
  - rewrite Forall_forall in *. intros g Hg.
    destruct (Hb g Hg) as (members & Hincl & _ & -> & _). apply Hent, Hincl.
  - rewrite Hs. apply Hent. intros it Hit. apply filter_In in Hit. tauto.
Qed.

Lemma report_entries_carry_signature_witness :
  Forall (fun g => Forall (carries_signature sample_world 128) (g_files g))
         (r_groups sample_report)
  /\ Forall (carries_signature sample_world 128) (r_singletons sample_report).
Proof.
  apply (@report_entries_carry_signature sample_world readable (9 # 10) (6 # 10) 0
           (8 # 10) 128 sample_report).
  vm_compute. reflexivity.
Defined.

Definition gone : str := of_string "gone.pdf".

(** C3 does not hold of the code: a file that is missing is given the size
    0, but opening it to hash it raises, and nothing catches the
    exception. The run with [gone.pdf] among the files returns no report. *)
Theorem build_report_missing_file_raises :
  stat_size sample_world gone = None
  /\ basic_metadata sample_world [gone]
     = [{| b_path := gone; b_name := gone; b_size := 0 |}]
  /\ sample_run [gone] = Raise OSError
  /\ sample_run (of_string "a.pdf" :: gone :: of_string "c.pdf" :: nil)
     = Raise OSError.
Proof. repeat split; vm_compute; reflexivity. Qed.

(** C4. For every near or partial group of a report, which has two
    members or more, the kind is [near] exactly when the maximum of the
    similarities of the texts of two distinct members, over all ordered
    pairs, is at least [near_thresh], and [partial] otherwise. *)
Theorem group_kind_by_max_similarity (w : world) (files : list str)
  (near_thresh partial_thresh : Q) (min_pages : Z) (lsh_threshold : Q)
  (num_perm : Z) (r : report) (g : group) :
  build_report w files near_thresh partial_thresh min_pages lsh_threshold num_perm
  = Ok r ->
  In g (r_groups r) -> g_type g <> exact ->
  1 < len (g_files g)
  /\ (g_type g = near
      <-> (near_thresh <= max_pairwise_similarity (g_files g))%Q)
  /\ (g_type g = partial
      <-> ~ (near_thresh <= max_pairwise_similarity (g_files g))%Q)
  /\ ((near_thresh <= max_pairwise_similarity (g_files g))%Q
      <-> exists i j a b,
            i <> j /\ nth_error (g_files g) i = Some a
            /\ nth_error (g_files g) j = Some b
            /\ (near_thresh <= similarity (f_text a) (f_text b))%Q).
Proof.
  intros H Hg Hk.
  destruct (build_report_inv _ _ _ _ _ _ _ H)
    as (items & seen & used & _ & _ & _ & _ & Hb & _).
  rewrite Forall_forall in Hb.
  destruct (Hb g Hg) as (members & _ & Hlen & Hfiles & [Ht | Ht]); [congruence|].
  assert (Hlen' : 1 < len (g_files g)).
  { rewrite Hfiles. unfold len in *. now rewrite length_map. }
  split; [exact Hlen' | split; [|split]].
  - rewrite Ht, Hfiles. apply group_type_near.
  - rewrite Ht, Hfiles. apply group_type_partial.
  - apply max_pairwise_ge. exact Hlen'.
Qed.

Definition sample_near_group : group :=
  nth 1 (r_groups sample_report)
      {| g_type := exact; g_sha256 := None; g_files := [] |}.

Lemma group_kind_by_max_similarity_witness :
  1 < len (g_files sample_near_group)
  /\ (g_type sample_near_group = near
      <-> (9 # 10 <= max_pairwise_similarity (g_files sample_near_group))%Q)
  /\ (g_type sample_near_group = partial
      <-> ~ (9 # 10 <= max_pairwise_similarity (g_files sample_near_group))%Q)
  /\ ((9 # 10 <= max_pairwise_similarity (g_files sample_near_group))%Q
      <-> exists i j a b,
            i <> j /\ nth_error (g_files sample_near_group) i = Some a
            /\ nth_error (g_files sample_near_group) j = Some b
            /\ (9 # 10 <= similarity (f_text a) (f_text b))%Q).
Proof.
  apply (@group_kind_by_max_similarity sample_world readable (9 # 10) (6 # 10) 0
           (8 # 10) 128 sample_report sample_near_group).
  - vm_compute. reflexivity.
  - vm_compute. right. left. reflexivity.
  - vm_compute. discriminate.
Defined.

Definition doc_c : item :=
  {| path := of_string "c.pdf"; name := of_string "c.pdf"; size := 19;
     sha256 := of_string "the quick brown fox";
     text := of_string "the quick brown fox"; pages := Some 1; minhash := repeat 30 128 |}.

Definition doc_d : item :=
  {| path := of_string "d.pdf"; name := of_string "d.pdf"; size := 19;
     sha256 := of_string "the quick brown fax";
     text := of_string "the quick brown fax"; pages := Some 1; minhash := repeat 30 128 |}.

Lemma refine_antitone_witness :
  In doc_d (refine (6 # 10) doc_c [doc_d]).
Proof.
  apply (@refine_antitone (6 # 10) (9 # 10) doc_c [doc_d] doc_d).
  - vm_compute. discriminate.
  - vm_compute. right. left. reflexivity.
Defined.

(** ** The run completes when every file can be fingerprinted *)

Lemma fingerprint_all_returns (w : world) (num_perm : Z) (files : list str) :
  (forall p, In p files -> file_error w num_perm p = None) ->
  exists items, fingerprint_all w num_perm (basic_metadata w files) = Ok items.
Proof.
  induction files as [|p files IH]; intros Hfine.
  - exists []. reflexivity.
  - destruct (@fingerprint_all_goes_on w num_perm p files) as [it ->];
      [apply Hfine; left; reflexivity|].
    destruct IH as [rest ->]; [intros q Hq; apply Hfine; right; exact Hq|].
    cbn [bind]. eauto.
Qed.

Definition has_sha (sha : str) (it : item) : bool :=
  if str_eq_dec (sha256 it) sha then true else false.

Lemma has_sha_true (sha : str) (it : item) : has_sha sha it = true <-> sha256 it = sha.
Proof. unfold has_sha. destruct (str_eq_dec (sha256 it) sha); split; auto; discriminate. Qed.

(** The list that [sha_map] holds for a hash: the files with that hash. *)
Definition sha_bucket_ok (items : list item) (e : str * list item) : Prop :=
  snd e = filter (has_sha (fst e)) items.

Lemma sha_bucket_other (items : list item) (it : item) (e : str * list item) :
  fst e <> sha256 it -> sha_bucket_ok items e -> sha_bucket_ok (items ++ [it]) e.
Proof.
  intros Hne H. unfold sha_bucket_ok in *. rewrite filter_app. cbn [filter].
  destruct (has_sha (fst e) it) eqn:E.
  - apply has_sha_true in E. congruence.
  - now rewrite app_nil_r.
Qed.

Lemma setdefault_append_buckets (items : list item) (it : item)
  (m : list (str * list item)) :
  NoDup (map fst m) -> Forall (sha_bucket_ok items) m ->
  (~ In (sha256 it) (map fst m) -> filter (has_sha (sha256 it)) items = []) ->
  Forall (sha_bucket_ok (items ++ [it])) (setdefault_append m it).
Proof.
  assert (Hself : has_sha (sha256 it) it = true) by (apply has_sha_true; reflexivity).
  induction m as [|[sha g] m IH]; intros Hnd Hall Hnew; cbn [setdefault_append].
  - constructor; [|constructor]. unfold sha_bucket_ok. cbn [fst snd].
    rewrite filter_app, (Hnew (fun H => H)). cbn [filter]. now rewrite Hself.
  - inversion Hnd as [|? ? Hk Hnd']; subst. inversion Hall as [|? ? Hg Hm]; subst.
    destruct (str_eq_dec (sha256 it) sha) as [E | E].
    + constructor.
      * unfold sha_bucket_ok in *. cbn [fst snd] in *. subst sha.
        rewrite filter_app, Hg. cbn [filter]. now rewrite Hself.
      * rewrite Forall_forall in *. intros e He. apply sha_bucket_other; auto.
        intros C. apply Hk. rewrite <- E, <- C. apply in_map. exact He.
    + constructor.
      * apply sha_bucket_other; auto.
      * apply IH; auto. intros Hn. apply Hnew. cbn [map fst]. intros [C | C]; auto.
Qed.

Lemma build_sha_map_buckets (items : list item) :
  NoDup (map fst (build_sha_map items))
  /\ Forall (sha_bucket_ok items) (build_sha_map items)
  /\ (forall it, In it items -> In (sha256 it) (map fst (build_sha_map items))).
Proof.
  induction items as [|it items (H1 & H2 & H3)] using rev_ind.
  - split; [constructor | split; [constructor | intros it []]].
  - unfold build_sha_map. rewrite fold_left_app. cbn [fold_left].
    fold (build_sha_map items).
    pose proof (setdefault_append_keys (build_sha_map items) it) as Hk.
    split; [|split].
    + destruct Hk as [[_ ->] | [Hn ->]]; [exact H1|].
      apply NoDup_app; [exact H1 | repeat constructor; intros [] |].
      intros k Hin [<- | []]. exact (Hn Hin).
    + apply setdefault_append_buckets; auto. intros Hn.
      destruct (filter (has_sha (sha256 it)) items) as [|x l] eqn:F; [reflexivity|].
      exfalso. assert (Hx : In x (x :: l)) by (left; reflexivity).
      rewrite <- F in Hx. apply filter_In in Hx. destruct Hx as [Hx Hs].
      apply has_sha_true in Hs. apply Hn. rewrite <- Hs. apply H3. exact Hx.
    + intros x Hx. apply in_app_or in Hx.
      destruct Hk as [[Hin ->] | [_ ->]].
      * destruct Hx as [Hx | [<- | []]]; [apply H3; exact Hx | exact Hin].
      * apply in_or_app. destruct Hx as [Hx | [<- | []]];
          [left; apply H3; exact Hx | right; left; reflexivity].
Qed.

(** Every list of two files or more of [sha_map] ends in [seen]. *)
Lemma exact_fold_seen (m : list (str * list item)) (st : list group * list str) :
  incl (snd st) (snd (fold_left exact_step m st))
  /\ (forall sha grp, In (sha, grp) m -> 1 < len grp ->
                      incl (map path grp) (snd (fold_left exact_step m st))).
Proof.
  revert st. induction m as [|[sha grp] m IH]; intros st; cbn [fold_left].
  - split; [apply incl_refl | intros ? ? []].
  - destruct (IH (exact_step st (sha, grp))) as [I1 I2].
    assert (Hstep : incl (snd st) (snd (exact_step st (sha, grp)))
                    /\ (1 < len grp ->
                        incl (map path grp) (snd (exact_step st (sha, grp))))).
    { destruct st as [groups seen]. unfold exact_step.
      destruct (Z.ltb_spec 1 (len grp)); cbn [snd].
      - split; [apply incl_appl, incl_refl | intros _; apply incl_appr, incl_refl].
      - split; [apply incl_refl | lia]. }
    destruct Hstep as [S1 S2]. split.
    + eapply incl_tran; eauto.
    + intros sha' grp' [E | Hin] Hlen.
      * injection E as <- <-. eapply incl_tran; [apply S2; exact Hlen | exact I1].
      * eapply I2; eauto.
Qed.

Lemma count_le_bucket (sha : str) (p : str) (items : list item) :
  (forall it, In it items -> path it = p -> sha256 it = sha) ->
  (count_occ str_eq_dec (map path items) p <= length (filter (has_sha sha) items))%nat.
Proof.
  induction items as [|it items IH]; intros H; cbn [map count_occ filter]; [lia|].
  assert (IH' := IH (fun x Hx => H x (or_intror Hx))).
  destruct (str_eq_dec (path it) p) as [E | E].
  - assert (Hs : has_sha sha it = true).
    { apply has_sha_true, H; [left; reflexivity | exact E]. }
    rewrite Hs. cbn [length]. lia.
  - destruct (has_sha sha it); cbn [length]; lia.
Qed.

(** A path that two files of the run share is in [seen]. *)
Lemma repeated_path_seen (items : list item) (p : str) :
  (forall a b, In a items -> In b items -> path a = path b -> sha256 a = sha256 b) ->
  (2 <= count_occ str_eq_dec (map path items) p)%nat ->
  In p (snd (exact_pass (build_sha_map items))).
Proof.
  intros Hsha Hcount.
  assert (Hin : In p (map path items)).
  { apply (count_occ_In str_eq_dec). lia. }
  apply in_map_iff in Hin. destruct Hin as (it & Hp & Hit).
  destruct (build_sha_map_buckets items) as (_ & B2 & B3).
  specialize (B3 it Hit). apply in_map_iff in B3.
  destruct B3 as ([sha grp] & Hk & He). cbn [fst] in Hk. subst sha.
  rewrite Forall_forall in B2. pose proof (B2 _ He) as Hg.
  unfold sha_bucket_ok in Hg. cbn [fst snd] in Hg.
  destruct (exact_fold_seen (build_sha_map items) ([], [])) as [_ Hseen].
  apply (Hseen (sha256 it) grp He).
  - pose proof (@count_le_bucket (sha256 it) p items) as Hc.
    unfold len. rewrite Hg. 
    assert (Hall : forall x, In x items -> path x = p -> sha256 x = sha256 it).
    { intros x Hx Hxp. apply Hsha; auto. congruence. }
    specialize (Hc Hall). lia.
  - rewrite Hg. apply in_map_iff. exists it. split; [exact Hp|].
    apply filter_In. split; [exact Hit | apply has_sha_true; reflexivity].
Qed.

Lemma remaining_paths_distinct (seen : list str) (items : list item) :
  (forall p, (2 <= count_occ str_eq_dec (map path items) p)%nat -> In p seen) ->
  NoDup (map path (filter (fun it => negb (mem (path it) seen)) items)).
Proof.
  induction items as [|it items IH]; intros H; cbn [filter map]; [constructor|].
  assert (IH' : NoDup (map path (filter (fun it => negb (mem (path it) seen)) items))).
  { apply IH. intros p Hp. apply H. cbn [map count_occ].
    destruct (str_eq_dec (path it) p); lia. }
  destruct (mem (path it) seen) eqn:E; cbn [negb]; [exact IH'|].
  cbn [map]. constructor; [|exact IH'].
  intros Hin. apply mem_not_In in E. apply E, H. cbn [map count_occ].
  destruct (str_eq_dec (path it) (path it)) as [_|C]; [|congruence].
  apply in_map_iff in Hin. destruct Hin as (x & Hx & Hf).
  apply filter_In in Hf. destruct Hf as [Hf _].
  assert (Hc : In (path it) (map path items)).
  { rewrite <- Hx. apply in_map. exact Hf. }
  apply (count_occ_In str_eq_dec) in Hc. lia.
Qed.

Lemma lsh_insert_all_returns (rem : list item) (index : list (str * list Z)) :
  NoDup (map path rem) ->
  (forall x, In x rem -> ~ In (path x) (map fst index)) ->
  exists index', lsh_insert_all rem index = Ok index'.
Proof.
  revert index. induction rem as [|it rem IH]; intros index Hnd Hfresh.
  - cbn. eauto.
  - cbn [lsh_insert_all]. cbn [map] in Hnd. inversion Hnd as [|? ? Hit Hnd']; subst.
    destruct (mem (path it) (map fst index)) eqn:E.
    + apply mem_In in E. exfalso. apply (Hfresh it); [left; reflexivity | exact E].
    + apply IH; [exact Hnd'|]. intros x Hx Hin.
      rewrite map_app in Hin. apply in_app_or in Hin. destruct Hin as [Hin | Hin].
      * apply (Hfresh x); [right; exact Hx | exact Hin].
      * cbn in Hin. destruct Hin as [Hin | []]. apply Hit. rewrite Hin.
        apply in_map. exact Hx.
Qed.

(** [build_report] returns a report whenever every file of the list can be
    fingerprinted and the index can be built: no key is inserted twice
    into the index, because the files that share a path share their hash
    and have left with an exact group. *)
Lemma build_report_returns (w : world) (files : list str)
  (near_thresh partial_thresh : Q) (min_pages : Z) (lsh_threshold : Q)
  (num_perm : Z) :
  (forall p, In p files -> file_error w num_perm p = None) ->
  minhash_lsh w lsh_threshold num_perm = Ok tt ->
  exists r,
    build_report w files near_thresh partial_thresh min_pages lsh_threshold num_perm
    = Ok r.
Proof.
  intros Hfine Hlsh. unfold build_report.
  destruct (fingerprint_all_returns w num_perm files Hfine) as [items0 E0].
  rewrite E0. cbn [bind].
  destruct (fingerprint_all_files w num_perm files E0) as [Hfp0 _].
  set (items := filter_min_pages min_pages items0).
  assert (Hsha : forall a b, In a items -> In b items ->
                             path a = path b -> sha256 a = sha256 b).
  { rewrite Forall_forall in Hfp0. intros a b Ha Hb.
    apply (@same_path_same_sha w num_perm);
      apply Hfp0, (filter_min_pages_incl min_pages items0); assumption. }
  pose proof (fun p => @repeated_path_seen items p Hsha) as Hseen.
  destruct (exact_pass (build_sha_map items)) as [groups0 seen]. cbn [snd] in Hseen.
  rewrite Hlsh. cbn [bind].
  destruct (@lsh_insert_all_returns
              (filter (fun it => negb (mem (path it) seen)) items) [])
    as [index ->].
  - apply remaining_paths_distinct. exact Hseen.
  - intros x _ [].
  - cbn [bind]. destruct (fold_left _ _ (groups0, [])) as [groups used]. eauto.
Qed.

(** The exception of the constructor of the index ends the run. *)
Lemma build_report_refused (w : world) (files : list str)
  (near_thresh partial_thresh : Q) (min_pages : Z) (lsh_threshold : Q)
  (num_perm : Z) (e : exn) :
  (forall p, In p files -> file_error w num_perm p = None) ->
  minhash_lsh w lsh_threshold num_perm = Raise e ->
  build_report w files near_thresh partial_thresh min_pages lsh_threshold num_perm
  = Raise e.
Proof.
  intros Hfine Hlsh. unfold build_report.
  destruct (fingerprint_all_returns w num_perm files Hfine) as [items0 E0].
  rewrite E0. cbn [bind].
  destruct (exact_pass (build_sha_map (filter_min_pages min_pages items0)))
    as [groups0 seen].
  rewrite Hlsh. reflexivity.
Qed.

End ReportFacts.

(* ================================================================== *)
(** * Floats and rounding *)

Module FloatFacts.
Import Py.

Lemma round_half_even_close (x : Q) :
  (Qabs (inject_Z (round_half_even x) - x) <= 1 # 2)%Q.
Proof.
  unfold round_half_even.
  pose proof (Qfloor_le x) as Hlo. pose proof (Qlt_floor x) as Hhi.
  rewrite inject_Z_plus in Hhi. change (inject_Z 1) with 1%Q in Hhi.
  apply Qabs_Qle_condition.
  destruct (Qcompare (x - inject_Z (Qfloor x)) (1 # 2)) eqn:C.
  - apply Qeq_alt in C. destruct (Z.even (Qfloor x)).
    + split; lra.
    + rewrite inject_Z_plus. change (inject_Z 1) with 1%Q. split; lra.
  - apply Qlt_alt in C. split; lra.
  - apply Qgt_alt in C. rewrite inject_Z_plus. change (inject_Z 1) with 1%Q.
    split; lra.
Qed.

Lemma round_half_even_comp (x y : Q) :
  (x == y)%Q -> round_half_even x = round_half_even y.
Proof.
  intros E. unfold round_half_even. rewrite (Qfloor_comp _ _ E).
  assert (C : Qcompare (x - inject_Z (Qfloor y)) (1 # 2)
              = Qcompare (y - inject_Z (Qfloor y)) (1 # 2)).
  { apply Qcompare_comp; [rewrite E|]; reflexivity. }
  rewrite C. reflexivity.
Qed.

(** Rounding keeps a number between the whole numbers it is between. *)
Lemma round_half_even_between (x : Q) (lo hi : Z) :
  (inject_Z lo <= x <= inject_Z hi)%Q -> lo <= round_half_even x <= hi.
Proof.
  intros [Hlo Hhi]. pose proof (round_half_even_close x) as H.
  apply Qabs_Qle_condition in H. destruct H as [H1 H2].
  set (m := round_half_even x) in *.
  assert (A : (inject_Z (lo + -1) < inject_Z m)%Q).
  { rewrite inject_Z_plus. change (inject_Z (-1)) with (-1 # 1)%Q. lra. }
  assert (B : (inject_Z m < inject_Z (hi + 1))%Q).
  { rewrite inject_Z_plus. change (inject_Z 1) with 1%Q. lra. }
  rewrite <- Zlt_Qlt in A, B. lia.
Qed.


(** ** Powers of two *)

Lemma two_pos (e : Z) : (0 < 2 ^ e)%Q.
Proof. apply Qpower_0_lt. reflexivity. Qed.

Lemma two_succ (e : Z) : (2 ^ (e + 1) == 2 * 2 ^ e)%Q.
Proof. rewrite Qpower_plus by discriminate. rewrite Qpower_1_r. ring. Qed.

Lemma two_log2 (n : Z) :
  0 < n -> (2 ^ Z.log2 n <= inject_Z n)%Q /\ (inject_Z n < 2 ^ (Z.log2 n + 1))%Q.
Proof.
  intros Hn. destruct (Z.log2_spec n Hn) as [H1 H2].
  pose proof (Z.log2_nonneg n) as H0.
  change 2%Q with (inject_Z 2). rewrite <- !Zpower_Qpower by lia.
  rewrite <- Zle_Qle, <- Zlt_Qlt. unfold Z.succ in H2. lia.
Qed.

Lemma div_lt (x d y b : Q) :
  (0 < d)%Q -> (0 < b)%Q -> (x * b < y * d)%Q -> (x / d < y / b)%Q.
Proof.
  intros Hd Hb H. apply Qlt_shift_div_r; [exact Hd|].
  assert (E : (y / b * d == y * d / b)%Q)
    by (field; intros Z; rewrite Z in Hb; discriminate).
  rewrite E. apply Qlt_shift_div_l; assumption.
Qed.

Lemma div_le (x d y b : Q) :
  (0 < d)%Q -> (0 < b)%Q -> (x * b <= y * d)%Q -> (x / d <= y / b)%Q.
Proof.
  intros Hd Hb H. apply Qle_shift_div_r; [exact Hd|].
  assert (E : (y / b * d == y * d / b)%Q)
    by (field; intros Z; rewrite Z in Hb; discriminate).
  rewrite E. apply Qle_shift_div_l; assumption.
Qed.

Lemma ilog2_spec (a : Q) :
  (0 < a)%Q -> (2 ^ ilog2 a <= a)%Q /\ (a < 2 ^ (ilog2 a + 1))%Q.
Proof.
  intros Ha. unfold ilog2.
  destruct a as [n d]. cbn [Qnum Qden].
  assert (Hn : 0 < n) by (unfold Qlt in Ha; cbn in Ha; lia).
  destruct (two_log2 Hn) as [N1 N2].
  destruct (@two_log2 (Z.pos d) eq_refl) as [D1 D2].
  set (ln := Z.log2 n) in *. set (ld := Z.log2 (Z.pos d)) in *.
  assert (E : (n # d == inject_Z n / inject_Z (Z.pos d))%Q) by apply Qmake_Qdiv.
  assert (Dp : (0 < inject_Z (Z.pos d))%Q) by reflexivity.
  assert (Np : (0 < inject_Z n)%Q) by (rewrite <- (Zlt_Qlt 0); exact Hn).
  pose proof (two_pos ln) as Pn. pose proof (two_pos ld) as Pd.
  pose proof (two_pos (ld + 1)) as Pd1. pose proof (two_pos (ln + 1)) as Pn1.
  unfold Qltb. destruct (Qle_bool (2 ^ (ln - ld)) (n # d)) eqn:C; cbn [negb].
  - apply Qle_bool_iff in C. split; [exact C|].
    replace (ln - ld + 1) with (ln + 1 - ld) by lia.
    rewrite Qpower_minus by discriminate. rewrite E.
    apply div_lt; [exact Dp | exact Pd |].
    apply Qle_lt_trans with (inject_Z n * inject_Z (Z.pos d))%Q.
    + apply Qmult_le_l; assumption.
    + apply Qmult_lt_r; assumption.
  - assert (C' : (n # d < 2 ^ (ln - ld))%Q).
    { apply Qnot_le_lt. intros L. apply Qle_bool_iff in L. congruence. }
    replace (ln - ld - 1 + 1) with (ln - ld) by lia. split; [|exact C'].
    replace (ln - ld - 1) with (ln - (ld + 1)) by lia.
    rewrite Qpower_minus by discriminate. rewrite E.
    apply div_le; [exact Pd1 | exact Dp |].
    apply Qle_trans with (inject_Z n * inject_Z (Z.pos d))%Q.
    + apply Qmult_le_compat_r; [exact N1 | apply Qlt_le_weak; exact Dp].
    + apply Qmult_le_l; [exact Np | apply Qlt_le_weak; exact D2].
Qed.

Lemma ilog2_unique (a : Q) (e : Z) :
  (2 ^ e <= a)%Q -> (a < 2 ^ (e + 1))%Q -> ilog2 a = e.
Proof.
  intros H1 H2.
  assert (Ha : (0 < a)%Q) by (pose proof (two_pos e); lra).
  destruct (ilog2_spec Ha) as [L1 L2].
  assert (A : ilog2 a < e + 1).
  { apply (@Qpower_lt_compat_l_inv 2); [lra | reflexivity]. }
  assert (B : e < ilog2 a + 1).
  { apply (@Qpower_lt_compat_l_inv 2); [lra | reflexivity]. }
  lia.
Qed.

Lemma ilog2_comp (a b : Q) : (0 < a)%Q -> (a == b)%Q -> ilog2 a = ilog2 b.
Proof.
  intros Ha E. assert (Hb : (0 < b)%Q) by (rewrite <- E; exact Ha).
  destruct (ilog2_spec Hb) as [L1 L2].
  apply ilog2_unique; rewrite E; assumption.
Qed.

Lemma abs_pos (x : Q) : ~ (x == 0)%Q -> (0 < Qabs x)%Q.
Proof.
  intros Hx. apply Qabs_case; intros L.
  - destruct (Qle_lt_or_eq _ _ L) as [L' | L']; [exact L'|].
    exfalso. apply Hx. symmetry. exact L'.
  - destruct (Qle_lt_or_eq _ _ L) as [L' | L']; [lra|].
    exfalso. apply Hx. exact L'.
Qed.

Lemma sgn_comp (x y : Q) : (x == y)%Q -> Z.sgn (Qnum x) = Z.sgn (Qnum y).
Proof.
  unfold Qeq. destruct x as [n d], y as [m c]. cbn [Qnum Qden]. intros E.
  destruct n, m; cbn; try reflexivity; try discriminate; lia.
Qed.

(** [binary64] depends on the number only, not on the fraction that
    denotes it. *)
Lemma binary64_comp (x y : Q) : (x == y)%Q -> binary64 x = binary64 y.
Proof.
  intros E. unfold binary64.
  assert (Z0 : Qeq_bool x 0 = Qeq_bool y 0).
  { destruct (Qeq_bool x 0) eqn:A, (Qeq_bool y 0) eqn:B; auto.
    - apply Qeq_bool_iff in A. rewrite E in A. apply Qeq_bool_iff in A. congruence.
    - apply Qeq_bool_iff in B. rewrite <- E in B. apply Qeq_bool_iff in B. congruence. }
  rewrite <- Z0. destruct (Qeq_bool x 0) eqn:A; [reflexivity|].
  assert (Hx : ~ (x == 0)%Q) by (intros C; apply Qeq_bool_iff in C; congruence).
  pose proof (abs_pos Hx) as Ha.
  assert (Ea : (Qabs x == Qabs y)%Q) by (rewrite E; reflexivity).
  rewrite (sgn_comp E), (ilog2_comp Ha Ea).
  set (u := (2 ^ Z.max (ilog2 (Qabs y) - 52) (-1074))%Q).
  rewrite (@round_half_even_comp (Qabs x / u) (Qabs y / u)) by (rewrite Ea; reflexivity).
  reflexivity.
Qed.


Lemma round_comp (x y : Q) (ndigits : nat) :
  (x == y)%Q -> round x ndigits = round y ndigits.
Proof. intros E. unfold round. rewrite (binary64_comp E). reflexivity. Qed.

(** The pieces of a float that is not zero. *)
Lemma binary64_pieces (x : Q) :
  ~ (x == 0)%Q ->
  let p := Z.max (ilog2 (Qabs x) - 52) (-1074) in
  let m := round_half_even (Qabs x / 2 ^ p) in
  binary64 x = (inject_Z (Z.sgn (Qnum x) * m) * 2 ^ p)%Q
  /\ (Qabs (inject_Z m * 2 ^ p - Qabs x) <= 2 ^ p * (1 # 2))%Q.
Proof.
  intros Hx p m. split.
  - unfold binary64. destruct (Qeq_bool x 0) eqn:A; [|reflexivity].
    apply Qeq_bool_iff in A. contradiction.
  - pose proof (two_pos p) as Up.
    pose proof (round_half_even_close (Qabs x / 2 ^ p)) as H. fold m in H.
    apply Qabs_Qle_condition in H. destruct H as [H1 H2].
    assert (E : (inject_Z m * 2 ^ p - Qabs x
                 == 2 ^ p * (inject_Z m - Qabs x / 2 ^ p))%Q)
      by (field; intros Z; rewrite Z in Up; discriminate).
    rewrite E. apply Qabs_Qle_condition. split.
    + assert (G : (- (2 ^ p * (1 # 2)) == 2 ^ p * - (1 # 2))%Q) by ring.
      rewrite G. apply Qmult_le_l; assumption.
    + apply Qmult_le_l; assumption.
Qed.



(** A float between 0 and 1 stays there. *)
Lemma binary64_unit_range (x : Q) : (0 <= x <= 1)%Q -> (0 <= binary64 x <= 1)%Q.
Proof.
  intros [H0 H1]. destruct (Qeq_dec x 0) as [Z | Hx].
  - rewrite (binary64_comp Z). vm_compute. split; discriminate.
  - destruct (binary64_pieces Hx) as [E _]. cbv zeta in E. rewrite E. clear E.
    assert (Hp : (0 < x)%Q).
    { destruct (Qle_lt_or_eq _ _ H0) as [L | L]; [exact L|].
      exfalso. apply Hx. symmetry. exact L. }
    assert (A : (Qabs x == x)%Q) by (apply Qabs_pos; exact H0).
    assert (S1 : Z.sgn (Qnum x) = 1).
    { destruct x as [[|n|n] d]; unfold Qlt in Hp; cbn in *; lia. }
    rewrite S1, Z.mul_1_l.
    pose proof (abs_pos Hx) as Ha. destruct (ilog2_spec Ha) as [L1 _].
    set (e := ilog2 (Qabs x)) in *.
    assert (He : e <= 0).
    { apply (@Qpower_le_compat_l_inv 2); [|reflexivity].
      change (2 ^ 0)%Q with 1%Q. lra. }
    set (p := Z.max (e - 52) (-1074)) in *.
    assert (Pp : p <= 0) by (unfold p; lia).
    pose proof (two_pos p) as Up.
    assert (K : (inject_Z (2 ^ (- p)) * 2 ^ p == 1)%Q).
    { rewrite Zpower_Qpower by lia. change (inject_Z 2) with 2%Q.
      rewrite <- Qpower_plus by discriminate.
      replace (- p + p) with 0 by lia. reflexivity. }
    assert (B : 0 <= round_half_even (Qabs x / 2 ^ p) <= 2 ^ (- p)).
    { apply round_half_even_between. split.
      - change (inject_Z 0) with 0%Q. apply Qle_shift_div_l; [exact Up | lra].
      - apply Qle_shift_div_r; [exact Up | lra]. }
    set (m := round_half_even (Qabs x / 2 ^ p)) in *.
    destruct B as [B1 B2]. rewrite Zle_Qle in B1, B2.
    change (inject_Z 0) with 0%Q in B1. split.
    + apply Qmult_le_0_compat; [exact B1 | apply Qlt_le_weak; exact Up].
    + rewrite <- K. apply Qmult_le_compat_r; [exact B2 | apply Qlt_le_weak; exact Up].
Qed.



Lemma round_3_range (x : Q) : (0 <= x <= 1)%Q -> (0 <= round x 3 <= 1)%Q.
Proof.
  intros H. apply binary64_unit_range in H. destruct H as [H0 H1].
  unfold round. change (Z.to_pos (10 ^ Z.of_nat 3)) with 1000%positive.
  change (10 ^ Z.of_nat 3) with 1000.
  assert (B : 0 <= round_half_even (binary64 x * inject_Z 1000) <= 1000).
  { apply round_half_even_between. change (inject_Z 0) with 0%Q.
    change (inject_Z 1000) with (1000 # 1)%Q. split; lra. }
  unfold Qle. cbn [Qnum Qden]. lia.
Qed.






End FloatFacts.

(* ================================================================== *)
(** * Merging of edge records *)

Module BuildFacts.
Import Py Build FloatFacts.

Definition key_of (e : edge) : key := (source e, target e).

Definition has_key (k : key) (e : edge) : bool :=
  if key_eq_dec (key_of e) k then true else false.

(** The weight of an edge record: the number under its key [weight], and
    1 when the record has no such key. *)
Definition weight_or_one (e : edge) : Q :=
  match weight e with
  | Some x => x
  | None => 1%Q
  end.

(** An edge record as an output entry lists it: its id (the empty string
    when it has none), its relationship (["unknown"] when it has none) and
    its weight. *)
Definition edge_entry (e : edge) : edge_info :=
  {| i_edge_id := match edge_id e with Some s => s | None => [] end;
     i_relationship := match relationship e with
                       | Some s => s
                       | None => of_string "unknown"
                       end;
     i_weight := weight_or_one e |}.





(** ** Grouping *)

Lemma has_key_true (k : key) (e : edge) : has_key k e = true <-> key_of e = k.
Proof. unfold has_key. destruct (key_eq_dec (key_of e) k); split; auto; discriminate. Qed.

(** The bucket of the key [k] once the edges [es] have been read. *)
Definition bucket_ok (es : list edge) (kd : key * bucket) : Prop :=
  let k := fst kd in
  let d := snd kd in
  k_source d = fst k /\ k_target d = snd k
  /\ k_edges d = map edge_entry (filter (has_key k) es)
  /\ k_weights d = map weight_or_one (filter (has_key k) es)
  /\ filter (has_key k) es <> [].

Lemma add_edge_keys (g : list (key * bucket)) (k : key) (e : edge) :
  (In k (map fst g) /\ map fst (add_edge g k e) = map fst g)
  \/ (~ In k (map fst g) /\ map fst (add_edge g k e) = map fst g ++ [k]).
Proof.
  induction g as [|[k' d] g IH]; cbn [add_edge map fst].
  - right. split; [intros [] | reflexivity].
  - destruct (key_eq_dec k k') as [E | E]; cbn [map fst].
    + left. split; [left; auto | reflexivity].
    + destruct IH as [[H1 H2] | [H1 H2]].
      * left. split; [right; exact H1 | now rewrite H2].
      * right. split; [intros [H | H]; [congruence | tauto] | now rewrite H2].
Qed.

Lemma filter_snoc {A : Type} (f : A -> bool) (l : list A) (x : A) :
  filter f (l ++ [x]) = filter f l ++ (if f x then [x] else []).
Proof. rewrite filter_app. reflexivity. Qed.

Lemma bucket_other (es : list edge) (e : edge) (kd : key * bucket) :
  fst kd <> key_of e -> bucket_ok es kd -> bucket_ok (es ++ [e]) kd.
Proof.
  intros Hne (H1 & H2 & H3 & H4 & H5). unfold bucket_ok. cbv zeta.
  rewrite filter_snoc.
  assert (E : has_key (fst kd) e = false).
  { destruct (has_key (fst kd) e) eqn:E; auto. apply has_key_true in E. congruence. }
  rewrite E, app_nil_r. auto.
Qed.

Lemma add_edge_buckets (es : list edge) (e : edge) (g : list (key * bucket)) :
  NoDup (map fst g) -> Forall (bucket_ok es) g ->
  (~ In (key_of e) (map fst g) -> filter (has_key (key_of e)) es = []) ->
  Forall (bucket_ok (es ++ [e])) (add_edge g (key_of e) e).
Proof.
  assert (Hself : has_key (key_of e) e = true) by (apply has_key_true; reflexivity).
  induction g as [|[k' d] g IH]; intros Hnd Hall Hnew; cbn [add_edge].
  - constructor; [|constructor]. unfold bucket_ok. cbn [fst snd k_source k_target
      k_edges k_weights]. rewrite filter_snoc, Hself, (Hnew (fun H => H)).
    cbn. repeat split; auto. discriminate.
  - inversion Hnd as [|? ? Hk' Hnd']; subst.
    inversion Hall as [|? ? Hd Hg]; subst.
    destruct (key_eq_dec (key_of e) k') as [E | E].
    + constructor.
      * destruct Hd as (H1 & H2 & H3 & H4 & H5). unfold bucket_ok.
        cbn [fst snd k_source k_target k_edges k_weights] in *.
        subst k'. rewrite filter_snoc, Hself, !map_app, H3, H4. cbn [map].
        repeat split; auto. intros C. apply app_eq_nil in C. destruct C; discriminate.
      * rewrite Forall_forall in *. intros kd Hkd. apply bucket_other; auto.
        intros C. apply Hk'. rewrite <- E, <- C. apply in_map. exact Hkd.
    + constructor.
      * apply bucket_other; auto.
      * apply IH; auto. intros Hn. apply Hnew. cbn [map fst]. intros [C | C]; auto.
Qed.

(** What [grouped] holds once the edges [es] have been read. *)
Definition grouped_ok (es : list edge) (g : list (key * bucket)) : Prop :=
  NoDup (map fst g)
  /\ Forall (bucket_ok es) g
  /\ (forall e, In e es -> In (key_of e) (map fst g)).

Lemma group_edges_snoc (es : list edge) (e : edge) :
  group_edges (es ++ [e]) = add_edge (group_edges es) (key_of e) e.
Proof. unfold group_edges. rewrite fold_left_app. reflexivity. Qed.

Lemma group_edges_ok (es : list edge) : grouped_ok es (group_edges es).
Proof.
  induction es as [|e es (H1 & H2 & H3)] using rev_ind.
  - split; [constructor | split; [constructor | intros e []]].
  - rewrite group_edges_snoc.
    pose proof (add_edge_keys (group_edges es) (key_of e) e) as Hk.
    split; [|split].
    + destruct Hk as [[_ ->] | [Hn ->]]; [exact H1|].
      apply NoDup_app; [exact H1 | repeat constructor; intros [] |].
      intros k Hin [<- | []]. exact (Hn Hin).
    + apply add_edge_buckets; auto. intros Hn.
      destruct (filter (has_key (key_of e)) es) as [|x l] eqn:F; [reflexivity|].
      exfalso. assert (Hx : In x (x :: l)) by (left; reflexivity).
      rewrite <- F in Hx. apply filter_In in Hx. destruct Hx as [Hx Hkx].
      apply has_key_true in Hkx. apply Hn. rewrite <- Hkx. apply H3. exact Hx.
    + intros x Hx. apply in_app_or in Hx.
      destruct Hk as [[Hin ->] | [_ ->]].
      * destruct Hx as [Hx | [<- | []]]; [apply H3; exact Hx | exact Hin].
      * apply in_or_app. destruct Hx as [Hx | [<- | []]];
          [left; apply H3; exact Hx | right; left; reflexivity].
Qed.



(** ** Whole weights *)




Definition out_key (o : merged) : key := (o_source o, o_target o).

Lemma merge_edges_keys (es : list edge) :
  map out_key (merge_edges es) = map fst (group_edges es).
Proof.
  unfold merge_edges. rewrite map_map. apply map_ext.
  intros [[s t] d]. reflexivity.
Qed.


Definition edge_ab : edge :=
  {| source := Some (of_string "A"); target := Some (of_string "B");
     edge_id := Some (of_string "e1"); relationship := None; weight := None |}.

Definition edge_ba : edge :=
  {| source := Some (of_string "B"); target := Some (of_string "A");
     edge_id := Some (of_string "e2"); relationship := None; weight := Some (2 # 1) |}.

Definition edge_ab' : edge :=
  {| source := Some (of_string "A"); target := Some (of_string "B");
     edge_id := Some (of_string "e3"); relationship := None; weight := Some (3 # 1) |}.

Example merge_edges_swapped :
  map (fun o => (out_key o, map i_edge_id (o_edges o), avg_weight o))
      (merge_edges [edge_ab; edge_ba; edge_ab'; edge_ab'])
  = [ ((Some (of_string "A"), Some (of_string "B")),
       [of_string "e1"; of_string "e3"; of_string "e3"], 233 # 100);
      ((Some (of_string "B"), Some (of_string "A")),
       [of_string "e2"], 200 # 100) ].
Proof. vm_compute. reflexivity. Qed.

Definition edge_weighing (w : Q) : edge :=
  {| source := Some (of_string "A"); target := Some (of_string "B");
     edge_id := None; relationship := None; weight := Some w |}.

(** The floats decide where a mean falls between two hundredths: the
    mean of 1.0 and 1.15 is a float below 1.075, and the fifth of 0.125 a
    float above 0.025. *)
Example merge_edges_half_way :
  map avg_weight (merge_edges [edge_weighing 1; edge_weighing (115 # 100)])
  = [107 # 100]
  /\ map avg_weight
       (merge_edges [edge_weighing (125 # 1000); edge_weighing 0;
                     edge_weighing 0; edge_weighing 0; edge_weighing 0])
     = [3 # 100].
Proof. split; vm_compute; reflexivity. Qed.

End BuildFacts.

(* ================================================================== *)
(** * The boundary scores in binary64

    The rationals above stand for the floats of the code. At the inputs of
    the boundary examples the floating-point computation of
    [_calculate_ratio], [2.0 * matches / length], gives the float that the
    literal [0.85] denotes: 17 matching characters in two names of 20 are
    [>= 0.85] and not [> 0.85], and 16 matching characters are below. *)

Module FloatChecks.

Definition float_of_Z (z : Z) : float := PrimFloat.of_uint63 (Uint63.of_Z z).

Definition calculate_ratio_float (matches length : Z) : float :=
  if length =? 0 then 1%float
  else (2 * float_of_Z matches / float_of_Z length)%float.

Example ratio_17_of_40 :
  PrimFloat.leb 0.85 (calculate_ratio_float 17 40) = true
  /\ PrimFloat.ltb 0.85 (calculate_ratio_float 17 40) = false.
Proof. split; vm_compute; reflexivity. Qed.

Example ratio_16_of_40 :
  PrimFloat.leb 0.85 (calculate_ratio_float 16 40) = false.
Proof. vm_compute; reflexivity. Qed.

(** The number that a finite float is. *)
Definition float_value (f : float) : Q :=
  match Prim2SF f with
  | S754_finite s m e =>
      (inject_Z (if s then Z.neg m else Z.pos m) * 2 ^ e)%Q
  | _ => 0%Q
  end.

(** [Py.binary64] gives the floats of the machine: the score of 69
    matches in 160 characters, the fifth of 0.125 and the mean of 1.0 and
    1.15, whose roundings are 0.863, 0.03 and 1.07. *)
Example binary64_is_float :
  (Py.binary64 (138 # 160) == float_value (2 * 69 / 160))%Q
  /\ (Py.binary64 (Py.binary64 (125 # 1000) / 5) == float_value (0.125 / 5))%Q
  /\ (Build.average [1%Q; (115 # 100)%Q] == float_value ((0 + 1 + 1.15) / 2))%Q
  /\ (Py.round (138 # 160) 3 == 863 # 1000)%Q
  /\ (Py.round ((125 # 1000) / 5) 2 == 3 # 100)%Q
  /\ (Py.round (Build.average [1%Q; (115 # 100)%Q]) 2 == 107 # 100)%Q.
Proof. repeat split; vm_compute; reflexivity. Qed.

(** The same for every score of two strings of at most 128 characters
    together: the float that [_calculate_ratio] computes is the float
    that holds the quotient. *)
Definition scores_agree (length : Z) : bool :=
  forallb
    (fun m =>
       let matches := Z.of_nat m in
       Qeq_bool (Py.binary64 (2 * matches # Z.to_pos length))
                (float_value (calculate_ratio_float matches length)))
    (seq 0 (S (Z.to_nat (length / 2)))).

Example binary64_is_float_on_scores :
  forallb (fun n => scores_agree (Z.of_nat n)) (seq 1 128) = true.
Proof. vm_compute. reflexivity. Qed.

End FloatChecks.

(* ================================================================== *)
(** * More on names and texts *)

Module TextFacts.
Import Py Utilities NormalizeFacts.

(** X1. The result of [normalize_text] is in normal form: its only white
    space is the single space, never twice in a row and never at either
    end, it has no newline, and no lower-case letter is followed directly
    by an upper-case one. The normal forms are exactly the strings that
    [normalize_text] leaves unchanged. *)
Theorem normalize_text_shape (x : str) :
  normal (normalize_text x)
  /\ ~ In NL (normalize_text x)
  /\ (forall t, normalize_text t = t <-> normal t).
Proof.
  split; [apply normalize_text_normal | split].
  - intros H. destruct (normalize_text_normal x) as [H1 _ _ _ _].
    unfold only_sp in H1. rewrite Forall_forall in H1.
    specialize (H1 NL H isspace_NL). discriminate H1.
  - intros t. split.
    + intros E. rewrite <- E. apply normalize_text_normal.
    + apply normalize_text_fixed.
Qed.

(** ** Words *)

(** A word: a non-empty string without white space. *)
Definition word (w : str) : Prop :=
  w <> [] /\ Forall (fun c => isspace c = false) w.

Lemma split_aux_words (cur t : str) :
  Forall (fun c => isspace c = false) cur ->
  Forall word (split_aux cur t).
Proof.
  revert cur. induction t as [|c r IH]; intros cur Hcur; cbn [split_aux].
  - destruct cur as [|d cur']; [constructor|].
    constructor; [|constructor]. split.
    + intros E. apply (f_equal (@length _)) in E.
      rewrite length_rev in E. discriminate E.
    + apply Forall_rev. exact Hcur.
  - destruct (isspace c) eqn:Ec.
    + destruct cur as [|d cur']; [apply IH; constructor|].
      constructor; [|apply IH; constructor]. split.
      * intros E. apply (f_equal (@length _)) in E.
        rewrite length_rev in E. discriminate E.
      * apply Forall_rev. exact Hcur.
    + apply IH. constructor; assumption.
Qed.

Lemma split_words (t : str) : Forall word (split t).
Proof. apply split_aux_words. constructor. Qed.

Lemma split_aux_word_then (cur w rest : str) :
  Forall (fun c => isspace c = false) w -> rev cur ++ w <> [] ->
  split_aux cur (w ++ SP :: rest) = (rev cur ++ w) :: split_aux [] rest.
Proof.
  revert cur. induction w as [|c w IH]; intros cur Hw Hne.
  - cbn [app split_aux]. rewrite isspace_SP. rewrite app_nil_r in *.
    destruct cur as [|d cur']; [exfalso; apply Hne; reflexivity | reflexivity].
  - inversion Hw as [|? ? Hc Hw']; subst.
    cbn [app split_aux]. rewrite Hc. rewrite (IH (c :: cur) Hw').
    + cbn [rev]. now rewrite <- app_assoc.
    + cbn [rev]. rewrite <- app_assoc. cbn. intros E.
      apply app_eq_nil in E. destruct E as [_ E]. discriminate E.
Qed.

Lemma split_aux_word_end (cur w : str) :
  Forall (fun c => isspace c = false) w -> rev cur ++ w <> [] ->
  split_aux cur w = [rev cur ++ w].
Proof.
  revert cur. induction w as [|c w IH]; intros cur Hw Hne.
  - cbn [split_aux]. rewrite app_nil_r in *.
    destruct cur as [|d cur']; [exfalso; apply Hne; reflexivity | reflexivity].
  - inversion Hw as [|? ? Hc Hw']; subst.
    cbn [split_aux]. rewrite Hc. rewrite (IH (c :: cur) Hw').
    + cbn [rev]. now rewrite <- app_assoc.
    + cbn [rev]. rewrite <- app_assoc. cbn. intros E.
      apply app_eq_nil in E. destruct E as [_ E]. discriminate E.
Qed.

(** Words joined by single spaces split into these words. *)
Lemma split_join (ws : list str) :
  Forall word ws -> split (join [SP] ws) = ws.
Proof.
  unfold split. induction 1 as [|w ws [Hne Hw] Hws IH]; [reflexivity|].
  destruct ws as [|w' ws'].
  - cbn [join]. rewrite (split_aux_word_end [] Hw); auto.
  - change (join [SP] (w :: w' :: ws')) with (w ++ SP :: join [SP] (w' :: ws')).
    rewrite (split_aux_word_then [] _ Hw); auto. now rewrite IH.
Qed.

Lemma is_initial_word (mid : str) : is_initial mid = true -> word mid.
Proof.
  destruct mid as [|c [|d [|e r]]]; cbn [is_initial]; try discriminate.
  - intros H. split; [discriminate|]. constructor; [|constructor].
    apply upper_not_space. exact H.
  - intros H. apply andb_true_iff in H. destruct H as [H1 H2].
    apply N.eqb_eq in H2. subst d. split; [discriminate|].
    constructor; [apply upper_not_space; exact H1 | constructor; [reflexivity | constructor]].
Qed.

(** A run of white space. *)
Definition blank (s : str) : Prop := Forall (fun c => isspace c = true) s.

Lemma split_aux_blank (s t : str) :
  blank s -> split_aux [] (s ++ t) = split_aux [] t.
Proof.
  induction 1 as [|c s Hc Hs IH]; [reflexivity|].
  cbn [app split_aux]. rewrite Hc. exact IH.
Qed.

Lemma split_aux_word_gap (cur w gap rest : str) :
  Forall (fun c => isspace c = false) w -> rev cur ++ w <> [] ->
  blank gap -> gap <> [] ->
  split_aux cur (w ++ gap ++ rest) = (rev cur ++ w) :: split_aux [] rest.
Proof.
  intros Hw Hne Hgap Hg. revert cur Hne. induction Hw as [|c w Hc Hw IH]; intros cur Hne.
  - destruct Hgap as [|g gap Hg1 Hgap]; [congruence|].
    cbn [app split_aux]. rewrite Hg1. rewrite app_nil_r in *.
    rewrite (split_aux_blank rest Hgap).
    destruct cur as [|d cur']; [exfalso; apply Hne; reflexivity | reflexivity].
  - cbn [app split_aux]. rewrite Hc. rewrite (IH (c :: cur)).
    + cbn [rev]. now rewrite <- app_assoc.
    + cbn [rev]. rewrite <- app_assoc. cbn. intros E.
      apply app_eq_nil in E. destruct E as [_ E]. discriminate E.
Qed.

Lemma split_aux_word_last (cur w post : str) :
  Forall (fun c => isspace c = false) w -> rev cur ++ w <> [] -> blank post ->
  split_aux cur (w ++ post) = [rev cur ++ w].
Proof.
  intros Hw Hne Hpost. destruct post as [|g post].
  - rewrite app_nil_r. apply split_aux_word_end; assumption.
  - pose proof (@split_aux_word_gap cur w (g :: post) [] Hw Hne Hpost) as H.
    rewrite app_nil_r in H. apply H. discriminate.
Qed.

(** Three words, with any white space between them and around them, split
    into these words. *)
Lemma split_three (pre first gap1 mid gap2 last post : str) :
  word first -> word mid -> word last ->
  blank pre -> blank gap1 -> gap1 <> [] -> blank gap2 -> gap2 <> [] -> blank post ->
  split (pre ++ first ++ gap1 ++ mid ++ gap2 ++ last ++ post) = [first; mid; last].
Proof.
  intros [Nf Hf] [Nm Hm] [Nl Hl] Hpre Hg1 Ng1 Hg2 Ng2 Hpost. unfold split.
  rewrite (split_aux_blank _ Hpre).
  rewrite (@split_aux_word_gap [] first gap1 _ Hf Nf Hg1 Ng1).
  rewrite (@split_aux_word_gap [] mid gap2 _ Hm Nm Hg2 Ng2).
  rewrite (@split_aux_word_last [] last post Hl Nl Hpost). reflexivity.
Qed.

(** X2. [strip_middle_initial] removes a middle initial. A name of three
    words, with any white space between the words and around them, whose
    middle word is one capital letter, with or without a full stop,
    becomes the first and the last word joined by one space; with another
    middle word it is returned as it is, and so is a name that has not
    three words. Applying the function again changes nothing. *)
Theorem strip_middle_initial_spec :
  (forall pre first gap1 mid gap2 last post,
      word first -> word mid -> word last ->
      blank pre -> blank gap1 -> gap1 <> [] -> blank gap2 -> gap2 <> [] ->
      blank post ->
      let name := pre ++ first ++ gap1 ++ mid ++ gap2 ++ last ++ post in
      (is_initial mid = true -> strip_middle_initial name = first ++ [SP] ++ last)
      /\ (is_initial mid = false -> strip_middle_initial name = name))
  /\ (forall name,
         length (split name) <> 3%nat -> strip_middle_initial name = name)
  /\ (forall name,
         strip_middle_initial (strip_middle_initial name) = strip_middle_initial name).
Proof.
  assert (Hjoin : forall first last, word first -> word last ->
            strip_middle_initial (join [SP] [first; last]) = join [SP] [first; last]).
  { intros first last Hf Hl. unfold strip_middle_initial.
    rewrite split_join; [reflexivity|]. repeat (apply Forall_cons; [assumption|]). constructor. }
  split; [|split].
  - intros pre first gap1 mid gap2 last post Hf Hm Hl Hpre Hg1 Ng1 Hg2 Ng2 Hpost name.
    unfold strip_middle_initial, name.
    rewrite (split_three Hf Hm Hl Hpre Hg1 Ng1 Hg2 Ng2 Hpost).
    split; intros ->; reflexivity.
  - intros name Hn. unfold strip_middle_initial.
    destruct (split name) as [|first [|mid [|last [|x r]]]]; try reflexivity.
    exfalso. apply Hn. reflexivity.
  - intros name.
    assert (H : strip_middle_initial name = name
                \/ exists first last, word first /\ word last
                     /\ strip_middle_initial name = join [SP] [first; last]).
    { unfold strip_middle_initial. pose proof (split_words name) as Hw.
      destruct (split name) as [|first [|mid [|last [|x r]]]]; auto.
      destruct (is_initial mid); auto.
      inversion Hw as [|? ? Hf Hw']; subst. inversion Hw' as [|? ? _ Hw'']; subst.
      inversion Hw'' as [|? ? Hl _]; subst.
      right. exists first, last. auto. }
    destruct H as [H | (first & last & Hf & Hl & ->)]; [rewrite H; exact H|].
    apply Hjoin; assumption.
Qed.

(** The names of the docstring, and a name with wider gaps. *)
Example strip_middle_initial_names :
  strip_middle_initial (of_string "John A. Smith") = of_string "John Smith"
  /\ strip_middle_initial (of_string "Mary B Smith") = of_string "Mary Smith"
  /\ strip_middle_initial (of_string "John  A. Smith ") = of_string "John Smith"
  /\ strip_middle_initial (of_string "John Al Smith") = of_string "John Al Smith".
Proof. repeat split; vm_compute; reflexivity. Qed.

(** X3. The shingles of a text with [n] words: none when there is no word,
    the whole text's words as one shingle when there are fewer than [k],
    and otherwise the [n - k + 1] windows of [k] consecutive words, each
    joined by single spaces, in order. *)
Theorem text_to_shingles_windows (text : str) (k : nat) :
  let words := split text in
  let n := length words in
  (n = 0%nat -> (0 < k)%nat -> text_to_shingles text k = [])
  /\ ((0 < n < k)%nat -> text_to_shingles text k = [join [SP] words])
  /\ ((k <= n)%nat ->
      length (text_to_shingles text k) = (n - k + 1)%nat
      /\ forall i, (i < n - k + 1)%nat ->
                   nth_error (text_to_shingles text k) i
                   = Some (join [SP] (firstn k (skipn i words)))).
Proof.
  cbv zeta. unfold text_to_shingles. split; [|split].
  - intros Hn Hk. rewrite Hn. destruct (Nat.ltb_spec 0 k); [|lia].
    destruct (split text); [reflexivity | discriminate].
  - intros Hn. destruct (Nat.ltb_spec (length (split text)) k); [|lia].
    destruct (split text); [cbn in Hn; lia | reflexivity].
  - intros Hn. destruct (Nat.ltb_spec (length (split text)) k); [lia|].
    generalize (length (split text) - k + 1)%nat as count.
    generalize (split text) as words. clear.
    intros words count. revert words.
    induction count as [|c IH]; intros words; cbn [windows length].
    + split; [reflexivity | intros i Hi; lia].
    + destruct (IH (tl words)) as [IH1 IH2]. split; [now rewrite IH1|].
      intros [|i] Hi; cbn [nth_error]; [reflexivity|].
      rewrite IH2 by lia. destruct words; cbn [tl skipn]; [|reflexivity].
      now rewrite skipn_nil.
Qed.

End TextFacts.

(* ================================================================== *)
(** * More on the sequence matcher *)

Module MatcherFacts.
Import Py Difflib Utilities DifflibFacts.

(** The elements [a[i .. i+k)] and [b[j .. j+k)] agree. *)
Definition agree (a b : str) (i j k : Z) : Prop :=
  forall t, 0 <= t < k -> getitem a (i + t) = getitem b (j + t).

(** A block that lies within both strings and matches. *)
Definition block_ok (a b : str) (m : Match) : Prop :=
  0 <= m_a m /\ 0 <= m_b m /\ 0 <= m_size m
  /\ m_a m + m_size m <= len a /\ m_b m + m_size m <= len b
  /\ agree a b (m_a m) (m_b m) (m_size m).

Definition genuine (a b : str) (m : Match) : Prop :=
  agree a b (m_a m) (m_b m) (m_size m).

(** ** The index of [b] *)

Definition b2j_ok (b : str) (d : b2j_t) : Prop :=
  Forall (fun e => forall j, In j (snd e) -> 0 <= j < len b /\ getitem b j = fst e) d.

Lemma b2j_append_ok (b : str) (d : b2j_t) (elt : char) (i : Z) :
  0 <= i < len b -> getitem b i = elt -> b2j_ok b d -> b2j_ok b (b2j_append d elt i).
Proof.
  intros Hi He. induction 1 as [|[y js] d Hy Hd IH]; cbn [b2j_append].
  - constructor; [|constructor]. cbn [fst snd]. intros j [<- | []]. auto.
  - destruct (N.eqb_spec elt y) as [E | E].
    + constructor; [|exact Hd]. cbn [fst snd] in *. intros j Hj.
      apply in_app_or in Hj. destruct Hj as [Hj | [<- | []]]; [auto|].
      split; [exact Hi | congruence].
    + constructor; [exact Hy | exact IH].
Qed.

Lemma chain_loop_ok (b pre r : str) (d : b2j_t) :
  b = pre ++ r -> b2j_ok b d -> b2j_ok b (chain_loop r (len pre) d).
Proof.
  revert pre d. induction r as [|elt r IH]; intros pre d Hb Hd; cbn [chain_loop].
  - exact Hd.
  - replace (len pre + 1) with (len (pre ++ [elt]))
      by (unfold len; rewrite length_app; cbn [length]; lia).
    apply IH.
    + rewrite <- app_assoc. exact Hb.
    + apply b2j_append_ok; [| |exact Hd].
      * subst b. unfold len. rewrite length_app. cbn [length]. lia.
      * subst b. unfold getitem, len. rewrite Nat2Z.id. apply nth_middle.
Qed.

Lemma chain_b_ok (b : str) : b2j_ok b (chain_b b).
Proof.
  assert (H : b2j_ok b (chain_loop b 0 [])).
  { apply (@chain_loop_ok b [] b []); [reflexivity | constructor]. }
  unfold chain_b. destruct (200 <=? len b); [|exact H].
  unfold b2j_ok in *. rewrite Forall_forall in *.
  intros e He. apply filter_In in He. apply H. tauto.
Qed.

Lemma b2j_get_ok (b : str) (d : b2j_t) (x : char) (j : Z) :
  b2j_ok b d -> In j (b2j_get d x) -> 0 <= j < len b /\ getitem b j = x.
Proof.
  induction 1 as [|[y js] d Hy Hd IH]; cbn [b2j_get]; [intros []|].
  destruct (N.eqb_spec x y) as [-> | E]; [apply Hy | exact IH].
Qed.

(** ** The longest match matches *)

Section Rows.
Variables a b : str.
Variables blo bhi : Z.

(** The lengths recorded after the rows before [i] belong to matches that
    end at [a[i-1]]. *)
Definition ends_ok (i : Z) (d : j2len_t) : Prop :=
  forall j, agree a b (i - j2len_get d j) (j + 1 - j2len_get d j) (j2len_get d j).

Lemma ends_ok_nil (i : Z) : ends_ok i [].
Proof. intros j t Ht. cbn in Ht. lia. Qed.

Lemma row_loop_genuine (js : list Z) (i : Z) (j2len newj2len : j2len_t) (best : Match) :
  (forall j, In j js -> getitem b j = getitem a i) ->
  ends_ok i j2len -> ends_ok (i + 1) newj2len -> genuine a b best ->
  ends_ok (i + 1) (fst (row_loop js i blo bhi j2len newj2len best))
  /\ genuine a b (snd (row_loop js i blo bhi j2len newj2len best)).
Proof.
  intros Hjs Hold. revert newj2len best.
  induction js as [|j r IH]; intros newj2len best Hnew Hbest; cbn [row_loop].
  - cbn [fst snd]. auto.
  - assert (Hr : forall j', In j' r -> getitem b j' = getitem a i)
      by (intros j' Hj'; apply Hjs; right; exact Hj').
    specialize (IH Hr).
    destruct (j <? blo); [apply IH; auto|].
    destruct (bhi <=? j); [cbn [fst snd]; auto|].
    set (k := j2len_get j2len (j - 1) + 1).
    assert (Hk : agree a b (i + 1 - k) (j + 1 - k) k).
    { intros t Ht. unfold k in *.
      destruct (Z.eq_dec t (j2len_get j2len (j - 1))) as [E | E].
      - replace (i + 1 - (j2len_get j2len (j - 1) + 1) + t) with i by lia.
        replace (j + 1 - (j2len_get j2len (j - 1) + 1) + t) with j by lia.
        symmetry. apply Hjs. left. reflexivity.
      - pose proof (Hold (j - 1) t ltac:(lia)) as H.
        replace (i + 1 - (j2len_get j2len (j - 1) + 1) + t)
          with (i - j2len_get j2len (j - 1) + t) by lia.
        replace (j + 1 - (j2len_get j2len (j - 1) + 1) + t)
          with (j - 1 + 1 - j2len_get j2len (j - 1) + t) by lia.
        exact H. }
    apply IH.
    + intros j'. cbn [j2len_get]. destruct (Z.eqb_spec j' j) as [-> | E].
      * exact Hk.
      * apply Hnew.
    + destruct (m_size best <? k); [|exact Hbest].
      unfold genuine. cbn [m_a m_b m_size]. intros t Ht.
      replace (i - k + 1 + t) with (i + 1 - k + t) by lia.
      replace (j - k + 1 + t) with (j + 1 - k + t) by lia.
      apply Hk. exact Ht.
Qed.

Lemma rows_genuine (n : nat) (b2j : b2j_t) (i : Z) (j2len : j2len_t) (best : Match) :
  b2j_ok b b2j -> ends_ok i j2len -> genuine a b best ->
  genuine a b (rows n a b2j i blo bhi j2len best).
Proof.
  intros Hb. revert i j2len best.
  induction n as [|n IH]; intros i j2len best Hj Hbest; cbn [rows]; [exact Hbest|].
  pose proof (@row_loop_genuine (b2j_get b2j (getitem a i)) i j2len [] best) as H.
  destruct (row_loop (b2j_get b2j (getitem a i)) i blo bhi j2len [] best)
    as [newj2len best'].
  destruct H as [H1 H2]; auto.
  - intros j Hj'. apply (b2j_get_ok _ _ Hb Hj').
  - apply ends_ok_nil.
Qed.

Lemma extend_left_genuine (fuel : nat) (P : char -> bool) (alo : Z) (m : Match) :
  genuine a b m -> genuine a b (extend_left fuel P a b alo blo m).
Proof.
  revert m. induction fuel as [|f IH]; intros m Hm; cbn [extend_left]; [exact Hm|].
  destruct (alo <? m_a m); cbn [andb]; [|exact Hm].
  destruct (blo <? m_b m); cbn [andb]; [|exact Hm].
  destruct (P (getitem b (m_b m - 1))); cbn [andb]; [|exact Hm].
  destruct (N.eqb_spec (getitem a (m_a m - 1)) (getitem b (m_b m - 1))) as [E | E];
    [|exact Hm].
  apply IH. unfold genuine. cbn [m_a m_b m_size]. intros t Ht.
  destruct (Z.eq_dec t 0) as [-> | Hne].
  - now rewrite !Z.add_0_r.
  - replace (m_a m - 1 + t) with (m_a m + (t - 1)) by lia.
    replace (m_b m - 1 + t) with (m_b m + (t - 1)) by lia.
    apply Hm. lia.
Qed.

Lemma extend_right_genuine (fuel : nat) (P : char -> bool) (ahi : Z) (m : Match) :
  genuine a b m -> genuine a b (extend_right fuel P a b ahi bhi m).
Proof.
  revert m. induction fuel as [|f IH]; intros m Hm; cbn [extend_right]; [exact Hm|].
  destruct (m_a m + m_size m <? ahi); cbn [andb]; [|exact Hm].
  destruct (m_b m + m_size m <? bhi); cbn [andb]; [|exact Hm].
  destruct (P (getitem b (m_b m + m_size m))); cbn [andb]; [|exact Hm].
  destruct (N.eqb_spec (getitem a (m_a m + m_size m)) (getitem b (m_b m + m_size m)))
    as [E | E]; [|exact Hm].
  apply IH. unfold genuine. cbn [m_a m_b m_size]. intros t Ht.
  destruct (Z.eq_dec t (m_size m)) as [-> | Hne]; [exact E|].
  apply Hm. lia.
Qed.

Lemma find_longest_match_genuine (b2j : b2j_t) (alo ahi : Z) :
  b2j_ok b b2j -> genuine a b (find_longest_match a b b2j alo ahi blo bhi).
Proof.
  intros Hb. unfold find_longest_match.
  apply extend_right_genuine, extend_left_genuine, extend_right_genuine,
    extend_left_genuine, rows_genuine; auto.
  - apply ends_ok_nil.
  - intros t Ht. cbn in Ht. lia.
Qed.

End Rows.

(** ** The blocks *)

Definition region_within (a b : str) (r : region) : Prop :=
  let '(alo, ahi, blo, bhi) := r in
  0 <= alo /\ alo <= ahi /\ ahi <= len a /\ 0 <= blo /\ blo <= bhi /\ bhi <= len b.

Lemma next_queue_within (a b : str) (alo ahi blo bhi : Z) (x : Match)
  (queue : list region) :
  region_within a b (alo, ahi, blo, bhi) -> inside alo blo bhi ahi x ->
  Forall (region_within a b) queue ->
  Forall (region_within a b) (next_queue alo ahi blo bhi x queue).
Proof.
  intros (R1 & R2 & R3 & R4 & R5 & R6) (H1 & H2 & H3 & H4 & H5) Hq.
  unfold next_queue.
  destruct (_ && _)%bool; destruct (_ && _)%bool;
    repeat (apply Forall_cons; [cbn; lia|]); exact Hq.
Qed.

Lemma blocks_loop_ok (fuel : nat) (a b : str) (b2j : b2j_t)
  (queue : list region) (acc r : list Match) :
  b2j_ok b b2j -> Forall (region_within a b) queue -> Forall (block_ok a b) acc ->
  blocks_loop fuel a b b2j queue acc = Some r -> Forall (block_ok a b) r.
Proof.
  intros Hb. revert queue acc.
  induction fuel as [|f IH]; intros queue acc Hq Hacc Hr.
  - destruct queue as [|[[[alo ahi] blo] bhi] queue]; cbn in Hr; [|discriminate].
    injection Hr as <-. exact Hacc.
  - destruct queue as [|[[[alo ahi] blo] bhi] queue].
    + cbn in Hr. injection Hr as <-. exact Hacc.
    + inversion Hq as [|? ? Hr0 Hq']; subst.
      rewrite blocks_loop_step in Hr. cbv zeta in Hr.
      pose proof Hr0 as (R1 & R2 & R3 & R4 & R5 & R6).
      pose proof (@find_longest_match_inside alo ahi blo bhi a b b2j R2 R5) as Hin.
      pose proof (@find_longest_match_genuine a b blo bhi b2j alo ahi Hb) as Hg.
      destruct (m_size (find_longest_match a b b2j alo ahi blo bhi) =? 0).
      * eapply IH; eauto.
      * eapply IH; [| |exact Hr].
        -- apply next_queue_within; auto.
        -- apply Forall_app. split; [exact Hacc|]. constructor; [|constructor].
           destruct Hin as (H1 & H2 & H3 & H4 & H5).
           unfold block_ok. repeat split; try lia. exact Hg.
Qed.

Lemma insert_block_In (x y : Match) (l : list Match) :
  In y (insert_block x l) -> y = x \/ In y l.
Proof.
  induction l as [|z l IH]; cbn [insert_block].
  - intros [<- | []]. auto.
  - destruct (match_leb x z).
    + intros [<- | H]; auto.
    + intros [<- | H]; [right; left; reflexivity|].
      destruct (IH H); [auto | right; right; assumption].
Qed.

Lemma sort_blocks_Forall (P : Match -> Prop) (l : list Match) :
  Forall P l -> Forall P (sort_blocks l).
Proof.
  induction 1 as [|x l Hx Hl IH]; cbn [sort_blocks fold_right]; [constructor|].
  fold (sort_blocks l). rewrite Forall_forall in *. intros y Hy.
  apply insert_block_In in Hy. destruct Hy as [-> | Hy]; auto.
Qed.

Lemma collapse_ok (a b : str) (blocks : list Match) (cur : Match) (acc : list Match) :
  Forall (block_ok a b) blocks -> block_ok a b cur -> Forall (block_ok a b) acc ->
  Forall (block_ok a b) (collapse blocks cur acc).
Proof.
  intros Hblocks. revert cur acc.
  induction Hblocks as [|x r Hx Hr IH]; intros cur acc Hcur Hacc; cbn [collapse].
  - destruct (m_size cur =? 0); [exact Hacc|].
    apply Forall_app. split; [exact Hacc | constructor; [exact Hcur | constructor]].
  - destruct (Z.eqb_spec (m_a cur + m_size cur) (m_a x)) as [E1 | E1]; cbn [andb].
    + destruct (Z.eqb_spec (m_b cur + m_size cur) (m_b x)) as [E2 | E2].
      * apply IH; [|exact Hacc].
        destruct Hcur as (C1 & C2 & C3 & C4 & C5 & C6).
        destruct Hx as (X1 & X2 & X3 & X4 & X5 & X6).
        unfold block_ok. cbn [m_a m_b m_size]. repeat split; try lia.
        intros t Ht. destruct (Z.lt_ge_cases t (m_size cur)) as [Hlt | Hge].
        -- apply C6. lia.
        -- replace (m_a cur + t) with (m_a x + (t - m_size cur)) by lia.
           replace (m_b cur + t) with (m_b x + (t - m_size cur)) by lia.
           apply X6. lia.
      * apply IH; [exact Hx|]. destruct (m_size cur =? 0); [exact Hacc|].
        apply Forall_app. split; [exact Hacc | constructor; [exact Hcur | constructor]].
    + apply IH; [exact Hx|]. destruct (m_size cur =? 0); [exact Hacc|].
      apply Forall_app. split; [exact Hacc | constructor; [exact Hcur | constructor]].
Qed.

Lemma matching_blocks_ok (a b : str) :
  Forall (block_ok a b) (get_matching_blocks a b).
Proof.
  unfold get_matching_blocks, get_matching_blocks_fuel.
  destruct (blocks_loop (2 * length a + 1) a b (chain_b b) [(0, len a, 0, len b)] [])
    as [r|] eqn:Hr; [|constructor].
  apply blocks_loop_ok in Hr.
  - apply Forall_app. split.
    + apply collapse_ok; [apply sort_blocks_Forall; exact Hr | | constructor].
      unfold block_ok, len. cbn [m_a m_b m_size]. repeat split; try lia.
      intros t Ht. lia.
    + constructor; [|constructor]. unfold block_ok. cbn [m_a m_b m_size].
      unfold len. repeat split; try lia. intros t Ht. lia.
  - apply chain_b_ok.
  - constructor; [|constructor]. unfold region_within, len. lia.
  - constructor.
Qed.

Lemma getitem_In (s : str) (i : Z) : 0 <= i < len s -> In (getitem s i) s.
Proof. unfold getitem, len. intros H. apply nth_In. lia. Qed.

Lemma sum_zero (l : list Z) : Forall (fun x => x = 0) l -> sum l = 0.
Proof.
  induction 1 as [|x l -> _ IH]; [reflexivity|]. now rewrite sum_cons, IH.
Qed.

(** X4. Every block that [get_matching_blocks] reports lies within both
    strings and is a real match: the [size] elements of [a] from index [a]
    on equal the [size] elements of [b] from index [b] on. *)
Theorem get_matching_blocks_sound (a b : str) :
  Forall (block_ok a b) (get_matching_blocks a b).
Proof. apply matching_blocks_ok. Qed.

Lemma similarity_no_common (a b : str) :
  (forall c, In c a -> ~ In c b) -> a <> [] \/ b <> [] ->
  (similarity a b == 0)%Q.
Proof.
  intros Hdis Hne.
  assert (Hr : (ratio a b == 0)%Q).
  { unfold ratio.
    assert (Hm : sum (map m_size (get_matching_blocks a b)) = 0).
    { apply sum_zero. apply Forall_map.
      pose proof (matching_blocks_ok a b) as Hs.
      rewrite Forall_forall in *. intros m Hm.
      destruct (Hs m Hm) as (H1 & H2 & H3 & H4 & H5 & H6).
      destruct (Z.eq_dec (m_size m) 0) as [E | E]; [exact E|].
      exfalso. specialize (H6 0 ltac:(lia)). rewrite !Z.add_0_r in H6.
      apply (Hdis (getitem a (m_a m))).
      - apply getitem_In. lia.
      - rewrite H6. apply getitem_In. lia. }
    rewrite Hm. unfold calculate_ratio.
    destruct (Z.eqb_spec (len a + len b) 0) as [E | E].
    - exfalso. unfold len in E.
      destruct a, b; cbn in E; try lia. destruct Hne; congruence.
    - unfold Qdiv. rewrite Qmult_0_r, Qmult_0_l. reflexivity. }
  unfold similarity. destruct a, b; exact Hr.
Qed.

(** X5. Two texts that have no character in common, and are not both
    empty, have similarity 0; in particular an empty text and a non-empty
    one have similarity 0. *)
Theorem similarity_disjoint (a b : str) :
  (forall c, In c a -> ~ In c b) -> a <> [] \/ b <> [] ->
  (similarity a b == 0)%Q.
Proof. apply similarity_no_common. Qed.

Lemma similarity_disjoint_witness :
  (similarity (of_string "ab") (of_string "xyz") == 0)%Q.
Proof.
  apply (@similarity_disjoint (of_string "ab") (of_string "xyz")).
  - intros c [<- | [<- | []]] [H | [H | [H | []]]]; discriminate H.
  - left. discriminate.
Defined.

End MatcherFacts.

(* ================================================================== *)
(** * More on the resolution and clustering of names *)

Module NamesFacts.
Import Py Utilities ExtractPDFdata MatchingFacts ClusterFacts.

(** The match that the loops hold belongs to the index and has an alias
    with the score they hold. *)
Definition match_ok (norm : str) (people_index : list person)
  (st : option person * Q) : Prop :=
  match fst st with
  | Some p => In p people_index
              /\ exists known, In known (p_names p) /\ snd st = score_person norm known
  | None => snd st = 0%Q
  end.

Lemma scan_names_match_ok (norm : str) (people_index : list person) (p : person)
  (st : option person * Q) :
  In p people_index -> match_ok norm people_index st ->
  match_ok norm people_index (scan_names norm p st).
Proof.
  intros Hp. unfold scan_names.
  assert (H : forall names, incl names (p_names p) -> forall st,
             match_ok norm people_index st ->
             match_ok norm people_index
               (fold_left (fun st known =>
                             let score := score_person norm known in
                             if Qltb (snd st) score then (Some p, score) else st)
                          names st)).
  { induction names as [|known names IH]; intros Hincl st0 Hst; cbn [fold_left].
    - exact Hst.
    - apply IH; [intros x Hx; apply Hincl; right; exact Hx|].
      cbv zeta. destruct (Qltb (snd st0) (score_person norm known)); [|exact Hst].
      unfold match_ok. cbn [fst snd]. split; [exact Hp|].
      exists known. split; [apply Hincl; left; reflexivity | reflexivity]. }
  apply H. apply incl_refl.
Qed.

Lemma scan_people_match_ok (norm : str) (people_index : list person) :
  match_ok norm people_index (scan_people norm people_index).
Proof.
  unfold scan_people.
  apply ReportFacts.fold_left_invariant with (P := match_ok norm people_index).
  - reflexivity.
  - intros st p Hp Hst. apply scan_names_match_ok; assumption.
Qed.

(** X6. What [canonicalize_person] returns: the name it was given, as
    [matchedName]; as [confidence] the best score rounded to three
    decimals, a number between 0 and 1; and, when it resolves, the [id] of
    an identity of the index that has an alias with the best score, which
    is at least the threshold. With an empty index nothing resolves. *)
Theorem canonicalize_person_result (name : str) (people_index : list person)
  (threshold : Q) :
  let norm := normalize_text (strip_middle_initial name) in
  let r := canonicalize_person name people_index threshold in
  r_matchedName r = name
  /\ r_confidence r = round (best_score norm people_index) 3
  /\ (0 <= r_confidence r <= 1)%Q
  /\ (forall i, r_id r = Some i ->
        exists p known,
          In p people_index /\ p_id p = i /\ In known (p_names p)
          /\ (score_person norm known == best_score norm people_index)%Q
          /\ (threshold <= score_person norm known)%Q)
  /\ (people_index = [] -> r_id r = None).
Proof.
  intros norm r.
  pose proof (scan_people_best norm people_index) as Hb.
  pose proof (scan_people_match_ok norm people_index) as Hm.
  assert (Hrange : (0 <= best_score norm people_index <= 1)%Q).
  { unfold best_score.
    assert (Hall : forall s, In s (all_scores norm people_index) -> (s <= 1)%Q).
    { intros s H. unfold all_scores in H. apply in_flat_map in H.
      destruct H as (p & _ & H). apply in_map_iff in H.
      destruct H as (known & <- & _). apply score_person_range. }
    generalize dependent (all_scores norm people_index). intros l Hall.
    destruct (greatest_upper l) as [G0 _]. split; [exact G0|].
    destruct (greatest_attained l) as [E | H]; [rewrite E; discriminate|].
    apply Hall. exact H. }
  subst r. unfold canonicalize_person. fold norm.
  destruct (scan_people norm people_index) as [best_match score] eqn:Es.
  cbn [fst snd] in Hb.
  assert (Hround : round score 3 = round (best_score norm people_index) 3)
    by (apply FloatFacts.round_comp; exact Hb).
  assert (Hconf : (0 <= round score 3 <= 1)%Q).
  { rewrite Hround. apply FloatFacts.round_3_range. exact Hrange. }
  unfold match_ok in Hm. cbn [fst snd] in Hm.
  destruct best_match as [p|].
  - destruct Hm as (Hp & known & Hk & Hs).
    destruct (Qle_bool threshold score) eqn:Et;
      cbn [r_matchedName r_confidence r_id];
      (split; [reflexivity | split; [exact Hround | split; [exact Hconf | split]]]).
    + intros i Hi. injection Hi as <-. apply Qle_bool_iff in Et.
      exists p, known. repeat split; auto.
      * rewrite <- Hs. exact Hb.
      * rewrite <- Hs. exact Et.
    + intros ->. destruct Hp.
    + discriminate.
    + reflexivity.
  - cbn [r_matchedName r_confidence r_id].
    split; [reflexivity | split; [exact Hround | split; [exact Hconf | split]]].
    + discriminate.
    + reflexivity.
Qed.

(** ** Clusters *)

(** Every member of a cluster but the first scores more than 0.85 against
    the first. *)
Definition tight (clusters : list (list str)) : Prop :=
  forall first rest, In (first :: rest) clusters ->
    Forall (fun n => (threshold_085 < score_person n first)%Q) rest.

Lemma joins_permutation cmp name clusters clusters' :
  joins cmp name clusters clusters' ->
  Permutation (concat clusters') (name :: concat clusters).
Proof.
  induction 1 as [first rest others H | first rest others others' H1 H2 IH |].
  - cbn [concat].
    replace ((first :: rest ++ [name]) ++ concat others)
      with ((first :: rest) ++ name :: concat others)
      by (cbn; rewrite <- app_assoc; reflexivity).
    apply Permutation_sym, Permutation_cons_app. reflexivity.
  - cbn [concat]. rewrite IH.
    apply Permutation_sym, Permutation_cons_app. reflexivity.
  - cbn. reflexivity.
Qed.

Lemma joins_tight name clusters clusters' :
  joins more_than_085 name clusters clusters' -> tight clusters -> tight clusters'.
Proof.
  induction 1 as [first rest others H | first rest others others' H1 H2 IH |];
    intros Ht f r Hin.
  - destruct Hin as [E | Hin].
    + injection E as <- <-. apply Forall_app. split.
      * apply (Ht first rest). left. reflexivity.
      * constructor; [|constructor]. apply Qltb_lt. exact H.
    + apply (Ht f r). right. exact Hin.
  - destruct Hin as [E | Hin].
    + apply (Ht f r). left. exact E.
    + apply IH; [|exact Hin]. intros f' r' H'. apply (Ht f' r'). right. exact H'.
  - destruct Hin as [E | []]. injection E as <- <-. constructor.
Qed.

Lemma clustered_facts names clusters :
  clustered more_than_085 names clusters ->
  Permutation (concat clusters) names /\ tight clusters.
Proof.
  induction 1 as [|names name clusters clusters' H [IH1 IH2] Hj].
  - split; [reflexivity | intros f r []].
  - split.
    + rewrite (joins_permutation Hj), IH1. apply Permutation_cons_append.
    + eapply joins_tight; eauto.
Qed.

(** X7. [cluster_people] never raises and returns a partition of its
    input: every name is in exactly one cluster (the clusters together are
    a rearrangement of the input), no cluster is empty, and every member of
    a cluster except the first scores more than 0.85 against the first. *)
Theorem cluster_people_partition (unresolved : list str) :
  exists clusters,
    cluster_people unresolved = Ok clusters
    /\ Permutation (concat clusters) unresolved
    /\ Forall (fun c => c <> []) clusters
    /\ tight clusters
    /\ (length clusters <= length unresolved)%nat.
Proof.
  destruct (cluster_people_clustered unresolved) as (clusters & H1 & H2 & H3).
  destruct (clustered_facts H2) as [P T].
  exists clusters. repeat split; auto.
  rewrite <- (Permutation_length P). clear - H3.
  induction H3 as [|c cs Hc _ IH]; cbn [concat length]; [lia|].
  rewrite length_app. destruct c; [congruence | cbn [length]; lia].
Qed.

End NamesFacts.

(* ================================================================== *)
(** * More on the duplicate report *)

Module ReportMore.
Import Py Utilities ExtractPDFdata MatchingFacts ReportFacts.

(** X8. [build_report] returns a report exactly when every file of the
    list can be opened and given a MinHash and the constructor of the index
    accepts the threshold and the number of permutations. Otherwise it
    raises: the exception of the first file that fails, which is [OSError]
    when the file cannot be opened and else the exception of its MinHash;
    or, when no file fails, the exception of the constructor. *)
Theorem build_report_returns_iff (w : world) (files : list str)
  (near_thresh partial_thresh : Q) (min_pages : Z) (lsh_threshold : Q)
  (num_perm : Z) :
  let run := build_report w files near_thresh partial_thresh min_pages
               lsh_threshold num_perm in
  let fails p :=
    match open_rb w p with
    | None => Some OSError
    | Some _ =>
        match build_minhash w (pdf_extract_text w p) num_perm with
        | Ok _ => None
        | Raise e => Some e
        end
    end in
  ((exists r, run = Ok r)
   <-> (forall p, In p files -> fails p = None)
       /\ minhash_lsh w lsh_threshold num_perm = Ok tt)
  /\ (forall e,
        run = Raise e
        <-> (exists before p after,
               files = before ++ p :: after
               /\ (forall q, In q before -> fails q = None)
               /\ fails p = Some e)
            \/ ((forall p, In p files -> fails p = None)
                /\ minhash_lsh w lsh_threshold num_perm = Raise e)).
Proof.
  intros run fails.
  change fails with (file_error w num_perm).
  assert (Hrun : forall e before p after,
            files = before ++ p :: after ->
            (forall q, In q before -> file_error w num_perm q = None) ->
            file_error w num_perm p = Some e -> run = Raise e).
  { intros e before p after E Hb Hp.
    apply (@build_report_raises w files near_thresh partial_thresh min_pages
             lsh_threshold num_perm before after p e E Hb Hp). }
  split; [split | intros e; split].
  - intros [r Hr].
    destruct (first_failure w num_perm files)
      as [Hfine | (before & p & after & e & E & Hb & Hp)].
    + split; [exact Hfine|].
      destruct (minhash_lsh w lsh_threshold num_perm) as [[]|e] eqn:Elsh;
        [reflexivity|].
      unfold run in Hr.
      rewrite (@build_report_refused w files near_thresh partial_thresh min_pages
                 lsh_threshold num_perm e Hfine Elsh) in Hr. discriminate.
    + rewrite (Hrun e before p after E Hb Hp) in Hr. discriminate.
  - intros [Hfine Hlsh]. apply build_report_returns; assumption.
  - intros Hr.
    destruct (first_failure w num_perm files)
      as [Hfine | (before & p & after & e' & E & Hb & Hp)].
    + right. split; [exact Hfine|].
      destruct (minhash_lsh w lsh_threshold num_perm) as [[]|e'] eqn:Elsh.
      * destruct (@build_report_returns w files near_thresh partial_thresh
                    min_pages lsh_threshold num_perm Hfine Elsh) as [r Hr'].
        unfold run in Hr. rewrite Hr in Hr'. discriminate.
      * unfold run in Hr.
        rewrite (@build_report_refused w files near_thresh partial_thresh min_pages
                   lsh_threshold num_perm e' Hfine Elsh) in Hr. congruence.
    + left. exists before, p, after. split; [exact E|]. split; [exact Hb|].
      rewrite (Hrun e' before p after E Hb Hp) in Hr. congruence.
  - intros [(before & p & after & E & Hb & Hp) | [Hfine Hlsh]].
    + apply (Hrun e before p after E Hb Hp).
    + apply build_report_refused; assumption.
Qed.

(** The sample index refuses two permutations, and a threshold above 1:
    these runs return no report, whatever the files. *)
Example sample_run_refused :
  build_report sample_world readable (9 # 10) (6 # 10) 0 (8 # 10) 2
  = Raise ValueError
  /\ build_report sample_world readable (9 # 10) (6 # 10) 0 (3 # 2) 128
     = Raise ValueError
  /\ build_report sample_world [] (9 # 10) (6 # 10) 0 (3 # 2) 128
     = Raise ValueError.
Proof. repeat split; vm_compute; reflexivity. Qed.

(** ** The shape of the groups *)

Definition big (e : str * list item) : bool := 1 <? len (snd e).

Definition exact_group (e : str * list item) : group :=
  {| g_type := exact; g_sha256 := Some (fst e); g_files := map entry_of (snd e) |}.

Definition bucket_paths (e : str * list item) : list str := map path (snd e).

Lemma exact_fold_shape (m : list (str * list item)) (st : list group * list str) :
  fold_left exact_step m st
  = (fst st ++ map exact_group (filter big m),
     snd st ++ concat (map bucket_paths (filter big m))).
Proof.
  revert st. induction m as [|[sha grp] m IH]; intros [groups seen]; cbn [fold_left].
  - cbn. now rewrite !app_nil_r.
  - rewrite IH. unfold exact_step at 1 2. cbn [filter]. unfold big at 3 6.
    cbn [fst snd]. destruct (1 <? len grp); cbn [fst snd map concat].
    + rewrite <- !app_assoc. reflexivity.
    + reflexivity.
Qed.

Lemma exact_pass_shape (m : list (str * list item)) :
  exact_pass m
  = (map exact_group (filter big m), concat (map bucket_paths (filter big m))).
Proof. unfold exact_pass. rewrite exact_fold_shape. reflexivity. Qed.

(** Filtering a list whose keys are distinct keeps the keys distinct. *)
Lemma NoDup_map_filter {K V : Type} (key : V -> K) (keep : V -> bool)
  (xs : list V) (distinct : NoDup (map key xs)) :
  NoDup (map key (filter keep xs)).
Proof.
  induction xs as [|x xs IH]; cbn [map filter]; [constructor|].
  apply NoDup_cons_iff in distinct. destruct distinct as [Hx Hxs].
  destruct (keep x); cbn [map]; [|auto]. constructor; [|auto].
  intros Hin. apply Hx. apply in_map_iff in Hin. destruct Hin as (y & Hy & Hf).
  apply filter_In in Hf. rewrite <- Hy. apply in_map. tauto.
Qed.

(** The paths of the members of a list of groups, in order. *)
Definition member_paths (groups : list group) : list str :=
  concat (map (fun g => map f_path (g_files g)) groups).

(** A group of the second pass: an anchor and the candidates admitted. *)
Definition refined_group (items : list item) (seen : list str)
  (near_thresh partial_thresh : Q) (g : group) : Prop :=
  exists anchor rest,
    rest <> []
    /\ g = {| g_type := group_type near_thresh (anchor :: rest);
              g_sha256 := None;
              g_files := map entry_of (anchor :: rest) |}
    /\ incl (anchor :: rest) items
    /\ (forall x, In x (anchor :: rest) -> ~ In (path x) seen)
    /\ Forall (fun x => (partial_thresh <= similarity (text anchor) (text x))%Q) rest.

Section SecondPass.
Variable items : list item.
Variable w : world.
Variables near_thresh partial_thresh lsh_threshold : Q.
Variable num_perm : Z.
Variable seen : list str.
Variable index : list (str * list Z).
Variable groups0 : list group.
Hypothesis distinct : NoDup (map path (remaining items seen)).

Definition second_inv (st : list group * list str) : Prop :=
  exists extra,
    fst st = groups0 ++ extra
    /\ Forall (refined_group items seen near_thresh partial_thresh) extra
    /\ snd st = member_paths extra
    /\ NoDup (snd st)
    /\ incl (snd st) (map path (remaining items seen)).

Lemma member_paths_snoc (extra : list group) (g : group) :
  member_paths (extra ++ [g]) = member_paths extra ++ map f_path (g_files g).
Proof.
  unfold member_paths. rewrite map_app, concat_app. cbn. now rewrite app_nil_r.
Qed.

Lemma second_step_inv (st : list group * list str) (it : item) :
  second_inv st ->
  second_inv (lsh_step w near_thresh partial_thresh lsh_threshold num_perm
                (remaining items seen) index st it).
Proof.
  intros Hst. pose proof Hst as (extra & E1 & E2 & E3 & E4 & E5).
  destruct st as [groups used]. cbn [fst snd] in *. unfold lsh_step.
  destruct (mem (path it) used); [exact Hst|].
  set (candidates := if mem (path it) _ then _ else _).
  set (keep := fun x : item => (mem (path x) candidates && negb (mem (path x) used))%bool).
  assert (Hnd : NoDup (map path (filter keep (remaining items seen))))
    by (apply NoDup_map_filter; exact distinct).
  assert (Hgi : forall x, In x (filter keep (remaining items seen)) ->
                  In x items /\ ~ In (path x) seen /\ ~ In (path x) used
                  /\ In (path x) (map path (remaining items seen))).
  { intros x Hx. apply filter_In in Hx. destruct Hx as [Hx Hc].
    pose proof (in_map path _ _ Hx) as Hp.
    unfold remaining in Hx. apply filter_In in Hx. destruct Hx as [Hx Hs].
    unfold keep in Hc. apply andb_true_iff in Hc. destruct Hc as [_ Hu].
    apply negb_true_iff, mem_not_In in Hs, Hu. auto. }
  fold keep. destruct (filter keep (remaining items seen)) as [|anchor [|cand others]];
    try exact Hst.
  unfold refine.
  set (rest := filter _ (cand :: others)).
  assert (Hrest : forall x, In x rest ->
            In x (cand :: others)
            /\ (partial_thresh <= similarity (text anchor) (text x))%Q).
  { intros x Hx. apply filter_In in Hx. destruct Hx as [Hx Hs].
    apply Qle_bool_iff in Hs. auto. }
  destruct (Z.ltb_spec 1 (len (anchor :: rest))) as [Hlen | Hlen]; [|exact Hst].
  assert (Hin : forall x, In x (anchor :: rest) -> In x (anchor :: cand :: others)).
  { intros x [<- | Hx]; [left; reflexivity | right; apply Hrest; exact Hx]. }
  assert (Hnd' : NoDup (map path (anchor :: rest))).
  { change (NoDup (path anchor :: map path (cand :: others))) in Hnd.
    change (NoDup (path anchor :: map path rest)).
    apply NoDup_cons_iff in Hnd. destruct Hnd as [Ha Hco].
    constructor.
    - intros H. apply Ha. apply in_map_iff in H. destruct H as (x & Hx & Hxr).
      rewrite <- Hx. apply in_map. apply Hrest. exact Hxr.
    - unfold rest. apply NoDup_map_filter. exact Hco. }
  exists (extra ++ [{| g_type := group_type near_thresh (anchor :: rest);
                       g_sha256 := None;
                       g_files := map entry_of (anchor :: rest) |}]).
  cbn [fst snd]. split; [|split; [|split; [|split]]].
  - rewrite E1, <- app_assoc. reflexivity.
  - apply Forall_app. split; [exact E2|]. constructor; [|constructor].
    exists anchor, rest. split; [|split; [reflexivity | split; [|split]]].
    + intros ->. unfold len in Hlen. cbn in Hlen. lia.
    + intros x Hx. apply (Hgi x (Hin x Hx)).
    + intros x Hx. apply (Hgi x (Hin x Hx)).
    + rewrite Forall_forall. intros x Hx. apply Hrest. exact Hx.
  - rewrite member_paths_snoc. cbn [g_files]. rewrite paths_of_entries, E3.
    reflexivity.
  - apply NoDup_app; [exact E4 | exact Hnd' |].
    intros p Hp Hq. apply in_map_iff in Hq. destruct Hq as (x & <- & Hx).
    apply (Hgi x (Hin x Hx)). exact Hp.
  - apply incl_app; [exact E5|]. intros p Hp.
    apply in_map_iff in Hp. destruct Hp as (x & <- & Hx).
    apply (Hgi x (Hin x Hx)).
Qed.

Lemma second_fold_inv (l : list item) :
  second_inv (fold_left
                (lsh_step w near_thresh partial_thresh lsh_threshold num_perm
                   (remaining items seen) index) l (groups0, [])).
Proof.
  apply fold_left_invariant with (P := second_inv).
  - exists []. cbn [fst snd]. rewrite app_nil_r.
    split; [reflexivity | split; [constructor | split; [reflexivity | split]]].
    + constructor.
    + intros p [].
  - intros s x _ Hs. apply second_step_inv. exact Hs.
Qed.

End SecondPass.

(** What a returned report is made of. *)
Record structure (w : world) (files : list str) (near_thresh partial_thresh : Q)
  (min_pages num_perm : Z) (r : report) (items : list item) (seen used : list str)
  (extra : list group) : Prop := {
  st_items : Forall (fingerprinted w num_perm) items;
  st_paths : map path items = scanned_paths w files min_pages;
  st_sha : forall a b, In a items -> In b items -> path a = path b -> sha256 a = sha256 b;
  st_groups : r_groups r
              = map exact_group (filter big (build_sha_map items)) ++ extra;
  st_seen : seen = concat (map bucket_paths (filter big (build_sha_map items)));
  st_extra : Forall (refined_group items seen near_thresh partial_thresh) extra;
  st_used : used = member_paths extra;
  st_used_nodup : NoDup used;
  st_used_incl : incl used (map path (remaining items seen));
  st_distinct : NoDup (map path (remaining items seen));
  st_singletons :
    r_singletons r
    = map entry_of
        (filter (fun it => (negb (mem (path it) seen)
                            && negb (mem (path it) used))%bool) items);
  st_summary :
    r_summary r
    = {| total_files := len files;
         ExtractPDFdata.scanned := len items;
         exact_groups := count_kind exact (r_groups r);
         near_groups := count_kind near (r_groups r);
         partial_groups := count_kind partial (r_groups r);
         n_singletons := len (r_singletons r) |}
}.

Lemma build_report_structure (w : world) (files : list str)
  (near_thresh partial_thresh : Q) (min_pages : Z) (lsh_threshold : Q)
  (num_perm : Z) (r : report) :
  build_report w files near_thresh partial_thresh min_pages lsh_threshold num_perm
  = Ok r ->
  exists items seen used extra,
    structure w files near_thresh partial_thresh min_pages num_perm r
      items seen used extra.
Proof.
  unfold build_report. intros H.
  destruct (fingerprint_all w num_perm (basic_metadata w files)) as [items0|e] eqn:E0;
    cbn [bind] in H; [|discriminate].
  destruct (fingerprint_all_files w num_perm files E0) as [Hfp0 Hpaths0].
  set (items := filter_min_pages min_pages items0) in *.
  assert (Hfp : Forall (fingerprinted w num_perm) items).
  { rewrite Forall_forall in *. intros x Hx.
    apply Hfp0, (filter_min_pages_incl min_pages items0), Hx. }
  assert (Hsha : forall a b, In a items -> In b items ->
                             path a = path b -> sha256 a = sha256 b).
  { rewrite Forall_forall in Hfp. intros a b Ha Hb.
    apply (@same_path_same_sha w num_perm); auto. }
  pose proof (fun p => @repeated_path_seen items p Hsha) as Hrep.
  rewrite exact_pass_shape in H, Hrep. cbn [snd] in Hrep.
  set (seen := concat (map bucket_paths (filter big (build_sha_map items)))) in *.
  assert (Hdist : NoDup (map path (remaining items seen)))
    by (apply remaining_paths_distinct; exact Hrep).
  destruct (minhash_lsh w lsh_threshold num_perm) as [[]|e] eqn:Elsh;
    cbn [bind] in H; [|discriminate].
  destruct (lsh_insert_all _ []) as [index|e] eqn:E1; cbn [bind] in H; [|discriminate].
  pose proof (@second_fold_inv items w near_thresh partial_thresh lsh_threshold
                num_perm seen index
                (map exact_group (filter big (build_sha_map items))) Hdist
                (remaining items seen)) as L.
  unfold remaining in L.
  destruct (fold_left _ _ (map exact_group _, [])) as [groups used].
  destruct L as (extra & L1 & L2 & L3 & L4 & L5). cbn [fst snd] in L1, L3, L4, L5.
  injection H as <-.
  exists items, seen, used, extra.
  constructor; cbn [r_groups r_singletons r_summary]; auto.
  - subst items. rewrite (filter_min_pages_paths min_pages Hfp0), Hpaths0. reflexivity.
  - unfold len. now rewrite length_map.
Qed.

(** ** Exact duplicates *)

Lemma group_type_not_exact (near_thresh : Q) (fg : list item) :
  group_type near_thresh fg <> exact.
Proof. unfold group_type. destruct (Qle_bool _ _); discriminate. Qed.

Lemma two_distinct_length {A : Type} (l : list A) (a b : A) :
  In a l -> In b l -> a <> b -> (2 <= length l)%nat.
Proof.
  destruct l as [|x [|y l]]; cbn [In length]; try lia; try tauto.
  intros [<- | []] [<- | []] H. congruence.
Qed.

Lemma has_sha_bucket (items : list item) (it : item) :
  In it items ->
  In (sha256 it, filter (has_sha (sha256 it)) items) (build_sha_map items).
Proof.
  intros Hit. destruct (build_sha_map_buckets items) as (_ & B2 & B3).
  specialize (B3 it Hit). apply in_map_iff in B3.
  destruct B3 as ([sha grp] & Hk & He). cbn [fst] in Hk. subst sha.
  rewrite Forall_forall in B2. pose proof (B2 _ He) as Hg.
  unfold sha_bucket_ok in Hg. cbn [fst snd] in Hg. now rewrite <- Hg.
Qed.

(** A file of the run and its hash. *)
Definition hash_of (w : world) (p : str) (sha : str) : Prop :=
  exists bytes, open_rb w p = Some bytes /\ sha = sha256_hexdigest w bytes.

(** An entry of the report that is not a member of an exact group. *)
Definition outside_exact (r : report) (e : file_entry) : Prop :=
  In e (r_singletons r)
  \/ exists g, In g (r_groups r) /\ g_type g <> exact /\ In e (g_files g).

Section Structure.
Variables (w : world) (files : list str) (near_thresh partial_thresh : Q).
Variables (min_pages num_perm : Z) (r : report).
Variables (items : list item) (seen used : list str) (extra : list group).
Hypothesis S : structure w files near_thresh partial_thresh min_pages num_perm r
                 items seen used extra.

Lemma item_hash (it : item) : In it items -> hash_of w (path it) (sha256 it).
Proof.
  intros Hit. pose proof (st_items S) as H. rewrite Forall_forall in H.
  destruct (fp_sha (H it Hit)) as (bytes & H1 & H2). exists bytes. auto.
Qed.

Lemma hash_of_functional (p sha sha' : str) :
  hash_of w p sha -> hash_of w p sha' -> sha = sha'.
Proof. intros (b1 & H1 & ->) (b2 & H2 & ->). congruence. Qed.

Lemma group_cases (g : group) :
  In g (r_groups r) ->
  (g_type g = exact /\ exists e, In e (build_sha_map items) /\ big e = true
                                 /\ g = exact_group e)
  \/ (g_type g <> exact
      /\ refined_group items seen near_thresh partial_thresh g).
Proof.
  rewrite (st_groups S). intros Hg. apply in_app_or in Hg. destruct Hg as [Hg | Hg].
  - left. apply in_map_iff in Hg. destruct Hg as (e & <- & He).
    apply filter_In in He. split; [reflexivity|]. exists e. tauto.
  - right. pose proof (st_extra S) as H. rewrite Forall_forall in H.
    pose proof (H g Hg) as Hr. split; [|exact Hr].
    destruct Hr as (anchor & rest & _ & -> & _). apply group_type_not_exact.
Qed.

Lemma big_bucket_seen (e : str * list item) (x : item) :
  In e (build_sha_map items) -> big e = true -> In x (snd e) -> In (path x) seen.
Proof.
  intros He Hb Hx. rewrite (st_seen S). apply in_concat.
  exists (bucket_paths e). split.
  - apply in_map. apply filter_In. auto.
  - unfold bucket_paths. apply in_map. exact Hx.
Qed.

Lemma shared_hash_bucket (a b : item) :
  In a items -> In b items -> path a <> path b -> sha256 a = sha256 b ->
  exists e, In e (build_sha_map items) /\ big e = true
            /\ In a (snd e) /\ In b (snd e) /\ fst e = sha256 a.
Proof.
  intros Ha Hb Hne Hs.
  exists (sha256 a, filter (has_sha (sha256 a)) items). cbn [fst snd].
  assert (Ia : In a (filter (has_sha (sha256 a)) items))
    by (apply filter_In; split; [exact Ha | apply has_sha_true; reflexivity]).
  assert (Ib : In b (filter (has_sha (sha256 a)) items))
    by (apply filter_In; split; [exact Hb | apply has_sha_true; auto]).
  split; [apply has_sha_bucket; exact Ha | split; [|auto]].
  unfold big, len. cbn [snd]. apply Z.ltb_lt.
  assert (H : (2 <= length (filter (has_sha (sha256 a)) items))%nat).
  { apply (two_distinct_length _ Ia Ib). congruence. }
  lia.
Qed.

Lemma outside_exact_item (e : file_entry) :
  outside_exact r e ->
  exists x, In x items /\ e = entry_of x /\ ~ In (path x) seen.
Proof.
  intros [He | (g & Hg & Ht & He)].
  - rewrite (st_singletons S) in He. apply in_map_iff in He.
    destruct He as (x & <- & Hx). apply filter_In in Hx. destruct Hx as [Hx Hf].
    apply andb_true_iff in Hf. destruct Hf as [Hf _].
    apply negb_true_iff, mem_not_In in Hf. eauto.
  - destruct (group_cases g Hg) as [[Hex _] | [_ Hr]]; [congruence|].
    destruct Hr as (anchor & rest & _ & -> & Hincl & Hseen & _).
    cbn [g_files] in He. apply in_map_iff in He. destruct He as (x & <- & Hx).
    exists x. auto.
Qed.

Lemma exact_groups_facts :
  (forall g, In g (r_groups r) -> g_type g = exact ->
     exists sha, g_sha256 g = Some sha /\ 1 < len (g_files g)
                 /\ Forall (fun e => f_sha256 e = sha) (g_files g))
  /\ (forall p q sha,
        In p (scanned_paths w files min_pages) ->
        In q (scanned_paths w files min_pages) -> p <> q ->
        hash_of w p sha -> hash_of w q sha ->
        exists g, In g (r_groups r) /\ g_type g = exact /\ g_sha256 g = Some sha
                  /\ member p g /\ member q g)
  /\ (forall e q,
        outside_exact r e ->
        In q (scanned_paths w files min_pages) -> q <> f_path e ->
        ~ hash_of w q (f_sha256 e)).
Proof.
  split; [|split].
  - intros g Hg Ht. destruct (group_cases g Hg) as [[_ (e & He & Hb & ->)] | [Hn _]];
      [|congruence].
    exists (fst e). cbn [exact_group g_sha256 g_files]. split; [reflexivity|].
    split.
    + unfold big in Hb. apply Z.ltb_lt in Hb. unfold len in *.
      now rewrite length_map.
    + destruct (build_sha_map_buckets items) as (_ & B2 & _).
      rewrite Forall_forall in B2. pose proof (B2 e He) as Hbk.
      unfold sha_bucket_ok in Hbk. rewrite Forall_forall. intros x Hx.
      apply in_map_iff in Hx. destruct Hx as (it & <- & Hit).
      rewrite Hbk in Hit. apply filter_In in Hit. destruct Hit as [_ Hit].
      apply has_sha_true in Hit. exact Hit.
  - intros p q sha Hp Hq Hne Hhp Hhq. rewrite <- (st_paths S) in Hp, Hq.
    apply in_map_iff in Hp, Hq.
    destruct Hp as (a & <- & Ha). destruct Hq as (b & <- & Hb).
    pose proof (hash_of_functional (item_hash a Ha) Hhp) as Ea.
    pose proof (hash_of_functional (item_hash b Hb) Hhq) as Eb.
    destruct (@shared_hash_bucket a b Ha Hb Hne ltac:(congruence))
      as (e & He & Hbig & Ia & Ib & Hk).
    exists (exact_group e). split; [|split; [reflexivity | split; [|split]]].
    + rewrite (st_groups S). apply in_or_app. left. apply in_map.
      apply filter_In. auto.
    + cbn [exact_group g_sha256]. congruence.
    + unfold member. cbn [exact_group g_files]. rewrite paths_of_entries.
      apply in_map. exact Ia.
    + unfold member. cbn [exact_group g_files]. rewrite paths_of_entries.
      apply in_map. exact Ib.
  - intros e q Hout Hq Hne Hh.
    destruct (outside_exact_item Hout) as (x & Hx & -> & Hseen).
    cbn [entry_of f_path f_sha256] in *. rewrite <- (st_paths S) in Hq.
    apply in_map_iff in Hq. destruct Hq as (b & <- & Hb).
    pose proof (hash_of_functional (item_hash b Hb) Hh) as Eb.
    destruct (@shared_hash_bucket x b Hx Hb ltac:(congruence) ltac:(congruence))
      as (e & He & Hbig & Ia & _ & _).
    apply Hseen. apply (big_bucket_seen e x He Hbig Ia).
Qed.

Lemma refined_groups_facts :
  forall g, In g (r_groups r) -> g_type g <> exact ->
    exists anchor rest,
      g_files g = anchor :: rest /\ rest <> [] /\ g_sha256 g = None
      /\ Forall (fun e => (partial_thresh <= similarity (f_text anchor) (f_text e))%Q)
                rest.
Proof.
  intros g Hg Ht. destruct (group_cases g Hg) as [[Hex _] | [_ Hr]]; [congruence|].
  destruct Hr as (anchor & rest & Hne & -> & _ & _ & Hsim).
  exists (entry_of anchor), (map entry_of rest). cbn [g_files g_sha256 map].
  split; [reflexivity | split; [|split; [reflexivity|]]].
  - intros E. apply map_eq_nil in E. exact (Hne E).
  - apply Forall_map. exact Hsim.
Qed.

End Structure.

(** X9. Exact duplicates. Every exact group has two members or more and
    records the hash that all of them have. Two scanned files with
    different paths and the same hash are members of one exact group. A
    file that the report lists outside the exact groups (as a singleton or
    in a near or partial group) shares its hash with no other scanned
    file. *)
Theorem exact_groups_by_hash (w : world) (files : list str)
  (near_thresh partial_thresh : Q) (min_pages : Z) (lsh_threshold : Q)
  (num_perm : Z) (r : report) :
  build_report w files near_thresh partial_thresh min_pages lsh_threshold num_perm
  = Ok r ->
  (forall g, In g (r_groups r) -> g_type g = exact ->
     exists sha, g_sha256 g = Some sha /\ 1 < len (g_files g)
                 /\ Forall (fun e => f_sha256 e = sha) (g_files g))
  /\ (forall p q sha,
        In p (scanned_paths w files min_pages) ->
        In q (scanned_paths w files min_pages) -> p <> q ->
        hash_of w p sha -> hash_of w q sha ->
        exists g, In g (r_groups r) /\ g_type g = exact /\ g_sha256 g = Some sha
                  /\ member p g /\ member q g)
  /\ (forall e q,
        outside_exact r e ->
        In q (scanned_paths w files min_pages) -> q <> f_path e ->
        ~ hash_of w q (f_sha256 e)).
Proof.
  intros H. destruct (build_report_structure _ _ _ _ _ _ _ H)
    as (items & seen & used & extra & S).
  apply (exact_groups_facts S).
Qed.

Lemma exact_groups_by_hash_witness :
  (forall g, In g (r_groups sample_report) -> g_type g = exact ->
     exists sha, g_sha256 g = Some sha /\ 1 < len (g_files g)
                 /\ Forall (fun e => f_sha256 e = sha) (g_files g))
  /\ (forall p q sha,
        In p (scanned_paths sample_world readable 0) ->
        In q (scanned_paths sample_world readable 0) -> p <> q ->
        hash_of sample_world p sha -> hash_of sample_world q sha ->
        exists g, In g (r_groups sample_report) /\ g_type g = exact
                  /\ g_sha256 g = Some sha /\ member p g /\ member q g)
  /\ (forall e q,
        outside_exact sample_report e ->
        In q (scanned_paths sample_world readable 0) -> q <> f_path e ->
        ~ hash_of sample_world q (f_sha256 e)).
Proof.
  apply (@exact_groups_by_hash sample_world readable (9 # 10) (6 # 10) 0
           (8 # 10) 128 sample_report).
  vm_compute. reflexivity.
Defined.

(** X10. In every near or partial group of a report the first member is
    the anchor: the group has at least one more member, each of the others
    has a text whose similarity to the anchor's text is at least
    [partial_thresh], and the group records no hash. *)
Theorem refined_group_members_near_anchor (w : world) (files : list str)
  (near_thresh partial_thresh : Q) (min_pages : Z) (lsh_threshold : Q)
  (num_perm : Z) (r : report) (g : group) :
  build_report w files near_thresh partial_thresh min_pages lsh_threshold num_perm
  = Ok r ->
  In g (r_groups r) -> g_type g <> exact ->
  exists anchor rest,
    g_files g = anchor :: rest /\ rest <> [] /\ g_sha256 g = None
    /\ Forall (fun e => (partial_thresh <= similarity (f_text anchor) (f_text e))%Q)
              rest.
Proof.
  intros H. destruct (build_report_structure _ _ _ _ _ _ _ H)
    as (items & seen & used & extra & S).
  apply (refined_groups_facts S).
Qed.

Lemma refined_group_members_near_anchor_witness :
  exists anchor rest,
    g_files sample_near_group = anchor :: rest /\ rest <> []
    /\ g_sha256 sample_near_group = None
    /\ Forall (fun e => (6 # 10 <= similarity (f_text anchor) (f_text e))%Q) rest.
Proof.
  apply (@refined_group_members_near_anchor sample_world readable (9 # 10) (6 # 10) 0
           (8 # 10) 128 sample_report sample_near_group).
  - vm_compute. reflexivity.
  - vm_compute. right. left. reflexivity.
  - vm_compute. discriminate.
Defined.

(** X11. With a positive partial threshold a document without text is
    never grouped, as near or partial duplicate, with a document that has
    text: the members of such a group all have an empty text or all have a
    non-empty one. *)
Theorem empty_text_grouped_apart (w : world) (files : list str)
  (near_thresh partial_thresh : Q) (min_pages : Z) (lsh_threshold : Q)
  (num_perm : Z) (r : report) (g : group) :
  build_report w files near_thresh partial_thresh min_pages lsh_threshold num_perm
  = Ok r ->
  (0 < partial_thresh)%Q ->
  In g (r_groups r) -> g_type g <> exact ->
  Forall (fun e => f_text e = []) (g_files g)
  \/ Forall (fun e => f_text e <> []) (g_files g).
Proof.
  intros H Hpos Hg Ht.
  destruct (build_report_structure _ _ _ _ _ _ _ H)
    as (items & seen & used & extra & S).
  destruct (refined_groups_facts S g Hg Ht) as (anchor & rest & -> & _ & _ & Hsim).
  assert (Hzero : forall e, In e rest ->
            (f_text anchor = [] <-> f_text e = [])).
  { rewrite Forall_forall in Hsim. intros e He. specialize (Hsim e He).
    destruct (f_text anchor) as [|c t] eqn:Ea; destruct (f_text e) as [|d u] eqn:Ee;
      split; try reflexivity; try discriminate; intros _; exfalso.
    - assert (Z0 : (similarity [] (d :: u) == 0)%Q).
      { apply MatcherFacts.similarity_no_common; [intros x [] | right; discriminate]. }
      rewrite Z0 in Hsim. exact (Qlt_not_le _ _ Hpos Hsim).
    - assert (Z0 : (similarity (c :: t) [] == 0)%Q).
      { apply MatcherFacts.similarity_no_common; [intros x _ [] | left; discriminate]. }
      rewrite Z0 in Hsim. exact (Qlt_not_le _ _ Hpos Hsim). }
  destruct (f_text anchor) as [|c t] eqn:Ea.
  - left. constructor; [exact Ea|]. rewrite Forall_forall. intros e He.
    apply (Hzero e He). reflexivity.
  - right. constructor; [congruence|]. rewrite Forall_forall. intros e He E.
    apply (Hzero e He) in E. discriminate E.
Qed.

Lemma empty_text_grouped_apart_witness :
  Forall (fun e => f_text e = []) (g_files sample_near_group)
  \/ Forall (fun e => f_text e <> []) (g_files sample_near_group).
Proof.
  apply (@empty_text_grouped_apart sample_world readable (9 # 10) (6 # 10) 0
           (8 # 10) 128 sample_report sample_near_group).
  - vm_compute. reflexivity.
  - vm_compute. reflexivity.
  - vm_compute. right. left. reflexivity.
  - vm_compute. discriminate.
Defined.

(** ** The summary *)

Lemma filter_length_split {A : Type} (f : A -> bool) (l : list A) :
  (length (filter f l) + length (filter (fun x => negb (f x)) l) = length l)%nat.
Proof.
  induction l as [|x l IH]; cbn [filter length]; [reflexivity|].
  destruct (f x); cbn [negb length]; lia.
Qed.

Lemma filter_twice {A : Type} (f g : A -> bool) (l : list A) :
  filter f (filter g l) = filter (fun x => (f x && g x)%bool) l.
Proof.
  induction l as [|x l IH]; cbn [filter]; [reflexivity|].
  destruct (g x); cbn [filter]; [|now rewrite andb_false_r].
  rewrite andb_true_r. destruct (f x); now rewrite IH.
Qed.

Lemma filter_or_length {A : Type} (f g : A -> bool) (l : list A) :
  (forall x, In x l -> f x = true -> g x = false) ->
  length (filter (fun x => (f x || g x)%bool) l)
  = (length (filter f l) + length (filter g l))%nat.
Proof.
  induction l as [|x l IH]; intros H; cbn [filter length]; [reflexivity|].
  assert (IH' := IH (fun y Hy => H y (or_intror Hy))).
  pose proof (H x (or_introl eq_refl)) as Hx.
  destruct (f x) eqn:Ef; cbn [orb].
  - rewrite (Hx eq_refl). cbn [length]. lia.
  - destruct (g x); cbn [length]; lia.
Qed.

Lemma covered_length {A : Type} (f : A -> str) (u : list str) (l : list A) :
  NoDup u -> NoDup (map f l) -> incl u (map f l) ->
  length (filter (fun x => mem (f x) u) l) = length u.
Proof.
  intros Hu Hl Hincl.
  rewrite <- (length_map f (filter _ l)). apply Permutation_length.
  apply NoDup_Permutation; [apply NoDup_map_filter; exact Hl | exact Hu |].
  intros p. split.
  - intros Hp. apply in_map_iff in Hp. destruct Hp as (x & <- & Hx).
    apply filter_In in Hx. destruct Hx as [_ Hx]. apply mem_In. exact Hx.
  - intros Hp. pose proof (Hincl p Hp) as Hq. apply in_map_iff in Hq.
    destruct Hq as (x & <- & Hx). apply in_map. apply filter_In.
    split; [exact Hx | apply mem_In; exact Hp].
Qed.

Lemma count_kinds (groups : list group) :
  count_kind exact groups + count_kind near groups + count_kind partial groups
  = len groups.
Proof.
  unfold count_kind, len.
  induction groups as [|g groups IH]; cbn [filter length]; [reflexivity|].
  destruct (g_type g); cbn [kind_eqb length]; lia.
Qed.

(** The number of files that have one of the hashes [keys]. *)
Lemma hashes_length (items : list item) (keys : list str) :
  NoDup keys ->
  length (filter (fun it => mem (sha256 it) keys) items)
  = list_sum (map (fun k => length (filter (has_sha k) items)) keys).
Proof.
  unfold list_sum. induction 1 as [|k keys Hk Hnd IH]; cbn [map fold_right].
  - induction items; cbn; auto.
  - rewrite <- IH. rewrite <- filter_or_length.
    + f_equal. apply filter_ext. intros it. unfold mem at 1, has_sha.
      destruct (in_dec str_eq_dec (sha256 it) (k :: keys)) as [Hin | Hin];
        destruct (str_eq_dec (sha256 it) k) as [E | E]; cbn [orb]; auto.
      * destruct Hin as [Hin | Hin]; [congruence|].
        symmetry. apply mem_In. exact Hin.
      * exfalso. apply Hin. left. auto.
      * symmetry. apply mem_not_In. intros H. apply Hin. right. exact H.
    + intros it _ Hs. apply has_sha_true in Hs. apply mem_not_In. congruence.
Qed.

Lemma concat_length {A : Type} (ls : list (list A)) :
  length (concat ls) = list_sum (map (@length A) ls).
Proof.
  unfold list_sum. induction ls as [|l ls IH]; cbn [concat map fold_right];
    [reflexivity|].
  now rewrite length_app, IH.
Qed.

Lemma member_paths_exact (l : list (str * list item)) :
  member_paths (map exact_group l) = concat (map bucket_paths l).
Proof.
  unfold member_paths. rewrite map_map. f_equal. apply map_ext.
  intros e. cbn [exact_group g_files]. apply paths_of_entries.
Qed.

Section Accounting.
Variables (w : world) (files : list str) (near_thresh partial_thresh : Q).
Variables (min_pages num_perm : Z) (r : report).
Variables (items : list item) (seen used : list str) (extra : list group).
Hypothesis S : structure w files near_thresh partial_thresh min_pages num_perm r
                 items seen used extra.

Let bigs := filter big (build_sha_map items).

Lemma seen_by_hash (it : item) :
  In it items -> mem (path it) seen = mem (sha256 it) (map fst bigs).
Proof.
  intros Hit. destruct (mem (sha256 it) (map fst bigs)) eqn:E.
  - apply mem_In in E. apply in_map_iff in E. destruct E as (e & Hk & He).
    unfold bigs in He. apply filter_In in He. destruct He as [He Hb].
    apply mem_In. apply (big_bucket_seen S e it He Hb).
    destruct (build_sha_map_buckets items) as (_ & B2 & _).
    rewrite Forall_forall in B2. rewrite (B2 e He). apply filter_In.
    split; [exact Hit | apply has_sha_true; auto].
  - apply mem_not_In. intros Hin. apply mem_not_In in E. apply E.
    rewrite (st_seen S) in Hin. apply in_concat in Hin.
    destruct Hin as (ps & Hps & Hp). apply in_map_iff in Hps.
    destruct Hps as (e & <- & He). unfold bucket_paths in Hp.
    apply in_map_iff in Hp. destruct Hp as (x & Hx & Hxe).
    pose proof He as He'. apply filter_In in He'. destruct He' as [He' _].
    destruct (build_sha_map_buckets items) as (_ & B2 & _).
    rewrite Forall_forall in B2. rewrite (B2 e He') in Hxe.
    apply filter_In in Hxe. destruct Hxe as [Hxi Hxs]. apply has_sha_true in Hxs.
    apply in_map_iff. exists e. split; [|exact He].
    rewrite <- Hxs. apply (st_sha S); auto.
Qed.

Lemma seen_length :
  length (filter (fun it => mem (path it) seen) items) = length seen.
Proof.
  rewrite (filter_ext_in _ (fun it => mem (sha256 it) (map fst bigs)) items)
    by (intros it Hit; apply seen_by_hash; exact Hit).
  destruct (build_sha_map_buckets items) as (B1 & B2 & _).
  rewrite hashes_length by (apply NoDup_map_filter; exact B1).
  rewrite (st_seen S), concat_length, !map_map. fold bigs. f_equal.
  apply map_ext_in. intros e He. unfold bucket_paths. rewrite length_map.
  unfold bigs in He. apply filter_In in He. destruct He as [He _].
  rewrite Forall_forall in B2. now rewrite <- (B2 e He).
Qed.

Lemma accounting :
  length items
  = (length (member_paths (r_groups r)) + length (r_singletons r))%nat.
Proof.
  rewrite (st_groups S), (st_singletons S), length_map.
  unfold member_paths at 1. rewrite map_app, concat_app, length_app.
  fold (member_paths (map exact_group (filter big (build_sha_map items)))).
  fold (member_paths extra).
  rewrite member_paths_exact, <- (st_seen S), <- (st_used S).
  rewrite <- (filter_length_split (fun it => mem (path it) seen) items).
  rewrite seen_length.
  fold (remaining items seen).
  rewrite <- (filter_length_split (fun it => mem (path it) used)
                (remaining items seen)).
  rewrite (@covered_length _ path used (remaining items seen)
             (st_used_nodup S) (st_distinct S) (st_used_incl S)).
  unfold remaining. rewrite filter_twice.
  rewrite (filter_ext (fun x => (negb (mem (path x) used) && negb (mem (path x) seen))%bool)
             (fun it => (negb (mem (path it) seen) && negb (mem (path it) used))%bool))
    by (intros x; apply andb_comm).
  lia.
Qed.

End Accounting.

(** X12. The summary of a report accounts for every file: [total_files] is
    the number of input paths, [scanned] the number of those that pass the
    filter on the page count, the three group counts add up to the number
    of groups, [singletons] is the number of singleton entries, and
    [scanned] is the number of members of all groups plus the number of
    singletons. *)
Theorem summary_accounts (w : world) (files : list str)
  (near_thresh partial_thresh : Q) (min_pages : Z) (lsh_threshold : Q)
  (num_perm : Z) (r : report) :
  build_report w files near_thresh partial_thresh min_pages lsh_threshold num_perm
  = Ok r ->
  let s := r_summary r in
  total_files s = len files
  /\ ExtractPDFdata.scanned s = len (scanned_paths w files min_pages)
  /\ ExtractPDFdata.scanned s <= total_files s
  /\ exact_groups s + near_groups s + partial_groups s = len (r_groups r)
  /\ n_singletons s = len (r_singletons r)
  /\ ExtractPDFdata.scanned s = len (member_paths (r_groups r)) + n_singletons s.
Proof.
  intros H. destruct (build_report_structure _ _ _ _ _ _ _ H)
    as (items & seen & used & extra & S).
  cbv zeta. rewrite (st_summary S).
  cbn [total_files ExtractPDFdata.scanned exact_groups near_groups partial_groups
       n_singletons].
  assert (Hscan : len items = len (scanned_paths w files min_pages)).
  { rewrite <- (st_paths S). unfold len. now rewrite length_map. }
  split; [reflexivity | split; [exact Hscan | split; [|split; [|split]]]].
  - rewrite Hscan. unfold scanned_paths, len.
    destruct (0 <? min_pages); [|lia].
    pose proof (filter_length_le
                  (fun p => min_pages <=? match pdf_num_pages w p with
                                          | Some n => n
                                          | None => 0
                                          end) files). lia.
  - apply count_kinds.
  - reflexivity.
  - pose proof (accounting S) as A. unfold len. lia.
Qed.

Lemma summary_accounts_witness :
  let s := r_summary sample_report in
  total_files s = len readable
  /\ ExtractPDFdata.scanned s = len (scanned_paths sample_world readable 0)
  /\ ExtractPDFdata.scanned s <= total_files s
  /\ exact_groups s + near_groups s + partial_groups s = len (r_groups sample_report)
  /\ n_singletons s = len (r_singletons sample_report)
  /\ ExtractPDFdata.scanned s
     = len (member_paths (r_groups sample_report)) + n_singletons s.
Proof.
  apply (@summary_accounts sample_world readable (9 # 10) (6 # 10) 0
           (8 # 10) 128 sample_report).
  vm_compute. reflexivity.
Defined.

End ReportMore.

(* ================================================================== *)
(** * Merging objects by id *)

Module MergingFacts.
Import Py People Merging.

(** [l] with some elements left out. *)
Inductive subseq {A : Type} : list A -> list A -> Prop :=
| subseq_nil : subseq [] []
| subseq_skip (x : A) (k l : list A) : subseq k l -> subseq k (x :: l)
| subseq_keep (x : A) (k l : list A) : subseq k l -> subseq (x :: k) (x :: l).

Lemma subseq_length {A : Type} (k l : list A) :
  subseq k l -> (length k <= length l)%nat.
Proof. induction 1; cbn [length]; lia. Qed.

Lemma subseq_In {A : Type} (k l : list A) (x : A) :
  subseq k l -> In x k -> In x l.
Proof. induction 1; cbn [In]; tauto. Qed.

(** ** Keys *)

Ltac number_eq :=
  repeat match goal with
    | H : Qeq_bool _ _ = true |- _ => apply Qeq_bool_iff in H
    | |- Qeq_bool _ _ = true => apply Qeq_bool_iff
    end.

Lemma key_refl (v : json) : hashable v = true -> py_eq v v = true.
Proof.
  destruct v; cbn; intros H; try discriminate; try reflexivity;
    try (number_eq; reflexivity).
  destruct (str_eq_dec s s); [reflexivity|congruence].
Qed.

Lemma key_sym (a b : json) :
  hashable a = true -> hashable b = true -> py_eq a b = true -> py_eq b a = true.
Proof.
  destruct a, b; cbn; intros Ha Hb H; try discriminate; try reflexivity;
    try (number_eq; symmetry; exact H).
  destruct (str_eq_dec s s0) as [->|]; [|discriminate].
  destruct (str_eq_dec s0 s0); [reflexivity|congruence].
Qed.

Lemma key_trans (a b c : json) :
  hashable a = true -> hashable b = true -> hashable c = true ->
  py_eq a b = true -> py_eq b c = true -> py_eq a c = true.
Proof.
  destruct a, b; cbn; intros Ha Hb Hc H1 H2; try discriminate;
    destruct c; cbn in *; try discriminate; try reflexivity;
    try (number_eq; etransitivity; eassumption).
  destruct (str_eq_dec s s0) as [->|]; [exact H2|discriminate].
Qed.

(** Only [None] equals [None]. *)
Lemma key_null (v : json) : py_eq v JNull = true -> v = JNull.
Proof. destruct v; cbn; try discriminate; try reflexivity. Qed.

Lemma json_null_dec (v : json) : v = JNull \/ v <> JNull.
Proof. destruct v; [left; reflexivity|right; discriminate..]. Qed.

(** ** First occurrences *)

(** The ids of two objects differ. *)
Definition ids_differ (a b : dict) : Prop := py_eq (get_id a) (get_id b) = false.

(** No key of [s] equals [k]. *)
Definition unknown (s : list json) (k : json) : Prop :=
  Forall (fun k' => py_eq k' k = false) s.

(** [k], or a key equal to it, is in [s]. *)
Definition known (k : json) (s : list json) : bool :=
  existsb (fun k' => py_eq k' k) s.

(** The objects of [l] whose id equals neither a key of [s] nor the id of
    an earlier object of [l]. *)
Fixpoint firsts (s : list json) (l : list dict) : list dict :=
  match l with
  | [] => []
  | o :: r =>
      if known (get_id o) s then firsts s r
      else o :: firsts (s ++ [get_id o]) r
  end.

(** [o] is in [l] and no object before it has an equal id. *)
Definition first_with_id (l : list dict) (o : dict) : Prop :=
  exists pre post,
    l = pre ++ o :: post /\ Forall (fun q => ids_differ q o) pre.

Definition can_hash (o : dict) : Prop := hashable (get_id o) = true.

Lemma known_false (k : json) (s : list json) : known k s = false <-> unknown s k.
Proof.
  unfold known, unknown. induction s as [|k' s IH]; cbn [existsb].
  - split; [constructor|reflexivity].
  - rewrite orb_false_iff, IH. split.
    + intros [H1 H2]. constructor; assumption.
    + intros H. inversion H; subst. tauto.
Qed.

Lemma known_true (k : json) (s : list json) :
  known k s = true <-> exists k', In k' s /\ py_eq k' k = true.
Proof. unfold known. apply existsb_exists. Qed.

Lemma contains_known (k : json) (seen : list (json * dict)) :
  contains k seen = known k (map fst seen).
Proof.
  unfold contains, known. induction seen as [|kv seen IH]; cbn [existsb map];
    [reflexivity|]. rewrite IH. reflexivity.
Qed.

Lemma firsts_subseq (l : list dict) (s : list json) : subseq (firsts s l) l.
Proof.
  revert s. induction l as [|x r IH]; intros s; cbn [firsts]; [constructor|].
  destruct (known (get_id x) s); constructor; apply IH.
Qed.

Lemma firsts_app (l1 l2 : list dict) (s : list json) :
  firsts s (l1 ++ l2)
  = firsts s l1 ++ firsts (s ++ map get_id (firsts s l1)) l2.
Proof.
  revert s. induction l1 as [|x r IH]; intros s.
  - cbn [firsts app map]. rewrite app_nil_r. reflexivity.
  - rewrite <- app_comm_cons. cbn [firsts].
    destruct (known (get_id x) s); [apply IH|].
    cbn [map app]. rewrite IH, <- app_assoc. reflexivity.
Qed.

Lemma firsts_twice (l : list dict) (s : list json) :
  firsts s (firsts s l) = firsts s l.
Proof.
  revert s. induction l as [|x r IH]; intros s; cbn [firsts]; [reflexivity|].
  destruct (known (get_id x) s) eqn:B; [apply IH|].
  cbn [firsts]. rewrite B, IH. reflexivity.
Qed.

Lemma firsts_fresh (l : list dict) (s : list json) :
  Forall (fun o => unknown s (get_id o)) (firsts s l).
Proof.
  revert s. induction l as [|x r IH]; intros s; cbn [firsts]; [constructor|].
  destruct (known (get_id x) s) eqn:B; [apply IH|].
  constructor; [apply known_false; exact B|].
  eapply Forall_impl; [|apply (IH (s ++ [get_id x]))].
  intros o H. unfold unknown in *. apply Forall_app in H. tauto.
Qed.

(** The ids of the first occurrences differ, each from the ones after it. *)
Lemma firsts_distinct (l : list dict) (s : list json) :
  ForallOrdPairs ids_differ (firsts s l).
Proof.
  revert s. induction l as [|x r IH]; intros s; cbn [firsts]; [constructor|].
  destruct (known (get_id x) s); [apply IH|].
  constructor; [|apply IH].
  eapply Forall_impl; [|apply (firsts_fresh r (s ++ [get_id x]))].
  intros o H. unfold unknown in H. apply Forall_app in H. destruct H as [_ H].
  inversion H; subst. assumption.
Qed.

Lemma firsts_all (l : list dict) (s : list json) :
  Forall (fun o => unknown s (get_id o)) l -> ForallOrdPairs ids_differ l ->
  firsts s l = l.
Proof.
  revert s. induction l as [|x r IH]; intros s H1 H2; cbn [firsts]; [reflexivity|].
  inversion H1 as [|? ? Hx Hr]; subst. inversion H2 as [|? ? Px Pr]; subst.
  apply known_false in Hx. rewrite Hx. f_equal. apply IH; [|exact Pr].
  rewrite Forall_forall in *. intros o Ho. unfold unknown. apply Forall_app.
  split; [apply Hr; exact Ho|]. constructor; [apply Px; exact Ho|constructor].
Qed.

Lemma firsts_In (l : list dict) (s : list json) (o : dict) :
  Forall (fun k => hashable k = true) s -> Forall can_hash l ->
  (In o (firsts s l)
   <-> exists pre post,
         l = pre ++ o :: post /\ unknown (s ++ map get_id pre) (get_id o)).
Proof.
  revert s. induction l as [|x r IH]; intros s Hs Hl; cbn [firsts].
  - split; [intros []|]. intros (pre & post & E & _). destruct pre; discriminate.
  - inversion Hl as [|? ? Hx Hr]; subst.
    destruct (known (get_id x) s) eqn:B.
    + apply known_true in B. destruct B as (k & Hk & Ek).
      assert (Hkh : hashable k = true) by (rewrite Forall_forall in Hs; auto).
      rewrite (IH s Hs Hr). split.
      * intros (pre & post & -> & H). exists (x :: pre), post. split; [reflexivity|].
        cbn [map]. unfold unknown in *. apply Forall_app in H. destruct H as [H1 H2].
        apply Forall_app. split; [exact H1|]. constructor; [|exact H2].
        destruct (py_eq (get_id x) (get_id o)) eqn:E; [|reflexivity].
        assert (Ho : can_hash o).
        { rewrite Forall_forall in Hr. apply Hr, in_or_app. cbn; tauto. }
        rewrite Forall_forall in H1. rewrite <- (H1 k Hk). symmetry.
        apply (key_trans k (get_id x) (get_id o)); assumption.
      * intros (pre & post & E & H). destruct pre as [|y pre]; cbn in E.
        -- injection E as -> ->. exfalso. cbn [map] in H. rewrite app_nil_r in H.
           unfold unknown in H. rewrite Forall_forall in H.
           rewrite (H k Hk) in Ek. discriminate.
        -- injection E as -> ->. exists pre, post. split; [reflexivity|].
           unfold unknown in *. cbn [map] in H. apply Forall_app in H.
           destruct H as [H1 H2]. inversion H2; subst.
           apply Forall_app. split; assumption.
    + apply known_false in B. cbn [In].
      assert (Hs' : Forall (fun k => hashable k = true) (s ++ [get_id x])).
      { apply Forall_app. split; [exact Hs|]. constructor; [exact Hx|constructor]. }
      rewrite (IH _ Hs' Hr). split.
      * intros [->|(pre & post & -> & H)].
        -- exists [], r. split; [reflexivity|]. cbn [map]. rewrite app_nil_r. exact B.
        -- exists (x :: pre), post. split; [reflexivity|].
           cbn [map]. rewrite <- app_assoc in H. exact H.
      * intros (pre & post & E & H). destruct pre as [|y pre]; cbn in E.
        -- injection E as -> ->. tauto.
        -- injection E as -> ->. right. exists pre, post. split; [reflexivity|].
           rewrite <- app_assoc. exact H.
Qed.

Lemma firsts_cover (l : list dict) (s : list json) (o : dict) :
  can_hash o -> In o l ->
  exists k, In k (s ++ map get_id (firsts s l)) /\ py_eq k (get_id o) = true.
Proof.
  intros Ho. revert s. induction l as [|x r IH]; intros s; cbn [firsts]; [intros []|].
  intros [->|Hin].
  - destruct (known (get_id o) s) eqn:B.
    + apply known_true in B. destruct B as (k & Hk & Ek).
      exists k. split; [apply in_or_app; tauto|exact Ek].
    + exists (get_id o). split; [apply in_or_app; cbn; tauto|apply key_refl, Ho].
  - destruct (known (get_id x) s).
    + apply IH. exact Hin.
    + destruct (IH (s ++ [get_id x]) Hin) as (k & Hk & Ek).
      exists k. split; [|exact Ek]. cbn [map]. rewrite <- app_assoc in Hk. exact Hk.
Qed.

(** ** [merge_organizations] *)

Lemma org_fold_key_error (l : list dict) :
  fold_left org_step l (@KeyError (list (json * dict))) = KeyError.
Proof. induction l as [|d r IH]; [reflexivity|exact IH]. Qed.

Lemma org_fold_type_error (l : list dict) :
  fold_left org_step l (@TypeError (list (json * dict))) = TypeError.
Proof. induction l as [|d r IH]; [reflexivity|exact IH]. Qed.

(** What [seen] holds for an object that it keeps. *)
Definition keyed (o : dict) : json * dict := (get_id o, o).

Lemma org_fold_firsts (l : list dict) (seen : list (json * dict)) :
  Forall can_hash l ->
  fold_left org_step l (Returns seen)
  = Returns (seen ++ map keyed (firsts (map fst seen) l)).
Proof.
  revert seen. induction l as [|o r IH]; intros seen H; cbn [fold_left firsts].
  - cbn [map]. rewrite app_nil_r. reflexivity.
  - inversion H as [|? ? Ho Hr]; subst. unfold org_step at 2. unfold can_hash in Ho.
    rewrite Ho, contains_known.
    destruct (known (get_id o) (map fst seen)); [apply IH; exact Hr|].
    rewrite (IH _ Hr), map_app. cbn [map fst keyed]. rewrite <- app_assoc.
    reflexivity.
Qed.

Lemma org_fold_unhashable (l : list dict) (seen : list (json * dict)) (o : dict) :
  In o l -> hashable (get_id o) = false ->
  fold_left org_step l (Returns seen) = TypeError.
Proof.
  revert seen. induction l as [|x r IH]; intros seen Hin Ho; [destruct Hin|].
  cbn [fold_left]. unfold org_step at 2.
  destruct (hashable (get_id x)) eqn:Hx.
  - destruct Hin as [->|Hin]; [congruence|].
    destruct (contains (get_id x) seen); apply IH; assumption.
  - apply org_fold_type_error.
Qed.

Lemma can_hash_dec (l : list dict) :
  Forall can_hash l \/ exists o, In o l /\ hashable (get_id o) = false.
Proof.
  induction l as [|x r [IH|(o & Ho & E)]].
  - left. constructor.
  - destruct (hashable (get_id x)) eqn:Hx.
    + left. constructor; assumption.
    + right. exists x. split; [left; reflexivity|exact Hx].
  - right. exists o. split; [right; exact Ho|exact E].
Qed.

Lemma map_snd_keyed (l : list dict) : map snd (map keyed l) = l.
Proof. rewrite map_map. cbn [keyed snd]. apply map_id. Qed.

Lemma merge_organizations_firsts (l : list dict) :
  Forall can_hash l -> merge_organizations l = Returns (firsts [] l).
Proof.
  intros H. unfold merge_organizations. rewrite (org_fold_firsts [] H).
  cbn [app map]. rewrite map_snd_keyed. reflexivity.
Qed.

Lemma merge_organizations_unhashable (l : list dict) (o : dict) :
  In o l -> hashable (get_id o) = false -> merge_organizations l = TypeError.
Proof.
  intros Hin Ho. unfold merge_organizations.
  rewrite (org_fold_unhashable l [] o Hin Ho). reflexivity.
Qed.

Lemma merge_organizations_returns (l out : list dict) :
  merge_organizations l = Returns out -> Forall can_hash l /\ out = firsts [] l.
Proof.
  intros H. destruct (can_hash_dec l) as [Hl|(o & Ho & E)].
  - rewrite (merge_organizations_firsts Hl) in H. injection H as <-. auto.
  - rewrite (merge_organizations_unhashable l o Ho E) in H. discriminate.
Qed.

Lemma distinct_ids (l : list dict) :
  Forall can_hash l -> ForallOrdPairs ids_differ l -> NoDup (map get_id l).
Proof.
  intros Hh H. induction H as [|x l Hx Hl IH]; cbn [map]; [constructor|].
  inversion Hh as [|? ? Cx Cl]; subst. constructor; [|apply IH; exact Cl].
  intros Hin. apply in_map_iff in Hin. destruct Hin as (y & E & Hy).
  rewrite Forall_forall in Hx. specialize (Hx y Hy). unfold ids_differ in Hx.
  rewrite E, (key_refl _ Cx) in Hx. discriminate.
Qed.

Lemma subseq_Forall {A : Type} (P : A -> Prop) (k l : list A) :
  subseq k l -> Forall P l -> Forall P k.
Proof.
  induction 1 as [|x k l H IH|x k l H IH]; intros F; [constructor| |];
    inversion F; subst; auto.
Qed.

(** ** [merge_documents] *)

Lemma doc_fold_key_error (l : list dict) :
  fold_left doc_step l (@KeyError (list (json * dict))) = KeyError.
Proof. induction l as [|d r IH]; [reflexivity|exact IH]. Qed.

Lemma doc_fold_type_error (l : list dict) :
  fold_left doc_step l (@TypeError (list (json * dict))) = TypeError.
Proof. induction l as [|d r IH]; [reflexivity|exact IH]. Qed.

Lemma org_fold_no_key_error (l : list dict) (seen : list (json * dict)) :
  fold_left org_step l (Returns seen) <> KeyError.
Proof.
  destruct (can_hash_dec l) as [Hl|(o & Ho & E)].
  - rewrite (org_fold_firsts seen Hl). discriminate.
  - rewrite (org_fold_unhashable l seen o Ho E). discriminate.
Qed.

(** Once [None] is a key of [seen], the two loops agree. *)
Lemma doc_fold_null_seen (l : list dict) (seen : list (json * dict)) :
  known JNull (map fst seen) = true ->
  fold_left doc_step l (Returns seen) = fold_left org_step l (Returns seen).
Proof.
  revert seen. induction l as [|d r IH]; intros seen H; [reflexivity|].
  cbn [fold_left]. unfold doc_step at 2, org_step at 2.
  destruct (hashable (get_id d)) eqn:Hd;
    [|rewrite doc_fold_type_error, org_fold_type_error; reflexivity].
  destruct (contains (get_id d) seen) eqn:C; [apply IH; exact H|].
  unfold get_id in *. destruct (dict_get id_key d) as [v|].
  - apply IH. rewrite map_app. unfold known in *. rewrite existsb_app, H. reflexivity.
  - rewrite contains_known in C. congruence.
Qed.

(** An object whose id is present, can be hashed and is not [null]. *)
Definition has_id (d : dict) : Prop :=
  exists v, dict_get id_key d = Some v /\ hashable v = true /\ v <> JNull.

(** The first object of [l] that is not such an object lacks the key. *)
Definition lacks_id_first (l : list dict) : Prop :=
  exists pre d post,
    l = pre ++ d :: post /\ dict_get id_key d = None /\ Forall has_id pre.

Lemma lacks_id_first_cons (d : dict) (r : list dict) :
  lacks_id_first (d :: r)
  <-> dict_get id_key d = None \/ (has_id d /\ lacks_id_first r).
Proof.
  split.
  - intros (pre & x & post & E & Hx & Hpre). destruct pre as [|y pre]; cbn in E.
    + injection E as -> ->. tauto.
    + injection E as -> ->. inversion Hpre; subst. right. split; [assumption|].
      exists pre, x, post. auto.
  - intros [H|[Hd (pre & x & post & -> & Hx & Hpre)]].
    + exists [], d, r. split; [reflexivity|]. split; [exact H|constructor].
    + exists (d :: pre), x, post. split; [reflexivity|]. split; [exact Hx|].
      constructor; assumption.
Qed.

Lemma doc_fold_outcome (l : list dict) (seen : list (json * dict)) :
  known JNull (map fst seen) = false ->
  (fold_left doc_step l (Returns seen) = KeyError <-> lacks_id_first l)
  /\ (~ lacks_id_first l ->
      fold_left doc_step l (Returns seen) = fold_left org_step l (Returns seen)).
Proof.
  revert seen. induction l as [|d r IH]; intros seen H.
  - cbn [fold_left]. split; [|reflexivity].
    split; [discriminate|]. intros (pre & x & post & E & _). destruct pre; discriminate.
  - cbn [fold_left]. rewrite lacks_id_first_cons.
    unfold doc_step at 2 4, org_step at 2. rewrite contains_known.
    unfold has_id, get_id. destruct (dict_get id_key d) as [v|] eqn:Ed.
    + destruct (hashable v) eqn:Hv.
      * destruct (json_null_dec v) as [->|Nv].
        -- rewrite H.
           assert (K : known JNull (map fst (seen ++ [(JNull, d)])) = true).
           { rewrite map_app. unfold known. rewrite existsb_app. cbn.
             apply orb_true_r. }
           rewrite (doc_fold_null_seen r _ K). split; [|reflexivity]. split.
           ++ intros C. exfalso. exact (org_fold_no_key_error _ _ C).
           ++ intros [C|[(v & E & _ & N) _]]; [discriminate|]. congruence.
        -- assert (G : forall seen1, known JNull (map fst seen1) = false ->
                     (fold_left doc_step r (Returns seen1) = KeyError
                      <-> Some v = None
                          \/ (exists v0, Some v = Some v0 /\ hashable v0 = true
                                         /\ v0 <> JNull)
                             /\ lacks_id_first r)
                     /\ (~ (Some v = None
                            \/ (exists v0, Some v = Some v0 /\ hashable v0 = true
                                           /\ v0 <> JNull)
                               /\ lacks_id_first r) ->
                         fold_left doc_step r (Returns seen1)
                         = fold_left org_step r (Returns seen1))).
           { intros seen1 H1. destruct (IH seen1 H1) as [I1 I2]. split.
             - rewrite I1. split; [|intros [C|[_ C]]; [discriminate|exact C]].
               intros C. right. split; [|exact C]. exists v. auto.
             - intros N. apply I2. intros C. apply N. right.
               split; [|exact C]. exists v. auto. }
           destruct (known v (map fst seen)); apply G; [exact H|].
           rewrite map_app. unfold known in *. rewrite existsb_app, H. cbn.
           destruct (py_eq v JNull) eqn:E; [|reflexivity].
           apply key_null in E. contradiction.
      * rewrite doc_fold_type_error, org_fold_type_error. split; [|reflexivity].
        split; [discriminate|].
        intros [C|[(v0 & E & Hv0 & _) _]]; [discriminate|]. congruence.
    + cbn [hashable]. rewrite H, doc_fold_key_error. split; [tauto|].
      intros N. exfalso. apply N. left. reflexivity.
Qed.

Lemma merge_documents_agrees (l : list dict) :
  ~ lacks_id_first l -> merge_documents l = merge_organizations l.
Proof.
  intros H. destruct (@doc_fold_outcome l [] eq_refl) as [_ H2].
  unfold merge_documents, merge_organizations. rewrite (H2 H). reflexivity.
Qed.

Lemma merge_documents_key_error (l : list dict) :
  merge_documents l = KeyError <-> lacks_id_first l.
Proof.
  destruct (@doc_fold_outcome l [] eq_refl) as [H1 _].
  rewrite <- H1. unfold merge_documents.
  destruct (fold_left doc_step l (Returns [])); split; congruence.
Qed.

(** ** The documents of [build] *)

(** An object that [build] keeps: its id is true as a condition. *)
Definition kept (o : dict) : Prop :=
  exists v, dict_get id_key o = Some v /\ truthy v = true.

Lemma truthy_kept (o : dict) : truthy (get_id o) = true -> kept o.
Proof.
  unfold get_id, kept. destruct (dict_get id_key o) as [v|]; [eauto|discriminate].
Qed.

Lemma all_documents_kept (data : list json) : Forall kept (all_documents data).
Proof.
  unfold all_documents.
  assert (G : forall all, Forall kept all ->
            Forall kept
              (fold_left
                 (fun all d =>
                    match d with
                    | JDict o => if truthy (get_id o) then all ++ [o] else all
                    | _ => all
                    end) data all)).
  { induction data as [|d r IH]; intros all H; [exact H|]. cbn [fold_left].
    apply IH. destruct d as [| | | | | |o]; try exact H.
    destruct (truthy (get_id o)) eqn:T; [|exact H].
    apply Forall_app. split; [exact H|].
    constructor; [apply truthy_kept; exact T|constructor]. }
  apply G. constructor.
Qed.

Lemma kept_not_lacking (l : list dict) : Forall kept l -> ~ lacks_id_first l.
Proof.
  intros H (pre & d & post & -> & Hd & _).
  rewrite Forall_forall in H.
  destruct (H d) as (v & E & _); [apply in_or_app; cbn; tauto|]. congruence.
Qed.

(** X13. [merge_organizations] raises [TypeError] exactly when the id of
    an object is a list or an object, and never [KeyError]. When it
    returns, it has kept, of the objects with equal ids, the first one:
    the ids of the result differ from one another, the result is the
    input with some objects left out (nothing is reordered), its objects
    are exactly those with no earlier object of an equal id, every object
    of the input has an equal id in the result, and an input whose ids
    differ from one another is returned as it is. Ids are compared as
    keys of a dictionary are: the numbers by their values; objects without
    the key ['id'] and objects whose id is [null] count as having the same
    id. *)
Theorem merge_organizations_first_occurrences (orgs_list : list dict) :
  (merge_organizations orgs_list = TypeError
   <-> exists o, In o orgs_list /\ hashable (get_id o) = false)
  /\ merge_organizations orgs_list <> KeyError
  /\ (forall out,
        merge_organizations orgs_list = Returns out ->
        ForallOrdPairs ids_differ out
        /\ NoDup (map get_id out)
        /\ subseq out orgs_list
        /\ (forall o, In o out <-> first_with_id orgs_list o)
        /\ (forall o, In o orgs_list ->
                      exists r, In r out /\ py_eq (get_id r) (get_id o) = true)
        /\ (ForallOrdPairs ids_differ orgs_list -> out = orgs_list)).
Proof.
  split; [|split].
  - split.
    + intros H. destruct (can_hash_dec orgs_list) as [Hl|Hex]; [|exact Hex].
      rewrite (merge_organizations_firsts Hl) in H. discriminate.
    + intros (o & Ho & E). apply (merge_organizations_unhashable orgs_list o Ho E).
  - unfold merge_organizations.
    pose proof (@org_fold_no_key_error orgs_list []) as H.
    destruct (fold_left org_step orgs_list (Returns [])); congruence.
  - intros out H. apply merge_organizations_returns in H. destruct H as [Hl ->].
    assert (Hout : Forall can_hash (firsts [] orgs_list))
      by (apply (subseq_Forall (firsts_subseq orgs_list []) Hl)).
    split; [apply firsts_distinct|].
    split; [apply distinct_ids; [exact Hout|apply firsts_distinct]|].
    split; [apply firsts_subseq|]. split; [|split].
    + intros o. rewrite (@firsts_In orgs_list [] o (Forall_nil _) Hl).
      unfold first_with_id, unknown, ids_differ. cbn [app].
      split; intros (pre & post & E & H); exists pre, post; (split; [exact E|]).
      * rewrite Forall_map in H. exact H.
      * rewrite Forall_map. exact H.
    + intros o Ho.
      assert (Co : can_hash o) by (rewrite Forall_forall in Hl; auto).
      destruct (@firsts_cover orgs_list [] o Co Ho) as (k & Hk & Ek).
      cbn [app] in Hk. apply in_map_iff in Hk. destruct Hk as (r & <- & Hr).
      exists r. auto.
    + intros H. apply firsts_all; [|exact H].
      apply Forall_forall. intros o _. constructor.
Qed.

(** X14. Merging is incremental: when merging a list returns, merging a
    list that continues the merged list gives what merging everything at
    once gives, merging again changes nothing, and the objects that a
    longer input adds come after those of the shorter one. When merging a
    list raises, merging any list that continues it raises as well. *)
Theorem merge_organizations_incremental (l1 l2 : list dict) :
  match merge_organizations l1 with
  | Returns m1 =>
      merge_organizations (m1 ++ l2) = merge_organizations (l1 ++ l2)
      /\ merge_organizations m1 = Returns m1
      /\ (forall m, merge_organizations (l1 ++ l2) = Returns m ->
                    exists added, m = m1 ++ added)
  | raised => merge_organizations (l1 ++ l2) = raised
  end.
Proof.
  destruct (can_hash_dec l1) as [H1|(o & Ho & E)].
  - rewrite (merge_organizations_firsts H1).
    assert (F1 : Forall can_hash (firsts [] l1))
      by (apply (subseq_Forall (firsts_subseq l1 []) H1)).
    split; [|split].
    + destruct (can_hash_dec l2) as [H2|(o & Ho & E)].
      * rewrite !merge_organizations_firsts by (apply Forall_app; auto).
        rewrite !firsts_app, firsts_twice. reflexivity.
      * rewrite (merge_organizations_unhashable (firsts [] l1 ++ l2) o),
          (merge_organizations_unhashable (l1 ++ l2) o);
          try exact E; try (apply in_or_app; right; exact Ho). reflexivity.
    + rewrite (merge_organizations_firsts F1), firsts_twice. reflexivity.
    + intros m Hm. apply merge_organizations_returns in Hm. destruct Hm as [_ ->].
      rewrite firsts_app. eexists. reflexivity.
  - rewrite (merge_organizations_unhashable l1 o Ho E).
    apply (merge_organizations_unhashable (l1 ++ l2) o); [|exact E].
    apply in_or_app. left. exact Ho.
Qed.

(** X15. [merge_documents] raises [KeyError] exactly when the first object
    whose id is not a value other than [null] that can be hashed lacks the
    key ['id'] altogether: an object whose id is [null] before it makes
    the function skip it instead, and one whose id is a list or an object
    raises [TypeError] before. It raises [TypeError] exactly when it does
    not raise [KeyError] and the id of an object is a list or an object.
    Whenever it does not raise [KeyError], it does what
    [merge_organizations] does on the same list. *)
Theorem merge_documents_outcome (docs_list : list dict) :
  (merge_documents docs_list = KeyError <-> lacks_id_first docs_list)
  /\ (merge_documents docs_list = TypeError
      <-> ~ lacks_id_first docs_list
          /\ exists o, In o docs_list /\ hashable (get_id o) = false)
  /\ (~ lacks_id_first docs_list ->
      merge_documents docs_list = merge_organizations docs_list).
Proof.
  split; [apply merge_documents_key_error|]. split; [|apply merge_documents_agrees].
  split.
  - intros H.
    assert (N : ~ lacks_id_first docs_list).
    { intros C. apply merge_documents_key_error in C. congruence. }
    split; [exact N|]. rewrite (merge_documents_agrees N) in H.
    destruct (can_hash_dec docs_list) as [Hl|Hex]; [|exact Hex].
    rewrite (merge_organizations_firsts Hl) in H. discriminate.
  - intros [N (o & Ho & E)]. rewrite (merge_documents_agrees N).
    apply (merge_organizations_unhashable docs_list o Ho E).
Qed.

(** X16. The documents that [build] collects never make [merge_documents]
    raise [KeyError]: [build] keeps only the objects whose id is true as a
    condition, so every one has the key. They make it raise [TypeError]
    exactly when the id of one of them is a list or an object. Otherwise
    it returns the first document of every id: the merged documents have
    ids that are true as conditions and that differ from one another. *)
Theorem build_documents_merge (doc_data : list json) :
  let docs := all_documents doc_data in
  Forall kept docs
  /\ merge_documents docs <> KeyError
  /\ merge_documents docs = merge_organizations docs
  /\ (merge_documents docs = TypeError
      <-> exists o, In o docs /\ hashable (get_id o) = false)
  /\ (forall out,
        merge_documents docs = Returns out ->
        Forall kept out /\ ForallOrdPairs ids_differ out
        /\ NoDup (map get_id out) /\ subseq out docs).
Proof.
  intros docs. pose proof (all_documents_kept doc_data) as T. fold docs in T.
  pose proof (kept_not_lacking T) as N.
  split; [exact T|]. split; [|split; [apply merge_documents_agrees; exact N|split]].
  - rewrite merge_documents_key_error. exact N.
  - rewrite (merge_documents_agrees N). split.
    + intros H. destruct (can_hash_dec docs) as [Hl|Hex]; [|exact Hex].
      rewrite (merge_organizations_firsts Hl) in H. discriminate.
    + intros (o & Ho & E). apply (merge_organizations_unhashable docs o Ho E).
  - intros out H. rewrite (merge_documents_agrees N) in H.
    apply merge_organizations_returns in H. destruct H as [Hl ->].
    pose proof (firsts_subseq docs []) as S.
    split; [apply (subseq_Forall S T)|]. split; [apply firsts_distinct|].
    split; [|exact S].
    apply distinct_ids; [apply (subseq_Forall S Hl)|apply firsts_distinct].
Qed.

(** An id that is a number is kept as it is, and one that is a list ends
    the merge. *)
Example build_documents_ids :
  merge_documents (all_documents [JDict [(id_key, JInt 5)]; JList [];
                                  JDict [(id_key, JInt 0)];
                                  JDict [(id_key, JFloat 5)]])
  = Returns [[(id_key, JInt 5)]]
  /\ merge_documents (all_documents [JDict [(id_key, JList [JStr (of_string "x")])]])
     = TypeError
  /\ merge_documents [[(id_key, JInt 1)]; []] = KeyError
  /\ merge_documents [[(id_key, JNull)]; []] = Returns [[(id_key, JNull)]].
Proof. repeat split; vm_compute; reflexivity. Qed.

End MergingFacts.

(* ================================================================== *)
(** * More on merging edges *)

Module EdgesFacts.
Import Py Build BuildFacts Builders.

(** ** Every edge is listed once *)

Definition listed (g : list (key * bucket)) : nat :=
  list_sum (map (fun kd => length (k_edges (snd kd))) g).

Lemma add_edge_listed (g : list (key * bucket)) (k : key) (e : edge) :
  listed (add_edge g k e) = S (listed g).
Proof.
  unfold listed. induction g as [|[k' d] g IH]; cbn [add_edge]; [reflexivity|].
  destruct (key_eq_dec k k').
  - unfold list_sum. cbn [map fold_right snd k_edges]. rewrite length_app.
    cbn [length]. lia.
  - unfold list_sum in *. cbn [map fold_right snd] in *. rewrite IH. lia.
Qed.

Lemma group_edges_listed (es : list edge) : listed (group_edges es) = length es.
Proof.
  induction es as [|e es IH] using rev_ind; [reflexivity|].
  rewrite group_edges_snoc, add_edge_listed, IH, length_app. cbn [length]. lia.
Qed.

(** ** Entries only grow *)

(** [g'] has the buckets of [g], in this order and each with possibly more
    edges at its end, and possibly more buckets after them. *)
Inductive grows : list (key * bucket) -> list (key * bucket) -> Prop :=
| grows_nil (g' : list (key * bucket)) : grows [] g'
| grows_cons (k : key) (d d' : bucket) (more : list edge_info)
    (g g' : list (key * bucket)) :
    k_edges d' = k_edges d ++ more -> grows g g' ->
    grows ((k, d) :: g) ((k, d') :: g').

Lemma grows_refl (g : list (key * bucket)) : grows g g.
Proof.
  induction g as [|[k d] g IH]; [constructor|].
  apply grows_cons with (more := []); [rewrite app_nil_r; reflexivity|exact IH].
Qed.

Lemma grows_trans (g1 g2 g3 : list (key * bucket)) :
  grows g1 g2 -> grows g2 g3 -> grows g1 g3.
Proof.
  intros H. revert g3. induction H as [|k d d' more g g' E H IH]; intros g3 H3.
  - constructor.
  - inversion H3 as [|? ? d3 more3 ? g3' E3 H3']; subst.
    apply grows_cons with (more := more ++ more3).
    + rewrite E3, E, app_assoc. reflexivity.
    + apply IH. exact H3'.
Qed.

Lemma add_edge_grows (g : list (key * bucket)) (k : key) (e : edge) :
  grows g (add_edge g k e).
Proof.
  induction g as [|[k' d] g IH]; cbn [add_edge]; [constructor|].
  destruct (key_eq_dec k k').
  - apply grows_cons with (more := [info_of e]); [reflexivity|apply grows_refl].
  - apply grows_cons with (more := []); [rewrite app_nil_r; reflexivity|exact IH].
Qed.

Lemma group_edges_grows (l1 l2 : list edge) :
  grows (group_edges l1) (group_edges (l1 ++ l2)).
Proof.
  induction l2 as [|e l2 IH] using rev_ind.
  - rewrite app_nil_r. apply grows_refl.
  - rewrite app_assoc, group_edges_snoc.
    eapply grows_trans; [exact IH|apply add_edge_grows].
Qed.

Lemma grows_keys (g g' : list (key * bucket)) :
  grows g g' -> exists added, map fst g' = map fst g ++ added.
Proof.
  induction 1 as [g'|k d d' more g g' E H [added IH]].
  - exists (map fst g'). reflexivity.
  - exists added. cbn [map fst]. rewrite IH. reflexivity.
Qed.

Lemma grows_nth (g g' : list (key * bucket)) (n : nat) (k : key) (d : bucket) :
  grows g g' -> nth_error g n = Some (k, d) ->
  exists d' more,
    nth_error g' n = Some (k, d') /\ k_edges d' = k_edges d ++ more.
Proof.
  intros H. revert n. induction H as [g'|k0 d0 d' more g g' E H IH]; intros n Hn.
  - destruct n; discriminate.
  - destruct n as [|n]; cbn [nth_error] in *.
    + injection Hn as -> ->. exists d', more. split; [reflexivity|exact E].
    + apply IH. exact Hn.
Qed.

(** The entry of the result made from a bucket. *)
Definition entry_of (kd : key * bucket) : merged :=
  {| o_source := fst (fst kd);
     o_target := snd (fst kd);
     o_edges := k_edges (snd kd);
     avg_weight := round (average (k_weights (snd kd))) 2 |}.

Lemma merge_edges_entries (es : list edge) :
  merge_edges es = map entry_of (group_edges es).
Proof. unfold merge_edges. apply map_ext. intros [[s t] d]. reflexivity. Qed.

(** ** Inputs whose end points are pairwise distinct *)

Definition single (e : edge) : key * bucket :=
  (key_of e, {| k_source := source e;
                k_target := target e;
                k_edges := [info_of e];
                k_weights := [i_weight (info_of e)] |}).

Lemma add_edge_new (g : list (key * bucket)) (e : edge) :
  ~ In (key_of e) (map fst g) -> add_edge g (key_of e) e = g ++ [single e].
Proof.
  induction g as [|[k' d] g IH]; cbn [add_edge map fst In]; intros H.
  - reflexivity.
  - destruct (key_eq_dec (key_of e) k') as [E|E]; [exfalso; apply H; auto|].
    rewrite IH by tauto. reflexivity.
Qed.

Lemma group_edges_distinct (es : list edge) :
  NoDup (map key_of es) -> group_edges es = map single es.
Proof.
  induction es as [|e es IH] using rev_ind; intros H; [reflexivity|].
  rewrite map_app in H. cbn [map] in H.
  assert (H1 : NoDup (map key_of es)).
  { apply NoDup_remove_1 in H. rewrite app_nil_r in H. exact H. }
  assert (H2 : ~ In (key_of e) (map key_of es)).
  { apply NoDup_remove_2 in H. rewrite app_nil_r in H. exact H. }
  rewrite group_edges_snoc, (IH H1), map_app, add_edge_new.
  - reflexivity.
  - rewrite map_map. cbn [single fst]. exact H2.
Qed.

(** ** The edges of [build_edges_json] *)

(** The pairs of an element of a list with a later one, in the order of
    the two loops. *)
Fixpoint pairs (ids : list str) : list (str * str) :=
  match ids with
  | [] => []
  | p :: r => map (pair p) r ++ pairs r
  end.

Definition co_edge (doc_id : str) (n : nat) (pq : str * str) : edge :=
  {| source := Some (fst pq);
     target := Some (snd pq);
     edge_id := Some (edge_name doc_id (Z.of_nat n + 1));
     relationship := Some co_mentioned;
     weight := Some 1%Q |}.

(** The edges of the pairs [ps], numbered after [n] earlier ones. *)
Fixpoint edges_from (doc_id : str) (n : nat) (ps : list (str * str))
  : list edge :=
  match ps with
  | [] => []
  | pq :: r => co_edge doc_id n pq :: edges_from doc_id (S n) r
  end.

Lemma edges_from_length (doc_id : str) (n : nat) (ps : list (str * str)) :
  length (edges_from doc_id n ps) = length ps.
Proof.
  revert n. induction ps as [|pq r IH]; intros n; cbn [edges_from length];
    [reflexivity|]. rewrite IH. reflexivity.
Qed.

Lemma edges_from_app (doc_id : str) (n : nat) (a b : list (str * str)) :
  edges_from doc_id n (a ++ b)
  = edges_from doc_id n a ++ edges_from doc_id (n + length a) b.
Proof.
  revert n. induction a as [|pq r IH]; intros n.
  - cbn [edges_from app length]. rewrite Nat.add_0_r. reflexivity.
  - rewrite <- app_comm_cons. cbn [edges_from app length].
    rewrite IH. replace (S n + length r)%nat with (n + S (length r))%nat by lia.
    reflexivity.
Qed.

Lemma edges_from_nth (doc_id : str) (ps : list (str * str)) (n k : nat) :
  nth_error (edges_from doc_id n ps) k
  = option_map (co_edge doc_id (n + k)) (nth_error ps k).
Proof.
  revert n k. induction ps as [|pq r IH]; intros n k; cbn [edges_from].
  - destruct k; reflexivity.
  - destruct k as [|k]; cbn [nth_error option_map].
    + rewrite Nat.add_0_r. reflexivity.
    + rewrite IH. replace (S n + k)%nat with (n + S k)%nat by lia. reflexivity.
Qed.

Lemma inner_loop (doc_id p1 : str) (rest : list str) (acc : list edge) :
  fold_left (fun acc p2 => acc ++ [new_edge doc_id acc p1 p2]) rest acc
  = acc ++ edges_from doc_id (length acc) (map (pair p1) rest).
Proof.
  revert acc. induction rest as [|p2 r IH]; intros acc; cbn [fold_left map edges_from].
  - rewrite app_nil_r. reflexivity.
  - rewrite IH, <- app_assoc, length_app. cbn [length app].
    replace (length acc + 1)%nat with (S (length acc)) by lia. reflexivity.
Qed.

Lemma outer_loop (doc_id : str) (person_ids xs pre : list str) (acc : list edge) :
  person_ids = pre ++ xs ->
  fold_left
    (fun acc ip =>
       fold_left (fun acc p2 => acc ++ [new_edge doc_id acc (snd ip) p2])
                 (skipn (fst ip + 1) person_ids) acc)
    (enumerate_from (length pre) xs) acc
  = acc ++ edges_from doc_id (length acc) (pairs xs).
Proof.
  revert pre acc. induction xs as [|x r IH]; intros pre acc E;
    cbn [enumerate_from fold_left pairs edges_from fst snd].
  - rewrite app_nil_r. reflexivity.
  - assert (S1 : skipn (length pre + 1) person_ids = r).
    { rewrite E. replace (length pre + 1)%nat with (length (pre ++ [x])).
      - change (pre ++ x :: r) with (pre ++ [x] ++ r). rewrite app_assoc.
        rewrite skipn_app, skipn_all, Nat.sub_diag. reflexivity.
      - rewrite length_app. reflexivity. }
    rewrite S1, inner_loop.
    replace (S (length pre)) with (length (pre ++ [x]))
      by (rewrite length_app; cbn [length]; lia).
    rewrite IH by (rewrite <- app_assoc; exact E).
    rewrite edges_from_app, <- app_assoc, length_app, edges_from_length.
    rewrite length_map. reflexivity.
Qed.

Lemma build_edges_json_edges (doc_id : str) (person_ids : list str) :
  edges (build_edges_json doc_id person_ids)
  = edges_from doc_id 0 (pairs person_ids).
Proof.
  unfold build_edges_json, enumerate. cbn [edges].
  apply (@outer_loop doc_id person_ids person_ids [] []). reflexivity.
Qed.

Lemma pairs_length (ids : list str) :
  (2 * length (pairs ids) = length ids * (length ids - 1))%nat.
Proof.
  induction ids as [|p r IH]; [reflexivity|].
  cbn [pairs length]. rewrite length_app, length_map.
  replace (S (length r) - 1)%nat with (length r) by lia.
  destruct (length r) as [|m]; [cbn in *; lia|].
  replace (S m - 1)%nat with m in IH by lia. nia.
Qed.

Lemma pairs_In (ids : list str) (p q : str) :
  In (p, q) (pairs ids)
  <-> exists i j, (i < j)%nat /\ nth_error ids i = Some p
                  /\ nth_error ids j = Some q.
Proof.
  induction ids as [|x r IH]; cbn [pairs].
  - split; [intros []|]. intros (i & j & _ & H & _). destruct i; discriminate.
  - rewrite in_app_iff, IH, in_map_iff. split.
    + intros [(y & E & Hy)|(i & j & Hij & Hi & Hj)].
      * injection E as -> ->. apply In_nth_error in Hy. destruct Hy as [j Hj].
        exists 0%nat, (S j). split; [lia|]. split; [reflexivity|exact Hj].
      * exists (S i), (S j). split; [lia|]. split; assumption.
    + intros (i & j & Hij & Hi & Hj). destruct j as [|j]; [lia|].
      cbn [nth_error] in Hj. destruct i as [|i]; cbn [nth_error] in Hi.
      * injection Hi as ->. left. exists q. split; [reflexivity|].
        eapply nth_error_In. exact Hj.
      * right. exists i, j. split; [lia|]. split; assumption.
Qed.

Lemma pairs_NoDup (ids : list str) : NoDup ids -> NoDup (pairs ids).
Proof.
  induction ids as [|x r IH]; intros H; cbn [pairs]; [constructor|].
  inversion H as [|? ? Hx Hr]; subst. apply NoDup_app.
  - apply NoDup_map_NoDup_ForallPairs; [|exact Hr].
    intros a b _ _ E. injection E as ->. reflexivity.
  - apply IH. exact Hr.
  - intros [p q] Hin Hin'. apply in_map_iff in Hin. destruct Hin as (y & E & _).
    injection E as -> ->. apply pairs_In in Hin'.
    destruct Hin' as (i & j & _ & Hi & _). apply Hx. eapply nth_error_In. exact Hi.
Qed.

(** ** Decimal numerals *)

Lemma of_string_inj (s t : string) : of_string s = of_string t -> s = t.
Proof.
  revert t. induction s as [|c s IH]; intros [|d t] E; cbn [of_string] in E;
    try discriminate; [reflexivity|].
  injection E as Ec Es. rewrite (IH t Es). f_equal.
  rewrite <- (ascii_N_embedding c), <- (ascii_N_embedding d), Ec. reflexivity.
Qed.

Lemma to_int_proper (z : Z) :
  Z.to_int z <> Decimal.Pos Decimal.Nil /\ Z.to_int z <> Decimal.Neg Decimal.Nil.
Proof.
  destruct z as [|p|p]; cbn [Z.to_int]; split; try discriminate;
    intros E; injection E as E; exact (DecimalPos.Unsigned.to_uint_nonnil p E).
Qed.

Lemma str_of_int_inj (m n : Z) : str_of_int m = str_of_int n -> m = n.
Proof.
  unfold str_of_int. intros E. apply of_string_inj in E.
  apply DecimalZ.to_int_inj.
  destruct (to_int_proper m) as [M1 M2]. destruct (to_int_proper n) as [N1 N2].
  pose proof (DecimalString.NilZero.isi (Z.to_int m) M1 M2) as Im.
  pose proof (DecimalString.NilZero.isi (Z.to_int n) N1 N2) as In.
  rewrite E in Im. congruence.
Qed.

Lemma edge_name_inj (doc_id : str) (m n : Z) :
  edge_name doc_id m = edge_name doc_id n -> m = n.
Proof.
  unfold edge_name. intros E. repeat apply app_inv_head in E.
  apply str_of_int_inj. exact E.
Qed.

Lemma Forall2_map_self {A B : Type} (R : A -> B -> Prop) (f : A -> B)
  (l : list A) :
  (forall x, In x l -> R x (f x)) -> Forall2 R l (map f l).
Proof.
  induction l as [|x l IH]; intros H; cbn [map]; constructor.
  - apply H. left. reflexivity.
  - apply IH. intros y Hy. apply H. right. exact Hy.
Qed.

Lemma average_one : (round (average [1%Q]) 2 == 1)%Q.
Proof. vm_compute. reflexivity. Qed.

(** X17. [merge_edges] lists every edge record of its input once: the
    lengths of the lists [edges] of the result add up to the length of the
    input, and the number of entries is at most that. *)
Theorem merge_edges_conserves (edges_list : list edge) :
  list_sum (map (fun o => length (o_edges o)) (merge_edges edges_list))
  = length edges_list
  /\ (length (merge_edges edges_list) <= length edges_list)%nat.
Proof.
  rewrite merge_edges_entries, map_map, length_map.
  pose proof (group_edges_listed edges_list) as L. unfold listed in L.
  split; [exact L|].
  assert (G : (length (group_edges edges_list)
               <= listed (group_edges edges_list))%nat).
  { destruct (group_edges_ok edges_list) as (_ & B & _). revert B.
    generalize (group_edges edges_list). intros g B. unfold listed, list_sum.
    induction B as [|kd g Hkd B IH]; cbn [length map fold_right]; [lia|].
    destruct Hkd as (_ & _ & E & _ & Hne). rewrite E, length_map.
    destruct (filter (has_key (fst kd)) edges_list); [congruence|].
    cbn [length]. lia. }
  unfold listed in G. rewrite L in G. exact G.
Qed.

(** X18. Reading more edges only adds to the result of [merge_edges]:
    the entries of a longer input begin with those of the shorter one,
    position by position with the same end points and with the same edges
    at the start of their list, and new pairs of end points come after
    them; when the pairs of end points of the input are pairwise distinct,
    the entries are in the order of the input. *)
Theorem merge_edges_incremental (l1 l2 : list edge) :
  let before := merge_edges l1 in
  let after := merge_edges (l1 ++ l2) in
  (exists added, map out_key after = map out_key before ++ added)
  /\ (forall n o, nth_error before n = Some o ->
        exists o' more,
          nth_error after n = Some o'
          /\ out_key o' = out_key o
          /\ o_edges o' = o_edges o ++ more)
  /\ (NoDup (map key_of l1) -> map out_key before = map key_of l1).
Proof.
  intros before after. unfold before, after.
  pose proof (group_edges_grows l1 l2) as G. split; [|split].
  - rewrite !merge_edges_keys. apply grows_keys. exact G.
  - intros n o Hn. rewrite merge_edges_entries, nth_error_map in Hn.
    destruct (nth_error (group_edges l1) n) as [[k d]|] eqn:E; [|discriminate].
    injection Hn as <-. destruct (@grows_nth _ _ _ _ _ G E) as (d' & more & E' & Hd).
    exists (entry_of (k, d')), more. split; [|split; [reflexivity|exact Hd]].
    rewrite merge_edges_entries, nth_error_map, E'. reflexivity.
  - intros H. rewrite merge_edges_keys, (@group_edges_distinct l1 H), map_map.
    reflexivity.
Qed.

(** X19. [build_edges_json] makes one edge for every pair of a position of
    [person_ids] with a later one: [n * (n - 1) / 2] edges; the edge at
    index [k] is named [edge_<doc_id>_<k+1>], so that the names are
    pairwise distinct, it is a [co_mentioned] edge of weight 1, and its
    source stands before its target in [person_ids]; and every such pair
    of positions has its edge. *)
Theorem build_edges_json_pairs (doc_id : str) (person_ids : list str) :
  let es := edges (build_edges_json doc_id person_ids) in
  (2 * length es = length person_ids * (length person_ids - 1))%nat
  /\ (forall k e, nth_error es k = Some e ->
        edge_id e = Some (edge_name doc_id (Z.of_nat k + 1))
        /\ relationship e = Some co_mentioned
        /\ weight e = Some 1%Q
        /\ exists i j p q,
             (i < j)%nat /\ nth_error person_ids i = Some p
             /\ nth_error person_ids j = Some q
             /\ source e = Some p /\ target e = Some q)
  /\ (forall i j p q,
        (i < j)%nat -> nth_error person_ids i = Some p ->
        nth_error person_ids j = Some q ->
        exists e, In e es /\ source e = Some p /\ target e = Some q)
  /\ NoDup (map edge_id es).
Proof.
  intros es. unfold es. rewrite build_edges_json_edges.
  split; [|split; [|split]].
  - rewrite edges_from_length. apply pairs_length.
  - intros k e Hk. rewrite edges_from_nth in Hk.
    destruct (nth_error (pairs person_ids) k) as [[p q]|] eqn:E; [|discriminate].
    injection Hk as <-. cbn [co_edge edge_id relationship weight source target fst snd].
    repeat (split; [reflexivity|]).
    apply nth_error_In, pairs_In in E. destruct E as (i & j & Hij & Hi & Hj).
    exists i, j, p, q. auto.
  - intros i j p q Hij Hi Hj.
    assert (Hin : In (p, q) (pairs person_ids)) by (apply pairs_In; eauto).
    apply In_nth_error in Hin. destruct Hin as [k Hk].
    exists (co_edge doc_id k (p, q)). split; [|split; reflexivity].
    apply nth_error_In with (n := k). rewrite edges_from_nth, Hk. reflexivity.
  - apply NoDup_nth_error. intros i j Hi E.
    rewrite length_map, edges_from_length in Hi.
    rewrite !nth_error_map, !edges_from_nth in E.
    destruct (nth_error (pairs person_ids) i) as [pq|] eqn:Ei;
      [|apply nth_error_None in Ei; lia].
    destruct (nth_error (pairs person_ids) j) as [pq'|]; [|discriminate].
    cbn [option_map co_edge edge_id] in E.
    assert (E' : edge_name doc_id (Z.of_nat (0 + i) + 1)
                 = edge_name doc_id (Z.of_nat (0 + j) + 1)) by congruence.
    apply edge_name_inj in E'. lia.
Qed.

(** X20. When the ids of the people of a document are pairwise distinct,
    merging the edges that [build_edges_json] makes for it merges
    nothing: the result has one entry for every edge, in the same order,
    with the end points of the edge, the edge alone in its list, and
    average weight 1. *)
Theorem merge_edges_of_document (doc_id : str) (person_ids : list str)
  (distinct : NoDup person_ids) :
  Forall2
    (fun e o =>
       o_source o = source e /\ o_target o = target e
       /\ o_edges o = [info_of e] /\ (avg_weight o == 1)%Q)
    (edges (build_edges_json doc_id person_ids))
    (merge_edges (edges (build_edges_json doc_id person_ids))).
Proof.
  rewrite build_edges_json_edges, merge_edges_entries.
  assert (K : NoDup (map key_of (edges_from doc_id 0 (pairs person_ids)))).
  { apply pairs_NoDup in distinct. revert distinct.
    generalize (pairs person_ids) 0%nat. intros ps.
    induction ps as [|[p q] r IH]; intros n H; cbn [edges_from map]; [constructor|].
    inversion H as [|? ? Hx Hr]; subst. constructor; [|apply IH; exact Hr].
    intros Hin. apply Hx. apply in_map_iff in Hin. destruct Hin as (e & E & Hin).
    apply In_nth_error in Hin. destruct Hin as [k Hk].
    rewrite edges_from_nth in Hk.
    destruct (nth_error r k) as [[p' q']|] eqn:Er; [|discriminate].
    injection Hk as <-. unfold key_of, co_edge in E.
    cbn [source target fst snd] in E. injection E as -> ->.
    eapply nth_error_In. exact Er. }
  rewrite (@group_edges_distinct _ K), map_map.
  apply Forall2_map_self. intros e Hin.
  apply In_nth_error in Hin. destruct Hin as [k Hk].
  rewrite edges_from_nth in Hk.
  destruct (nth_error (pairs person_ids) k) as [pq|]; [|discriminate].
  injection Hk as <-. repeat (split; [reflexivity|]). exact average_one.
Qed.

Lemma merge_edges_of_document_witness :
  let doc := of_string "EFTA1" in
  let ids := [of_string "p1"; of_string "p2"; of_string "p3"] in
  NoDup ids
  /\ Forall2
       (fun e o =>
          o_source o = source e /\ o_target o = target e
          /\ o_edges o = [info_of e] /\ (avg_weight o == 1)%Q)
       (edges (build_edges_json doc ids))
       (merge_edges (edges (build_edges_json doc ids))).
Proof.
  intros doc ids.
  assert (D : NoDup ids).
  { unfold ids. repeat constructor; cbn [In]; intros H;
      repeat (destruct H as [H|H]; [discriminate H|]); exact H. }
  split; [exact D|]. exact (merge_edges_of_document doc D).
Defined.

End EdgesFacts.

(* ================================================================== *)
(** * Texts of similarity 1 *)

Module EqualTexts.
Import Py Difflib Utilities DifflibFacts MatcherFacts.

(** ** What a region can still give *)

Definition width_min (r : region) : Z := Z.min (width_a r) (width_b r).

Definition room_min (q : list region) : Z := sum (map width_min q).

Lemma room_min_cons (r : region) (q : list region) :
  room_min (r :: q) = width_min r + room_min q.
Proof. apply sum_cons. Qed.

Lemma room_min_le (q : list region) :
  room_min q <= room_a q /\ room_min q <= room_b q.
Proof.
  induction q as [|r q IH]; [split; reflexivity|].
  rewrite room_min_cons, room_a_cons, room_b_cons. unfold width_min. lia.
Qed.

Lemma next_queue_min (alo ahi blo bhi : Z) (x : Match) (queue : list region) :
  inside alo blo bhi ahi x ->
  room_min (next_queue alo ahi blo bhi x queue)
  <= Z.min (m_a x - alo) (m_b x - blo)
     + Z.min (ahi - (m_a x + m_size x)) (bhi - (m_b x + m_size x))
     + room_min queue.
Proof.
  intros (H1 & H2 & H3 & H4 & H5). unfold next_queue.
  destruct (Z.ltb_spec alo (m_a x)); destruct (Z.ltb_spec blo (m_b x));
    destruct (Z.ltb_spec (m_a x + m_size x) ahi);
    destruct (Z.ltb_spec (m_b x + m_size x) bhi); cbn [andb];
    rewrite ?room_min_cons; unfold width_min; cbn [width_a width_b]; lia.
Qed.

Lemma blocks_loop_total_min (fuel : nat) (a b : str) (b2j : b2j_t)
  (queue : list region) (acc r : list Match) :
  Forall region_ok queue ->
  blocks_loop fuel a b b2j queue acc = Some r ->
  total r <= total acc + room_min queue.
Proof.
  revert queue acc. induction fuel as [|f IH]; intros queue acc Hq Hr.
  - destruct queue as [|[[[alo ahi] blo] bhi] queue]; cbn in Hr; [|discriminate].
    injection Hr as <-. change (room_min []) with 0. lia.
  - destruct queue as [|[[[alo ahi] blo] bhi] queue].
    + cbn in Hr. injection Hr as <-. change (room_min []) with 0. lia.
    + inversion Hq as [|? ? Hr0 Hq']; subst. destruct Hr0 as [Hr1 Hr2].
      rewrite blocks_loop_step in Hr. cbv zeta in Hr.
      pose proof (find_longest_match_inside a b b2j Hr1 Hr2) as Hin.
      rewrite room_min_cons. unfold width_min at 1. cbn [width_a width_b].
      destruct (Z.eqb_spec (m_size (find_longest_match a b b2j alo ahi blo bhi)) 0)
        as [E|E].
      * specialize (IH _ _ Hq' Hr). lia.
      * destruct (next_queue_facts Hin E Hq') as (F1 & _).
        specialize (IH _ _ F1 Hr). pose proof (next_queue_min queue Hin) as M.
        destruct Hin as (I1 & I2 & I3 & I4 & I5).
        rewrite total_app, total_cons in IH. change (total []) with 0 in IH. lia.
Qed.

(** ** When nothing is lost *)

(** The index [t] lies in a block that pairs every index with itself. *)
Definition in_diagonal_block (t : Z) (m : Match) : Prop :=
  m_a m = m_b m /\ m_a m <= t < m_a m + m_size m.

Definition in_diagonal_region (t : Z) (r : region) : Prop :=
  let '(alo, ahi, blo, bhi) := r in alo = blo /\ ahi = bhi /\ alo <= t < ahi.

Lemma next_queue_keeps (t alo ahi blo bhi : Z) (x : Match) (queue : list region) :
  Exists (in_diagonal_region t) queue ->
  Exists (in_diagonal_region t) (next_queue alo ahi blo bhi x queue).
Proof.
  intros H. unfold next_queue.
  destruct (_ && _)%bool; destruct (_ && _)%bool;
    repeat apply Exists_cons_tl; exact H.
Qed.

Lemma next_queue_diagonal (t alo ahi : Z) (x : Match) (queue : list region) :
  m_a x = m_b x -> alo <= t < ahi ->
  m_a x <= t < m_a x + m_size x
  \/ Exists (in_diagonal_region t) (next_queue alo ahi alo ahi x queue).
Proof.
  intros D Ht. unfold next_queue. rewrite <- D.
  destruct (Z.ltb_spec alo (m_a x)); destruct (Z.ltb_spec (m_a x + m_size x) ahi);
    cbn [andb].
  - destruct (Z.lt_ge_cases t (m_a x)).
    + right. apply Exists_cons_tl, Exists_cons_hd. cbn. lia.
    + destruct (Z.lt_ge_cases t (m_a x + m_size x)); [left; lia|].
      right. apply Exists_cons_hd. cbn. lia.
  - destruct (Z.lt_ge_cases t (m_a x)); [|left; lia].
    right. apply Exists_cons_hd. cbn. lia.
  - destruct (Z.lt_ge_cases t (m_a x + m_size x)); [left; lia|].
    right. apply Exists_cons_hd. cbn. lia.
  - left. lia.
Qed.

(** When the blocks found add up to all of the regions of the queue, in
    [a] and in [b], an index of a region that pairs every index with
    itself ends up in such a block. *)
Lemma blocks_loop_full (fuel : nat) (a b : str) (b2j : b2j_t) (t : Z)
  (queue : list region) (acc r : list Match) :
  Forall region_ok queue ->
  blocks_loop fuel a b b2j queue acc = Some r ->
  total r = total acc + room_a queue ->
  total r = total acc + room_b queue ->
  Exists (in_diagonal_block t) acc \/ Exists (in_diagonal_region t) queue ->
  Exists (in_diagonal_block t) r.
Proof.
  revert queue acc. induction fuel as [|f IH]; intros queue acc Hq Hr Ta Tb Hc.
  - destruct queue as [|[[[alo ahi] blo] bhi] queue]; cbn in Hr; [|discriminate].
    injection Hr as <-. destruct Hc as [Hc|Hc]; [exact Hc|inversion Hc].
  - destruct queue as [|[[[alo ahi] blo] bhi] queue].
    + cbn in Hr. injection Hr as <-. destruct Hc as [Hc|Hc]; [exact Hc|inversion Hc].
    + inversion Hq as [|? ? Hr0 Hq']; subst. destruct Hr0 as [Hr1 Hr2].
      rewrite blocks_loop_step in Hr. cbv zeta in Hr.
      pose proof (find_longest_match_inside a b b2j Hr1 Hr2) as Hin.
      rewrite room_a_cons in Ta. rewrite room_b_cons in Tb.
      cbn [width_a width_b] in Ta, Tb.
      destruct (Z.eqb_spec (m_size (find_longest_match a b b2j alo ahi blo bhi)) 0)
        as [E|E].
      * destruct (blocks_loop_total _ _ _ _ _ Hq' Hr) as (_ & G2 & G3).
        apply (IH queue acc); auto; try lia.
        destruct Hc as [Hc|Hc]; [left; exact Hc|right].
        inversion Hc as [? ? Hd|? ? Hd]; subst; [|exact Hd].
        cbn in Hd. lia.
      * destruct (next_queue_facts Hin E Hq') as (F1 & F2 & F3 & _).
        destruct (blocks_loop_total _ _ _ _ _ F1 Hr) as (_ & G2 & G3).
        pose proof (blocks_loop_total_min _ _ _ _ _ F1 Hr) as G4.
        pose proof (next_queue_min queue Hin) as M.
        pose proof (room_min_le queue) as [L1 L2].
        rewrite total_app, total_cons in G2, G3, G4.
        change (total []) with 0 in G2, G3, G4.
        apply (IH _ _ F1 Hr).
        -- rewrite total_app, total_cons. change (total []) with 0. lia.
        -- rewrite total_app, total_cons. change (total []) with 0. lia.
        -- destruct Hc as [Hc|Hc].
           ++ left. apply Exists_app. left. exact Hc.
           ++ inversion Hc as [? ? Hd|? ? Hd]; subst.
              ** destruct Hd as (-> & -> & Ht).
                 destruct Hin as (I1 & I2 & I3 & I4 & I5).
                 assert (D : m_a (find_longest_match a b b2j blo bhi blo bhi)
                             = m_b (find_longest_match a b b2j blo bhi blo bhi))
                   by lia.
                 destruct (@next_queue_diagonal t blo bhi _ queue D Ht) as [Hx|Hx].
                 --- left. apply Exists_app. right. apply Exists_cons_hd.
                     split; [exact D|exact Hx].
                 --- right. exact Hx.
              ** right. apply next_queue_keeps. exact Hd.
Qed.

Lemma calculate_ratio_one (matches length : Z) :
  length <> 0 -> (calculate_ratio matches length == 1)%Q -> 2 * matches = length.
Proof.
  intros Hl H. unfold calculate_ratio in H.
  destruct (Z.eqb_spec length 0) as [E|_]; [contradiction|].
  assert (Hn : ~ (inject_Z length == 0)%Q).
  { intros C. apply Hl. apply inject_Z_injective. exact C. }
  apply (Qmult_inj_r _ _ (inject_Z length) Hn) in H.
  unfold Qdiv in H. rewrite <- Qmult_assoc, (Qmult_comm (/ _)), Qmult_inv_r in H
    by exact Hn.
  rewrite Qmult_1_r, Qmult_1_l in H. change (2 # 1) with (inject_Z 2) in H.
  rewrite <- inject_Z_mult in H. unfold Qeq, inject_Z in H.
  cbn [Qnum Qden] in H. lia.
Qed.

Lemma ratio_one_equal (a b : str) : (ratio a b == 1)%Q -> a = b.
Proof.
  intros H. unfold ratio in H.
  pose proof (matches_bounds a b) as (B0 & B1 & B2). cbv zeta in B0, B1, B2.
  destruct (Z.eq_dec (len a + len b) 0) as [E|E].
  - unfold len in E. destruct a, b; cbn [length] in E; try lia. reflexivity.
  - apply calculate_ratio_one in H; [|exact E].
    assert (La : sum (map m_size (get_matching_blocks a b)) = len a) by lia.
    assert (Lb : len a = len b) by lia.
    clear H B0 B1 B2 E.
    fold (total (get_matching_blocks a b)) in La.
    unfold get_matching_blocks, get_matching_blocks_fuel in La.
    destruct (blocks_loop (2 * length a + 1) a b (chain_b b)
                [(0, len a, 0, len b)] []) as [r|] eqn:Hr.
    + rewrite total_app, collapse_total, sort_blocks_total, total_cons in La.
      change (total []) with 0 in La. cbn [m_size] in La.
      assert (Hq : Forall region_ok [(0, len a, 0, len b)]).
      { constructor; [|constructor]. unfold len. split; lia. }
      assert (Hok : Forall (block_ok a b) r).
      { eapply blocks_loop_ok; [apply chain_b_ok| | |exact Hr].
        - constructor; [|constructor]. unfold region_within, len. lia.
        - constructor. }
      apply nth_ext with (d := 0%N) (d' := 0%N); [unfold len in Lb; lia|].
      intros n Hn.
      assert (Hc : Exists (in_diagonal_block (Z.of_nat n)) r).
      { apply (@blocks_loop_full _ a b (chain_b b) (Z.of_nat n) _ [] r Hq Hr).
        - rewrite room_a_cons. change (room_a []) with 0. change (total []) with 0.
          cbn [width_a]. lia.
        - rewrite room_b_cons. change (room_b []) with 0. change (total []) with 0.
          cbn [width_b]. lia.
        - right. apply Exists_cons_hd. unfold in_diagonal_region, len in *. lia. }
      apply Exists_exists in Hc. destruct Hc as (m & Hm & D & Ht).
      rewrite Forall_forall in Hok.
      destruct (Hok m Hm) as (_ & _ & _ & _ & _ & Hagree).
      specialize (Hagree (Z.of_nat n - m_a m) ltac:(lia)).
      rewrite <- D in Hagree.
      replace (m_a m + (Z.of_nat n - m_a m)) with (Z.of_nat n) in Hagree by lia.
      unfold getitem in Hagree. rewrite Nat2Z.id in Hagree. exact Hagree.
    + change (total []) with 0 in La. unfold len in *.
      destruct a, b; cbn [length] in *; try lia. reflexivity.
Qed.

(** X21. Only equal texts have similarity 1: when [similarity a b] is 1,
    [a] and [b] are the same string. *)
Theorem similarity_one_equal (a b : str) : (similarity a b == 1)%Q -> a = b.
Proof.
  unfold similarity. destruct a as [|x a]; destruct b as [|y b]; intros H.
  - reflexivity.
  - apply ratio_one_equal. exact H.
  - apply ratio_one_equal. exact H.
  - apply ratio_one_equal. exact H.
Qed.

Lemma similarity_one_equal_witness :
  (similarity (of_string "memo") (of_string "memo") == 1)%Q
  /\ of_string "memo" = of_string "memo".
Proof.
  assert (H : (similarity (of_string "memo") (of_string "memo") == 1)%Q)
    by (vm_compute; reflexivity).
  split; [exact H|]. exact (@similarity_one_equal _ _ H).
Defined.

End EqualTexts.

(* ================================================================== *)
(** * A text compared with itself *)

Module SameText.
Import Py Difflib Utilities DifflibFacts MatcherFacts.

(** ** The index lists all the positions of an element, in order *)

(** The indices of [c] in [l], counted from [i]. *)
Fixpoint positions (i : Z) (c : char) (l : str) : list Z :=
  match l with
  | [] => []
  | x :: r => if N.eqb c x then i :: positions (i + 1) c r
              else positions (i + 1) c r
  end.

Fixpoint ascending (l : list Z) : Prop :=
  match l with
  | [] => True
  | x :: r => Forall (fun y => x < y) r /\ ascending r
  end.

Lemma positions_lower (i : Z) (c : char) (l : str) :
  Forall (fun j => i <= j) (positions i c l).
Proof.
  revert i. induction l as [|x r IH]; intros i; cbn [positions]; [constructor|].
  assert (H : Forall (fun j => i <= j) (positions (i + 1) c r)).
  { eapply Forall_impl; [|apply IH]. cbn. intros; lia. }
  destruct (N.eqb c x); [constructor; [lia|exact H]|exact H].
Qed.

Lemma positions_ascending (i : Z) (c : char) (l : str) :
  ascending (positions i c l).
Proof.
  revert i. induction l as [|x r IH]; intros i; cbn [positions]; [exact I|].
  destruct (N.eqb c x); [|apply IH]. cbn [ascending]. split; [|apply IH].
  eapply Forall_impl; [|apply positions_lower]. cbn. intros; lia.
Qed.

Lemma positions_In (i : Z) (l : str) (n : nat) :
  (n < length l)%nat -> In (i + Z.of_nat n) (positions i (nth n l 0%N) l).
Proof.
  revert i n. induction l as [|x r IH]; intros i n Hn; cbn [length] in Hn; [lia|].
  destruct n as [|n]; cbn [positions nth].
  - rewrite N.eqb_refl. left. lia.
  - assert (H : In (i + Z.of_nat (S n)) (positions (i + 1) (nth n r 0%N) r)).
    { replace (i + Z.of_nat (S n)) with (i + 1 + Z.of_nat n) by lia.
      apply IH. lia. }
    destruct (N.eqb (nth n r 0%N) x); [right; exact H|exact H].
Qed.

Lemma b2j_append_get (d : b2j_t) (elt : char) (i : Z) (c : char) :
  b2j_get (b2j_append d elt i) c
  = b2j_get d c ++ (if N.eqb c elt then [i] else []).
Proof.
  induction d as [|[y js] d IH]; cbn [b2j_append b2j_get].
  - destruct (N.eqb c elt); reflexivity.
  - destruct (N.eqb_spec elt y) as [->|E]; cbn [b2j_get].
    + destruct (N.eqb c y); [reflexivity|]. rewrite app_nil_r. reflexivity.
    + destruct (N.eqb_spec c y) as [->|E'].
      * destruct (N.eqb_spec y elt) as [->|_]; [congruence|].
        rewrite app_nil_r. reflexivity.
      * exact IH.
Qed.

Lemma chain_loop_get (l : str) (i : Z) (d : b2j_t) (c : char) :
  b2j_get (chain_loop l i d) c = b2j_get d c ++ positions i c l.
Proof.
  revert i d. induction l as [|x r IH]; intros i d; cbn [chain_loop positions].
  - rewrite app_nil_r. reflexivity.
  - rewrite IH, b2j_append_get, <- app_assoc.
    destruct (N.eqb c x); reflexivity.
Qed.

Lemma b2j_append_keys (d : b2j_t) (elt : char) (i : Z) :
  NoDup (map fst d) -> NoDup (map fst (b2j_append d elt i))
  /\ (forall y, In y (map fst (b2j_append d elt i)) -> y = elt \/ In y (map fst d)).
Proof.
  induction d as [|[y js] d IH]; cbn [b2j_append map fst]; intros H.
  - split; [repeat constructor; intros []|]. intros y [<-|[]]. auto.
  - inversion H as [|? ? Hy Hd]; subst.
    destruct (N.eqb_spec elt y) as [->|E]; cbn [map fst].
    + split; [exact H|]. intros z Hz. right. exact Hz.
    + destruct (IH Hd) as [I1 I2]. split.
      * constructor; [|exact I1]. intros Hin. destruct (I2 _ Hin); [congruence|tauto].
      * intros z [<-|Hz]; [right; left; reflexivity|].
        destruct (I2 _ Hz); [auto|right; right; assumption].
Qed.

Lemma chain_loop_keys (l : str) (i : Z) (d : b2j_t) :
  NoDup (map fst d) -> NoDup (map fst (chain_loop l i d)).
Proof.
  revert i d. induction l as [|x r IH]; intros i d H; cbn [chain_loop]; [exact H|].
  apply IH. apply b2j_append_keys. exact H.
Qed.

Lemma b2j_get_absent (d : b2j_t) (c : char) :
  ~ In c (map fst d) -> b2j_get d c = [].
Proof.
  induction d as [|[y js] d IH]; cbn [b2j_get map fst In]; intros H; [reflexivity|].
  destruct (N.eqb_spec c y) as [->|E]; [tauto|]. apply IH. tauto.
Qed.

Lemma b2j_get_filter (p : char * list Z -> bool) (d : b2j_t) (c : char) :
  NoDup (map fst d) ->
  b2j_get (filter p d) c = [] \/ b2j_get (filter p d) c = b2j_get d c.
Proof.
  induction d as [|[y js] d IH]; cbn [filter b2j_get map fst]; intros H; [auto|].
  inversion H as [|? ? Hy Hd]; subst. specialize (IH Hd).
  destruct (p (y, js)); cbn [b2j_get].
  - destruct (N.eqb c y); [auto|exact IH].
  - destruct (N.eqb_spec c y) as [->|E]; [|exact IH].
    left. apply b2j_get_absent. intros Hin. apply Hy.
    apply in_map_iff in Hin. destruct Hin as (e & E & He).
    apply filter_In in He. rewrite <- E. apply in_map. tauto.
Qed.

(** The list of an element of the index is empty (the element is popular)
    or holds all its positions. *)
Lemma chain_b_get (b : str) (c : char) :
  b2j_get (chain_b b) c = [] \/ b2j_get (chain_b b) c = positions 0 c b.
Proof.
  assert (G : b2j_get (chain_loop b 0 []) c = positions 0 c b)
    by (rewrite chain_loop_get; reflexivity).
  unfold chain_b. destruct (200 <=? len b); [|right; exact G].
  rewrite <- G. apply b2j_get_filter. apply chain_loop_keys. constructor.
Qed.

(** ** The longest match of a region of a string with itself *)

Section Diagonal.

Variable s : str.
Variable b2j : b2j_t.
Variables lo hi : Z.

Hypothesis lo_ok : 0 <= lo.
Hypothesis hi_ok : hi <= len s.
Hypothesis b2j_sound :
  forall c j, In j (b2j_get b2j c) -> 0 <= j < len s /\ getitem s j = c.
Hypothesis b2j_full :
  forall i, 0 <= i < len s ->
    b2j_get b2j (getitem s i) = []
    \/ (ascending (b2j_get b2j (getitem s i))
        /\ In i (b2j_get b2j (getitem s i))).

Definition indexed (c : char) : bool :=
  match b2j_get b2j c with
  | [] => false
  | _ :: _ => true
  end.

(** The cell [(i, j)] of the table continues a run. *)
Definition hit (i j : Z) : bool :=
  ((lo <=? i) && (lo <=? j) && (j <? hi)
   && N.eqb (getitem s i) (getitem s j) && indexed (getitem s i))%bool.

Fixpoint run (n : nat) (i j : Z) : Z :=
  match n with
  | O => 0
  | S n' => if hit i j then run n' (i - 1) (j - 1) + 1 else 0
  end.

(** The length of the run of indexed matches that ends at [(i, j)]. *)
Definition run_at (i j : Z) : Z := run (Z.to_nat (i - lo + 1)) i j.

Lemma hit_lo (i j : Z) : hit i j = true -> lo <= i.
Proof.
  unfold hit. intros H. repeat (apply andb_true_iff in H; destruct H as [H ?]).
  apply Z.leb_le in H. exact H.
Qed.

Lemma run_at_step (i j : Z) :
  run_at i j = if hit i j then run_at (i - 1) (j - 1) + 1 else 0.
Proof.
  unfold run_at. destruct (hit i j) eqn:E.
  - pose proof (hit_lo _ _ E) as L.
    replace (Z.to_nat (i - lo + 1)) with (S (Z.to_nat (i - 1 - lo + 1))) by lia.
    cbn [run]. rewrite E. reflexivity.
  - destruct (Z.to_nat (i - lo + 1)); cbn [run]; [reflexivity|].
    rewrite E. reflexivity.
Qed.

Lemma hit_spec (i j : Z) :
  hit i j = true
  <-> lo <= i /\ lo <= j /\ j < hi /\ getitem s i = getitem s j
      /\ indexed (getitem s i) = true.
Proof.
  unfold hit. rewrite !andb_true_iff, !Z.leb_le, Z.ltb_lt, N.eqb_eq. tauto.
Qed.

Lemma run_nonneg (n : nat) (i j : Z) : 0 <= run n i j.
Proof.
  revert i j. induction n as [|n IH]; intros i j; cbn [run]; [lia|].
  destruct (hit i j); [|lia]. specialize (IH (i - 1) (j - 1)). lia.
Qed.

Lemma run_le_row (n : nat) (i j : Z) : i < hi -> run n i j <= run n i i.
Proof.
  revert i j. induction n as [|n IH]; intros i j Hi; cbn [run]; [lia|].
  destruct (hit i j) eqn:E.
  - assert (E' : hit i i = true).
    { apply hit_spec in E. apply hit_spec. tauto. }
    rewrite E'. specialize (IH (i - 1) (j - 1)). lia.
  - pose proof (run_nonneg n (i - 1) (i - 1)). destruct (hit i i); lia.
Qed.

Lemma run_at_nonneg (i j : Z) : 0 <= run_at i j.
Proof. apply run_nonneg. Qed.

Lemma run_at_row (i j : Z) : i < hi -> run_at i j <= run_at i i.
Proof. apply run_le_row. Qed.

Lemma run_le_col (n : nat) (i j : Z) : run n i j <= run_at j j.
Proof.
  revert i j. induction n as [|n IH]; intros i j; cbn [run]; [apply run_at_nonneg|].
  destruct (hit i j) eqn:E; [|apply run_at_nonneg].
  assert (E' : hit j j = true).
  { apply hit_spec in E. apply hit_spec.
    destruct E as (E1 & E2 & E3 & E4 & E5). rewrite <- E4. tauto. }
  rewrite (run_at_step j j), E'. specialize (IH (i - 1) (j - 1)). lia.
Qed.

Lemma run_at_col (i j : Z) : run_at i j <= run_at j j.
Proof. apply run_le_col. Qed.

Lemma j2len_get_In (d : j2len_t) (j : Z) :
  j2len_get d j = 0 \/ In (j, j2len_get d j) d.
Proof.
  induction d as [|[j' k] d IH]; cbn [j2len_get]; [auto|].
  destruct (Z.eqb_spec j j') as [->|E]; [right; left; reflexivity|].
  destruct IH; [auto|right; right; assumption].
Qed.

Lemma j2len_get_key (d : j2len_t) (j : Z) :
  In j (map fst d) -> In (j, j2len_get d j) d.
Proof.
  induction d as [|[j' k] d IH]; cbn [j2len_get map fst In]; [intros []|].
  destruct (Z.eqb_spec j j') as [->|E]; [auto|].
  intros [H|H]; [congruence|right; apply IH; exact H].
Qed.

(** *** One row of the table *)

Section Row.

Variable i : Z.
Variable d : j2len_t.

Hypothesis i_ok : lo <= i < hi.
Hypothesis d_upper : forall j, 0 <= j2len_get d j <= run_at (i - 1) j.
Hypothesis d_diagonal : j2len_get d (i - 1) = run_at (i - 1) (i - 1).

(** An entry of the new row. *)
Definition entry_ok (e : Z * Z) : Prop :=
  lo <= fst e < hi /\ In (fst e) (b2j_get b2j (getitem s i))
  /\ snd e = j2len_get d (fst e - 1) + 1.

Lemma hit_row (j : Z) :
  lo <= j < hi -> In j (b2j_get b2j (getitem s i)) -> hit i j = true.
Proof.
  intros Hj Hin. apply hit_spec. destruct (b2j_sound _ _ Hin) as [_ E].
  repeat split; try lia; try congruence.
  unfold indexed. destruct (b2j_get b2j (getitem s i)); [destruct Hin|reflexivity].
Qed.

Lemma entry_bound (j : Z) :
  lo <= j < hi -> In j (b2j_get b2j (getitem s i)) ->
  j2len_get d (j - 1) + 1 <= run_at i j.
Proof.
  intros Hj Hin. rewrite run_at_step, (hit_row Hj Hin).
  specialize (d_upper (j - 1)). lia.
Qed.

Lemma entry_diagonal :
  In i (b2j_get b2j (getitem s i)) -> j2len_get d (i - 1) + 1 = run_at i i.
Proof.
  intros Hin. rewrite run_at_step, (hit_row i_ok Hin). lia.
Qed.

Lemma row_loop_diag (rest : list Z) (new : j2len_t) (best : Match) :
  ascending rest ->
  (forall j, In j rest -> In j (b2j_get b2j (getitem s i))) ->
  Forall entry_ok new ->
  m_a best = m_b best -> 0 <= m_size best ->
  (forall q, lo <= q < i -> run_at q q <= m_size best) ->
  (In i rest \/ run_at i i <= m_size best) ->
  (In i rest \/ In i (map fst new) \/ b2j_get b2j (getitem s i) = []) ->
  let res := row_loop rest i lo hi d new best in
  Forall entry_ok (fst res)
  /\ m_a (snd res) = m_b (snd res) /\ 0 <= m_size (snd res)
  /\ (forall q, lo <= q < i + 1 -> run_at q q <= m_size (snd res))
  /\ (In i (map fst (fst res)) \/ b2j_get b2j (getitem s i) = []).
Proof.
  revert new best.
  induction rest as [|j r IH]; intros new best Hasc Hsub Hnew C S0 D Hi Hk;
    cbn [row_loop].
  - cbv zeta. cbn [fst snd].
    destruct Hi as [[]|Hi]. destruct Hk as [[]|Hk].
    repeat split; auto. intros q Hq.
    destruct (Z.eq_dec q i) as [->|E]; [exact Hi|apply D; lia].
  - destruct Hasc as [Hj Hasc]. rewrite Forall_forall in Hj.
    assert (Hsub' : forall j', In j' r -> In j' (b2j_get b2j (getitem s i)))
      by (intros j' Hj'; apply Hsub; right; exact Hj').
    destruct (Z.ltb_spec j lo) as [Hlo|Hlo].
    { apply IH; auto.
      - destruct Hi as [[E|Hi]|Hi]; [lia|auto|auto].
      - destruct Hk as [[E|Hk]|Hk]; [lia|auto|auto]. }
    destruct (Z.leb_spec hi j) as [Hhi|Hhi].
    { cbv zeta. cbn [fst snd].
      assert (Hni : ~ In i (j :: r)).
      { intros [E|Hin]; [lia|]. specialize (Hj _ Hin). lia. }
      destruct Hi as [Hi|Hi]; [contradiction|].
      destruct Hk as [Hk|Hk]; [contradiction|].
      repeat split; auto. intros q Hq.
      destruct (Z.eq_dec q i) as [->|E]; [exact Hi|apply D; lia]. }
    assert (Hin : In j (b2j_get b2j (getitem s i))) by (apply Hsub; left; reflexivity).
    pose proof (@entry_bound j (conj Hlo Hhi) Hin) as Hb.
    pose proof (d_upper (j - 1)) as Hd.
    apply IH; auto.
    + constructor; [|exact Hnew]. unfold entry_ok. cbn [fst snd]. auto.
    + destruct (Z.ltb_spec (m_size best) (j2len_get d (j - 1) + 1)) as [Hlt|Hge];
        [|exact C].
      cbn [m_a m_b]. destruct (Z.lt_trichotomy j i) as [Hji|[->|Hji]].
      * pose proof (run_at_col i j). specialize (D j ltac:(lia)). lia.
      * reflexivity.
      * assert (Hni : ~ In i (j :: r)).
        { intros [E|Hin']; [lia|]. specialize (Hj _ Hin'). lia. }
        destruct Hi as [Hi|Hi]; [contradiction|].
        pose proof (@run_at_row i j ltac:(lia)). lia.
    + destruct (Z.ltb_spec (m_size best) (j2len_get d (j - 1) + 1)); cbn [m_size]; lia.
    + intros q Hq. specialize (D q Hq).
      destruct (Z.ltb_spec (m_size best) (j2len_get d (j - 1) + 1)); cbn [m_size]; lia.
    + destruct (Z.eq_dec j i) as [->|E].
      * right. rewrite <- (entry_diagonal Hin).
        destruct (Z.ltb_spec (m_size best) (j2len_get d (i - 1) + 1)); cbn [m_size]; lia.
      * destruct Hi as [[E'|Hi]|Hi]; [contradiction|left; exact Hi|right].
        destruct (Z.ltb_spec (m_size best) (j2len_get d (j - 1) + 1)); cbn [m_size]; lia.
    + destruct (Z.eq_dec j i) as [->|E].
      * right. left. cbn [map fst]. left. reflexivity.
      * destruct Hk as [[E'|Hk]|[Hk|Hk]]; [contradiction|auto| |auto].
        right. left. cbn [map fst]. right. exact Hk.
Qed.

(** What the next row finds in the lengths recorded by this one. *)
Lemma row_next (new : j2len_t) :
  Forall entry_ok new ->
  In i (map fst new) \/ b2j_get b2j (getitem s i) = [] ->
  (forall j, 0 <= j2len_get new j <= run_at i j)
  /\ j2len_get new i = run_at i i.
Proof.
  intros Hnew Hk. rewrite Forall_forall in Hnew. split.
  - intros j. destruct (j2len_get_In new j) as [->|Hin].
    + pose proof (run_at_nonneg i j). lia.
    + destruct (Hnew _ Hin) as (H1 & H2 & H3). cbn [fst snd] in *.
      pose proof (entry_bound H1 H2). pose proof (d_upper (j - 1)). lia.
  - destruct Hk as [Hk|Hk].
    + apply j2len_get_key in Hk. destruct (Hnew _ Hk) as (H1 & H2 & H3).
      cbn [fst snd] in *. rewrite H3. apply entry_diagonal. exact H2.
    + assert (E : new = []).
      { destruct new as [|e new]; [reflexivity|].
        destruct (Hnew e (or_introl eq_refl)) as (_ & H2 & _).
        rewrite Hk in H2. destruct H2. }
      rewrite E. cbn [j2len_get]. rewrite run_at_step.
      destruct (hit i i) eqn:H; [|reflexivity].
      apply hit_spec in H. destruct H as (_ & _ & _ & _ & H).
      unfold indexed in H. rewrite Hk in H. discriminate.
Qed.

End Row.

Lemma rows_diag (n : nat) (i : Z) (d : j2len_t) (best : Match) :
  lo <= i -> i + Z.of_nat n <= hi ->
  (forall j, 0 <= j2len_get d j <= run_at (i - 1) j) ->
  j2len_get d (i - 1) = run_at (i - 1) (i - 1) ->
  m_a best = m_b best -> 0 <= m_size best ->
  (forall q, lo <= q < i -> run_at q q <= m_size best) ->
  m_a (rows n s b2j i lo hi d best) = m_b (rows n s b2j i lo hi d best).
Proof.
  revert i d best. induction n as [|n IH]; intros i d best Hlo Hhi A B C S0 D;
    cbn [rows]; [exact C|].
  assert (Hi : lo <= i < hi) by lia.
  assert (Hfull : ascending (b2j_get b2j (getitem s i))
                  /\ (In i (b2j_get b2j (getitem s i))
                      \/ b2j_get b2j (getitem s i) = [])).
  { destruct (b2j_full (i := i) ltac:(lia)) as [E|[E1 E2]].
    - rewrite E. split; [exact I|auto].
    - auto. }
  destruct Hfull as [F1 F2].
  assert (Hzero : b2j_get b2j (getitem s i) = [] -> run_at i i <= m_size best).
  { intros E. rewrite run_at_step. destruct (hit i i) eqn:H; [|exact S0].
    apply hit_spec in H. destruct H as (_ & _ & _ & _ & H).
    unfold indexed in H. rewrite E in H. discriminate. }
  pose proof (@row_loop_diag i d Hi A B (b2j_get b2j (getitem s i)) [] best
                F1 (fun j H => H) (Forall_nil _) C S0 D
                ltac:(destruct F2; auto) ltac:(destruct F2; auto)) as R.
  cbv zeta in R.
  destruct (row_loop (b2j_get b2j (getitem s i)) i lo hi d [] best)
    as [new best'].
  cbn [fst snd] in R. destruct R as (R1 & R2 & R3 & R4 & R5).
  destruct (@row_next i d Hi A B new R1 R5) as [N1 N2].
  apply IH; try lia; auto.
  - intros j. replace (i + 1 - 1) with i by lia. apply N1.
  - replace (i + 1 - 1) with i by lia. exact N2.
Qed.

End Diagonal.

(** ** The whole of a region is its longest match *)

Lemma extend_left_same (P : char -> bool) (s : str) (lo : Z) (fuel : nat)
  (m : Match) :
  (forall c, P c = true) ->
  m_a m = m_b m -> lo <= m_a m -> fuel = Z.to_nat (m_a m - lo) ->
  extend_left fuel P s s lo lo m = mkMatch lo lo (m_size m + (m_a m - lo)).
Proof.
  intros HP. revert m.
  induction fuel as [|f IH]; intros [i j k]; cbn [m_a m_b m_size];
    intros <- Hlo Hf; cbn [extend_left m_a m_b m_size].
  - f_equal; lia.
  - destruct (Z.ltb_spec lo i); [|lia]. cbn [andb].
    rewrite HP, N.eqb_refl. cbn [andb].
    rewrite IH; cbn [m_a m_b m_size]; try lia; try reflexivity.
    f_equal. lia.
Qed.

Lemma extend_right_same (P : char -> bool) (s : str) (hi : Z) (fuel : nat)
  (m : Match) :
  (forall c, P c = true) ->
  m_a m = m_b m -> m_a m + m_size m <= hi ->
  fuel = Z.to_nat (hi - (m_a m + m_size m)) ->
  extend_right fuel P s s hi hi m = mkMatch (m_a m) (m_a m) (hi - m_a m).
Proof.
  intros HP. revert m.
  induction fuel as [|f IH]; intros [i j k]; cbn [m_a m_b m_size];
    intros <- Hhi Hf; cbn [extend_right m_a m_b m_size].
  - f_equal; lia.
  - destruct (Z.ltb_spec (i + k) hi); [|lia]. cbn [andb].
    rewrite HP, N.eqb_refl. cbn [andb].
    rewrite IH; cbn [m_a m_b m_size]; try lia; reflexivity.
Qed.

Lemma extend_left_junk (fuel : nat) (a b : str) (alo blo : Z) (m : Match) :
  extend_left fuel isbjunk a b alo blo m = m.
Proof.
  destruct fuel; cbn [extend_left isbjunk]; [reflexivity|].
  rewrite andb_false_r. reflexivity.
Qed.

Lemma extend_right_junk (fuel : nat) (a b : str) (ahi bhi : Z) (m : Match) :
  extend_right fuel isbjunk a b ahi bhi m = m.
Proof.
  destruct fuel; cbn [extend_right isbjunk]; [reflexivity|].
  rewrite andb_false_r. reflexivity.
Qed.

Lemma chain_b_full (s : str) (i : Z) :
  0 <= i < len s ->
  b2j_get (chain_b s) (getitem s i) = []
  \/ (ascending (b2j_get (chain_b s) (getitem s i))
      /\ In i (b2j_get (chain_b s) (getitem s i))).
Proof.
  intros Hi. destruct (chain_b_get s (getitem s i)) as [E|E]; [auto|right].
  rewrite E. split; [apply positions_ascending|].
  unfold getitem.
  pose proof (@positions_In 0 s (Z.to_nat i) ltac:(unfold len in Hi; lia)) as H.
  replace (0 + Z.of_nat (Z.to_nat i)) with i in H by lia. exact H.
Qed.

Lemma find_longest_match_same (s : str) (lo hi : Z) :
  0 <= lo -> lo <= hi -> hi <= len s ->
  find_longest_match s s (chain_b s) lo hi lo hi = mkMatch lo lo (hi - lo).
Proof.
  intros Hlo Hlh Hhi. unfold find_longest_match.
  set (best := rows (Z.to_nat (hi - lo)) s (chain_b s) lo lo hi [] (mkMatch lo lo 0)).
  assert (Hin : inside lo lo hi hi best).
  { replace hi with (lo + Z.of_nat (Z.to_nat (hi - lo))) at 2 by lia.
    apply rows_inside.
    - lia.
    - apply lengths_ok_nil. lia.
    - unfold inside. cbn [m_a m_b m_size]. lia. }
  assert (Hd : m_a best = m_b best).
  { apply (@rows_diag s (chain_b s) lo hi Hlo Hhi
             (fun c j Hj => b2j_get_ok _ _ (chain_b_ok s) Hj)
             (@chain_b_full s));
      cbn [m_a m_b m_size j2len_get]; try lia.
    - intros j. split; [lia|apply run_at_nonneg].
    - rewrite run_at_step.
      destruct (hit s (chain_b s) lo hi (lo - 1) (lo - 1)) eqn:H; [|reflexivity].
      apply hit_lo in H. lia. }
  destruct Hin as (I1 & I2 & I3 & I4 & I5).
  assert (E1 : extend_left (Z.to_nat (m_a best - lo)) (fun c => negb (isbjunk c))
                 s s lo lo best
               = mkMatch lo lo (m_size best + (m_a best - lo))).
  { apply extend_left_same; auto. }
  rewrite E1. cbn [m_a m_b m_size].
  assert (E2 : extend_right (Z.to_nat (hi - (lo + (m_size best + (m_a best - lo)))))
                 (fun c => negb (isbjunk c)) s s hi hi
                 (mkMatch lo lo (m_size best + (m_a best - lo)))
               = mkMatch lo lo (hi - lo)).
  { apply extend_right_same; cbn [m_a m_b m_size]; auto. lia. }
  rewrite E2. cbn [m_a m_b m_size].
  rewrite extend_left_junk, extend_right_junk. reflexivity.
Qed.

Lemma ratio_same (s : str) : (ratio s s == 1)%Q.
Proof.
  destruct s as [|c s]; [reflexivity|].
  set (t := c :: s).
  assert (Hn : 0 < len t) by (unfold len, t; cbn [length]; lia).
  assert (Hb : get_matching_blocks t t
               = collapse [mkMatch 0 0 (len t)] (mkMatch 0 0 0) []
                 ++ [mkMatch (len t) (len t) 0]).
  { unfold get_matching_blocks, get_matching_blocks_fuel.
    replace (2 * length t + 1)%nat with (S (2 * length t)) by lia.
    rewrite blocks_loop_step. cbv zeta.
    rewrite find_longest_match_same by lia.
    replace (len t - 0) with (len t) by lia. cbn [m_size].
    destruct (Z.eqb_spec (len t) 0); [lia|].
    unfold next_queue. cbn [m_a m_b m_size].
    destruct (Z.ltb_spec 0 0); [lia|]. cbn [andb].
    destruct (Z.ltb_spec (0 + len t) (len t)); [lia|]. cbn [andb].
    destruct (2 * length t)%nat; reflexivity. }
  unfold ratio. rewrite Hb. fold (total (collapse [mkMatch 0 0 (len t)] (mkMatch 0 0 0) []
                 ++ [mkMatch (len t) (len t) 0])).
  rewrite total_app, collapse_total, !total_cons. change (total []) with 0.
  cbn [m_size]. unfold calculate_ratio.
  destruct (Z.eqb_spec (len t + len t) 0); [reflexivity|].
  replace (0 + 0 + (len t + 0) + (0 + 0)) with (len t) by lia.
  rewrite inject_Z_plus. field. intros C.
  assert (E : (inject_Z (len t) == 0)%Q) by lra.
  unfold Qeq, inject_Z in E. cbn [Qnum Qden] in E. lia.
Qed.

(** X22. Every text has similarity 1 with itself, whatever characters are
    popular enough to leave the matcher's index. *)
Theorem similarity_reflexive (a : str) : (similarity a a == 1)%Q.
Proof.
  unfold similarity. destruct a as [|c a]; [reflexivity|apply ratio_same].
Qed.

End SameText.

(* ================================================================== *)
(** * Every name of a text is resolved or clustered *)

Module EntitiesFacts.
Import Py Utilities ExtractPDFdata ClusterFacts NamesFacts Entities.

Section Index.

Variable people_index : list person.

Definition canonical (name : str) : resolution :=
  canonicalize_person name people_index threshold_085.

Definition resolves (name : str) : bool := truthy (r_id (canonical name)).

Lemma resolve_fold (names : list str) (st : list resolution * list str) :
  fold_left (resolve_step people_index) names st
  = (fst st ++ map canonical (filter resolves names),
     snd st ++ map normalize_text
                 (filter (fun name => negb (resolves name)) names)).
Proof.
  revert st. induction names as [|name names IH]; intros [rs us];
    cbn [fold_left filter map fst snd].
  - rewrite !app_nil_r. reflexivity.
  - rewrite IH. unfold resolve_step. fold (canonical name). fold (resolves name).
    destruct (resolves name); cbn [negb fst snd map];
      rewrite <- app_assoc; reflexivity.
Qed.

End Index.

(** X23. [extract_entities_from_text] accounts for every name of
    [combined_people] once and never raises on them: the resolved people
    are the results of [canonicalize_person] for the names that resolve
    to an id that is not empty, in the order of the names; all other names
    are normalised and clustered, each in exactly one cluster, and no
    cluster is empty; so the number of resolved people and of clustered
    names add up to the number of names. *)
Theorem extract_entities_people (combined_people : list str)
  (people_index : list person) :
  exists e,
    resolve_people combined_people people_index = Ok e
    /\ resolved e
       = map (canonical people_index)
             (filter (resolves people_index) combined_people)
    /\ Forall (fun r => exists c i, r_id r = Some (c :: i)) (resolved e)
    /\ Permutation (concat (unresolved_clusters e))
         (map normalize_text
            (filter (fun name => negb (resolves people_index name))
                    combined_people))
    /\ Forall (fun c => c <> []) (unresolved_clusters e)
    /\ (length (resolved e) + length (concat (unresolved_clusters e))
        = length combined_people)%nat.
Proof.
  unfold resolve_people. rewrite resolve_fold. cbn [fst snd app].
  set (rest := map normalize_text _).
  destruct (cluster_people_clustered rest) as (clusters & H1 & H2 & H3).
  destruct (clustered_facts H2) as [P _].
  rewrite H1. cbn [bind]. eexists. split; [reflexivity|].
  cbn [resolved unresolved_clusters].
  split; [reflexivity|]. split; [|split; [exact P|split; [exact H3|]]].
  - apply Forall_forall. intros r Hr. apply in_map_iff in Hr.
    destruct Hr as (name & <- & Hn). apply filter_In in Hn. destruct Hn as [_ Hn].
    unfold resolves, truthy in Hn. fold (canonical people_index name).
    destruct (r_id (canonical people_index name)) as [[|c i]|]; try discriminate.
    eauto.
  - rewrite (Permutation_length P). unfold rest. rewrite !length_map.
    apply filter_length.
Qed.

End EntitiesFacts.

(* ================================================================== *)
(** * Properties of titles *)

Module TitlesFacts.
Import Py Titles.

Lemma split_sep_aux_nonempty (sep : char) (s cur : str) :
  split_sep_aux sep cur s <> [].
Proof.
  revert cur. induction s as [|c r IH]; intros cur; cbn [split_sep_aux];
    [discriminate|]. destruct (N.eqb c sep); [discriminate|apply IH].
Qed.

Lemma last_cons_nonempty {A : Type} (x d : A) (l : list A) :
  l <> [] -> last (x :: l) d = last l d.
Proof. destruct l; [congruence|reflexivity]. Qed.

Lemma last_split_clean (sep : char) (s cur : str) :
  ~ In sep cur -> ~ In sep (last_item (split_sep_aux sep cur s)).
Proof.
  unfold last_item. revert cur.
  induction s as [|c r IH]; intros cur H; cbn [split_sep_aux]; [exact H|].
  destruct (N.eqb_spec c sep) as [->|E].
  - rewrite last_cons_nonempty by apply split_sep_aux_nonempty.
    apply IH. intros [].
  - apply IH. intros Hin. apply in_app_or in Hin.
    destruct Hin as [Hin|[Hin|[]]]; [tauto|congruence].
Qed.

Lemma last_split_after (sep : char) (dir rest cur : str) :
  last_item (split_sep_aux sep cur (dir ++ sep :: rest))
  = last_item (split_sep_aux sep [] rest).
Proof.
  unfold last_item. revert cur.
  induction dir as [|c r IH]; intros cur; cbn [app split_sep_aux].
  - rewrite N.eqb_refl. apply last_cons_nonempty, split_sep_aux_nonempty.
  - destruct (N.eqb c sep); [|apply IH].
    rewrite last_cons_nonempty by apply split_sep_aux_nonempty. apply IH.
Qed.

Lemma split_sep_aux_single (sep : char) (s cur : str) :
  ~ In sep s -> split_sep_aux sep cur s = [cur ++ s].
Proof.
  revert cur. induction s as [|c r IH]; intros cur H; cbn [split_sep_aux].
  - rewrite app_nil_r. reflexivity.
  - destruct (N.eqb_spec c sep) as [->|E]; [exfalso; apply H; left; reflexivity|].
    rewrite IH by (intros Hin; apply H; right; exact Hin).
    rewrite <- app_assoc. reflexivity.
Qed.

Lemma remove_aux_In (old : str) (c : char) (s : str) (skip : nat) :
  In c (remove_aux old skip s) -> In c s.
Proof.
  revert skip. induction s as [|x r IH]; intros skip; cbn [remove_aux]; [auto|].
  destruct skip as [|k].
  - destruct (starts_with old (x :: r)).
    + intros H. right. eapply IH. exact H.
    + intros [H|H]; [left; exact H|right; eapply IH; exact H].
  - intros H. right. eapply IH. exact H.
Qed.

Lemma remove_dot_pdf_stem (stem : str) :
  ~ In DOT stem -> remove dot_pdf (stem ++ dot_pdf) = stem.
Proof.
  unfold remove. induction stem as [|c r IH]; intros H; [reflexivity|].
  cbn [app remove_aux].
  assert (E : starts_with dot_pdf (c :: r ++ dot_pdf) = false).
  { cbn [starts_with dot_pdf of_string]. destruct (N.eqb_spec (N_of_ascii ".") c) as [E|E].
    - exfalso. apply H. left. rewrite <- E. reflexivity.
    - reflexivity. }
  rewrite E. f_equal. apply IH. intros Hin. apply H. right. exact Hin.
Qed.

(** X24. The title derived from a path, which is also the name of the
    folder of a document, never contains a slash; and for a path that
    ends in [/<stem>.pdf], where [stem] has neither a slash nor a dot, it
    is [stem]. *)
Theorem title_of_path (path : str) :
  ~ In SLASH (title_of path)
  /\ (forall dir stem,
        ~ In SLASH stem -> ~ In DOT stem ->
        path = dir ++ SLASH :: stem ++ dot_pdf \/ path = stem ++ dot_pdf ->
        title_of path = stem).
Proof.
  unfold title_of, split_sep. split.
  - intros H. apply remove_aux_In in H. revert H.
    apply last_split_clean. intros [].
  - intros dir stem Hs Hd Hp.
    assert (Hn : ~ In SLASH (stem ++ dot_pdf)).
    { intros Hin. apply in_app_or in Hin. destruct Hin as [Hin|Hin]; [tauto|].
      cbn in Hin. repeat (destruct Hin as [Hin|Hin]; [discriminate Hin|]).
      exact Hin. }
    assert (E : last_item (split_sep_aux SLASH [] path) = stem ++ dot_pdf).
    { destruct Hp as [->| ->].
      - rewrite last_split_after, (@split_sep_aux_single SLASH _ [] Hn). reflexivity.
      - rewrite (@split_sep_aux_single SLASH _ [] Hn). reflexivity. }
    rewrite E. apply remove_dot_pdf_stem. exact Hd.
Qed.

(** The title can still hold [.pdf]: removing one occurrence can bring
    the two halves of another together. *)
Example title_with_extension :
  title_of (of_string "files/a.p.pdfdf") = of_string "a.pdf".
Proof. reflexivity. Qed.

End TitlesFacts.

(* ================================================================== *)
(** * Properties of merging people *)

Module PeopleFacts.
Import Py People MergingFacts.

(** ** Objects *)

Lemma dict_get_set_same (k : str) (v : json) (d : dict) :
  dict_get k (dict_set k v d) = Some v.
Proof.
  induction d as [|[k' w] d IH]; cbn [dict_set dict_get].
  - destruct (str_eq_dec k k); [reflexivity|congruence].
  - destruct (str_eq_dec k k') as [E|E]; cbn [dict_get].
    + destruct (str_eq_dec k k'); [reflexivity|contradiction].
    + destruct (str_eq_dec k k'); [contradiction|exact IH].
Qed.

Lemma dict_get_set_other (k k' : str) (v : json) (d : dict) :
  k <> k' -> dict_get k (dict_set k' v d) = dict_get k d.
Proof.
  intros H. induction d as [|[k0 w] d IH]; cbn [dict_set dict_get].
  - destruct (str_eq_dec k k'); [contradiction|reflexivity].
  - destruct (str_eq_dec k' k0) as [E|E]; cbn [dict_get].
    + destruct (str_eq_dec k k0); [congruence|reflexivity].
    + destruct (str_eq_dec k k0); [reflexivity|exact IH].
Qed.

Lemma dict_set_nonempty (k : str) (v : json) (d : dict) : dict_set k v d <> [].
Proof.
  destruct d as [|[k' w] d]; cbn [dict_set]; [discriminate|].
  destruct (str_eq_dec k k'); discriminate.
Qed.

Lemma merge_dict_nonempty (ev v : dict) : ev <> [] -> merge_dict ev v <> [].
Proof.
  unfold merge_dict. revert ev. induction v as [|[k w] v IH]; intros ev H;
    cbn [fold_left fst snd]; [exact H|].
  apply IH. destruct (dict_get k ev); [exact H|apply dict_set_nonempty].
Qed.

(** ** Removing duplicates *)

(** [x] or an element equal to it is in [l]. *)
Definition covers (l : list json) (x : json) : Prop :=
  exists y, In y l /\ (y = x \/ py_eq y x = true).

Lemma dedupe_step_grows (st : list json * list json) (item : json) :
  exists more, snd (dedupe_step st item) = snd st ++ more.
Proof.
  destruct st as [s d]. unfold dedupe_step.
  destruct (hashable item).
  - destruct (existsb _ s); cbn [snd]; [exists []; rewrite app_nil_r|eexists];
      reflexivity.
  - destruct (existsb _ d); cbn [snd]; [exists []; rewrite app_nil_r|eexists];
      reflexivity.
Qed.

Lemma dedupe_fold_grows (l : list json) (st : list json * list json) :
  exists more, snd (fold_left dedupe_step l st) = snd st ++ more.
Proof.
  revert st. induction l as [|x l IH]; intros st; cbn [fold_left].
  - exists []. rewrite app_nil_r. reflexivity.
  - destruct (IH (dedupe_step st x)) as [m1 E1].
    destruct (dedupe_step_grows st x) as [m2 E2].
    exists (m2 ++ m1). rewrite E1, E2, app_assoc. reflexivity.
Qed.

(** The set holds the elements of the list that can be hashed. *)
Lemma dedupe_fold_set (l : list json) (st : list json * list json) :
  incl (fst st) (snd st) ->
  incl (fst (fold_left dedupe_step l st)) (snd (fold_left dedupe_step l st)).
Proof.
  revert st. induction l as [|x l IH]; intros [s d] H; cbn [fold_left]; [exact H|].
  apply IH. unfold dedupe_step. cbn [fst snd] in H.
  destruct (hashable x).
  - destruct (existsb _ s); cbn [fst snd]; [exact H|].
    intros y Hy. apply in_app_or in Hy. apply in_or_app.
    destruct Hy as [Hy|Hy]; [left; apply H; exact Hy|right; exact Hy].
  - destruct (existsb _ d); cbn [fst snd]; [exact H|].
    intros y Hy. apply in_or_app. left. apply H. exact Hy.
Qed.

Lemma dedupe_fold_covers (l : list json) (st : list json * list json) (x : json) :
  incl (fst st) (snd st) ->
  covers (snd st) x \/ In x l ->
  covers (snd (fold_left dedupe_step l st)) x.
Proof.
  revert st. induction l as [|z l IH]; intros [s d] Hs H; cbn [fold_left].
  - destruct H as [H|[]]. exact H.
  - assert (Hs' : incl (fst (dedupe_step (s, d) z)) (snd (dedupe_step (s, d) z))).
    { apply (@dedupe_fold_set [z] (s, d) Hs). }
    apply IH; [exact Hs'|].
    destruct (dedupe_step_grows (s, d) z) as [more E]. cbn [snd] in E.
    destruct H as [(y & Hy & Hyx)|[->|H]].
    + left. exists y. split; [|exact Hyx]. rewrite E. apply in_or_app. tauto.
    + left. unfold dedupe_step. cbn [fst snd] in Hs.
      destruct (hashable x).
      * destruct (existsb (fun e => py_eq e x) s) eqn:Ex; cbn [snd].
        -- apply existsb_exists in Ex. destruct Ex as (y & Hy & Hyx).
           exists y. split; [apply Hs; exact Hy|right; exact Hyx].
        -- exists x. split; [apply in_or_app; right; left; reflexivity|auto].
      * destruct (existsb (fun e => py_eq e x) d) eqn:Ex; cbn [snd].
        -- apply existsb_exists in Ex. destruct Ex as (y & Hy & Hyx).
           exists y. split; [exact Hy|right; exact Hyx].
        -- exists x. split; [apply in_or_app; right; left; reflexivity|auto].
    + right. exact H.
Qed.

Lemma dedupe_covers (l : list json) (x : json) : In x l -> covers (dedupe l) x.
Proof.
  intros H. unfold dedupe. apply dedupe_fold_covers; [intros y []|right; exact H].
Qed.

(** Running the loop again on its result changes nothing. *)
Lemma dedupe_replay (l : list json) :
  fold_left dedupe_step (snd (fold_left dedupe_step l ([], []))) ([], [])
  = fold_left dedupe_step l ([], []).
Proof.
  induction l as [|x l IH] using rev_ind; [reflexivity|].
  rewrite fold_left_app. cbn [fold_left].
  destruct (fold_left dedupe_step l ([], [])) as [s d] eqn:E. cbn [snd] in IH.
  unfold dedupe_step at 2 3.
  destruct (hashable x) eqn:Hx.
  - destruct (existsb (fun e => py_eq e x) s) eqn:Ex; cbn [snd]; [exact IH|].
    rewrite fold_left_app, IH. cbn [fold_left]. unfold dedupe_step.
    rewrite Hx, Ex. reflexivity.
  - destruct (existsb (fun e => py_eq e x) d) eqn:Ex; cbn [snd]; [exact IH|].
    rewrite fold_left_app, IH. cbn [fold_left]. unfold dedupe_step.
    rewrite Hx, Ex. reflexivity.
Qed.

Lemma dedupe_idempotent (l : list json) : dedupe (dedupe l) = dedupe l.
Proof. unfold dedupe. rewrite dedupe_replay. reflexivity. Qed.

Lemma dedupe_prefix (l w : list json) :
  dedupe l = l -> exists more, dedupe (l ++ w) = l ++ more.
Proof.
  intros H. unfold dedupe in *. rewrite fold_left_app.
  destruct (dedupe_fold_grows w (fold_left dedupe_step l ([], []))) as [more E].
  exists more. rewrite E, H. reflexivity.
Qed.

(** ** Ids *)

Lemma merge_item_id (existing : dict) (kv : str * json) :
  dict_get id_key (merge_item existing kv) = dict_get id_key existing.
Proof.
  destruct kv as [key value]. unfold merge_item.
  destruct (str_eq_dec key id_key) as [E|E]; [reflexivity|].
  assert (G : forall w, dict_get id_key (dict_set key w existing)
                        = dict_get id_key existing).
  { intros w. apply dict_get_set_other. congruence. }
  destruct (dict_get key existing) as [existing_val|]; [|apply G].
  destruct value, existing_val;
    try (destruct (negb _ && _)%bool; [apply G|reflexivity]); apply G.
Qed.

Lemma merge_person_id (existing person : dict) :
  person_id (merge_person existing person) = person_id existing.
Proof.
  unfold merge_person, person_id. revert existing.
  induction person as [|kv person IH]; intros existing; cbn [fold_left];
    [reflexivity|]. rewrite IH, merge_item_id. reflexivity.
Qed.

(** An entry of [seen]: the id of the object, which can be hashed. *)
Definition entry_ok (ke : json * dict) : Prop :=
  person_id (snd ke) = fst ke /\ hashable (fst ke) = true.

Definition other_id (ke1 ke2 : json * dict) : Prop :=
  py_eq (fst ke1) (fst ke2) = false.

Definition seen_ok (seen : list (json * dict)) : Prop :=
  Forall entry_ok seen /\ ForallOrdPairs other_id seen.

Lemma add_person_entries (pid : json) (person : dict) (seen : list (json * dict)) :
  (exists s1 k e s2,
      seen = s1 ++ (k, e) :: s2 /\ py_eq k pid = true
      /\ Forall (fun ke => py_eq (fst ke) pid = false) s1
      /\ add_person pid person seen = s1 ++ (k, merge_person e person) :: s2)
  \/ (Forall (fun ke => py_eq (fst ke) pid = false) seen
      /\ add_person pid person seen = seen ++ [(pid, person)]).
Proof.
  induction seen as [|[k e] seen IH]; cbn [add_person].
  - right. split; [constructor|reflexivity].
  - destruct (py_eq k pid) eqn:E.
    + left. exists [], k, e, seen. repeat split; auto.
    + destruct IH as [(s1 & k' & e' & s2 & -> & H1 & H2 & H3)|[H1 H2]].
      * left. exists ((k, e) :: s1), k', e', s2. cbn [app]. rewrite H3.
        repeat split; auto.
      * right. rewrite H2. split; [constructor; [exact E|exact H1]|reflexivity].
Qed.

Lemma ForallOrdPairs_app {A : Type} (R : A -> A -> Prop) (l1 l2 : list A) :
  ForallOrdPairs R (l1 ++ l2)
  <-> ForallOrdPairs R l1 /\ ForallOrdPairs R l2
      /\ (forall x y, In x l1 -> In y l2 -> R x y).
Proof.
  induction l1 as [|a l1 IH]; cbn [app].
  - split; [intros H; repeat split; [constructor|exact H|intros x y []]|tauto].
  - split.
    + intros H. inversion H as [|? ? Ha Hl]; subst. apply IH in Hl.
      destruct Hl as (H1 & H2 & H3). rewrite Forall_app in Ha. destruct Ha as [A1 A2].
      repeat split; [constructor; assumption|exact H2|].
      rewrite Forall_forall in A2.
      intros x y [<-|Hx] Hy; [apply A2; exact Hy|apply H3; assumption].
    + intros (H1 & H2 & H3). inversion H1 as [|? ? Ha Hl]; subst.
      constructor.
      * apply Forall_app. split; [exact Ha|]. apply Forall_forall.
        intros y Hy. apply H3; [left; reflexivity|exact Hy].
      * apply IH. repeat split; auto. intros x y Hx Hy. apply H3; [right|]; assumption.
Qed.

Lemma add_person_ok (person : dict) (seen : list (json * dict)) :
  hashable (person_id person) = true -> seen_ok seen ->
  seen_ok (add_person (person_id person) person seen).
Proof.
  intros Hh [H1 H2].
  destruct (add_person_entries (person_id person) person seen)
    as [(s1 & k & e & s2 & -> & E1 & E2 & ->)|[E1 ->]].
  - split.
    + rewrite Forall_app in *. destruct H1 as [A1 A2].
      inversion A2 as [|? ? [B1 B2] A3]; subst. cbn [fst snd] in *.
      split; [exact A1|]. constructor; [|exact A3].
      split; [cbn [fst snd]; rewrite merge_person_id; exact B1|exact B2].
    + rewrite ForallOrdPairs_app in *. destruct H2 as (P1 & P2 & P3).
      inversion P2 as [|? ? Q1 Q2]; subst.
      split; [exact P1|]. split; [constructor; assumption|].
      intros x y Hx [<-|Hy].
      * apply (P3 x (k, e) Hx). left. reflexivity.
      * apply P3; [exact Hx|right; exact Hy].
  - split.
    + apply Forall_app. split; [exact H1|]. constructor; [|constructor].
      split; [reflexivity|exact Hh].
    + apply ForallOrdPairs_app. split; [exact H2|].
      split; [constructor; [constructor|constructor]|].
      rewrite Forall_forall in E1. intros x y Hx [<-|[]]. apply E1. exact Hx.
Qed.

Lemma people_fold_raised (l : list dict) :
  fold_left people_step l (@TypeError (list (json * dict))) = TypeError.
Proof. induction l as [|p l IH]; [reflexivity|exact IH]. Qed.

(** ** Where a person goes *)

Section Homes.

(** A property of a person and the merged object it went into that holds
    when the person starts or joins the object and that later merges
    keep. *)
Variable R : dict -> dict -> Prop.
Hypothesis R_new : forall p, R p p.
Hypothesis R_merged : forall e p, R p (merge_person e p).
Hypothesis R_kept : forall p e q, R p e -> R p (merge_person e q).

Definition housed (seen : list (json * dict)) (p : dict) : Prop :=
  exists k e, In (k, e) seen /\ py_eq k (person_id p) = true /\ R p e.

Lemma add_person_housed (person : dict) (seen : list (json * dict)) (done : list dict) :
  hashable (person_id person) = true ->
  Forall (housed seen) done ->
  Forall (housed (add_person (person_id person) person seen)) (done ++ [person]).
Proof.
  intros Hh Hd.
  destruct (add_person_entries (person_id person) person seen)
    as [(s1 & k & e & s2 & -> & E1 & E2 & ->)|[E1 ->]].
  - apply Forall_app. split.
    + eapply Forall_impl; [|exact Hd]. intros p (k' & e' & Hin & Hk & Hr).
      apply in_app_or in Hin. destruct Hin as [Hin|[Hin|Hin]].
      * exists k', e'. split; [apply in_or_app; tauto|auto].
      * injection Hin as <- <-. exists k, (merge_person e person).
        split; [apply in_or_app; right; left; reflexivity|]. split; [exact Hk|].
        apply R_kept. exact Hr.
      * exists k', e'. split; [apply in_or_app; right; right; exact Hin|auto].
    + constructor; [|constructor]. exists k, (merge_person e person).
      split; [apply in_or_app; right; left; reflexivity|]. split; [exact E1|].
      apply R_merged.
  - apply Forall_app. split.
    + eapply Forall_impl; [|exact Hd]. intros p (k' & e' & Hin & Hk & Hr).
      exists k', e'. split; [apply in_or_app; tauto|auto].
    + constructor; [|constructor]. exists (person_id person), person.
      split; [apply in_or_app; right; left; reflexivity|].
      split; [apply key_refl; exact Hh|apply R_new].
Qed.

Lemma people_fold (l done : list dict) (seen : list (json * dict)) :
  seen_ok seen -> Forall (housed seen) done ->
  (length seen <= length done)%nat ->
  (forall k e, In (k, e) seen -> exists p, In p done /\ person_id p = k) ->
  match fold_left people_step l (Done seen) with
  | TypeError => exists p, In p l /\ hashable (person_id p) = false
  | Done seen' =>
      seen_ok seen' /\ Forall (housed seen') (done ++ l)
      /\ (length seen' <= length (done ++ l))%nat
      /\ (forall k e, In (k, e) seen' ->
            exists p, In p (done ++ l) /\ person_id p = k)
      /\ Forall (fun p => hashable (person_id p) = true) l
  end.
Proof.
  revert done seen. induction l as [|q l IH]; intros done seen Hs Hd Hl Hk.
  - cbn [fold_left]. rewrite app_nil_r. repeat split; auto; apply Hs.
  - cbn [fold_left people_step]. destruct (hashable (person_id q)) eqn:Hq.
    + specialize (IH (done ++ [q]) (add_person (person_id q) q seen)).
      rewrite <- app_assoc in IH. cbn [app] in IH.
      assert (G : match fold_left people_step l
                          (Done (add_person (person_id q) q seen)) with
                  | Done seen' =>
                      seen_ok seen' /\ Forall (housed seen') (done ++ q :: l)
                      /\ (length seen' <= length (done ++ q :: l))%nat
                      /\ (forall k e, In (k, e) seen' ->
                            exists p, In p (done ++ q :: l) /\ person_id p = k)
                      /\ Forall (fun p => hashable (person_id p) = true) l
                  | TypeError => exists p, In p l /\ hashable (person_id p) = false
                  end).
      { apply IH.
        - apply add_person_ok; assumption.
        - apply add_person_housed; assumption.
        - destruct (add_person_entries (person_id q) q seen)
            as [(s1 & k & e & s2 & -> & _ & _ & ->)|[_ ->]];
            rewrite !length_app in *; cbn [length] in *; lia.
        - intros k e Hin.
          destruct (add_person_entries (person_id q) q seen)
            as [(s1 & k' & e' & s2 & -> & _ & _ & E)|[_ E]]; rewrite E in Hin.
          + assert (Hin' : exists e0, In (k, e0) (s1 ++ (k', e') :: s2)).
            { apply in_app_or in Hin. destruct Hin as [Hin|[Hin|Hin]].
              - exists e. apply in_or_app. tauto.
              - injection Hin as <- _. exists e'. apply in_or_app. right. left.
                reflexivity.
              - exists e. apply in_or_app. right. right. exact Hin. }
            destruct Hin' as [e0 Hin']. destruct (Hk _ _ Hin') as (p & Hp & Ep).
            exists p. split; [apply in_or_app; tauto|exact Ep].
          + apply in_app_or in Hin. destruct Hin as [Hin|[Hin|[]]].
            * destruct (Hk _ _ Hin) as (p & Hp & Ep).
              exists p. split; [apply in_or_app; tauto|exact Ep].
            * injection Hin as <- _. exists q.
              split; [apply in_or_app; right; left; reflexivity|reflexivity]. }
      destruct (fold_left people_step l (Done (add_person (person_id q) q seen))).
      * destruct G as (G1 & G2 & G3 & G4 & G5). repeat split; auto; apply G1.
      * destruct G as (p & Hp & Ep). exists p. split; [right; exact Hp|exact Ep].
    + rewrite people_fold_raised. exists q. split; [left; reflexivity|exact Hq].
Qed.

End Homes.

(** ** Keys are never lost *)

(** Every key of [p] other than ['id'] is a key of [e]. *)
Definition has_keys (p e : dict) : Prop :=
  forall key, key <> id_key -> dict_get key p <> None -> dict_get key e <> None.

Lemma merge_item_keeps (existing : dict) (kv : str * json) (k : str) :
  dict_get k existing <> None -> dict_get k (merge_item existing kv) <> None.
Proof.
  intros H. destruct kv as [key value]. unfold merge_item.
  destruct (str_eq_dec key id_key); [exact H|].
  assert (G : forall w, dict_get k (dict_set key w existing) <> None).
  { intros w. destruct (str_eq_dec k key) as [->|E].
    - rewrite dict_get_set_same. discriminate.
    - rewrite dict_get_set_other by exact E. exact H. }
  destruct (dict_get key existing) as [existing_val|]; [|apply G].
  destruct value, existing_val;
    try (destruct (negb _ && _)%bool; [apply G|exact H]); apply G.
Qed.

Lemma merge_item_adds (existing : dict) (key : str) (value : json) :
  key <> id_key -> dict_get key (merge_item existing (key, value)) <> None.
Proof.
  intros H. unfold merge_item.
  destruct (str_eq_dec key id_key); [contradiction|].
  assert (G : forall w, dict_get key (dict_set key w existing) <> None).
  { intros w. rewrite dict_get_set_same. discriminate. }
  destruct (dict_get key existing) as [existing_val|] eqn:E; [|apply G].
  destruct value, existing_val;
    try (destruct (negb _ && _)%bool; [apply G|rewrite E; discriminate]); apply G.
Qed.

Lemma merge_person_keeps (person existing : dict) (k : str) :
  dict_get k existing <> None -> dict_get k (merge_person existing person) <> None.
Proof.
  unfold merge_person. revert existing.
  induction person as [|kv person IH]; intros existing H; cbn [fold_left];
    [exact H|]. apply IH, merge_item_keeps, H.
Qed.

Lemma merge_person_has_keys (person existing : dict) :
  has_keys person (merge_person existing person).
Proof.
  unfold has_keys, merge_person. revert existing.
  induction person as [|[k0 v0] person IH]; intros existing key Hk H;
    cbn [fold_left dict_get] in *; [congruence|].
  destruct (str_eq_dec key k0) as [->|E].
  - apply (@merge_person_keeps person), merge_item_adds, Hk.
  - apply IH; assumption.
Qed.

Lemma map_snd_distinct (seen : list (json * dict)) :
  seen_ok seen ->
  ForallOrdPairs (fun r1 r2 => py_eq (person_id r1) (person_id r2) = false)
                 (map snd seen).
Proof.
  intros [H1 H2]. induction H2 as [|ke seen Hke H2 IH]; cbn [map]; [constructor|].
  inversion H1 as [|? ? [E1 _] H1']; subst. constructor; [|apply IH; exact H1'].
  apply Forall_map. rewrite Forall_forall in *. intros ke' Hin.
  destruct (H1' _ Hin) as [E2 _]. rewrite E1, E2. apply Hke. exact Hin.
Qed.

(** X25. [merge_people] raises [TypeError] exactly when the id of some
    person is a list or an object. Otherwise the ids of the merged people
    are pairwise different, each is the id of a person of the input, there
    are at most as many merged people as people, and every person has a
    merged person of the same id that has all its keys. Only the key
    ['id'] can be missing: a person whose id is [null] merged into one
    without the key. *)
Theorem merge_people_ids (people_list : list dict) :
  (merge_people people_list = TypeError
   <-> exists p, In p people_list /\ hashable (person_id p) = false)
  /\ (forall out, merge_people people_list = Done out ->
        ForallOrdPairs
          (fun r1 r2 => py_eq (person_id r1) (person_id r2) = false) out
        /\ (length out <= length people_list)%nat
        /\ (forall r, In r out ->
              exists p, In p people_list /\ person_id p = person_id r)
        /\ (forall p, In p people_list ->
              exists r, In r out
                /\ py_eq (person_id r) (person_id p) = true
                /\ has_keys p r)).
Proof.
  pose proof (@people_fold has_keys (fun p key _ H => H) (fun e p => merge_person_has_keys p e)
                (fun p e q H key Hk Hp => @merge_person_keeps q e key (H key Hk Hp))
                people_list [] []
                (conj (Forall_nil _) (FOP_nil _)) (Forall_nil _) (le_n _)
                (fun k e H => match H with end)) as F.
  unfold merge_people.
  destruct (fold_left people_step people_list (Done [])) as [seen|].
  - destruct F as (F1 & F2 & F3 & F4 & F5). cbn [app] in *. split.
    + split; [discriminate|]. intros (p & Hp & E).
      rewrite Forall_forall in F5. rewrite (F5 p Hp) in E. discriminate.
    + intros out E. injection E as <-.
      split; [apply map_snd_distinct; exact F1|].
      split; [rewrite length_map; exact F3|]. split.
      * intros r Hr. apply in_map_iff in Hr. destruct Hr as ([k e] & <- & Hin).
        destruct (F4 _ _ Hin) as (p & Hp & Ep). exists p. split; [exact Hp|].
        destruct F1 as [F1 _]. rewrite Forall_forall in F1.
        destruct (F1 _ Hin) as [E1 _]. cbn [fst snd] in *. congruence.
      * intros p Hp. rewrite Forall_forall in F2.
        destruct (F2 p Hp) as (k & e & Hin & Hk & Hr). exists e.
        split; [apply in_map_iff; exists (k, e); auto|].
        destruct F1 as [F1 _]. rewrite Forall_forall in F1.
        destruct (F1 _ Hin) as [E1 _]. cbn [fst snd] in *. rewrite E1. auto.
  - split; [|discriminate]. split; [intros _; exact F|reflexivity].
Qed.

Lemma add_person_fresh (pid : json) (person : dict) (seen : list (json * dict)) :
  Forall (fun ke => py_eq (fst ke) pid = false) seen ->
  add_person pid person seen = seen ++ [(pid, person)].
Proof.
  induction 1 as [|[k e] seen Hk _ IH]; cbn [add_person app]; [reflexivity|].
  cbn [fst] in Hk. rewrite Hk, IH. reflexivity.
Qed.

Lemma people_fold_distinct (l : list dict) (seen : list (json * dict)) :
  Forall (fun p => hashable (person_id p) = true) l ->
  ForallOrdPairs (fun p q => py_eq (person_id p) (person_id q) = false) l ->
  (forall ke p, In ke seen -> In p l -> py_eq (fst ke) (person_id p) = false) ->
  fold_left people_step l (Done seen)
  = Done (seen ++ map (fun p => (person_id p, p)) l).
Proof.
  revert seen. induction l as [|p l IH]; intros seen Hh Hd Hs; cbn [fold_left map].
  - rewrite app_nil_r. reflexivity.
  - inversion Hh as [|? ? Hp Hh']; subst. inversion Hd as [|? ? Hpl Hd']; subst.
    cbn [people_step]. rewrite Hp, add_person_fresh.
    + rewrite IH; [rewrite <- app_assoc; reflexivity|exact Hh'|exact Hd'|].
      rewrite Forall_forall in Hpl. intros ke q Hin Hq.
      apply in_app_or in Hin. destruct Hin as [Hin|[<-|[]]].
      * apply Hs; [exact Hin|right; exact Hq].
      * apply Hpl. exact Hq.
    + apply Forall_forall. intros ke Hin. apply Hs; [exact Hin|left; reflexivity].
Qed.

(** X26. People whose ids can be hashed and are pairwise different come
    out of [merge_people] as they went in, in the same order. *)
Theorem merge_people_distinct (people_list : list dict) :
  Forall (fun p => hashable (person_id p) = true) people_list ->
  ForallOrdPairs (fun p q => py_eq (person_id p) (person_id q) = false)
                 people_list ->
  merge_people people_list = Done people_list.
Proof.
  intros Hh Hd. unfold merge_people.
  rewrite (@people_fold_distinct people_list [] Hh Hd) by (intros ke p []).
  cbn [app]. rewrite map_map. cbn [snd]. rewrite map_id. reflexivity.
Qed.

Definition ann : dict :=
  [(id_key, JStr (of_string "p_ann")); (of_string "name", JStr (of_string "ann"))].

Definition bob : dict :=
  [(id_key, JStr (of_string "p_bob")); (of_string "tags", JList [])].

Lemma merge_people_distinct_witness : merge_people [ann; bob] = Done [ann; bob].
Proof.
  apply merge_people_distinct.
  - repeat constructor.
  - repeat constructor.
Defined.

(** ** Lists are joined *)

Definition settled (l : list json) : Prop := dedupe l = l.

(** The items of [v] have gone into the list [L]. *)
Definition joined (v L : list json) : Prop :=
  incl v L \/ (settled L /\ forall x, In x v -> covers L x).

(** What has become of the list [v] of a person in the merged object,
    where the key now has the value [o]. *)
Definition good (v : list json) (o : option json) : Prop :=
  v = []
  \/ match o with
     | Some (JList L) => joined v L
     | Some w => truthy w = true
     | None => False
     end.

Definition lists_kept (p e : dict) : Prop :=
  forall key v, key <> id_key -> dict_get key p = Some (JList v) ->
    good v (dict_get key e).

Lemma joined_covers (v L : list json) (x : json) :
  joined v L -> In x v -> covers L x.
Proof.
  intros [H|[_ H]] Hx; [|apply H; exact Hx].
  exists x. split; [apply H; exact Hx|left; reflexivity].
Qed.

Lemma good_falsy (v : list json) (w : json) :
  good v (Some w) -> truthy w = false -> v = [].
Proof.
  intros [H|H] Hw; [exact H|].
  destruct w; try congruence. destruct l as [|a l]; [|discriminate].
  destruct v as [|x v]; [reflexivity|].
  destruct (@joined_covers (x :: v) [] x H (or_introl eq_refl)) as (y & [] & _).
Qed.

Lemma joined_dedupe (v L w : list json) :
  joined v L -> joined v (dedupe (L ++ w)).
Proof.
  intros H. right. split; [apply dedupe_idempotent|]. intros x Hx.
  destruct H as [H|[S H]].
  - apply dedupe_covers, in_or_app. left. apply H. exact Hx.
  - destruct (dedupe_prefix w S) as [more E]. rewrite E.
    destruct (H x Hx) as (y & Hy & Hyx). exists y.
    split; [apply in_or_app; left; exact Hy|exact Hyx].
Qed.

Lemma merge_item_other (existing : dict) (key k : str) (value : json) :
  k <> key -> dict_get k (merge_item existing (key, value)) = dict_get k existing.
Proof.
  intros H. unfold merge_item.
  destruct (str_eq_dec key id_key); [reflexivity|].
  assert (G : forall w, dict_get k (dict_set key w existing) = dict_get k existing).
  { intros w. apply dict_get_set_other. exact H. }
  destruct (dict_get key existing) as [existing_val|]; [|apply G].
  destruct value, existing_val;
    try (destruct (negb _ && _)%bool; [apply G|reflexivity]); apply G.
Qed.

Lemma good_merge_item (v : list json) (k : str) (existing : dict)
  (kv : str * json) :
  good v (dict_get k existing) -> good v (dict_get k (merge_item existing kv)).
Proof.
  intros H. destruct kv as [key value].
  destruct (str_eq_dec k key) as [->|E]; [|rewrite merge_item_other by exact E; exact H].
  unfold merge_item. destruct (str_eq_dec key id_key); [exact H|].
  destruct (dict_get key existing) as [existing_val|] eqn:G.
  - assert (R : truthy existing_val = false ->
                forall w, good v (dict_get key (dict_set key w existing))).
    { intros F w. left. apply (good_falsy H F). }
    destruct value, existing_val;
      try match goal with
          | |- context [if (negb (truthy ?a) && truthy ?b)%bool then _ else _] =>
              destruct (negb (truthy a) && truthy b)%bool eqn:B;
              [apply andb_true_iff in B; destruct B as [B _];
               apply negb_true_iff in B; apply R; exact B
              |rewrite G; exact H]
          end.
    + rewrite dict_get_set_same. destruct H as [H|H]; [left; exact H|right].
      apply joined_dedupe. exact H.
    + rewrite dict_get_set_same. destruct H as [H|H]; [left; exact H|right].
      cbn [truthy] in *. destruct d0 as [|a d0]; [discriminate|].
      pose proof (@merge_dict_nonempty (a :: d0) d ltac:(discriminate)) as N.
      destruct (merge_dict (a :: d0) d); [congruence|reflexivity].
  - left. destruct H as [H|[]]. exact H.
Qed.

Lemma good_merge_person (v : list json) (k : str) (person existing : dict) :
  good v (dict_get k existing) -> good v (dict_get k (merge_person existing person)).
Proof.
  unfold merge_person. revert existing.
  induction person as [|kv person IH]; intros existing H; cbn [fold_left];
    [exact H|]. apply IH, good_merge_item, H.
Qed.

Lemma good_after (v : list json) (key : str) (existing : dict) :
  key <> id_key -> good v (dict_get key (merge_item existing (key, JList v))).
Proof.
  intros Hk. unfold merge_item. destruct (str_eq_dec key id_key); [contradiction|].
  destruct (dict_get key existing) as [existing_val|] eqn:G.
  - assert (R : good v (dict_get key (dict_set key (JList v) existing))).
    { rewrite dict_get_set_same. right. left. apply incl_refl. }
    destruct existing_val;
      try match goal with
          | |- context [if (negb (truthy ?a) && truthy ?b)%bool then _ else _] =>
              destruct (negb (truthy a) && truthy b)%bool eqn:B;
              [exact R
              |rewrite G; apply andb_false_iff in B; destruct B as [B|B];
               [apply negb_false_iff in B; right; exact B
               |left; destruct v; [reflexivity|discriminate]]]
          end.
    rewrite dict_get_set_same. right. right.
    split; [apply dedupe_idempotent|]. intros x Hx.
    apply dedupe_covers, in_or_app. right. exact Hx.
  - rewrite dict_get_set_same. right. left. apply incl_refl.
Qed.

Lemma merge_person_lists (person existing : dict) :
  lists_kept person (merge_person existing person).
Proof.
  unfold lists_kept, merge_person. revert existing.
  induction person as [|[k0 v0] person IH]; intros existing key v Hk H;
    cbn [fold_left dict_get] in *; [discriminate|].
  destruct (str_eq_dec key k0) as [->|E].
  - injection H as ->. apply (@good_merge_person v k0 person), good_after, Hk.
  - apply IH; assumption.
Qed.

Lemma lists_kept_new (p : dict) : lists_kept p p.
Proof. intros key v _ H. rewrite H. right. left. apply incl_refl. Qed.

(** The merged person of an id is unique. *)
Lemma home_unique (seen : list (json * dict)) (k k' pid : json) (e e' : dict) :
  seen_ok seen -> hashable pid = true ->
  In (k, e) seen -> In (k', e') seen ->
  py_eq k pid = true -> py_eq k' pid = true -> e = e'.
Proof.
  intros [H1 H2] Hp Hin Hin' E E'. rewrite Forall_forall in H1.
  destruct (H1 _ Hin) as [_ Hk]. destruct (H1 _ Hin') as [_ Hk'].
  cbn [fst] in Hk, Hk'.
  assert (Ekk : py_eq k k' = true).
  { apply (@key_trans k pid k'); auto. apply key_sym; auto. }
  destruct (ForallOrdPairs_In H2 _ _ Hin Hin') as [Q|[Q|Q]].
  - congruence.
  - unfold other_id in Q. cbn [fst] in Q. congruence.
  - unfold other_id in Q. cbn [fst] in Q.
    rewrite (@key_sym k k' Hk Hk' Ekk) in Q. discriminate.
Qed.

(** X27. A list of a person is joined into the merged person: when person
    [p] has the list [v] under a key other than ['id'] and the merged
    person [r] of its id has a list under the key, every item of [v] is in
    that list or equal to one of its items; and when [v] is not empty, the
    merged person has a value under the key that is not empty (it is not a
    list when a non-empty value of another kind came first: the list is
    then dropped). *)
Theorem merge_people_lists (people_list out : list dict) (p r : dict)
  (key : str) (v : list json) :
  merge_people people_list = Done out ->
  In p people_list -> In r out ->
  py_eq (person_id r) (person_id p) = true ->
  key <> id_key -> dict_get key p = Some (JList v) ->
  (forall L, dict_get key r = Some (JList L) -> forall x, In x v -> covers L x)
  /\ (v <> [] -> exists w, dict_get key r = Some w /\ truthy w = true).
Proof.
  intros Hm Hp Hr Hid Hk Hv.
  pose proof (@people_fold lists_kept lists_kept_new
                (fun e q => merge_person_lists q e)
                (fun q e q' H key' v' Hk' Hv' =>
                   @good_merge_person v' key' q' e (H key' v' Hk' Hv'))
                people_list [] []
                (conj (Forall_nil _) (FOP_nil _)) (Forall_nil _) (le_n _)
                (fun k e H => match H with end)) as F.
  unfold merge_people in Hm.
  destruct (fold_left people_step people_list (Done [])) as [seen|]; [|discriminate].
  injection Hm as <-. destruct F as (F1 & F2 & _ & _ & F5). cbn [app] in *.
  rewrite Forall_forall in F2, F5.
  destruct (F2 p Hp) as (k & e & Hin & Ek & Hl).
  apply in_map_iff in Hr. destruct Hr as ([k' e'] & <- & Hin'). cbn [snd] in *.
  assert (Ee : person_id e' = k').
  { destruct F1 as [F1 _]. rewrite Forall_forall in F1. apply (F1 _ Hin'). }
  rewrite Ee in Hid.
  assert (E : e = e') by (eapply home_unique; eauto).
  subst e'. specialize (Hl key v Hk Hv). split.
  - intros L HL x Hx. rewrite HL in Hl. destruct Hl as [->|Hl]; [destruct Hx|].
    apply (@joined_covers v L x Hl Hx).
  - intros Hne. destruct Hl as [Hl|Hl]; [contradiction|].
    destruct (dict_get key e) as [w|]; [|destruct Hl]. exists w.
    split; [reflexivity|]. destruct w; try exact Hl.
    destruct v as [|x v]; [congruence|].
    destruct (@joined_covers (x :: v) l x Hl (or_introl eq_refl)) as (y & Hy & _).
    destruct l; [destruct Hy|reflexivity].
Qed.

Definition tag (s : string) : json := JStr (of_string s).

Definition ann_first : dict :=
  [(id_key, tag "p_ann"); (of_string "tags", JList [tag "pilot"])].

Definition ann_again : dict :=
  [(id_key, tag "p_ann"); (of_string "tags", JList [tag "pilot"; tag "donor"])].

Definition ann_merged : dict :=
  [(id_key, tag "p_ann"); (of_string "tags", JList [tag "pilot"; tag "donor"])].

Lemma merge_people_lists_witness :
  merge_people [ann_first; ann_again] = Done [ann_merged]
  /\ forall x, In x [tag "pilot"; tag "donor"] ->
       covers [tag "pilot"; tag "donor"] x.
Proof.
  assert (M : merge_people [ann_first; ann_again] = Done [ann_merged])
    by (vm_compute; reflexivity).
  split; [exact M|].
  assert (K : of_string "tags" <> id_key) by discriminate.
  destruct (@merge_people_lists [ann_first; ann_again] [ann_merged] ann_again
              ann_merged (of_string "tags") [tag "pilot"; tag "donor"] M
              (or_intror (or_introl eq_refl)) (or_introl eq_refl) eq_refl K
              eq_refl) as [H _].
  exact (H _ eq_refl).
Defined.

(** ** The loop that removes duplicates *)

Lemma other_kind (a b : json) : hashable a <> hashable b -> py_eq a b = false.
Proof. destruct a, b; cbn; intros H; congruence. Qed.

Lemma existsb_false {A : Type} (f : A -> bool) (l : list A) (x : A) :
  existsb f l = false -> In x l -> f x = false.
Proof.
  intros H Hx. destruct (f x) eqn:E; [|reflexivity].
  assert (C : existsb f l = true) by (apply existsb_exists; eauto). congruence.
Qed.

Lemma subseq_snoc_skip {A : Type} (k l : list A) (x : A) :
  subseq k l -> subseq k (l ++ [x]).
Proof.
  induction 1; cbn [app]; [repeat constructor|constructor|constructor]; assumption.
Qed.

Lemma subseq_snoc_keep {A : Type} (k l : list A) (x : A) :
  subseq k l -> subseq (k ++ [x]) (l ++ [x]).
Proof.
  induction 1; cbn [app]; [repeat constructor|constructor|constructor]; assumption.
Qed.

Lemma dedupe_fold_distinct (l : list json) :
  let st := fold_left dedupe_step l ([], []) in
  ForallOrdPairs (fun a b => py_eq a b = false) (snd st)
  /\ (forall y, In y (snd st) -> hashable y = true -> In y (fst st))
  /\ subseq (snd st) l.
Proof.
  induction l as [|x l IH] using rev_ind; cbv zeta.
  - cbn. repeat split; [constructor|tauto|constructor].
  - rewrite fold_left_app. cbn [fold_left]. cbv zeta in IH.
    destruct (fold_left dedupe_step l ([], [])) as [s d]. cbn [fst snd] in IH.
    destruct IH as (I1 & I2 & I3). unfold dedupe_step.
    assert (Keep : forall s', (forall y, In y d -> py_eq y x = false) ->
              (forall y, In y (d ++ [x]) -> hashable y = true -> In y s') ->
              ForallOrdPairs (fun a b => py_eq a b = false) (d ++ [x])
              /\ (forall y, In y (d ++ [x]) -> hashable y = true -> In y s')
              /\ subseq (d ++ [x]) (l ++ [x])).
    { intros s' H1 H2. split; [|split; [exact H2|apply subseq_snoc_keep, I3]].
      apply ForallOrdPairs_app. split; [exact I1|].
      split; [constructor; [constructor|constructor]|].
      intros a b Ha [<-|[]]. apply H1. exact Ha. }
    destruct (hashable x) eqn:Hx.
    + destruct (existsb (fun e => py_eq e x) s) eqn:Ex; cbn [fst snd].
      * split; [exact I1|]. split; [exact I2|]. apply subseq_snoc_skip, I3.
      * apply Keep.
        -- intros y Hy. destruct (hashable y) eqn:Hy'.
           ++ apply (existsb_false _ _ _ Ex). apply I2; assumption.
           ++ apply other_kind. congruence.
        -- intros y Hy Hy'. apply in_app_or in Hy. apply in_or_app.
           destruct Hy as [Hy|Hy]; [left; apply I2; assumption|right; exact Hy].
    + destruct (existsb (fun e => py_eq e x) d) eqn:Ex; cbn [fst snd].
      * split; [exact I1|]. split; [exact I2|]. apply subseq_snoc_skip, I3.
      * apply Keep.
        -- intros y Hy. apply (existsb_false _ _ _ Ex). exact Hy.
        -- intros y Hy Hy'. apply in_app_or in Hy.
           destruct Hy as [Hy|[<-|[]]]; [apply I2; assumption|congruence].
Qed.

(** X28. The loop of [merge_people] that removes the duplicates of a
    combined list keeps the first of the items that are equal: no two
    items of the result are equal, the result is the combined list with
    some items left out, every item of the combined list is in the result
    or equal to an item of it, and removing duplicates once more changes
    nothing. *)
Theorem dedupe_first_occurrences (combined : list json) :
  ForallOrdPairs (fun a b => py_eq a b = false) (dedupe combined)
  /\ subseq (dedupe combined) combined
  /\ (forall x, In x combined -> covers (dedupe combined) x)
  /\ dedupe (dedupe combined) = dedupe combined.
Proof.
  destruct (dedupe_fold_distinct combined) as (H1 & _ & H3).
  split; [exact H1|]. split; [exact H3|].
  split; [apply dedupe_covers|apply dedupe_idempotent].
Qed.

End PeopleFacts.

(* ================================================================== *)
(** * The fields of merged people *)

Module PeopleFields.
Import Py People MergingFacts PeopleFacts.

(** ** The loop over the people, with an invariant *)

Lemma people_fold_inv (Inv : list (json * dict) -> Prop) (l : list dict)
  (seen seen' : list (json * dict)) :
  (forall q s, In q l -> hashable (person_id q) = true -> seen_ok s -> Inv s ->
     Inv (add_person (person_id q) q s)) ->
  seen_ok seen -> Inv seen ->
  fold_left people_step l (Done seen) = Done seen' ->
  seen_ok seen' /\ Inv seen'.
Proof.
  revert seen. induction l as [|q l IH]; intros seen Hstep Hs Hi Hf;
    cbn [fold_left people_step] in Hf.
  - injection Hf as <-. auto.
  - destruct (hashable (person_id q)) eqn:Hq;
      [|rewrite people_fold_raised in Hf; discriminate].
    apply (IH (add_person (person_id q) q seen)).
    + intros q' s Hin. apply Hstep. right. exact Hin.
    + apply add_person_ok; assumption.
    + apply Hstep; auto. left. reflexivity.
    + exact Hf.
Qed.

Lemma people_fold_done (l : list dict) (st : attempt (list (json * dict)))
  (seen' : list (json * dict)) :
  fold_left people_step l st = Done seen' -> exists seen, st = Done seen.
Proof.
  destruct st as [seen|]; [eauto|]. rewrite people_fold_raised. discriminate.
Qed.

(** The merged person of the id of [p], when [R] holds of every person
    and the merged person it is in. *)
Lemma merged_person_of (R : dict -> dict -> Prop) (people_list out : list dict)
  (p r : dict) :
  (forall q, R q q) -> (forall e q, R q (merge_person e q)) ->
  (forall q e q', R q e -> R q (merge_person e q')) ->
  merge_people people_list = Done out ->
  In p people_list -> In r out ->
  py_eq (person_id r) (person_id p) = true ->
  R p r.
Proof.
  intros R1 R2 R3 Hm Hp Hr Hid.
  pose proof (@people_fold R R1 R2 R3 people_list [] []
                (conj (Forall_nil _) (FOP_nil _)) (Forall_nil _) (le_n _)
                (fun k e H => match H with end)) as F.
  unfold merge_people in Hm.
  destruct (fold_left people_step people_list (Done [])) as [seen|]; [|discriminate].
  injection Hm as <-. destruct F as (F1 & F2 & _ & _ & F5). cbn [app] in *.
  rewrite Forall_forall in F2, F5.
  destruct (F2 p Hp) as (k & e & Hin & Ek & Hl).
  apply in_map_iff in Hr. destruct Hr as ([k' e'] & <- & Hin'). cbn [snd] in *.
  assert (Ee : person_id e' = k').
  { destruct F1 as [F1 _]. rewrite Forall_forall in F1. apply (F1 _ Hin'). }
  rewrite Ee in Hid.
  assert (E : e = e') by (eapply home_unique; eauto).
  subst e'. exact Hl.
Qed.

(** ** Objects are joined key by key *)

Lemma merge_dict_get (v ev : dict) (sk : str) :
  dict_get sk (merge_dict ev v)
  = match dict_get sk ev with
    | Some w => Some w
    | None => dict_get sk v
    end.
Proof.
  unfold merge_dict. revert ev.
  induction v as [|[k w] v IH]; intros ev; cbn [fold_left fst snd dict_get].
  - destruct (dict_get sk ev); reflexivity.
  - rewrite IH. destruct (dict_get k ev) as [w0|] eqn:E.
    + destruct (dict_get sk ev) eqn:E'; [reflexivity|].
      destruct (str_eq_dec sk k) as [->|]; [congruence|reflexivity].
    + destruct (str_eq_dec sk k) as [->|N].
      * rewrite dict_get_set_same, E. reflexivity.
      * rewrite dict_get_set_other by exact N. reflexivity.
Qed.

(** What has become of the sub-key [sk] of an object of a person in the
    merged person, where the key now has the value [o]. *)
Definition sub_good (sk : str) (o : option json) : Prop :=
  match o with
  | Some (JDict D) => dict_get sk D <> None
  | Some w => truthy w = true
  | None => False
  end.

Definition dicts_kept (p e : dict) : Prop :=
  forall key v sk, key <> id_key -> dict_get key p = Some (JDict v) ->
    dict_get sk v <> None -> sub_good sk (dict_get key e).

Lemma sub_good_truthy (sk : str) (w : json) :
  sub_good sk (Some w) -> truthy w = true.
Proof.
  destruct w; cbn [sub_good]; auto. intros H. destruct d; [|reflexivity].
  cbn in H. congruence.
Qed.

Lemma dedupe_nonempty (l : list json) : l <> [] -> dedupe l <> [].
Proof.
  destruct l as [|x l]; [congruence|]. intros _ E.
  destruct (@dedupe_covers (x :: l) x (or_introl eq_refl)) as (y & Hy & _).
  rewrite E in Hy. destruct Hy.
Qed.

Lemma sub_good_merge_item (sk k : str) (existing : dict) (kv : str * json) :
  sub_good sk (dict_get k existing) ->
  sub_good sk (dict_get k (merge_item existing kv)).
Proof.
  intros H. destruct kv as [key value].
  destruct (str_eq_dec k key) as [->|E]; [|rewrite merge_item_other by exact E; exact H].
  unfold merge_item. destruct (str_eq_dec key id_key); [exact H|].
  destruct (dict_get key existing) as [existing_val|] eqn:G; [|destruct H].
  pose proof (@sub_good_truthy sk existing_val H) as T.
  destruct value, existing_val;
    try match goal with
        | |- context [if (negb (truthy ?a) && truthy ?b)%bool then _ else _] =>
            rewrite T; cbn [negb andb]; rewrite G; exact H
        end.
  - rewrite dict_get_set_same. cbn [sub_good truthy] in *.
    destruct l0 as [|a l0]; [discriminate|].
    pose proof (@dedupe_nonempty ((a :: l0) ++ l) ltac:(discriminate)) as N.
    destruct (dedupe ((a :: l0) ++ l)); [congruence|reflexivity].
  - rewrite dict_get_set_same. cbn [sub_good] in *. rewrite merge_dict_get.
    destruct (dict_get sk d0); [discriminate|congruence].
Qed.

Lemma sub_good_merge_person (sk k : str) (person existing : dict) :
  sub_good sk (dict_get k existing) ->
  sub_good sk (dict_get k (merge_person existing person)).
Proof.
  unfold merge_person. revert existing.
  induction person as [|kv person IH]; intros existing H; cbn [fold_left];
    [exact H|]. apply IH, sub_good_merge_item, H.
Qed.

Lemma sub_good_after (sk key : str) (v existing : dict) :
  key <> id_key -> dict_get sk v <> None ->
  sub_good sk (dict_get key (merge_item existing (key, JDict v))).
Proof.
  intros Hk Hv. unfold merge_item. destruct (str_eq_dec key id_key); [contradiction|].
  assert (Tv : truthy (JDict v) = true).
  { cbn. destruct v; [cbn in Hv; congruence|reflexivity]. }
  destruct (dict_get key existing) as [existing_val|] eqn:G.
  - assert (R : sub_good sk (dict_get key (dict_set key (JDict v) existing))).
    { rewrite dict_get_set_same. exact Hv. }
    destruct existing_val;
      try match goal with
          | |- context [if (negb (truthy ?a) && truthy ?b)%bool then _ else _] =>
              destruct (negb (truthy a) && truthy b)%bool eqn:B;
              [exact R
              |rewrite G; apply andb_false_iff in B; destruct B as [B|B];
               [apply negb_false_iff in B; exact B|congruence]]
          end.
    rewrite dict_get_set_same. cbn [sub_good]. rewrite merge_dict_get.
    destruct (dict_get sk d); [discriminate|exact Hv].
  - rewrite dict_get_set_same. exact Hv.
Qed.

Lemma merge_person_dicts (person existing : dict) :
  dicts_kept person (merge_person existing person).
Proof.
  unfold dicts_kept, merge_person. revert existing.
  induction person as [|[k0 v0] person IH]; intros existing key v sk Hk H Hs;
    cbn [fold_left dict_get] in *; [discriminate|].
  destruct (str_eq_dec key k0) as [->|E].
  - injection H as ->.
    apply (@sub_good_merge_person sk k0 person), sub_good_after; assumption.
  - eapply IH; eassumption.
Qed.

(** X29. The sub-keys of an object field are never lost: when person [p]
    has an object with the sub-key [sk] under a key other than ['id'], the
    merged person of its id has a value under the key that is not empty,
    and when this value is an object it has the sub-key [sk]. Where two
    objects are joined, the sub-keys of the first keep their values and
    those of the second that are new are added. *)
Theorem merge_people_dicts (people_list out : list dict) (p r : dict)
  (key sk : str) (v : dict) :
  merge_people people_list = Done out ->
  In p people_list -> In r out ->
  py_eq (person_id r) (person_id p) = true ->
  key <> id_key -> dict_get key p = Some (JDict v) -> dict_get sk v <> None ->
  (exists w, dict_get key r = Some w /\ truthy w = true)
  /\ (forall D, dict_get key r = Some (JDict D) -> dict_get sk D <> None)
  /\ (forall ev sub k,
        dict_get k (merge_dict ev sub)
        = match dict_get k ev with
          | Some w => Some w
          | None => dict_get k sub
          end).
Proof.
  intros Hm Hp Hr Hid Hk Hv Hs.
  assert (G : sub_good sk (dict_get key r)).
  { assert (D : dicts_kept p r).
    { apply (@merged_person_of dicts_kept people_list out p r); auto.
      - intros q key' v' sk' _ H' Hs'. rewrite H'. exact Hs'.
      - intros e q. apply merge_person_dicts.
      - intros q e q' H key' v' sk' Hk' Hv' Hs'.
        apply sub_good_merge_person. eapply H; eassumption. }
    eapply D; eassumption. }
  split; [|split].
  - destruct (dict_get key r) as [w|]; [|destruct G]. exists w.
    split; [reflexivity|]. eapply sub_good_truthy. exact G.
  - intros D HD. rewrite HD in G. exact G.
  - intros ev sub k. apply merge_dict_get.
Qed.

Definition ann_plain : dict :=
  [(id_key, tag "p_ann");
   (of_string "links", JDict [(of_string "site", tag "a.org")])].

Definition ann_more : dict :=
  [(id_key, tag "p_ann");
   (of_string "links", JDict [(of_string "site", tag "b.org");
                              (of_string "mail", tag "ann@a.org")])].

Definition ann_joined : dict :=
  [(id_key, tag "p_ann");
   (of_string "links", JDict [(of_string "site", tag "a.org");
                              (of_string "mail", tag "ann@a.org")])].

Lemma merge_people_dicts_witness :
  merge_people [ann_plain; ann_more] = Done [ann_joined]
  /\ exists w, dict_get (of_string "links") ann_joined = Some w /\ truthy w = true.
Proof.
  assert (M : merge_people [ann_plain; ann_more] = Done [ann_joined])
    by (vm_compute; reflexivity).
  split; [exact M|].
  assert (K : of_string "links" <> id_key) by discriminate.
  assert (S : dict_get (of_string "mail")
                [(of_string "site", tag "b.org"); (of_string "mail", tag "ann@a.org")]
              <> None) by (vm_compute; discriminate).
  exact (proj1 (@merge_people_dicts [ann_plain; ann_more] [ann_joined] ann_more
                  ann_joined (of_string "links") (of_string "mail") _ M
                  (or_intror (or_introl eq_refl)) (or_introl eq_refl) eq_refl K
                  eq_refl S)).
Defined.

(** ** The first value that is not empty stays *)

(** The key is absent from [e] or its value is empty. *)
Definition low (key : str) (e : dict) : Prop :=
  match dict_get key e with
  | None => True
  | Some w0 => truthy w0 = false
  end.

(** Every value that [q] has for the key is empty. *)
Definition all_low (key : str) (q : dict) : Prop :=
  forall w', In (key, w') q -> truthy w' = false.

Lemma dict_get_In (key : str) (d : dict) (w : json) :
  dict_get key d = Some w -> In (key, w) d.
Proof.
  induction d as [|[k v] d IH]; cbn [dict_get]; [discriminate|].
  destruct (str_eq_dec key k) as [->|E].
  - intros H. injection H as ->. left. reflexivity.
  - intros H. right. apply IH. exact H.
Qed.

Lemma low_self (key : str) (q : dict) : all_low key q -> low key q.
Proof.
  intros H. unfold low. destruct (dict_get key q) as [w|] eqn:E; [|exact I].
  apply H, dict_get_In, E.
Qed.

Lemma low_merge_item (key : str) (existing : dict) (kv : str * json) :
  low key existing -> (fst kv = key -> truthy (snd kv) = false) ->
  low key (merge_item existing kv).
Proof.
  intros H Hv. destruct kv as [k value]. cbn [fst snd] in Hv. unfold low.
  destruct (str_eq_dec key k) as [->|E]; [|rewrite merge_item_other by exact E; exact H].
  specialize (Hv eq_refl). unfold merge_item.
  destruct (str_eq_dec k id_key); [exact H|]. unfold low in H.
  destruct (dict_get k existing) as [existing_val|] eqn:G.
  - destruct value, existing_val;
      try match goal with
          | |- context [if (negb (truthy ?a) && truthy ?b)%bool then _ else _] =>
              rewrite Hv, andb_false_r, G; exact H
          end.
    + rewrite dict_get_set_same. cbn [truthy] in *.
      destruct l; [|discriminate]. destruct l0; [reflexivity|discriminate].
    + rewrite dict_get_set_same. cbn [truthy] in *.
      destruct d; [|discriminate]. destruct d0; [reflexivity|discriminate].
  - rewrite dict_get_set_same. exact Hv.
Qed.

Lemma low_merge_person (key : str) (q existing : dict) :
  low key existing -> all_low key q -> low key (merge_person existing q).
Proof.
  unfold merge_person. revert existing.
  induction q as [|[k v] q IH]; intros existing H Hq; cbn [fold_left]; [exact H|].
  apply IH.
  - apply low_merge_item; [exact H|]. cbn [fst snd]. intros ->.
    apply Hq. left. reflexivity.
  - intros w' Hin. apply Hq. right. exact Hin.
Qed.

Lemma stable_merge_item (key : str) (w : json) (existing : dict) (kv : str * json) :
  truthy w = true -> hashable w = true ->
  dict_get key existing = Some w ->
  dict_get key (merge_item existing kv) = Some w.
Proof.
  intros T Hw H. destruct kv as [k value].
  destruct (str_eq_dec key k) as [->|E]; [|rewrite merge_item_other by exact E; exact H].
  unfold merge_item. destruct (str_eq_dec k id_key); [exact H|]. rewrite H.
  destruct value, w; try discriminate;
    rewrite T; cbn [negb andb]; exact H.
Qed.

Lemma stable_merge_person (key : str) (w : json) (q existing : dict) :
  truthy w = true -> hashable w = true ->
  dict_get key existing = Some w ->
  dict_get key (merge_person existing q) = Some w.
Proof.
  intros T Hw. unfold merge_person. revert existing.
  induction q as [|kv q IH]; intros existing H; cbn [fold_left]; [exact H|].
  apply IH, stable_merge_item; assumption.
Qed.

Lemma set_merge_item (key : str) (w : json) (existing : dict) :
  key <> id_key -> truthy w = true -> hashable w = true -> low key existing ->
  dict_get key (merge_item existing (key, w)) = Some w.
Proof.
  intros Hk T Hw H. unfold merge_item, low in *.
  destruct (str_eq_dec key id_key); [contradiction|].
  destruct (dict_get key existing) as [existing_val|];
    [|apply dict_get_set_same].
  destruct w, existing_val; try discriminate;
    rewrite H, T; cbn [negb andb]; apply dict_get_set_same.
Qed.

Lemma set_merge_person (key : str) (w : json) (p existing : dict) :
  key <> id_key -> truthy w = true -> hashable w = true -> low key existing ->
  dict_get key p = Some w ->
  dict_get key (merge_person existing p) = Some w.
Proof.
  intros Hk T Hw. unfold merge_person. revert existing.
  induction p as [|[k0 v0] p IH]; intros existing H Hp;
    cbn [fold_left dict_get] in *; [discriminate|].
  destruct (str_eq_dec key k0) as [->|E].
  - injection Hp as ->.
    apply (@stable_merge_person k0 w p); auto. apply set_merge_item; assumption.
  - apply IH; [|exact Hp]. unfold low. rewrite merge_item_other by exact E. exact H.
Qed.

(** X30. For a field that is neither a list nor an object, the first
    value that is not empty wins: when person [p] has such a value [w]
    under a key other than ['id'], and every value that an earlier person
    of the same id has for the key is empty, the merged person of the id
    has exactly [w] under the key, whatever the later people have. *)
Theorem merge_people_first_value (pre post out : list dict) (p r : dict)
  (key : str) (w : json) :
  merge_people (pre ++ p :: post) = Done out ->
  In r out -> py_eq (person_id r) (person_id p) = true ->
  key <> id_key -> dict_get key p = Some w ->
  truthy w = true -> hashable w = true ->
  (forall q, In q pre -> py_eq (person_id q) (person_id p) = true ->
     all_low key q) ->
  dict_get key r = Some w.
Proof.
  intros Hm Hr Hid Hk Hp T Hw Hpre. unfold merge_people in Hm.
  destruct (fold_left people_step (pre ++ p :: post) (Done [])) as [seen3|] eqn:F;
    [|discriminate].
  injection Hm as <-. rewrite fold_left_app in F. cbn [fold_left] in F.
  destruct (people_fold_done _ _ F) as [seen2 F2].
  destruct (people_fold_done [p] _ F2) as [seen1 F1].
  rewrite F1 in F2, F. rewrite F2 in F. cbn [fold_left people_step] in F2.
  destruct (hashable (person_id p)) eqn:Hh; [|discriminate].
  injection F2 as <-.
  set (pid := person_id p) in *.
  (* the people before [p] *)
  assert (P1 : seen_ok seen1
               /\ forall k e, In (k, e) seen1 -> py_eq k pid = true -> low key e).
  { apply (@people_fold_inv
             (fun s => forall k e, In (k, e) s -> py_eq k pid = true -> low key e)
             pre [] seen1); [|split; constructor|intros k e []|exact F1].
    intros q s Hq Hhq [S1 S2] Hs k e Hin Ek. rewrite Forall_forall in S1.
    destruct (add_person_entries (person_id q) q s)
      as [(s1 & k' & e' & s2 & -> & E1 & _ & E)|[_ E]]; rewrite E in Hin.
    - apply in_app_or in Hin. destruct Hin as [Hin|[Hin|Hin]].
      + apply (Hs k e); [apply in_or_app; tauto|exact Ek].
      + injection Hin as <- <-.
        assert (Hk' : hashable k' = true).
        { apply (S1 (k', e')). apply in_or_app. right. left. reflexivity. }
        apply low_merge_person.
        * apply (Hs k' e'); [apply in_or_app; right; left; reflexivity|exact Ek].
        * apply Hpre; [exact Hq|].
          apply (@key_trans (person_id q) k' pid); auto. apply key_sym; auto.
      + apply (Hs k e); [apply in_or_app; right; right; exact Hin|exact Ek].
    - apply in_app_or in Hin. destruct Hin as [Hin|[Hin|[]]].
      + apply (Hs k e); assumption.
      + injection Hin as <- <-. apply low_self, Hpre; assumption. }
  destruct P1 as [S1 L1].
  (* [p] itself *)
  assert (P2 : exists k e, In (k, e) (add_person pid p seen1)
                 /\ py_eq k pid = true /\ dict_get key e = Some w).
  { destruct (add_person_entries pid p seen1)
      as [(s1 & k & e & s2 & -> & E1 & _ & ->)|[_ ->]].
    - exists k, (merge_person e p).
      split; [apply in_or_app; right; left; reflexivity|]. split; [exact E1|].
      apply set_merge_person; auto.
      apply (L1 k e); [apply in_or_app; right; left; reflexivity|exact E1].
    - exists pid, p. split; [apply in_or_app; right; left; reflexivity|].
      split; [apply key_refl; exact Hh|exact Hp]. }
  (* the people after [p] *)
  assert (P3 : seen_ok seen3
               /\ exists k e, In (k, e) seen3
                    /\ py_eq k pid = true /\ dict_get key e = Some w).
  { apply (@people_fold_inv
             (fun s => exists k e, In (k, e) s
                         /\ py_eq k pid = true /\ dict_get key e = Some w)
             post (add_person pid p seen1) seen3);
      [|apply add_person_ok; assumption|exact P2|exact F].
    intros q s Hq Hhq _ (k & e & Hin & Ek & He).
    destruct (add_person_entries (person_id q) q s)
      as [(s1 & k' & e' & s2 & -> & _ & _ & ->)|[_ ->]].
    - apply in_app_or in Hin. destruct Hin as [Hin|[Hin|Hin]].
      + exists k, e. split; [apply in_or_app; tauto|auto].
      + injection Hin as <- <-. exists k', (merge_person e' q).
        split; [apply in_or_app; right; left; reflexivity|]. split; [exact Ek|].
        apply stable_merge_person; assumption.
      + exists k, e. split; [apply in_or_app; right; right; exact Hin|auto].
    - exists k, e. split; [apply in_or_app; left; exact Hin|auto]. }
  destruct P3 as [S3 (k & e & Hin & Ek & He)].
  apply in_map_iff in Hr. destruct Hr as ([k' e'] & <- & Hin'). cbn [snd] in *.
  assert (Ee : person_id e' = k').
  { destruct S3 as [S3 _]. rewrite Forall_forall in S3. apply (S3 _ Hin'). }
  rewrite Ee in Hid.
  assert (E : e = e') by (eapply home_unique; eauto).
  subst e'. exact He.
Qed.

Definition cal_blank : dict :=
  [(id_key, tag "p_cal"); (of_string "name", tag "")].

Definition cal_named : dict :=
  [(id_key, tag "p_cal"); (of_string "name", tag "cal")].

Definition cal_other : dict :=
  [(id_key, tag "p_cal"); (of_string "name", tag "calvin")].

Definition cal_merged : dict :=
  [(id_key, tag "p_cal"); (of_string "name", tag "cal")].

Lemma merge_people_first_value_witness :
  merge_people ([cal_blank] ++ cal_named :: [cal_other]) = Done [cal_merged]
  /\ dict_get (of_string "name") cal_merged = Some (tag "cal").
Proof.
  assert (M : merge_people ([cal_blank] ++ cal_named :: [cal_other])
              = Done [cal_merged]) by (vm_compute; reflexivity).
  assert (K : of_string "name" <> id_key) by discriminate.
  split; [exact M|].
  apply (@merge_people_first_value [cal_blank] [cal_other] [cal_merged]
           cal_named cal_merged (of_string "name") (tag "cal") M
           (or_introl eq_refl) eq_refl K eq_refl eq_refl eq_refl).
  intros q [<-|[]] _ w' [E|[E|[]]]; [discriminate E|].
  injection E as <-. reflexivity.
Defined.

End PeopleFields.
